(* ===== verification/_CoqProject ===== *)
-Q . S2P
Prelude.v
Memory.v
Bytes.v
MemOp.v
StrCopy.v
StrSearch.v
Compare.v
Sequence.v
SearchAlg.v
Heap.v
Sort.v
Udp.v
UdpQueue.v
UdpPool.v
UdpSim.v
Https.v
NetErrors.v
HttpsPool.v
HttpsSim.v
Task.v
Allocator.v
AllocatorOk.v
