(* ===== verification/Prelude.v ===== *)
(** * YTL: a verification development

    YTL is a small C++ standard library: C strings, memory operations, a pool
    allocator, templates for the usual algorithms, tasks, a UDP connection
    pool and an HTTPS request pool.  The parts are independent of each other
    in the code, except inside a directory; what they share here is the way
    stateful code is written down.

    ** The modelling language

    A computation is a function from a state to an outcome ([res]): a value
    and a state ([Ok]), undefined behaviour ([Fault]: an access outside
    mapped memory, a null or dangling pointer, an index out of range, a
    precondition of a library call; or [std::terminate], where an exception
    leaves a [noexcept] function), or an iteration bound of the model that was
    too small ([NoFuel]).  A [Fault] stands for every way the C++ program may
    go wrong, so a theorem that a run is [Ok] includes that it is defined.
    Loops are [loop fuel body] and the [for] combinators below; [wp m Q s] is
    total correctness, and [wpf m F Q s] the same with the condition [F] under
    which the run may go wrong.  Unsigned integers are [Z] with [u8],
    [u16], [u32], [u64] at every operation that can wrap; [size_t] is 64 bits
    and words are little endian; [char] is signed ([schar]).

    ** Files

    - Prelude.v (this file): outcomes, [wp], loops and their rules,
      invariants of operations ([preserves]), machine integers, tactics.
    - Memory.v: the store of typed cells, a finite map from addresses; the
      list held by a range ([cells], [range]) and overwriting it ([blit]).
    - Bytes.v: the byte memory: words as eight bytes, byte-wise comparison,
      C strings ([cstr], and [cstrn] for bounded ones), [word_mapped].
    - MemOp.v: memory/src/mem_op.cpp.
    - StrCopy.v, StrSearch.v: string/src/string.cpp, lines 1-164 and 166-342.
    - Compare.v, Sequence.v, SearchAlg.v, Heap.v, Sort.v:
      algorithm/include/compare.inl; sequence.inl and numeric.inl;
      search.inl; heap.inl; sort.inl.  They are generic in the element type,
      given by the class [Cmp] of its operators; [CmpLaws] states the total
      preorder the ordering algorithms need, and [Z] is an instance.
    - Udp.v: network/include/udp.h and network/src/udp.cpp, over the class
      [Net] of system calls, with their documented behaviour ([NetLaws]).
      UdpQueue.v: the shared packet ring refines a window of eight packets,
      and what a failed [realloc] does to it.  UdpPool.v: the connection
      table, the operations on one connection and the reachable states.
      UdpSim.v: a concrete [Net] that satisfies [NetLaws], and runs of the
      theorems on it.
    - Https.v: network/include/https.h and network/src/https.cpp, over the
      class [Curl].  HttpsPool.v: requests, handles, the shared response
      vector, the reachable states, given [CurlLaws].  HttpsSim.v: a concrete
      libcurl and runs.  NetErrors.v: the texts of the errors of both.
    - Task.v: concurrency/include/task.h and concurrency/src/task.cpp.
      Section [Sequential] is the code as one thread of control sees it;
      Section [Interleaving] is [execute] and [cancel] as atomic steps of
      many threads.
    - Allocator.v, AllocatorOk.v: memory/include/memory.h lines 27-165 and
      memory/include/allocator.inl, at the default template arguments, over
      the class [Pages].

    Names are the source's, qualified by the file where two components share
    one ([Udp.create], [Https.create]; [Heap.sift_down], [Sort.sift_down]).
    Part of a function's body that is a definition of its own carries a
    comment with the statement it stands for.

    ** What the theorems show

    - Memory and strings ([memmove_correct], [memcpy_correct],
      [strlen_correct], [strcpy_correct], [strcmp_correct], [strlcat_correct],
      ...): each function against a list specification, for every alignment
      and path, with the whole final memory, so that nothing else is written.
      The word-at-a-time scans are safe in memory mapped by whole words.
    - Algorithms: sorting and heap operations give an order on the range and
      a permutation of it ([sort_correct], [partial_sort_correct],
      [nth_element_correct], [make_heap_correct], ...; [perm_on] is a
      bijection on the cells, which permutes the list of the range by
      [perm_on_Permutation]); the others a list
      equation ([rotate_correct], [lexicographical_compare_correct], ...).
    - UDP: [queue_packet_refines] and [try_flush_queue_refines] are
      refinements of the window; [send_correct], [recv_correct],
      [udp_create_correct], [close_correct] the contracts of the operations;
      [udp_reachable_ok] the invariant, and that all calls but [close] return,
      apart from sends that meet a slot of the ring whose block a failed
      [realloc] lost ([lost_slot_send] is such a run).
    - HTTPS: [https_create_correct], [response_correct], [finish_correct],
      [update_terminates], [https_reachable_ok].
    - Tasks: [spawn_correct], [cancel_correct], [defer_correct],
      [serial_exclusion].
    - Allocator: [find_free_bits_correct], [find_then_free],
      [header_roundtrip], [large_roundtrip], [tiny_cache_lifo],
      [size_class_table_correct], [alignment_correct].
    - Behaviour that differs from what the code seems to mean is stated as it
      is: [strnlen_overread], [strcmp_overread], [strcasecmp_never_equal],
      [strchr_high_missing], [lower_bound_wrong], [lower_bound_too_long],
      [upper_bound_overread], [partial_sort_zero], [close_diverges], [recv_from_all_skips],
      [responses_mix], [nested_spawn_deadlocks], [cancel_races],
      [mark_bits_free_two], [small_allocation_fails].
    - A theorem with hypotheses has a [_witness]: a run on a concrete state.

    ** Fuel

    A counted loop has one iteration more than its counter, and a loop over a
    heap one more than its size; these bounds are inside the definitions and
    the theorems show they are enough.  [quick_sort] has [num + 1] levels.
    Scans for a NUL take [fuel] as an argument, and any number larger than
    the length of the string is enough.  [close] takes the depth of its
    recursion: any number larger than the length of the chain of slots it
    closes ([close_chain]); in a cycle no number is ([close_diverges]).
    [Https.update] takes the iterations of its message loop: more than the
    messages left.

    ** What is not modelled

    The smart pointers of memory.h are only declared (smart_ptr.inl is
    empty); algorithm.h and string.h are prototypes; tests/test.cpp is an
    empty [main] and vendor/catch2 is third-party.  Exceptions of the standard
    containers when memory runs out and of the functions of tasks are left
    out; [malloc] and [realloc] may fail everywhere, and so may [operator new]
    in the allocator.  [std::string_view] arguments of [getaddrinfo] are passed
    as their bytes.  Memory orders of atomics are not distinguished: the steps
    of Task.v are sequentially consistent, also for the flag [serial], which
    in the code is a plain [bool] (see [step]), and the bitmaps of the
    allocator belong to one thread, where a weak exchange may still fail.  The
    block headers of the allocator keep their contents when their pages are
    unmapped.

    The rest of this file is the modelling language. *)

From stdpp Require Import base list numbers gmap.

#[global] Open Scope Z_scope.

(** ** Outcomes and the state monad *)

(** The outcome of running a piece of C++ code: a normal return, undefined
    behaviour (an access outside mapped memory, a precondition of a library
    call violated, ...) or [std::terminate], or an iteration bound of the model that was too
    small.  [NoFuel] is not a behaviour of the code: the theorems prove that
    the stated fuel is enough. *)
Inductive res (A : Type) : Type :=
| Ok (a : A)
| Fault
| NoFuel.
Arguments Ok {A} a.
Arguments Fault {A}.
Arguments NoFuel {A}.

Definition M (S A : Type) : Type := S -> res (A * S).

Definition ret {S A} (a : A) : M S A := fun s => Ok (a, s).

Definition bind {S A B} (m : M S A) (k : A -> M S B) : M S B :=
  fun s => match m s with
           | Ok (a, s') => k a s'
           | Fault => Fault
           | NoFuel => NoFuel
           end.

Definition fault {S A} : M S A := fun _ => Fault.
Definition gets {S A} (f : S -> A) : M S A := fun s => Ok (f s, s).
Definition modify {S} (f : S -> S) : M S unit := fun s => Ok (tt, f s).

Declare Scope prog_scope.
Delimit Scope prog_scope with prog.
Notation "'let!' x := m 'in' k" := (bind m (fun x => k))
  (at level 10, x binder, m at level 100, k at level 200,
   format "'[v' 'let!'  x  :=  m  'in' '/' k ']'") : prog_scope.
Notation "'do!' m 'in' k" := (bind m (fun _ => k))
  (at level 10, m at level 100, k at level 200,
   format "'[v' 'do!'  m  'in' '/' k ']'") : prog_scope.
#[global] Open Scope prog_scope.

(** ** Total correctness *)

(** [wp m Q s]: run from [s], the computation [m] returns normally, and the
    value and final state satisfy [Q]. *)
Definition wp {S A} (m : M S A) (Q : A -> S -> Prop) (s : S) : Prop :=
  match m s with
  | Ok (a, s') => Q a s'
  | _ => False
  end.

Lemma wp_ret {S A} (a : A) (Q : A -> S -> Prop) s : Q a s -> wp (ret a) Q s.
Proof. done. Qed.

Lemma wp_bind {S A B} (m : M S A) (k : A -> M S B) Q s :
  wp m (fun a s' => wp (k a) Q s') s -> wp (bind m k) Q s.
Proof. unfold wp, bind. by destruct (m s) as [[a s']| |]. Qed.

Lemma wp_bind_inv {S A B} (m : M S A) (k : A -> M S B) Q s :
  wp (bind m k) Q s -> wp m (fun a s' => wp (k a) Q s') s.
Proof. unfold wp, bind. by destruct (m s) as [[a s']| |]. Qed.

Lemma bind_bind {S A B C} (m : M S A) (k : A -> M S B) (h : B -> M S C) s :
  bind (bind m k) h s = bind m (fun a => bind (k a) h) s.
Proof. unfold bind. by destruct (m s) as [[a s']| |]. Qed.

Lemma bind_ret {S A B} (a : A) (k : A -> M S B) s : bind (ret a) k s = k a s.
Proof. done. Qed.

Lemma wp_gets {S A} (f : S -> A) (Q : A -> S -> Prop) s : Q (f s) s -> wp (gets f) Q s.
Proof. done. Qed.

Lemma wp_modify {S} (f : S -> S) (Q : unit -> S -> Prop) s :
  Q tt (f s) -> wp (modify f) Q s.
Proof. done. Qed.

Lemma wp_mono {S A} (m : M S A) (P Q : A -> S -> Prop) s :
  (forall a s', P a s' -> Q a s') -> wp m P s -> wp m Q s.
Proof. unfold wp. destruct (m s) as [[a s']| |]; auto. Qed.

Lemma wp_conj {S A} (m : M S A) (P Q : A -> S -> Prop) s :
  wp m P s -> wp m Q s -> wp m (fun a s' => P a s' /\ Q a s') s.
Proof. unfold wp. by destruct (m s) as [[a s']| |]. Qed.

(** A triple with a precise postcondition is an equation. *)
Lemma wp_eq {S A} (m : M S A) s a s' :
  wp m (fun b t => b = a /\ t = s') s <-> m s = Ok (a, s').
Proof.
  unfold wp. split.
  - by destruct (m s) as [[b t]| |]; [intros [-> ->]|..].
  - intros E. by rewrite E.
Qed.

Lemma wp_of_eq {S A} (m : M S A) s a s' (Q : A -> S -> Prop) :
  m s = Ok (a, s') -> Q a s' -> wp m Q s.
Proof. unfold wp. by intros ->. Qed.

Lemma wp_ext {S A} (m1 m2 : M S A) Q s : m1 s = m2 s -> wp m2 Q s -> wp m1 Q s.
Proof. unfold wp. by intros ->. Qed.

(** [wpf m F Q s]: the same for a computation that may go wrong: it returns
    with [Q], or [F] holds; the iteration bounds are enough either way. *)
Definition wpf {S A} (m : M S A) (F : Prop) (Q : A -> S -> Prop) (s : S) : Prop :=
  match m s with
  | Ok (a, s') => Q a s'
  | Fault => F
  | NoFuel => False
  end.

Lemma wpf_of_wp {S A} (m : M S A) F Q s : wp m Q s -> wpf m F Q s.
Proof. unfold wp, wpf. by destruct (m s) as [[a s']| |]. Qed.

Lemma wpf_bind {S A B} (m : M S A) (k : A -> M S B) F Q s :
  wpf m F (fun a s' => wpf (k a) F Q s') s -> wpf (bind m k) F Q s.
Proof. unfold wpf, bind. by destruct (m s) as [[a s']| |]. Qed.

Lemma wpf_bind_wp {S A B} (m : M S A) (k : A -> M S B) F Q s :
  wp m (fun a s' => wpf (k a) F Q s') s -> wpf (bind m k) F Q s.
Proof. intros Hm. by apply wpf_bind, wpf_of_wp. Qed.

Lemma wpf_mono {S A} (m : M S A) (F G : Prop) (P Q : A -> S -> Prop) s :
  (F -> G) -> (forall a s', P a s' -> Q a s') -> wpf m F P s -> wpf m G Q s.
Proof. unfold wpf. destruct (m s) as [[a s']| |]; auto. Qed.

(** The run itself may be assumed of the final state. *)
Lemma wpf_run {S A} (m : M S A) F (Q : A -> S -> Prop) s :
  wpf m F Q s -> wpf m F (fun a s' => m s = Ok (a, s') /\ Q a s') s.
Proof. unfold wpf. by destruct (m s) as [[a s']| |]. Qed.

(** ** Loops *)

(** [while] and [do] loops: the body gets the loop's local variables and
    either continues with their next values ([inl]) or leaves the loop with
    a result ([inr]). *)
Fixpoint loop {S L R} (fuel : nat) (body : L -> M S (L + R)) (l : L) : M S R :=
  match fuel with
  | O => fun _ => NoFuel
  | Datatypes.S fuel' =>
      let! x := body l in
      match x with
      | inl l' => loop fuel' body l'
      | inr r => ret r
      end
  end.

(** The invariant rule, with a variant that bounds the iterations. *)
Lemma wp_loop_var {S L R} (I : L -> S -> Prop) (V : L -> S -> nat)
    (body : L -> M S (L + R)) (Q : R -> S -> Prop) fuel l s :
  (forall l s, I l s ->
     wp (body l) (fun x s' => match x with
                              | inl l' => I l' s' /\ (V l' s' < V l s)%nat
                              | inr r => Q r s'
                              end) s) ->
  I l s -> (V l s < fuel)%nat -> wp (loop fuel body l) Q s.
Proof.
  intros Hbody. revert l s.
  induction fuel as [|fuel IH]; intros l s HI Hfuel; [lia|].
  cbn [loop]. apply wp_bind. eapply wp_mono; [|by apply Hbody].
  intros [l'|r] s'; cbn; [|done].
  intros [HI' HV]. apply IH; [done|lia].
Qed.

(** The common case: the variant depends on the local variables only. *)
Lemma wp_loop {S L R} (I : L -> S -> Prop) (V : L -> nat)
    (body : L -> M S (L + R)) (Q : R -> S -> Prop) fuel l s :
  (forall l s, I l s ->
     wp (body l) (fun x s' => match x with
                              | inl l' => I l' s' /\ (V l' < V l)%nat
                              | inr r => Q r s'
                              end) s) ->
  I l s -> (V l < fuel)%nat -> wp (loop fuel body l) Q s.
Proof. intros. by eapply (wp_loop_var I (fun l _ => V l)). Qed.

(** Two bodies that agree on the states an invariant allows give the same
    loop. *)
Lemma loop_ext {S L R} (I : L -> S -> Prop) (b1 b2 : L -> M S (L + R)) fuel l s :
  (forall l s, I l s -> b1 l s = b2 l s) ->
  (forall l s l' s', I l s -> b1 l s = Ok (inl l', s') -> I l' s') ->
  I l s -> loop fuel b1 l s = loop fuel b2 l s.
Proof.
  intros He Hp. revert l s. induction fuel as [|fuel IH]; intros l s HI; [done|].
  cbn [loop]. unfold bind. rewrite <- He by done.
  destruct (b1 l s) as [[[l'|r] s']| |] eqn:E; [|done..]. apply IH. by eapply Hp.
Qed.

(** [for (i = lo; i < hi; ++i)] with an accumulator and early exit. *)
Fixpoint for_n {S L R} (n : nat) (i : Z) (body : Z -> L -> M S (L + R)) (l : L)
  : M S (L + R) :=
  match n with
  | O => ret (inl l)
  | Datatypes.S n' =>
      let! x := body i l in
      match x with
      | inl l' => for_n n' (i + 1) body l'
      | inr r => ret (inr r)
      end
  end.

Definition for_up {S L R} (lo hi : Z) (body : Z -> L -> M S (L + R)) (l : L)
  : M S (L + R) := for_n (Z.to_nat (hi - lo)) lo body l.

(** [for (i = lo; i < hi; ++i)] whose body only acts on the state. *)
Definition for_ {S} (lo hi : Z) (body : Z -> M S unit) : M S unit :=
  do! for_up lo hi (fun i _ => do! body i in ret (inl tt : unit + Empty_set)) tt in
  ret tt.

(** [for (i = hi; i > lo; --i)]. *)
Definition for_down {S} (hi lo : Z) (body : Z -> M S unit) : M S unit :=
  for_ 0 (hi - lo) (fun k => body (hi - k)).

Lemma wp_for_up {S L R} (I : Z -> L -> S -> Prop) lo hi
    (body : Z -> L -> M S (L + R)) (Q : L + R -> S -> Prop) l s :
  I lo l s ->
  (forall i l s, lo <= i < hi -> I i l s ->
     wp (body i l) (fun x s' => match x with
                                | inl l' => I (i + 1) l' s'
                                | inr r => Q (inr r) s'
                                end) s) ->
  (forall l s, I (Z.max lo hi) l s -> Q (inl l) s) ->
  wp (for_up lo hi body l) Q s.
Proof.
  intros HI Hbody Hend. unfold for_up.
  assert (Hgo : forall n i l s, i + Z.of_nat n = Z.max lo hi -> lo <= i -> I i l s ->
                wp (for_n n i body l) Q s).
  { clear HI l s. induction n as [|n IH]; intros i l s Hn Hi HI; cbn [for_n].
    - apply wp_ret, Hend. by replace (Z.max lo hi) with i by lia.
    - apply wp_bind. eapply wp_mono; [|apply (Hbody i l s); [lia|done]].
      intros [l'|r] s'; cbn; [|done]. intros HI'. apply IH; [lia|lia|done]. }
  apply Hgo; [lia|lia|done].
Qed.

Lemma wp_for {S} (I : Z -> S -> Prop) lo hi (body : Z -> M S unit) (Q : unit -> S -> Prop) s :
  I lo s ->
  (forall i s, lo <= i < hi -> I i s -> wp (body i) (fun _ s' => I (i + 1) s') s) ->
  (forall s, I (Z.max lo hi) s -> Q tt s) ->
  wp (for_ lo hi body) Q s.
Proof.
  intros HI Hbody Hend. unfold for_. apply wp_bind.
  apply (wp_for_up (fun i _ s => I i s)).
  - done.
  - intros i _ s' Hi HI'. apply wp_bind. eapply wp_mono; [|by apply Hbody]. done.
  - intros _ s' HI'. apply wp_ret. auto.
Qed.

Lemma wp_for_down {S} (I : Z -> S -> Prop) hi lo (body : Z -> M S unit)
    (Q : unit -> S -> Prop) s :
  lo <= hi -> I hi s ->
  (forall i s, lo < i <= hi -> I i s -> wp (body i) (fun _ s' => I (i - 1) s') s) ->
  (forall s, I lo s -> Q tt s) ->
  wp (for_down hi lo body) Q s.
Proof.
  intros Hle HI Hbody Hend. apply (wp_for (fun k s => I (hi - k) s)).
  - by replace (hi - 0) with hi by lia.
  - intros k s' Hk HI'. eapply wp_mono; [|apply (Hbody (hi - k)); [lia|done]].
    intros [] t. by replace (hi - k - 1) with (hi - (k + 1)) by lia.
  - intros s'. rewrite Z.max_r by lia. replace (hi - (hi - lo)) with lo by lia. apply Hend.
Qed.

(** ** Invariants of operations *)

(** [m] keeps [P] whenever it returns.  Unlike [wp] this allows faults: it is
    what a state machine needs of its steps. *)
Definition preserves {S A} (P : S -> Prop) (m : M S A) : Prop :=
  forall s a s', P s -> m s = Ok (a, s') -> P s'.

Section Preserves.
Context {S : Type} (P : S -> Prop).

Lemma preserves_bind {A B} (m : M S A) (k : A -> M S B) :
  preserves P m -> (forall a, preserves P (k a)) -> preserves P (bind m k).
Proof.
  intros Hm Hk s b s' Hp. unfold bind. destruct (m s) as [[a s1]| |] eqn:E; [|done..].
  intros E2. eapply Hk; [|exact E2]. by eapply Hm.
Qed.

Lemma preserves_ret {A} (a : A) : preserves P (ret a).
Proof. intros s b s' Hp E. by injection E as _ <-. Qed.

Lemma preserves_gets {A} (f : S -> A) : preserves P (gets f).
Proof. intros s b s' Hp E. by injection E as _ <-. Qed.

Lemma preserves_fault {A} : preserves P (fault : M S A).
Proof. by intros s a s' _ ?. Qed.

Lemma preserves_modify f : (forall s, P s -> P (f s)) -> preserves P (modify f).
Proof. intros Hf s b s' Hp E. injection E as _ <-. auto. Qed.

Lemma preserves_wp {A} (m : M S A) :
  (forall s, P s -> wp m (fun _ s' => P s') s) -> preserves P m.
Proof. intros Hm s a s' Hp E. specialize (Hm s Hp). unfold wp in Hm. by rewrite E in Hm. Qed.

Lemma preserves_for_n {L R} n i (body : Z -> L -> M S (L + R)) l :
  (forall i l, preserves P (body i l)) -> preserves P (for_n n i body l).
Proof.
  intros Hb. revert i l. induction n as [|n IH]; intros i l; cbn [for_n]; [apply preserves_ret|].
  apply preserves_bind; [apply Hb|]. intros [l'|r]; [apply IH|apply preserves_ret].
Qed.

Lemma preserves_for lo hi (body : Z -> M S unit) :
  (forall i, preserves P (body i)) -> preserves P (for_ lo hi body).
Proof.
  intros Hb. apply preserves_bind; [|intros; apply preserves_ret]. apply preserves_for_n.
  intros i l. apply preserves_bind; [apply Hb|intros; apply preserves_ret].
Qed.

Lemma preserves_loop {L R} fuel (body : L -> M S (L + R)) l :
  (forall l, preserves P (body l)) -> preserves P (loop fuel body l).
Proof.
  intros Hb. revert l. induction fuel as [|fuel IH]; intros l; cbn [loop]; [by intros s a s' _ ?|].
  apply preserves_bind; [apply Hb|]. intros [l'|r]; [apply IH|apply preserves_ret].
Qed.

Lemma preserves_foldr {A B} (f : B -> M S A) (l : list B) :
  (forall x, preserves P (f x)) ->
  preserves P (fold_right (fun x k => do! f x in k) (ret tt) l).
Proof.
  intros Hf. induction l as [|x l IH]; cbn [fold_right]; [apply preserves_ret|].
  by apply preserves_bind.
Qed.

(** The same with a normal return: from every state of the invariant the
    computation returns, in a state of the invariant. *)
Definition total {A} (m : M S A) : Prop := forall s, P s -> wp m (fun _ s' => P s') s.

Lemma total_preserves {A} (m : M S A) : total m -> preserves P m.
Proof. apply preserves_wp. Qed.

Lemma total_ret {A} (a : A) : total (ret a).
Proof. intros s Hs. by apply wp_ret. Qed.

Lemma total_bind {A B} (m : M S A) (k : A -> M S B) :
  total m -> (forall a, total (k a)) -> total (bind m k).
Proof.
  intros Hm Hk s Hs. apply wp_bind. eapply wp_mono; [|by apply Hm]. intros a s' Hs'. by apply Hk.
Qed.

Lemma total_foldr {A B} (f : B -> M S A) (l : list B) :
  Forall (fun x => total (f x)) l ->
  total (fold_right (fun x k => do! f x in k) (ret tt) l).
Proof. induction 1; cbn [fold_right]; [apply total_ret|]. by apply total_bind. Qed.

Lemma total_for lo hi (body : Z -> M S unit) :
  (forall i, lo <= i < hi -> total (body i)) -> total (for_ lo hi body).
Proof.
  intros Hb s Hs. apply (wp_for (fun _ s => P s)); [done| |done].
  intros i s' Hi Hs'. by apply Hb.
Qed.
End Preserves.

(** ** Machine integers *)

(** Unsigned values at their width: [size_t] and [uint64_t] are [Z] in
    [0, 2^64); every operation of the code that can wrap is written with
    [u64]. *)
Definition wrap (w z : Z) : Z := z mod 2 ^ w.
Abbreviation u64 := (wrap 64).
Abbreviation u32 := (wrap 32).
Abbreviation u16 := (wrap 16).
Abbreviation u8 := (wrap 8).

#[global] Arguments wrap : simpl never.

Definition in_u (w z : Z) : Prop := 0 <= z < 2 ^ w.

Lemma wrap_small w z : in_u w z -> wrap w z = z.
Proof. apply Z.mod_small. Qed.

Lemma u64_small z : 0 <= z < 2 ^ 64 -> u64 z = z.
Proof. apply wrap_small. Qed.

Lemma wrap_range w z : 0 <= w -> in_u w (wrap w z).
Proof. intros. apply Z.mod_pos_bound, Z.pow_pos_nonneg; lia. Qed.

Lemma u64_opp z : 0 < z < 2 ^ 64 -> u64 (- z) = 2 ^ 64 - z.
Proof.
  intros H. unfold wrap. rewrite Z.mod_opp_l_nz; rewrite ?Z.mod_small; lia.
Qed.

Lemma land_ones_mod x k : 0 <= k -> Z.land x (2 ^ k - 1) = x mod 2 ^ k.
Proof. intros. rewrite <- Z.land_ones by done. f_equal. rewrite Z.ones_equiv. lia. Qed.

Lemma land_7 x : Z.land x 7 = x mod 8.
Proof. apply (land_ones_mod x 3). lia. Qed.

(** [char] is signed on the platforms the library targets: the byte value
    [b] promotes to this [int]. *)
Definition schar (b : Z) : Z := if b <? 128 then b else b - 256.

Lemma schar_inj a b : 0 <= a < 256 -> 0 <= b < 256 -> schar a = schar b -> a = b.
Proof.
  unfold schar. intros.
  destruct (Z.ltb_spec a 128), (Z.ltb_spec b 128); lia.
Qed.

(** ** Tactics and hints *)

Create HintDb ytl.
#[export] Hint Resolve wrap_range u64_small : ytl.

(** One step of symbolic execution of the structural constructs. *)
Ltac wp_step :=
  lazymatch goal with
  | |- wp (bind _ _) _ _ => apply wp_bind
  | |- wp (ret _) _ _ => apply wp_ret
  | |- wp (gets _) _ _ => apply wp_gets
  | |- wp (modify _) _ _ => apply wp_modify
  | |- wp (let (_, _) := ?x in _) _ _ => destruct x
  end.

(** Case analysis on a boolean comparison the program branches on. *)
Ltac wp_if :=
  match goal with
  | |- context [if ?x <? ?y then _ else _] => destruct (Z.ltb_spec x y)
  | |- context [if ?x <=? ?y then _ else _] => destruct (Z.leb_spec x y)
  | |- context [if ?x =? ?y then _ else _] => destruct (Z.eqb_spec x y)
  end.

(** [decided] proves a decidable proposition about closed terms by running
    its decision procedure. *)
Ltac decided := apply (bool_decide_unpack _); vm_compute; exact I.
