(* ===== verification/Memory.v ===== *)
(** * Memory of typed cells

    The store every component works on: a finite map from addresses to
    values.  A pointer [T *p] is an address and [p[i]] is the cell [p + i];
    touching an unmapped cell is undefined behaviour.  The byte memory of the
    string and memory components is the instance [T := Z] with values in
    [0, 256); the arrays of the template algorithms are any [T]. *)

From stdpp Require Import base list numbers gmap.
From S2P Require Import Prelude.

Abbreviation mem T := (gmap Z T).

Section Cells.
Context {T : Type}.
Implicit Types (m : mem T) (p q : Z) (l : list T).

Definition load (p : Z) : M (mem T) T :=
  fun m => match m !! p with Some v => Ok (v, m) | None => Fault end.

Definition store (p : Z) (v : T) : M (mem T) unit :=
  fun m => match m !! p with Some _ => Ok (tt, <[p:=v]> m) | None => Fault end.

(** [n] cells from [p] are mapped. *)
Definition mapped m p (n : Z) : Prop := forall a, p <= a < p + n -> is_Some (m !! a).

(** The cells from [p] hold the list [l]. *)
Definition cells m p l : Prop :=
  forall i v, l !! i = Some v -> m !! (p + Z.of_nat i) = Some v.

(** Overwriting the cells from [p] with [l]. *)
Fixpoint blit m p l : mem T :=
  match l with
  | [] => m
  | v :: l => blit (<[p:=v]> m) (p + 1) l
  end.

Lemma wp_load p m v (Q : T -> mem T -> Prop) :
  m !! p = Some v -> Q v m -> wp (load p) Q m.
Proof. unfold wp, load. by intros ->. Qed.

Lemma bind_load {A} p v (k : T -> M (mem T) A) m :
  m !! p = Some v -> bind (load p) k m = k v m.
Proof. unfold bind, load. by intros ->. Qed.

Lemma wp_store p v m (Q : unit -> mem T -> Prop) :
  is_Some (m !! p) -> Q tt (<[p:=v]> m) -> wp (store p v) Q m.
Proof. unfold wp, store. by intros [x ->]. Qed.

Lemma mapped_insert m p n a v : mapped m p n -> mapped (<[a:=v]> m) p n.
Proof. intros H b Hb. apply lookup_insert_is_Some'. right. by apply H. Qed.

Lemma mapped_sub m p n q k : mapped m p n -> p <= q -> q + k <= p + n -> mapped m q k.
Proof. intros H ?? a ?. apply H. lia. Qed.

Lemma cells_nil m p : cells m p [].
Proof. by intros i v ?. Qed.

Lemma cells_cons m p v l : cells m p (v :: l) <-> m !! p = Some v /\ cells m (p + 1) l.
Proof.
  split.
  - intros H. split.
    + rewrite <- (Z.add_0_r p). by apply (H 0%nat).
    + intros i w Hi. replace (p + 1 + Z.of_nat i) with (p + Z.of_nat (S i)) by lia.
      by apply H.
  - intros [H1 H2] [|i] w Hi; cbn in Hi; simplify_eq.
    + by rewrite Z.add_0_r.
    + replace (p + Z.of_nat (S i)) with (p + 1 + Z.of_nat i) by lia. by apply H2.
Qed.

Lemma cells_app m p l1 l2 :
  cells m p (l1 ++ l2) <-> cells m p l1 /\ cells m (p + Z.of_nat (length l1)) l2.
Proof.
  revert p. induction l1 as [|v l1 IH]; intros p; cbn [app length].
  - rewrite Z.add_0_r. split; [split; [apply cells_nil|done]|by intros [_ ?]].
  - rewrite !cells_cons, IH.
    replace (p + 1 + Z.of_nat (length l1)) with (p + Z.of_nat (S (length l1))) by lia.
    tauto.
Qed.

Lemma cells_lookup m p l i v :
  cells m p l -> l !! i = Some v -> m !! (p + Z.of_nat i) = Some v.
Proof. intros H. apply H. Qed.

Lemma cells_mapped m p l : cells m p l -> mapped m p (Z.of_nat (length l)).
Proof.
  intros H a Ha. destruct (lookup_lt_is_Some_2 l (Z.to_nat (a - p))) as [v Hv]; [lia|].
  exists v. apply H in Hv. rewrite <- Hv. f_equal. lia.
Qed.

Lemma cells_inj m p l1 l2 :
  cells m p l1 -> cells m p l2 -> length l1 = length l2 -> l1 = l2.
Proof.
  intros H1 H2 Hl. apply list_eq. intros i.
  destruct (l1 !! i) as [v|] eqn:E1.
  - destruct (lookup_lt_is_Some_2 l2 i) as [w E2].
    { rewrite <- Hl. by eapply lookup_lt_Some. }
    rewrite E2. apply H1 in E1. apply H2 in E2. congruence.
  - symmetry. apply lookup_ge_None. rewrite <- Hl. by apply lookup_ge_None.
Qed.

Lemma blit_app m p l1 l2 :
  blit m p (l1 ++ l2) = blit (blit m p l1) (p + Z.of_nat (length l1)) l2.
Proof.
  revert m p. induction l1 as [|v l1 IH]; intros m p; cbn [app blit length].
  - by rewrite Z.add_0_r.
  - rewrite IH. f_equal. lia.
Qed.

Lemma blit_lookup_out m p l a :
  a < p \/ p + Z.of_nat (length l) <= a -> blit m p l !! a = m !! a.
Proof.
  revert m p. induction l as [|v l IH]; intros m p H; cbn [blit length] in *; [done|].
  rewrite IH by lia. rewrite lookup_insert_ne by lia. done.
Qed.

Lemma blit_cells m p l : cells (blit m p l) p l.
Proof.
  revert m p. induction l as [|v l IH]; intros m p; cbn [blit]; [apply cells_nil|].
  apply cells_cons. split; [|apply IH].
  rewrite blit_lookup_out by lia. apply lookup_insert_eq.
Qed.

Lemma blit_lookup_in m p l a v :
  p <= a -> l !! Z.to_nat (a - p) = Some v -> blit m p l !! a = Some v.
Proof.
  intros Ha Hv. replace a with (p + Z.of_nat (Z.to_nat (a - p))) by lia.
  by apply blit_cells.
Qed.

Lemma blit_is_Some m p l a : is_Some (m !! a) -> is_Some (blit m p l !! a).
Proof.
  revert m p. induction l as [|v l IH]; intros m p H; cbn [blit]; [done|].
  apply IH, lookup_insert_is_Some'. by right.
Qed.

Lemma blit_mapped m p l q n : mapped m q n -> mapped (blit m p l) q n.
Proof. intros H a Ha. by apply blit_is_Some, H. Qed.

Lemma blit_cells_out m p l q l' :
  cells m q l' ->
  q + Z.of_nat (length l') <= p \/ p + Z.of_nat (length l) <= q ->
  cells (blit m p l) q l'.
Proof.
  intros H Hd i v Hi. pose proof (lookup_lt_Some _ _ _ Hi).
  rewrite blit_lookup_out by lia. by apply H.
Qed.

Lemma blit_insert_out m p l a v :
  a < p \/ p + Z.of_nat (length l) <= a -> blit (<[a:=v]> m) p l = <[a:=v]> (blit m p l).
Proof.
  revert m p. induction l as [|w l IH]; intros m p H; cbn [blit length] in *; [done|].
  rewrite <- IH by lia. f_equal. apply insert_insert_ne. lia.
Qed.

(** Writing a list from its end. *)
Lemma blit_app_rev m p l1 l2 :
  blit m p (l1 ++ l2) = blit (blit m (p + Z.of_nat (length l1)) l2) p l1.
Proof.
  revert m p. induction l1 as [|v l1 IH]; intros m p; cbn [app blit length].
  - by rewrite Z.add_0_r.
  - rewrite IH, <- blit_insert_out by lia. f_equal. f_equal. lia.
Qed.

Lemma blit_id m p l : cells m p l -> blit m p l = m.
Proof.
  revert p. induction l as [|v l IH]; intros p H; cbn [blit]; [done|].
  apply cells_cons in H as [Hv H]. rewrite insert_id by done. by apply IH.
Qed.

(** The list held by [n] cells from [p] (unmapped cells are skipped). *)
Definition range m p (n : Z) : list T :=
  omap (fun i => m !! i) (seqZ p n).

Lemma range_cells m p n : mapped m p n -> cells m p (range m p n).
Proof.
  unfold range. intros H i v.
  assert (Hgo : forall (l : list Z), (forall a, a ∈ l -> is_Some (m !! a)) ->
                forall i, omap (fun i => m !! i) l !! i = (l !! i ≫= fun a => m !! a)).
  { induction l as [|a l IH]; intros Hl [|j]; cbn; try done;
      destruct (Hl a) as [w E]; try (by left); rewrite E; cbn; [done|].
    rewrite IH; [done|]. intros b Hb. apply Hl. by right. }
  rewrite Hgo by (intros a Ha%elem_of_seqZ; apply H; lia).
  destruct (seqZ p n !! i) as [a|] eqn:E; cbn; [|done].
  apply lookup_seqZ in E as [-> ?]. done.
Qed.

Lemma range_length m p n : mapped m p n -> length (range m p n) = Z.to_nat n.
Proof.
  unfold range. intros H. rewrite <- (length_seqZ p n).
  assert (Hl : forall a, a ∈ seqZ p n -> is_Some (m !! a)).
  { intros a Ha%elem_of_seqZ. apply H. lia. }
  clear H. revert Hl. generalize (seqZ p n). induction l as [|a l IH]; intros Hl; cbn; [done|].
  destruct (Hl a) as [w E]; [by left|]. rewrite E; cbn. f_equal. apply IH.
  intros b Hb. apply Hl. by right.
Qed.

Lemma cells_range m p l : cells m p l -> range m p (Z.of_nat (length l)) = l.
Proof.
  intros H. pose proof (cells_mapped _ _ _ H).
  apply (cells_inj m p); [by apply range_cells|done|].
  rewrite range_length by done. lia.
Qed.

(** The predicates on concrete stores are decided by computation. *)
Lemma mapped_seqZ m p n : mapped m p n <-> Forall (fun a => is_Some (m !! a)) (seqZ p n).
Proof.
  unfold mapped. rewrite Forall_forall. setoid_rewrite elem_of_seqZ. done.
Qed.

#[export] Instance mapped_dec m p n : Decision (mapped m p n).
Proof.
  refine (cast_if (decide (Forall (fun a => is_Some (m !! a)) (seqZ p n))));
    by rewrite mapped_seqZ.
Defined.

#[export] Instance cells_dec `{!EqDecision T} m p l : Decision (cells m p l).
Proof.
  revert p. induction l as [|v l IH]; intros p; [left; apply cells_nil|].
  refine (cast_if_and (decide (m !! p = Some v)) (IH (p + 1)));
    rewrite cells_cons; tauto.
Defined.
End Cells.
