(* ===== verification/Bytes.v ===== *)
(** * Byte memory, machine words and C strings

    The byte-addressed instance of the store: [mem Z] with values in
    [0, 256).  An aligned or unaligned [size_t] access reads or writes the
    eight bytes from its address, least significant byte first. *)

From stdpp Require Import base list numbers gmap.
From S2P Require Import Prelude Memory.

Definition byte_ok (b : Z) : Prop := 0 <= b < 256.
Definition bytes_ok (m : mem Z) : Prop := forall a b, m !! a = Some b -> byte_ok b.

(** ** Words *)

(** The value of a little-endian byte list and the [n] bytes of a word. *)
Fixpoint le_word (l : list Z) : Z :=
  match l with
  | [] => 0
  | b :: l => b + 256 * le_word l
  end.

Fixpoint word_bytes (n : nat) (w : Z) : list Z :=
  match n with
  | O => []
  | S n => w mod 256 :: word_bytes n (w / 256)
  end.

Fixpoint load_bytes (n : nat) (p : Z) : M (mem Z) (list Z) :=
  match n with
  | O => ret []
  | S n => let! b := load p in let! l := load_bytes n (p + 1) in ret (b :: l)
  end.

Fixpoint store_bytes (p : Z) (l : list Z) : M (mem Z) unit :=
  match l with
  | [] => ret tt
  | b :: l => do! store p b in store_bytes (p + 1) l
  end.

(** [*reinterpret_cast<size_t *>(p)] as a value and as an assignment. *)
Definition load64 (p : Z) : M (mem Z) Z := let! l := load_bytes 8 p in ret (le_word l).
Definition store64 (p w : Z) : M (mem Z) unit := store_bytes p (word_bytes 8 w).

(** [*p = static_cast<uint8_t>(v)]. *)
Definition store8 (p v : Z) : M (mem Z) unit := store p (u8 v).

Lemma u8_byte b : byte_ok b -> u8 b = b.
Proof. intros. by apply wrap_small. Qed.

Lemma length_word_bytes n w : length (word_bytes n w) = n.
Proof. revert w. induction n; intros; cbn; auto. Qed.

Lemma word_bytes_le_word l : Forall byte_ok l -> word_bytes (length l) (le_word l) = l.
Proof.
  induction 1 as [|b l Hb Hl IH]; cbn; [done|]. unfold byte_ok in Hb. f_equal.
  - rewrite (Z.mul_comm 256), Z_mod_plus_full. by apply Z.mod_small.
  - rewrite (Z.mul_comm 256), Z.div_add by lia. by rewrite Z.div_small.
Qed.

Lemma le_word_inj l1 l2 :
  length l1 = length l2 -> Forall byte_ok l1 -> Forall byte_ok l2 ->
  le_word l1 = le_word l2 -> l1 = l2.
Proof.
  intros Hl H1 H2 E. rewrite <- (word_bytes_le_word l1), <- (word_bytes_le_word l2) by done.
  by rewrite Hl, E.
Qed.

Lemma le_word_bound l : Forall byte_ok l -> 0 <= le_word l < 256 ^ Z.of_nat (length l).
Proof.
  induction 1 as [|b l Hb Hl IH]; cbn [le_word length]; [done|].
  unfold byte_ok in Hb. rewrite Nat2Z.inj_succ, Z.pow_succ_r by lia. lia.
Qed.

Lemma le_word_app l1 l2 :
  le_word (l1 ++ l2) = le_word l1 + 256 ^ Z.of_nat (length l1) * le_word l2.
Proof.
  induction l1 as [|b l1 IH]; cbn [app le_word length]; [by rewrite Z.pow_0_r; lia|].
  rewrite IH, Nat2Z.inj_succ, Z.pow_succ_r by lia. lia.
Qed.

Lemma wp_load_bytes n p m l (Q : list Z -> mem Z -> Prop) :
  cells m p l -> length l = n -> Q l m -> wp (load_bytes n p) Q m.
Proof.
  revert n p Q. induction l as [|b l IH]; intros n p Q Hc <- HQ; cbn.
  - by apply wp_ret.
  - apply cells_cons in Hc as [Hb Hc].
    apply wp_bind, (wp_load _ _ b); [done|]. apply wp_bind. by eapply IH.
Qed.

Lemma wp_store_bytes p l m (Q : unit -> mem Z -> Prop) :
  mapped m p (Z.of_nat (length l)) -> Q tt (blit m p l) -> wp (store_bytes p l) Q m.
Proof.
  revert p m. induction l as [|b l IH]; intros p m Hm HQ; cbn [store_bytes].
  - by apply wp_ret.
  - cbn [length] in Hm. apply wp_bind, wp_store; [apply Hm; lia|]. apply IH; [|done].
    apply mapped_insert. eapply mapped_sub; [done|lia|lia].
Qed.

Lemma wp_load64 p m l (Q : Z -> mem Z -> Prop) :
  cells m p l -> length l = 8%nat -> Q (le_word l) m -> wp (load64 p) Q m.
Proof.
  intros. apply wp_bind. eapply wp_load_bytes; [done|done|]. by apply wp_ret.
Qed.

Lemma wp_store64 p l m (Q : unit -> mem Z -> Prop) :
  length l = 8%nat -> Forall byte_ok l -> mapped m p 8 -> Q tt (blit m p l) ->
  wp (store64 p (le_word l)) Q m.
Proof.
  intros Hl Hb Hm HQ. unfold store64. rewrite <- Hl, word_bytes_le_word by done.
  apply wp_store_bytes; [by rewrite Hl|done].
Qed.

(** Eight mapped bytes are a word of some eight byte values. *)
Lemma mapped_cells m p n :
  bytes_ok m -> mapped m p n -> cells m p (range m p n) /\ Forall byte_ok (range m p n).
Proof.
  intros Hb Hm. pose proof (range_cells _ _ _ Hm) as Hc. split; [done|].
  apply Forall_lookup. intros i b Hi. eapply Hb, Hc, Hi.
Qed.

Lemma bytes_ok_blit m p l : bytes_ok m -> Forall byte_ok l -> bytes_ok (blit m p l).
Proof.
  intros Hm Hl. revert m p Hm. induction Hl as [|b l Hb Hl IH]; intros m p Hm; cbn; [done|].
  apply IH. intros a c. rewrite lookup_insert. case_decide; [by intros [= <-]|apply Hm].
Qed.

(** ** Bits of words *)

Lemma testbit_low a b i : 0 <= i < 8 -> Z.testbit (a + 256 * b) i = Z.testbit a i.
Proof.
  intros Hi. rewrite <- (Z.mod_pow2_bits_low (a + 256 * b) 8), <- (Z.mod_pow2_bits_low a 8) by lia.
  f_equal. change (2 ^ 8) with 256. by rewrite (Z.mul_comm 256), Z_mod_plus_full.
Qed.

Lemma testbit_high a b i k :
  0 <= a < 2 ^ k -> 0 <= i -> 0 <= k -> Z.testbit (a + 2 ^ k * b) (i + k) = Z.testbit b i.
Proof.
  intros Ha Hi Hk. rewrite <- Z.div_pow2_bits by lia. f_equal.
  rewrite (Z.mul_comm (2 ^ k)), Z.div_add by lia. by rewrite Z.div_small.
Qed.

(** Bit [8 i + r] of a word is bit [r] of its byte [i]. *)
Lemma le_word_testbit l i b r :
  Forall byte_ok l -> l !! i = Some b -> 0 <= r < 8 ->
  Z.testbit (le_word l) (8 * Z.of_nat i + r) = Z.testbit b r.
Proof.
  revert i. induction l as [|c l IH]; intros i Hl Hi Hr; [done|].
  apply Forall_cons in Hl as [Hc Hl]. cbn [le_word]. unfold byte_ok in Hc.
  destruct i as [|i]; cbn in Hi; simplify_eq.
  - rewrite Z.mul_0_r, Z.add_0_l. by apply testbit_low.
  - replace (8 * Z.of_nat (S i) + r) with (8 * Z.of_nat i + r + 8) by lia.
    rewrite (testbit_high c (le_word l) _ 8) by lia. by apply IH.
Qed.

Lemma le_word_testbit_out l n :
  Forall byte_ok l -> 8 * Z.of_nat (length l) <= n -> Z.testbit (le_word l) n = false.
Proof.
  intros Hl Hn. pose proof (le_word_bound _ Hl) as Hb.
  rewrite <- (Z.mod_small (le_word l) (2 ^ n)); [by apply Z.mod_pow2_bits_high; lia|].
  split; [lia|]. eapply Z.lt_le_trans; [apply Hb|].
  change 256 with (2 ^ 8). rewrite <- Z.pow_mul_r by lia. apply Z.pow_le_mono_r; lia.
Qed.

(** ** Byte-wise comparison *)

(** The difference of the first two bytes that differ, 0 when there is none. *)
Fixpoint cmp_bytes (l1 l2 : list Z) : Z :=
  match l1, l2 with
  | a :: l1, b :: l2 => if a =? b then cmp_bytes l1 l2 else a - b
  | _, _ => 0
  end.

Lemma cmp_bytes_app l k1 k2 : cmp_bytes (l ++ k1) (l ++ k2) = cmp_bytes k1 k2.
Proof. induction l as [|a l IH]; cbn; [done|]. by rewrite Z.eqb_refl. Qed.

Lemma cmp_bytes_diff l1 l2 i a b :
  take i l1 = take i l2 -> l1 !! i = Some a -> l2 !! i = Some b -> a <> b ->
  cmp_bytes l1 l2 = a - b.
Proof.
  revert l1 l2. induction i as [|i IH]; intros [|x l1] [|y l2]; cbn; intros; simplify_eq.
  - by destruct (Z.eqb_spec a b).
  - rewrite Z.eqb_refl. by apply IH.
Qed.

(** [cmp_bytes] is zero on equal lists only, and otherwise the difference at
    the first position where they differ. *)
Lemma cmp_bytes_spec l1 l2 :
  length l1 = length l2 ->
  (l1 = l2 /\ cmp_bytes l1 l2 = 0) \/
  (exists i a b, take i l1 = take i l2 /\ l1 !! i = Some a /\ l2 !! i = Some b /\
                 a <> b /\ cmp_bytes l1 l2 = a - b).
Proof.
  revert l2. induction l1 as [|a l1 IH]; intros [|b l2] Hl; cbn in *; try lia; [by left|].
  destruct (Z.eqb_spec a b) as [->|Hne].
  - destruct (IH l2) as [[-> ->]|(i & x & y & Ht & H1 & H2 & Hne & ->)]; [lia|by left|].
    right. exists (S i), x, y. cbn. by rewrite Ht.
  - right. exists 0%nat, a, b. done.
Qed.

(** ** C strings *)

(** The bytes from [p] are the non-NUL bytes [l] and then a NUL. *)
Definition cstr (m : mem Z) (p : Z) (l : list Z) : Prop :=
  cells m p (l ++ [0]) /\ Forall (fun b => 1 <= b < 256) l.

(** Memory is mapped in units that are multiples of an aligned word: if one
    byte of an aligned word is mapped, all eight are.  Pages are, and the
    word-at-a-time scans of the library rely on it. *)
Definition word_mapped (m : mem Z) : Prop :=
  forall a, is_Some (m !! a) -> mapped m (8 * (a / 8)) 8.

Lemma cstr_cons m p b l :
  cstr m p (b :: l) <-> m !! p = Some b /\ 1 <= b < 256 /\ cstr m (p + 1) l.
Proof.
  unfold cstr. cbn [app]. rewrite cells_cons, Forall_cons. tauto.
Qed.

Lemma cstr_nil m p : cstr m p [] <-> m !! p = Some 0.
Proof.
  unfold cstr. cbn [app]. rewrite cells_cons.
  split; [by intros [[? _] _]|]. intros; repeat split; [done|apply cells_nil|constructor].
Qed.

Lemma cstr_lookup m p l i b :
  cstr m p l -> l !! i = Some b -> m !! (p + Z.of_nat i) = Some b /\ 1 <= b < 256.
Proof.
  intros [Hc Hb] Hi. split; [|by eapply Forall_lookup_1 in Hb; [exact Hb|]].
  apply Hc. by apply lookup_app_l_Some.
Qed.

Lemma cstr_end m p l : cstr m p l -> m !! (p + Z.of_nat (length l)) = Some 0.
Proof.
  intros [Hc _]. apply Hc. rewrite lookup_app_r by lia. by rewrite Nat.sub_diag.
Qed.

Lemma cstr_app m p l1 l2 :
  cstr m p (l1 ++ l2) ->
  cells m p l1 /\ Forall (fun b => 1 <= b < 256) l1 /\ cstr m (p + Z.of_nat (length l1)) l2.
Proof.
  intros [Hc Hb]. rewrite <- app_assoc, cells_app in Hc. rewrite Forall_app in Hb.
  unfold cstr. tauto.
Qed.

Lemma cstr_drop m p l i :
  cstr m p l -> (i <= length l)%nat -> cstr m (p + Z.of_nat i) (drop i l).
Proof.
  intros H Hi. rewrite <- (take_drop i l) in H. apply cstr_app in H as (_ & _ & H).
  by rewrite length_take, Nat.min_l in H by lia.
Qed.

Lemma cstr_mapped m p l : cstr m p l -> mapped m p (Z.of_nat (length l) + 1).
Proof.
  intros [Hc _]. apply cells_mapped in Hc. rewrite length_app in Hc. cbn in Hc.
  intros a Ha. apply Hc. lia.
Qed.

Lemma nonzero_bytes l : Forall (fun b => 1 <= b < 256) l -> Forall byte_ok l.
Proof. intros H. eapply Forall_impl; [exact H|]. unfold byte_ok. intros; lia. Qed.

(** The bytes [l] before the first NUL among the first [n] bytes from [p]:
    either [n] bytes without a NUL, or fewer and a NUL after them. *)
Definition cstrn (m : mem Z) (p n : Z) (l : list Z) : Prop :=
  cells m p l /\ Forall (fun b => 1 <= b < 256) l /\
  (Z.of_nat (length l) = n \/
   (Z.of_nat (length l) < n /\ m !! (p + Z.of_nat (length l)) = Some 0)).

Lemma cstrn_inv m p n l :
  cstrn m p n l ->
  (l = [] /\ (n = 0 \/ (0 < n /\ m !! p = Some 0))) \/
  (exists b l', l = b :: l' /\ 0 < n /\ m !! p = Some b /\ 1 <= b < 256 /\
                cstrn m (p + 1) (n - 1) l').
Proof.
  intros (Hc & Hb & He). destruct l as [|b l].
  - left. split; [done|]. cbn in He. rewrite Z.add_0_r in He.
    destruct He as [He|[He ?]]; [left; lia|right; split; [lia|done]].
  - right. exists b, l. apply cells_cons in Hc as [? Hc]. apply Forall_cons in Hb as [? Hb].
    cbn [length] in He. split_and!; try (done || lia). split_and!; [done|done|].
    replace (p + 1 + Z.of_nat (length l)) with (p + Z.of_nat (S (length l))) by lia.
    destruct He as [He|[He ?]]; [left; lia|right; split; [lia|done]].
Qed.

Lemma cstr_cstrn m p l n : cstr m p l -> 0 <= n -> cstrn m p n (take (Z.to_nat n) l).
Proof.
  intros H Hn. pose proof (cstr_end _ _ _ H) as He.
  destruct (Z.le_gt_cases n (Z.of_nat (length l))) as [Hle|Hgt].
  - rewrite <- (take_drop (Z.to_nat n) l) in H. apply cstr_app in H as (? & ? & _).
    split_and!; [done|done|]. left. rewrite length_take. lia.
  - rewrite take_ge by lia. destruct H as [Hc Hb]. apply cells_app in Hc as [Hc _].
    split_and!; [done|done|]. right. split; [lia|done].
Qed.

(** Memory without a zero byte at a string's position is a prefix of it. *)
Lemma cstr_prefix m p l w :
  cstr m p l -> cells m p w -> existsb (Z.eqb 0) w = false -> exists l', l = w ++ l'.
Proof.
  revert p l. induction w as [|b w IH]; intros p l Hl Hw Hz; [by exists l|].
  cbn [existsb] in Hz. apply orb_false_iff in Hz as [Hz0 Hz].
  apply Z.eqb_neq in Hz0. apply cells_cons in Hw as [Hb Hw].
  destruct l as [|c l]; [apply cstr_nil in Hl; congruence|].
  apply cstr_cons in Hl as (Hc & _ & Hl). assert (c = b) as -> by congruence.
  destruct (IH (p + 1) l) as [l' ->]; [done..|]. by exists l'.
Qed.

(** The aligned word a mapped byte starts is mapped. *)
Lemma word_mapped_aligned m p :
  word_mapped m -> is_Some (m !! p) -> p mod 8 = 0 -> mapped m p 8.
Proof.
  intros H Hp Ha. specialize (H p Hp). pose proof (Z.div_mod p 8 ltac:(lia)).
  by replace (8 * (p / 8)) with p in H by lia.
Qed.

Lemma word_mapped_blit m p l : mapped m p (Z.of_nat (length l)) -> word_mapped m -> word_mapped (blit m p l).
Proof.
  intros Hm H a Ha. apply blit_mapped, H. destruct (decide (p <= a < p + Z.of_nat (length l))).
  - by apply Hm.
  - rewrite blit_lookup_out in Ha by lia. done.
Qed.

(** The ranges [p, p + n) and [q, q + k) have no cell in common. *)
Definition disjoint (p n q k : Z) : Prop := p + n <= q \/ q + k <= p.

Lemma cstr_blit_out m p l q k :
  cstr m p l -> disjoint q (Z.of_nat (length k)) p (Z.of_nat (length l) + 1) ->
  cstr (blit m q k) p l.
Proof.
  unfold disjoint. intros [Hc Hb] Hd. split; [|done].
  apply blit_cells_out; [done|]. rewrite length_app. cbn [length]. lia.
Qed.

Lemma cstrn_blit_out m p n l q k :
  cstrn m p n l ->
  disjoint q (Z.of_nat (length k)) p (Z.min n (Z.of_nat (length l) + 1)) ->
  cstrn (blit m q k) p n l.
Proof.
  unfold disjoint. intros (Hc & Hb & He) Hd. split_and!; [|done|].
  - apply blit_cells_out; [done|]. destruct He as [|[? _]]; lia.
  - destruct He as [He|[He H0]]; [by left|]. right. split; [done|].
    rewrite blit_lookup_out by lia. done.
Qed.

(** ** Decisions on concrete memories *)

#[export] Instance byte_ok_dec b : Decision (byte_ok b).
Proof. unfold byte_ok. apply _. Defined.

#[export] Instance bytes_ok_dec m : Decision (bytes_ok m).
Proof. refine (cast_if (decide (map_Forall (fun _ b => byte_ok b) m))); done. Defined.

#[export] Instance word_mapped_dec m : Decision (word_mapped m).
Proof.
  refine (cast_if (decide (map_Forall (fun a _ => mapped m (8 * (a / 8)) 8) m))).
  - by intros a [b Hb]; eapply m0.
  - intros H. apply n. intros a b Hb. apply H. by exists b.
Defined.

#[export] Instance cstr_dec m p l : Decision (cstr m p l).
Proof. unfold cstr. apply _. Defined.

#[export] Instance cstrn_dec m p n l : Decision (cstrn m p n l).
Proof. unfold cstrn. apply _. Defined.

#[export] Instance disjoint_dec p n q k : Decision (disjoint p n q k).
Proof. unfold disjoint. apply _. Defined.
