(* ===== verification/MemOp.v ===== *)
(** * Memory operations: memset, memcpy, memcmp, memmove

    [memory/src/mem_op.cpp].  Each function is its byte loops and word loops
    in the order of the source; the postconditions describe the whole final
    memory, so they also say that nothing else is written. *)

From stdpp Require Import base list numbers gmap.
From S2P Require Import Prelude Memory Bytes.

(** ** The loops *)

(** [while (count--) *xs++ = b;] *)
Definition set_bytes (xs b count : Z) : M (mem Z) Z :=
  loop (S (Z.to_nat count)) (fun '(xs, count) =>
    if count =? 0 then ret (inr xs)
    else do! store8 xs b in ret (inl (xs + 1, count - 1))) (xs, count).

(** [while (count >= sizeof(size_t)) { *xw++ = pattern; count -= sizeof(size_t); }] *)
Definition set_words (xw pattern count : Z) : M (mem Z) (Z * Z) :=
  loop (S (Z.to_nat count)) (fun '(xw, count) =>
    if 8 <=? count then
      do! store64 xw pattern in ret (inl (xw + 8, count - 8))
    else ret (inr (xw, count))) (xw, count).

(** [while (count--) *d++ = *s++;] *)
Definition copy_bytes (d s count : Z) : M (mem Z) (Z * Z) :=
  loop (S (Z.to_nat count)) (fun '(d, s, count) =>
    if count =? 0 then ret (inr (d, s))
    else
      let! b := load s in
      do! store8 d b in
      ret (inl (d + 1, s + 1, count - 1))) (d, s, count).

(** [while (count >= sizeof(size_t)) { *dw++ = *sw++; count -= sizeof(size_t); }] *)
Definition copy_words (dw sw count : Z) : M (mem Z) (Z * Z * Z) :=
  loop (S (Z.to_nat count)) (fun '(dw, sw, count) =>
    if 8 <=? count then
      let! w := load64 sw in
      do! store64 dw w in
      ret (inl (dw + 8, sw + 8, count - 8))
    else ret (inr (dw, sw, count))) (dw, sw, count).

(** [while (count--) *--d = *--s;] *)
Definition copy_bytes_down (d s count : Z) : M (mem Z) (Z * Z) :=
  loop (S (Z.to_nat count)) (fun '(d, s, count) =>
    if count =? 0 then ret (inr (d, s))
    else
      let! b := load (s - 1) in
      do! store8 (d - 1) b in
      ret (inl (d - 1, s - 1, count - 1))) (d, s, count).

(** [while (count >= sizeof(size_t)) { *--dw = *--sw; count -= sizeof(size_t); }] *)
Definition copy_words_down (dw sw count : Z) : M (mem Z) (Z * Z * Z) :=
  loop (S (Z.to_nat count)) (fun '(dw, sw, count) =>
    if 8 <=? count then
      let! w := load64 (sw - 8) in
      do! store64 (dw - 8) w in
      ret (inl (dw - 8, sw - 8, count - 8))
    else ret (inr (dw, sw, count))) (dw, sw, count).

(** [while (count--) { if ( *s1 != *s2) return *s1 - *s2; s1++; s2++; }]:
    [Some r] is the early return, [None] the end of the loop. *)
Definition cmp_loop (s1 s2 count : Z) : M (mem Z) (option Z * (Z * Z)) :=
  loop (S (Z.to_nat count)) (fun '(s1, s2, count) =>
    if count =? 0 then ret (inr (None, (s1, s2)))
    else
      let! a := load s1 in
      let! b := load s2 in
      if a =? b then ret (inl (s1 + 1, s2 + 1, count - 1))
      else ret (inr (Some (a - b), (s1, s2)))) (s1, s2, count).

(** The word loop of [memcmp], with the byte scan of the first unequal pair. *)
Definition cmp_words (w1 w2 count : Z) : M (mem Z) (option Z * (Z * Z * Z)) :=
  loop (S (Z.to_nat count)) (fun '(w1, w2, count) =>
    if 8 <=? count then
      let! x := load64 w1 in
      let! y := load64 w2 in
      let! r := (if x =? y then ret (inl tt)
                 else for_up 0 8 (fun i _ =>
                   let! a := load (w1 + i) in
                   let! b := load (w2 + i) in
                   if a =? b then ret (inl tt) else ret (inr (a - b))) tt) in
      match r with
      | inl _ => ret (inl (w1 + 8, w2 + 8, count - 8))
      | inr r => ret (inr (Some r, (w1, w2, count)))
      end
    else ret (inr (None, (w1, w2, count)))) (w1, w2, count).

(** ** The functions *)

Definition memset (s c count : Z) : M (mem Z) Z :=
  let b := u8 c in
  if count <? 8 then do! set_bytes s b count in ret s
  else
    let align := Z.land (u64 (- s)) 7 in
    let count := u64 (count - align) in
    let! xs := set_bytes s b align in
    let pattern := Z.lor (Z.lor (Z.lor (Z.shiftl b 24) (Z.shiftl b 16)) (Z.shiftl b 8)) b in
    let pattern := Z.lor (u64 (Z.shiftl pattern 32)) pattern in
    let! '(xs, count) := set_words xs pattern count in
    do! set_bytes xs b count in
    ret s.

Definition memcpy (dest src count : Z) : M (mem Z) Z :=
  if count <? 8 then do! copy_bytes dest src count in ret dest
  else
    let align := Z.land (u64 (- dest)) 7 in
    let count := u64 (count - align) in
    let! '(d, s) := copy_bytes dest src align in
    let! '(d, s, count) := copy_words d s count in
    do! copy_bytes d s count in
    ret dest.

Definition memcmp (cs ct count : Z) : M (mem Z) Z :=
  if count <? 8 then
    let! '(r, _) := cmp_loop cs ct count in
    match r with Some r => ret r | None => ret 0 end
  else
    let align := Z.land (u64 (- cs)) 7 in
    let count := u64 (count - align) in
    let! '(r, (s1, s2)) := cmp_loop cs ct align in
    match r with
    | Some r => ret r
    | None =>
        let! '(r, (s1, s2, count)) := cmp_words s1 s2 count in
        match r with
        | Some r => ret r
        | None =>
            let! '(r, _) := cmp_loop s1 s2 count in
            match r with Some r => ret r | None => ret 0 end
        end
    end.

Definition memmove (dest src count : Z) : M (mem Z) Z :=
  if (dest =? src) || (count =? 0) then ret dest
  else if (src <? dest) && (dest <? src + count) then
    let d := dest + count in
    let s := src + count in
    let! '(d, s, count) :=
      (if 8 <=? count then
         let align := Z.land d 7 in
         let count := u64 (count - align) in
         let! '(d, s) := copy_bytes_down d s align in
         copy_words_down d s count
       else ret (d, s, count)) in
    do! copy_bytes_down d s count in
    ret dest
  else
    let! '(d, s, count) :=
      (if 8 <=? count then
         let align := Z.land (u64 (- dest)) 7 in
         let count := u64 (count - align) in
         let! '(d, s) := copy_bytes dest src align in
         copy_words d s count
       else ret (dest, src, count)) in
    do! copy_bytes d s count in
    ret dest.

Example memmove_ex :
  (let m := blit ∅ 13 [1; 2; 3; 4; 5; 6; 7; 8; 9; 10; 11; 12; 13; 14] in
   match memmove 15 13 10 m with Ok (p, m') => Some (p, range m' 13 14) | _ => None end)
  = Some (15, [1; 2; 1; 2; 3; 4; 5; 6; 7; 8; 9; 10; 13; 14]).
Proof. vm_compute. reflexivity. Qed.

(** ** The loops' contracts

    Each loop is proved with the invariant "what remains to be written gives
    the final memory". *)

Lemma set_bytes_ok p b n m :
  byte_ok b -> 0 <= n -> mapped m p n ->
  wp (set_bytes p b n)
     (fun r m' => r = p + n /\ m' = blit m p (replicate (Z.to_nat n) b)) m.
Proof.
  intros Hb Hn Hm. unfold set_bytes.
  apply (wp_loop (fun '(x, k) m' =>
    x + k = p + n /\ 0 <= k /\ mapped m' x k /\
    blit m' x (replicate (Z.to_nat k) b) = blit m p (replicate (Z.to_nat n) b))
    (fun '(_, k) => Z.to_nat k)); [|naive_solver|lia].
  intros [x k] m' (Hx & Hk & Hm' & Heq). wp_if; wp_step.
  - subst k. cbn in Heq. split; [lia|done].
  - apply wp_store; [apply Hm'; lia|]. wp_step. rewrite u8_byte by done.
    split; [|lia]. split_and!; [lia|lia| |].
    + apply mapped_insert. eapply mapped_sub; [done|lia|lia].
    + rewrite <- Heq. replace (Z.to_nat k) with (S (Z.to_nat (k - 1))) by lia. done.
Qed.

Lemma set_words_ok p b n m :
  byte_ok b -> 0 <= n -> mapped m p n ->
  wp (set_words p (le_word (replicate 8 b)) n)
     (fun '(x, k) m' => x + k = p + n /\ 0 <= k < 8 /\ mapped m' x k /\
        blit m' x (replicate (Z.to_nat k) b) = blit m p (replicate (Z.to_nat n) b)) m.
Proof.
  intros Hb Hn Hm. unfold set_words.
  apply (wp_loop (fun '(x, k) m' =>
    x + k = p + n /\ 0 <= k /\ mapped m' x k /\
    blit m' x (replicate (Z.to_nat k) b) = blit m p (replicate (Z.to_nat n) b))
    (fun '(_, k) => Z.to_nat k)); [|naive_solver|lia].
  intros [x k] m' (Hx & Hk & Hm' & Heq). wp_if; wp_step; [|split_and!; auto; lia].
  apply wp_store64; [done|by apply Forall_replicate|eapply mapped_sub; [done|lia|lia]|].
  wp_step. split; [|lia]. split_and!; [lia|lia| |].
  - apply blit_mapped. eapply mapped_sub; [done|lia|lia].
  - rewrite <- Heq. replace (Z.to_nat k) with (8 + Z.to_nat (k - 8))%nat by lia.
    rewrite replicate_add, blit_app, length_replicate. done.
Qed.

(** Overlap a forward copy tolerates. *)
Definition fwd_ok (d s n : Z) : Prop := d <= s \/ s + n <= d.

(** [k] bytes are left to copy up from [s] to [d], and doing so gives [mf]. *)
Definition copy_up (mf : mem Z) (d s k : Z) (m : mem Z) : Prop :=
  0 <= k /\ mapped m d k /\ fwd_ok d s k /\
  exists l, cells m s l /\ Forall byte_ok l /\ length l = Z.to_nat k /\ blit m d l = mf.

Lemma copy_up_step mf d s k n m l l' :
  copy_up mf d s k m -> 0 <= n <= k ->
  cells m s (l ++ l') -> length l = Z.to_nat n -> length l' = Z.to_nat (k - n) ->
  copy_up mf (d + n) (s + n) (k - n) (blit m d l).
Proof.
  intros (Hk & Hm & Ho & l0 & Hc0 & Hb & Hl0 & Heq) Hn Hc Hl Hl'. unfold fwd_ok in Ho.
  assert (l0 = l ++ l') as ->.
  { eapply cells_inj; [exact Hc0|exact Hc|]. rewrite length_app. lia. }
  unfold copy_up, fwd_ok. split; [lia|]. split; [|split; [lia|]].
  { apply blit_mapped. eapply mapped_sub; [done|lia|lia]. }
  exists l'. apply cells_app in Hc as [_ Hc]. apply Forall_app in Hb as [_ Hb].
  rewrite blit_app in Heq. replace (Z.of_nat (length l)) with n in * by lia.
  split; [|done]. apply blit_cells_out; [done|lia].
Qed.

Lemma copy_up_split mf d s k n m :
  copy_up mf d s k m -> 0 <= n <= k ->
  exists l l', cells m s (l ++ l') /\ Forall byte_ok l /\
    length l = Z.to_nat n /\ length l' = Z.to_nat (k - n).
Proof.
  intros (Hk & _ & _ & l & Hc & Hb & Hl & _) Hn.
  exists (take (Z.to_nat n) l), (drop (Z.to_nat n) l). rewrite take_drop.
  split; [done|]. split; [by apply Forall_take|]. rewrite length_take, length_drop. lia.
Qed.

Lemma copy_bytes_ok mf d s n k m :
  copy_up mf d s k m -> 0 <= n <= k ->
  wp (copy_bytes d s n)
     (fun '(d', s') m' => d' = d + n /\ s' = s + n /\ copy_up mf d' s' (k - n) m') m.
Proof.
  intros HI Hn. unfold copy_bytes.
  apply (wp_loop (fun '(x, y, j) m' =>
    0 <= j <= n /\ x = d + (n - j) /\ y = s + (n - j) /\ copy_up mf x y (k - n + j) m')
    (fun '(_, _, j) => Z.to_nat j)); [|split_and!; try lia|lia].
  2: { by replace (k - n + n) with k by lia. }
  intros [[x y] j] m' (Hj & Hx & Hy & HI'). wp_if; wp_step.
  - subst j. replace (k - n) with (k - n + 0) by lia. split_and!; [lia|lia|done].
  - destruct (copy_up_split _ _ _ _ 1 _ HI') as (l & l' & Hc & Hb & Hl & Hl'); [lia|].
    destruct l as [|b [|]]; try (cbn in Hl; lia). apply Forall_inv in Hb.
    apply (wp_load _ _ b); [by apply cells_cons in Hc as [? _]|].
    wp_step. apply wp_store; [apply HI'; lia|]. wp_step. rewrite u8_byte by done.
    split; [|lia]. split; [lia|]. split; [lia|]. split; [lia|].
    replace (k - n + (j - 1)) with (k - n + j - 1) by lia.
    by apply (copy_up_step mf x y (k - n + j) 1 m' [b] l'); [|lia| | |].
Qed.

Lemma copy_words_ok mf d s k m :
  copy_up mf d s k m ->
  wp (copy_words d s k) (fun '(d', s', k') m' => copy_up mf d' s' k' m') m.
Proof.
  intros HI. unfold copy_words.
  apply (wp_loop (fun '(x, y, j) m' => copy_up mf x y j m') (fun '(_, _, j) => Z.to_nat j));
    [|done|lia].
  intros [[x y] j] m' HI'. wp_if; wp_step; [|done].
  destruct (copy_up_split _ _ _ _ 8 _ HI') as (l & l' & Hc & Hb & Hl & Hl'); [lia|].
  apply (wp_load64 _ _ l); [by apply cells_app in Hc as [? _]|done|]. wp_step.
  apply wp_store64; [done|done|eapply mapped_sub; [apply HI'|lia|lia]|]. wp_step.
  split; [|lia]. by eapply copy_up_step; [|lia| | |].
Qed.

(** [k] bytes are left to copy down, [d] and [s] being the ends. *)
Definition copy_down (mf : mem Z) (d s k : Z) (m : mem Z) : Prop :=
  0 <= k /\ mapped m (d - k) k /\ s <= d /\
  exists l, cells m (s - k) l /\ Forall byte_ok l /\ length l = Z.to_nat k /\
    blit m (d - k) l = mf.

Lemma copy_down_step mf d s k n m l l' :
  copy_down mf d s k m -> 0 <= n <= k ->
  cells m (s - k) (l' ++ l) -> length l = Z.to_nat n -> length l' = Z.to_nat (k - n) ->
  copy_down mf (d - n) (s - n) (k - n) (blit m (d - n) l).
Proof.
  intros (Hk & Hm & Ho & l0 & Hc0 & Hb & Hl0 & Heq) Hn Hc Hl Hl'.
  assert (l0 = l' ++ l) as ->.
  { eapply cells_inj; [exact Hc0|exact Hc|]. rewrite length_app. lia. }
  unfold copy_down. split; [lia|]. split; [|split; [lia|]].
  { apply blit_mapped. eapply mapped_sub; [done|lia|lia]. }
  exists l'. apply cells_app in Hc as [Hc _]. apply Forall_app in Hb as [Hb _].
  rewrite blit_app_rev in Heq.
  replace (d - k + Z.of_nat (length l')) with (d - n) in Heq by lia.
  replace (d - n - (k - n)) with (d - k) by lia.
  replace (s - n - (k - n)) with (s - k) by lia.
  split; [|done]. apply blit_cells_out; [done|lia].
Qed.

Lemma copy_down_split mf d s k n m :
  copy_down mf d s k m -> 0 <= n <= k ->
  exists l l', cells m (s - k) (l' ++ l) /\ cells m (s - n) l /\ Forall byte_ok l /\
    length l = Z.to_nat n /\ length l' = Z.to_nat (k - n).
Proof.
  intros (Hk & _ & _ & l & Hc & Hb & Hl & _) Hn.
  exists (drop (Z.to_nat (k - n)) l), (take (Z.to_nat (k - n)) l).
  rewrite take_drop. split; [done|].
  rewrite <- (take_drop (Z.to_nat (k - n)) l), cells_app in Hc. destruct Hc as [_ Hc].
  rewrite length_take, Nat.min_l in Hc by lia.
  replace (s - k + Z.of_nat (Z.to_nat (k - n))) with (s - n) in Hc by lia.
  split; [done|]. split; [by apply Forall_drop|]. rewrite length_take, length_drop. lia.
Qed.

Lemma copy_bytes_down_ok mf d s n k m :
  copy_down mf d s k m -> 0 <= n <= k ->
  wp (copy_bytes_down d s n)
     (fun '(d', s') m' => d' = d - n /\ s' = s - n /\ copy_down mf d' s' (k - n) m') m.
Proof.
  intros HI Hn. unfold copy_bytes_down.
  apply (wp_loop (fun '(x, y, j) m' =>
    0 <= j <= n /\ x = d - (n - j) /\ y = s - (n - j) /\ copy_down mf x y (k - n + j) m')
    (fun '(_, _, j) => Z.to_nat j)); [|split_and!; try lia|lia].
  2: { replace (k - n + n) with k by lia. by replace (d - (n - n)) with d by lia;
       replace (s - (n - n)) with s by lia. }
  intros [[x y] j] m' (Hj & Hx & Hy & HI'). wp_if; wp_step.
  - subst j. replace (k - n) with (k - n + 0) by lia. split_and!; [lia|lia|done].
  - destruct (copy_down_split _ _ _ _ 1 _ HI') as (l & l' & Hc & Hc1 & Hb & Hl & Hl'); [lia|].
    destruct l as [|b [|]]; try (cbn in Hl; lia). apply Forall_inv in Hb.
    apply (wp_load _ _ b); [by apply cells_cons in Hc1 as [? _]|].
    wp_step. apply wp_store; [apply HI'; lia|]. wp_step. rewrite u8_byte by done.
    split; [|lia]. split; [lia|]. split; [lia|]. split; [lia|].
    replace (k - n + (j - 1)) with (k - n + j - 1) by lia.
    by apply (copy_down_step mf x y (k - n + j) 1 m' [b] l'); [|lia| | |].
Qed.

Lemma copy_words_down_ok mf d s k m :
  copy_down mf d s k m ->
  wp (copy_words_down d s k) (fun '(d', s', k') m' => copy_down mf d' s' k' m') m.
Proof.
  intros HI. unfold copy_words_down.
  apply (wp_loop (fun '(x, y, j) m' => copy_down mf x y j m') (fun '(_, _, j) => Z.to_nat j));
    [|done|lia].
  intros [[x y] j] m' HI'. wp_if; wp_step; [|done].
  destruct (copy_down_split _ _ _ _ 8 _ HI') as (l & l' & Hc & Hc1 & Hb & Hl & Hl'); [lia|].
  apply (wp_load64 _ _ l); [done|done|]. wp_step.
  apply wp_store64; [done|done|eapply mapped_sub; [apply HI'|lia|lia]|]. wp_step.
  split; [|lia]. by eapply copy_down_step; [|lia| | |].
Qed.

Lemma align_bound x : 0 <= Z.land x 7 < 8.
Proof. rewrite land_7. by apply Z.mod_pos_bound. Qed.

Lemma align_count x n : 8 <= n < 2 ^ 64 -> u64 (n - Z.land x 7) = n - Z.land x 7.
Proof. intros. pose proof (align_bound x). apply u64_small. lia. Qed.

Lemma copy_up_init m d s n :
  bytes_ok m -> 0 <= n -> mapped m d n -> mapped m s n -> fwd_ok d s n ->
  copy_up (blit m d (range m s n)) d s n m.
Proof.
  intros Hb Hn Hd Hs Ho. destruct (mapped_cells m s n Hb Hs) as [Hc Hok].
  split; [done|]. split; [done|]. split; [done|]. exists (range m s n).
  by rewrite range_length.
Qed.

Lemma copy_down_init m d s n :
  bytes_ok m -> 0 <= n -> mapped m d n -> mapped m s n -> s <= d ->
  copy_down (blit m d (range m s n)) (d + n) (s + n) n m.
Proof.
  intros Hb Hn Hd Hs Ho. destruct (mapped_cells m s n Hb Hs) as [Hc Hok].
  unfold copy_down. replace (d + n - n) with d by lia. replace (s + n - n) with s by lia.
  split; [done|]. split; [done|]. split; [lia|]. exists (range m s n).
  by rewrite range_length.
Qed.

Lemma copy_up_done mf d s m : copy_up mf d s 0 m -> m = mf.
Proof. intros (_ & _ & _ & [|b l] & _ & _ & Hl & <-); [done|cbn in Hl; lia]. Qed.

Lemma copy_down_done mf d s m : copy_down mf d s 0 m -> m = mf.
Proof.
  intros (_ & _ & _ & [|b l] & _ & _ & Hl & <-); cbn in Hl; [done|lia].
Qed.

(** An aligning prefix of [a] bytes and the words after it; the byte loop that
    finishes a copy. *)
Lemma copy_prefix_ok mf d s a n m :
  copy_up mf d s n m -> 0 <= a <= n ->
  wp (let! '(d, s) := copy_bytes d s a in copy_words d s (n - a))
     (fun '(d, s, k) m' => copy_up mf d s k m') m.
Proof.
  intros HI Ha. wp_step. eapply wp_mono; [|by apply copy_bytes_ok].
  intros [d' s'] m' (_ & _ & HI'). by apply copy_words_ok.
Qed.

Lemma copy_finish_ok mf d s k (dest : Z) m :
  copy_up mf d s k m ->
  wp (do! copy_bytes d s k in ret dest) (fun r m' => r = dest /\ m' = mf) m.
Proof.
  intros HI. pose proof (proj1 HI). wp_step.
  eapply wp_mono; [|apply (copy_bytes_ok mf d s k k); [done|lia]].
  intros [d' s'] m' (_ & _ & HI'). wp_step.
  rewrite Z.sub_diag in HI'. by apply copy_up_done in HI'.
Qed.

Lemma copy_down_prefix_ok mf d s a n m :
  copy_down mf d s n m -> 0 <= a <= n ->
  wp (let! '(d, s) := copy_bytes_down d s a in copy_words_down d s (n - a))
     (fun '(d, s, k) m' => copy_down mf d s k m') m.
Proof.
  intros HI Ha. wp_step. eapply wp_mono; [|by apply copy_bytes_down_ok].
  intros [d' s'] m' (_ & _ & HI'). by apply copy_words_down_ok.
Qed.

Lemma copy_down_finish_ok mf d s k (dest : Z) m :
  copy_down mf d s k m ->
  wp (do! copy_bytes_down d s k in ret dest) (fun r m' => r = dest /\ m' = mf) m.
Proof.
  intros HI. pose proof (proj1 HI). wp_step.
  eapply wp_mono; [|apply (copy_bytes_down_ok mf d s k k); [done|lia]].
  intros [d' s'] m' (_ & _ & HI'). wp_step.
  rewrite Z.sub_diag in HI'. by apply copy_down_done in HI'.
Qed.

(** The 64-bit pattern is the byte repeated eight times. *)
Lemma pattern_word b :
  byte_ok b ->
  (let p := Z.lor (Z.lor (Z.lor (Z.shiftl b 24) (Z.shiftl b 16)) (Z.shiftl b 8)) b in
   Z.lor (u64 (Z.shiftl p 32)) p) = le_word (replicate 8 b).
Proof.
  intros Hb.
  assert (Hall : forallb (fun b =>
    Z.eqb (let p := Z.lor (Z.lor (Z.lor (Z.shiftl b 24) (Z.shiftl b 16)) (Z.shiftl b 8)) b in
           Z.lor (u64 (Z.shiftl p 32)) p) (le_word (replicate 8 b))) (seqZ 0 256) = true)
    by (vm_compute; reflexivity).
  rewrite forallb_forall in Hall. apply Z.eqb_eq, Hall, list_elem_of_In, elem_of_seqZ.
  exact Hb.
Qed.

Lemma set_finish_ok p b k (s : Z) m :
  byte_ok b -> 0 <= k -> mapped m p k ->
  wp (do! set_bytes p b k in ret s)
     (fun r m' => r = s /\ m' = blit m p (replicate (Z.to_nat k) b)) m.
Proof.
  intros. wp_step. eapply wp_mono; [|by apply set_bytes_ok].
  intros p' m' [_ ->]. by wp_step.
Qed.

(** ** Correctness *)

(** C12. [memset] stores the low byte of [c] in each of the [count] bytes from
    [s], changes nothing else and returns [s], whatever the alignment of [s]
    and on every path (short, aligning prefix, words, tail). *)
Theorem memset_correct s c count m :
  0 <= count < 2 ^ 64 -> mapped m s count ->
  memset s c count m = Ok (s, blit m s (replicate (Z.to_nat count) (c mod 256))).
Proof.
  intros Hn Hm. apply wp_eq. unfold memset.
  assert (Hb : byte_ok (u8 c)) by (apply wrap_range; lia).
  change (c mod 256) with (u8 c). wp_if; [apply set_finish_ok; [done|lia|done]|].
  rewrite align_count, pattern_word by (done || lia).
  pose proof (align_bound (u64 (- s))) as Ha. set (a := Z.land _ 7) in *.
  wp_step. eapply wp_mono; [|apply set_bytes_ok; [done|lia|eapply mapped_sub; [done|lia|lia]]].
  intros p1 m1 [-> ->]. wp_step. eapply wp_mono; [|apply set_words_ok; [done|lia|]].
  2: { apply blit_mapped. eapply mapped_sub; [done|lia|lia]. }
  intros [p2 k] m2 (Hp & Hk & Hm2 & Heq). cbn.
  eapply wp_mono; [|apply set_finish_ok; [done|lia|done]].
  intros r m3 [-> ->]. split; [done|]. rewrite Heq.
  replace (Z.to_nat count) with (Z.to_nat a + Z.to_nat (count - a))%nat by lia.
  rewrite replicate_add, blit_app, length_replicate. f_equal. lia.
Qed.

(** C2. [memcpy] on ranges where a forward copy is allowed (disjoint, or the
    destination below the source) stores the [count] source bytes at [dest],
    changes nothing else and returns [dest]. *)
Theorem memcpy_correct dest src count m :
  bytes_ok m -> 0 <= count < 2 ^ 64 -> mapped m dest count -> mapped m src count ->
  dest <= src \/ src + count <= dest ->
  memcpy dest src count m = Ok (dest, blit m dest (range m src count)).
Proof.
  intros Hb Hn Hd Hs Ho. apply wp_eq. unfold memcpy.
  pose proof (copy_up_init m dest src count Hb ltac:(lia) Hd Hs Ho) as HI.
  wp_if; [by apply copy_finish_ok|].
  rewrite align_count by lia. pose proof (align_bound (u64 (- dest))).
  pose proof (copy_prefix_ok _ _ _ (Z.land (u64 (- dest)) 7) _ _ HI ltac:(lia)) as Hp.
  apply wp_bind. apply wp_bind_inv in Hp. eapply wp_mono; [|exact Hp].
  intros [d s] m' Hw. wp_step. eapply wp_mono; [|exact Hw].
  intros [[d' s'] k] m'' HI'. by apply copy_finish_ok.
Qed.

(** C1. [memmove] is correct for every overlap: the destination range ends up
    with the bytes the source range held before the call, nothing else is
    written, and [dest] is returned. *)
Theorem memmove_correct dest src count m :
  bytes_ok m -> 0 <= count < 2 ^ 64 -> mapped m dest count -> mapped m src count ->
  memmove dest src count m = Ok (dest, blit m dest (range m src count)).
Proof.
  intros Hb Hn Hd Hs. apply wp_eq. unfold memmove.
  destruct (Z.eqb_spec dest src) as [->|Hne]; cbn [orb].
  { apply wp_ret. split; [done|]. symmetry. by apply blit_id, range_cells. }
  destruct (Z.eqb_spec count 0) as [->|Hc]; [by apply wp_ret|].
  destruct ((src <? dest) && (dest <? src + count)) eqn:Eo.
  - pose proof (copy_down_init m dest src count Hb ltac:(lia) Hd Hs ltac:(lia)) as HI.
    wp_step. wp_if; [|by apply wp_ret, copy_down_finish_ok].
    rewrite align_count by lia. pose proof (align_bound (dest + count)).
    eapply wp_mono; [|by apply copy_down_prefix_ok; [|lia]].
    intros [[d s] k] m' HI'. by apply copy_down_finish_ok.
  - assert (Ho : fwd_ok dest src count) by (unfold fwd_ok; lia).
    pose proof (copy_up_init m dest src count Hb ltac:(lia) Hd Hs Ho) as HI.
    wp_step. wp_if; [|by apply wp_ret, copy_finish_ok].
    rewrite align_count by lia. pose proof (align_bound (u64 (- dest))).
    eapply wp_mono; [|by apply copy_prefix_ok; [|lia]].
    intros [[d s] k] m' HI'. by apply copy_finish_ok.
Qed.

(** ** Comparison *)

(** [k] bytes are left to compare and their comparison gives [R]. *)
Definition cmp_left (R s1 s2 k : Z) (m : mem Z) : Prop :=
  0 <= k /\ exists l1 l2, cells m s1 l1 /\ cells m s2 l2 /\
    Forall byte_ok l1 /\ Forall byte_ok l2 /\
    length l1 = Z.to_nat k /\ length l2 = Z.to_nat k /\ cmp_bytes l1 l2 = R.

(** Splitting off the first [n] bytes: either they are equal and the rest
    decides, or they decide. *)
Lemma cmp_left_split R s1 s2 k n m :
  cmp_left R s1 s2 k m -> 0 <= n <= k ->
  exists a1 a2, cells m s1 a1 /\ cells m s2 a2 /\
    Forall byte_ok a1 /\ Forall byte_ok a2 /\
    length a1 = Z.to_nat n /\ length a2 = Z.to_nat n /\
    (a1 = a2 -> cmp_left R (s1 + n) (s2 + n) (k - n) m) /\
    (a1 <> a2 -> cmp_bytes a1 a2 = R).
Proof.
  intros (Hk & l1 & l2 & Hc1 & Hc2 & Hb1 & Hb2 & Hl1 & Hl2 & HR) Hn.
  set (j := Z.to_nat n).
  assert (Hj : forall l : list Z, length l = Z.to_nat k -> length (take j l) = j).
  { intros l Hl. rewrite length_take. lia. }
  pose proof (Hj _ Hl1) as Hj1. pose proof (Hj _ Hl2) as Hj2.
  rewrite <- (take_drop j l1) in Hc1, Hb1, HR. rewrite <- (take_drop j l2) in Hc2, Hb2, HR.
  apply cells_app in Hc1 as [Hc1 Hd1], Hc2 as [Hc2 Hd2].
  apply Forall_app in Hb1 as [Hb1 Hb1'], Hb2 as [Hb2 Hb2'].
  rewrite Hj1 in Hd1. rewrite Hj2 in Hd2.
  replace (Z.of_nat j) with n in Hd1, Hd2 by lia.
  exists (take j l1), (take j l2). split_and!; try done.
  - intros E. split; [lia|]. exists (drop j l1), (drop j l2).
    rewrite E, cmp_bytes_app in HR. rewrite !length_drop. split_and!; done || lia.
  - intros Hne. destruct (cmp_bytes_spec (take j l1) (take j l2)) as [[? _]|Hd]; [lia|done|].
    destruct Hd as (i & a & b & Ht & Ha & Hb & Hab & ->). rewrite <- HR. symmetry.
    pose proof (lookup_lt_Some _ _ _ Ha). pose proof (lookup_lt_Some _ _ _ Hb).
    eapply (cmp_bytes_diff _ _ i); [|by apply lookup_app_l_Some|by apply lookup_app_l_Some|done].
    rewrite !take_app_le by lia. done.
Qed.

Lemma cmp_loop_ok R s1 s2 n k m :
  cmp_left R s1 s2 k m -> 0 <= n <= k ->
  wp (cmp_loop s1 s2 n)
     (fun '(r, (s1', s2')) m' => m' = m /\
        match r with Some r => r = R | None => cmp_left R s1' s2' (k - n) m end) m.
Proof.
  intros HI Hn. unfold cmp_loop.
  apply (wp_loop (fun '(x, y, j) m' =>
    m' = m /\ 0 <= j <= n /\ cmp_left R x y (k - n + j) m) (fun '(_, _, j) => Z.to_nat j));
    [|split_and!; [done|lia|lia|by replace (k - n + n) with k by lia]|lia].
  intros [[x y] j] m' (-> & Hj & HI'). wp_if; wp_step.
  - subst j. rewrite Z.add_0_r in HI'. done.
  - destruct (cmp_left_split _ _ _ _ 1 _ HI') as (a1 & a2 & H1 & H2 & _ & _ & L1 & L2 & Heq & Hne);
      [lia|].
    destruct a1 as [|a [|]]; try (cbn in L1; lia). destruct a2 as [|b [|]]; try (cbn in L2; lia).
    apply cells_cons in H1 as [H1 _], H2 as [H2 _].
    apply (wp_load _ _ a); [done|]. wp_step. apply (wp_load _ _ b); [done|]. cbn in Hne.
    destruct (Z.eqb_spec a b) as [->|Hab]; wp_step.
    + split; [|lia]. split_and!; [done|lia|lia|].
      replace (k - n + (j - 1)) with (k - n + j - 1) by lia. by apply Heq.
    + split; [done|]. apply Hne. congruence.
Qed.

(** The byte scan of two unequal words finds their difference. *)
Lemma cmp_scan_ok x y a1 a2 m :
  cells m x a1 -> cells m y a2 -> length a1 = 8%nat -> length a2 = 8%nat -> a1 <> a2 ->
  wp (for_up 0 8 (fun i _ =>
        let! a := load (x + i) in
        let! b := load (y + i) in
        if a =? b then ret (inl tt) else ret (inr (a - b))) tt)
     (fun r m' => m' = m /\ r = inr (cmp_bytes a1 a2)) m.
Proof.
  intros H1 H2 L1 L2 Hne.
  apply (wp_for_up (fun i _ m' => m' = m /\ take (Z.to_nat i) a1 = take (Z.to_nat i) a2));
    [done| |].
  - intros i [] m' Hi [-> Ht].
    destruct (lookup_lt_is_Some_2 a1 (Z.to_nat i)) as [a Ha]; [lia|].
    destruct (lookup_lt_is_Some_2 a2 (Z.to_nat i)) as [b Hb]; [lia|].
    wp_step. apply (wp_load _ _ a).
    { apply H1 in Ha. by rewrite Z2Nat.id in Ha by lia. }
    wp_step. apply (wp_load _ _ b).
    { apply H2 in Hb. by rewrite Z2Nat.id in Hb by lia. }
    destruct (Z.eqb_spec a b) as [->|Hab]; wp_step; split; try done.
    + replace (Z.to_nat (i + 1)) with (S (Z.to_nat i)) by lia.
      rewrite (take_S_r _ _ b), (take_S_r _ _ b) by done. congruence.
    + f_equal. symmetry. by eapply cmp_bytes_diff.
  - intros [] m' [-> Ht]. destruct Hne.
    by rewrite !take_ge in Ht by (change (Z.to_nat (Z.max 0 8)) with 8%nat; lia).
Qed.

Lemma cmp_words_ok R s1 s2 k m :
  cmp_left R s1 s2 k m ->
  wp (cmp_words s1 s2 k)
     (fun '(r, (s1', s2', k')) m' => m' = m /\
        match r with Some r => r = R | None => cmp_left R s1' s2' k' m end) m.
Proof.
  intros HI. unfold cmp_words.
  apply (wp_loop (fun '(x, y, j) m' => m' = m /\ cmp_left R x y j m)
           (fun '(_, _, j) => Z.to_nat j)); [|done|lia].
  intros [[x y] j] m' (-> & HI'). wp_if; wp_step; [|done].
  destruct (cmp_left_split _ _ _ _ 8 _ HI') as (a1 & a2 & H1 & H2 & B1 & B2 & L1 & L2 & Heq & Hne);
    [lia|].
  apply (wp_load64 _ _ a1); [done|done|]. wp_step.
  apply (wp_load64 _ _ a2); [done|done|]. wp_step.
  destruct (Z.eqb_spec (le_word a1) (le_word a2)) as [E|E].
  - apply le_word_inj in E; [|congruence|done|done].
    wp_step. wp_step. split; [|lia]. split; [done|]. by apply Heq.
  - assert (a1 <> a2) by congruence.
    eapply wp_mono; [|by eapply (cmp_scan_ok x y a1 a2)].
    intros r m' [-> ->]. wp_step. split; [done|]. by apply Hne.
Qed.

Lemma cmp_left_done R s1 s2 m : cmp_left R s1 s2 0 m -> R = 0.
Proof. by intros (_ & [|] & [|] & _ & _ & _ & _ & ? & ? & <-). Qed.

Lemma cmp_finish_ok R s1 s2 k m :
  cmp_left R s1 s2 k m ->
  wp (let! '(r, _) := cmp_loop s1 s2 k in
      match r with Some r => ret r | None => ret 0 end)
     (fun r m' => r = R /\ m' = m) m.
Proof.
  intros HI. pose proof (proj1 HI). wp_step.
  eapply wp_mono; [|apply (cmp_loop_ok R s1 s2 k k); [done|lia]].
  intros [r [x y]] m' (-> & Hr). rewrite Z.sub_diag in Hr.
  destruct r as [r|]; wp_step; [done|]. by apply cmp_left_done in Hr.
Qed.

(** C11. [memcmp] compares the two ranges byte-wise as unsigned characters: 0
    when they are equal, otherwise the difference of the first two bytes that
    differ, for every alignment and on every path. *)
Theorem memcmp_correct cs ct count l1 l2 m :
  0 <= count < 2 ^ 64 -> cells m cs l1 -> cells m ct l2 ->
  Z.of_nat (length l1) = count -> Z.of_nat (length l2) = count ->
  Forall byte_ok l1 -> Forall byte_ok l2 ->
  memcmp cs ct count m = Ok (cmp_bytes l1 l2, m).
Proof.
  intros Hn Hc1 Hc2 Hl1 Hl2 Hb1 Hb2. apply wp_eq. unfold memcmp.
  set (R := cmp_bytes l1 l2).
  assert (HI : cmp_left R cs ct count m).
  { split; [lia|]. exists l1, l2. split_and!; done || lia. }
  wp_if; [by apply cmp_finish_ok|].
  rewrite align_count by lia. pose proof (align_bound (u64 (- cs))).
  wp_step. eapply wp_mono; [|by apply (cmp_loop_ok R cs ct _ count); [|lia]].
  intros [r [s1 s2]] m' (-> & Hr). destruct r as [r|]; [by apply wp_ret|].
  wp_step. eapply wp_mono; [|by apply cmp_words_ok].
  intros [r [[s1' s2'] k]] m' (-> & Hr'). destruct r as [r|]; [by apply wp_ret|].
  by apply cmp_finish_ok.
Qed.

(** ** Runs on concrete memories *)

Lemma memmove_witness :
  let m := blit ∅ 96 [10; 11; 12; 13; 14; 15; 16; 17; 18; 19; 20; 21; 22; 23] in
  memmove 99 96 11 m = Ok (99, blit m 99 [10; 11; 12; 13; 14; 15; 16; 17; 18; 19; 20]).
Proof. intros m. apply (memmove_correct 99 96 11 m); [decided|lia|decided|decided]. Defined.

Lemma memcpy_witness :
  let m := blit (blit ∅ 3 (replicate 9 0)) 64 [1; 2; 3; 4; 5; 6; 7; 8; 9] in
  memcpy 3 64 9 m = Ok (3, blit m 3 [1; 2; 3; 4; 5; 6; 7; 8; 9]).
Proof.
  intros m. apply (memcpy_correct 3 64 9 m); [decided|lia|decided|decided|lia].
Defined.

Lemma memset_witness :
  let m := blit ∅ 5 (replicate 12 1) in
  memset 5 (-1) 12 m = Ok (5, blit m 5 (replicate 12 255)).
Proof. intros m. apply (memset_correct 5 (-1) 12 m); [lia|decided]. Defined.

Lemma memcmp_witness :
  let m := blit (blit ∅ 64 [1; 2; 3; 200; 5; 6; 7; 8; 9]) 128 [1; 2; 3; 100; 5; 6; 7; 8; 9] in
  memcmp 64 128 9 m = Ok (100, m).
Proof.
  intros m.
  apply (memcmp_correct 64 128 9 [1; 2; 3; 200; 5; 6; 7; 8; 9] [1; 2; 3; 100; 5; 6; 7; 8; 9] m);
    first [lia | reflexivity | decided].
Defined.
