(* ===== verification/StrCopy.v ===== *)
(** * C strings: length, copying and concatenation

    [string/src/string.cpp], lines 1-164: the zero-byte test on words and the
    functions [strlen], [strnlen], [strcpy], [strncpy], [strlcpy], [strcat],
    [strncat] and [strlcat].  A loop that scans for a NUL has no bound in the
    code: those functions take the model's iteration bound [fuel] first, and
    the theorems give a bound that is enough. *)

From stdpp Require Import base list numbers gmap.
From S2P Require Import Prelude Memory Bytes.

(** ** The zero-byte test *)

Definition ones : Z := (2 ^ 64 - 1) / 0xFF.
Definition highs : Z := u64 (ones * 0x80).

Definition has_zero (x : Z) : bool :=
  negb (Z.land (Z.land (u64 (x - ones)) (u64 (Z.lnot x))) highs =? 0).

(** ** Loops shared by the functions *)

(** [while ( *p) p++;] *)
Definition scan_nul (fuel : nat) (p : Z) : M (mem Z) Z :=
  loop fuel (fun p =>
    let! c := load p in
    if c =? 0 then ret (inr p) else ret (inl (p + 1))) p.

(** [while (!has_zero( *ls)) ls++;] *)
Definition scan_words (fuel : nat) (ls : Z) : M (mem Z) Z :=
  loop fuel (fun ls =>
    let! w := load64 ls in
    if has_zero w then ret (inr ls) else ret (inl (ls + 8))) ls.

(** [while (( *dest++ = *src++) != 0) {}] *)
Definition copy_str (fuel : nat) (dest src : Z) : M (mem Z) unit :=
  loop fuel (fun '(dest, src) =>
    let! c := load src in
    do! store8 dest c in
    if c =? 0 then ret (inr tt) else ret (inl (dest + 1, src + 1))) (dest, src).

(** ** The functions *)

Definition strlen (fuel : nat) (s : Z) : M (mem Z) Z :=
  let! r :=
    (if negb (Z.land s 7 =? 0) then
       loop fuel (fun str =>
         if Z.land str 7 =? 0 then ret (inr (inl str))
         else
           let! c := load str in
           if c =? 0 then ret (inr (inr (u64 (str - s)))) else ret (inl (str + 1))) s
     else ret (inl s)) in
  match r with
  | inr n => ret n
  | inl str =>
      let! str := scan_words fuel str in
      let! str := scan_nul fuel str in
      ret (u64 (str - s))
  end.

Definition strnlen (s maxlen : Z) : M (mem Z) Z :=
  loop (S (Z.to_nat maxlen)) (fun '(es, maxlen) =>
    let! c := load es in
    if (c =? 0) || (maxlen =? 0) then ret (inr (u64 (es - s)))
    else ret (inl (es + 1, maxlen - 1))) (s, maxlen).

(** The byte loop of [strcpy] up to an aligned source: [None] when the NUL was
    copied. *)
Definition strcpy_prefix (fuel : nat) (dest src : Z) : M (mem Z) (option (Z * Z)) :=
  loop fuel (fun '(d, s) =>
    if Z.land s 7 =? 0 then ret (inr (Some (d, s)))
    else
      let! c := load s in
      do! store8 d c in
      if c =? 0 then ret (inr None) else ret (inl (d + 1, s + 1))) (dest, src).

(** [while (!has_zero( *lsrc)) *ldest++ = *lsrc++;] *)
Definition strcpy_words (fuel : nat) (ldest lsrc : Z) : M (mem Z) (Z * Z) :=
  loop fuel (fun '(ldest, lsrc) =>
    let! w := load64 lsrc in
    if has_zero w then ret (inr (ldest, lsrc))
    else
      let! w := load64 lsrc in
      do! store64 ldest w in
      ret (inl (ldest + 8, lsrc + 8))) (ldest, lsrc).

Definition strcpy (fuel : nat) (dest src : Z) : M (mem Z) Z :=
  let! r := strcpy_prefix fuel dest src in
  match r with
  | None => ret dest
  | Some (d, s) =>
      let! '(d, s) := strcpy_words fuel d s in
      do! copy_str fuel d s in
      ret dest
  end.

Definition strncpy (dest src count : Z) : M (mem Z) Z :=
  let! '(d, count) := loop (S (Z.to_nat count)) (fun '(d, s, count) =>
      if count =? 0 then ret (inr (d, count))
      else
        let! c := load s in
        do! store8 d c in
        if c =? 0 then ret (inr (d, count)) else ret (inl (d + 1, s + 1, count - 1)))
      (dest, src, count) in
  do! loop (S (Z.to_nat count)) (fun '(d, count) =>
      if count =? 0 then ret (inr tt)
      else do! store8 d 0 in ret (inl (d + 1, count - 1))) (d, count) in
  ret dest.

Definition strlcpy (fuel : nat) (dest src size : Z) : M (mem Z) Z :=
  let n := if size =? 0 then size else size - 1 in
  let! '(d, s, n) :=
    (if negb (size =? 0) && negb (n =? 0) then
       loop (S (Z.to_nat n)) (fun '(d, s, n) =>
         let! c := load s in
         do! store8 d c in
         if c =? 0 then ret (inr (d + 1, s + 1, n))
         else if n - 1 =? 0 then ret (inr (d + 1, s + 1, n - 1))
         else ret (inl (d + 1, s + 1, n - 1))) (dest, src, n)
     else ret (dest, src, n)) in
  let! s :=
    (if n =? 0 then
       do! (if negb (size =? 0) then store8 d 0 else ret tt) in
       loop fuel (fun s =>
         let! c := load s in
         if c =? 0 then ret (inr (s + 1)) else ret (inl (s + 1))) s
     else ret s) in
  ret (u64 (s - src - 1)).

Definition strcat (fuel : nat) (dest src : Z) : M (mem Z) Z :=
  let! tmp := scan_nul fuel dest in
  do! copy_str fuel tmp src in
  ret dest.

Definition strncat (fuel : nat) (dest src n : Z) : M (mem Z) Z :=
  let! tmp := scan_nul fuel dest in
  let! tmp := loop (S (Z.to_nat n)) (fun '(tmp, src, n) =>
      if negb (0 <? n) then ret (inr tmp)
      else
        let! c := load src in
        do! store8 tmp c in
        if c =? 0 then ret (inr tmp) else ret (inl (tmp + 1, src + 1, n - 1)))
      (tmp, src, n) in
  do! store8 tmp 0 in
  ret dest.

Definition strlcat (fuel : nat) (dest src size : Z) : M (mem Z) Z :=
  let! d := loop (S (Z.to_nat size)) (fun '(d, n) =>
      if n =? 0 then ret (inr d)
      else
        let! c := load d in
        if c =? 0 then ret (inr d) else ret (inl (d + 1, n - 1))) (dest, size) in
  let dlen := u64 (d - dest) in
  let n := u64 (size - dlen) in
  if n =? 0 then
    let! k := strlen fuel src in
    ret (u64 (dlen + k))
  else
    let! '(d, s) := loop fuel (fun '(d, s, n) =>
        let! c := load s in
        if c =? 0 then ret (inr (d, s))
        else
          let! '(d, n) :=
            (if negb (n =? 1) then
               let! c := load s in
               do! store8 d c in
               ret (d + 1, n - 1)
             else ret (d, n)) in
          ret (inl (d, s + 1, n))) (d, src, n) in
    do! store8 d 0 in
    ret (u64 (dlen + (s - src))).

Definition abc := blit ∅ 16 [97; 98; 99; 100; 101; 102; 103; 104; 105; 0; 7; 7; 7; 7; 7; 7].
Definition room := blit abc 40 (replicate 24 1).
Example strlen_ex : strlen 20 17 abc = Ok (8, abc). Proof. vm_compute. reflexivity. Qed.
Example strcpy_ex : strcpy 20 43 17 room = Ok (43, blit room 43 [98; 99; 100; 101; 102; 103; 104; 105; 0]).
Proof. vm_compute. reflexivity. Qed.
Example strlcpy_ex : strlcpy 20 43 17 4 room = Ok (8, blit room 43 [98; 99; 100; 0]).
Proof. vm_compute. reflexivity. Qed.

(** ** The zero-byte test is exact *)

Lemma ones_word : ones = le_word (replicate 8 1).
Proof. reflexivity. Qed.

Lemma highs_word : highs = le_word (replicate 8 128).
Proof. reflexivity. Qed.

(** A byte [b >= 1] never has bit 7 of both [b - 1] and [~ b]. *)
Lemma nonzero_byte_bit b r :
  1 <= b < 256 -> 0 <= r < 8 ->
  Z.testbit (b - 1) r && negb (Z.testbit b r) && Z.testbit 128 r = false.
Proof.
  intros Hb Hr.
  assert (Hall : forallb (fun b => forallb (fun r =>
    negb (Z.testbit (b - 1) r && negb (Z.testbit b r) && Z.testbit 128 r)) (seqZ 0 8))
    (seqZ 1 255) = true) by (vm_compute; reflexivity).
  rewrite forallb_forall in Hall.
  assert (In b (seqZ 1 255)) as HIn by (apply list_elem_of_In, elem_of_seqZ; lia).
  specialize (Hall b HIn). cbv beta in Hall. rewrite forallb_forall in Hall.
  apply negb_true_iff, Hall, list_elem_of_In, elem_of_seqZ. lia.
Qed.

Lemma sub_ones l :
  Forall (fun b => 1 <= b < 256) l ->
  le_word l - le_word (replicate (length l) 1) = le_word (map Z.pred l) /\
  Forall byte_ok (map Z.pred l).
Proof.
  induction 1 as [|b l Hb Hl [IH IHb]]; cbn [length replicate le_word map]; [done|].
  split; [rewrite <- IH; lia|]. constructor; [unfold byte_ok; lia|done].
Qed.

Lemma has_zero_nonzero l :
  length l = 8%nat -> Forall (fun b => 1 <= b < 256) l -> has_zero (le_word l) = false.
Proof.
  intros Hl Hb. unfold has_zero. apply negb_false_iff, Z.eqb_eq.
  destruct (sub_ones l Hb) as [Hs Hp]. rewrite Hl in Hs.
  pose proof (nonzero_bytes _ Hb) as Hok.
  pose proof (le_word_bound _ Hok) as Hbd. pose proof (le_word_bound _ Hp) as Hbp.
  rewrite length_map, Hl in Hbp. rewrite Hl in Hbd.
  rewrite ones_word, Hs, highs_word, u64_small by lia.
  apply Z.bits_inj'. intros n Hn. rewrite Z.bits_0, !Z.land_spec.
  destruct (Z.lt_ge_cases n 64) as [Hlt|Hge].
  2: { rewrite (le_word_testbit_out (replicate 8 128)); [by rewrite andb_false_r| |done].
       by apply Forall_replicate. }
  unfold wrap. rewrite Z.mod_pow2_bits_low, Z.lnot_spec by lia.
  set (i := Z.to_nat (n / 8)). set (r := n mod 8).
  assert (Hi : n = 8 * Z.of_nat i + r /\ 0 <= r < 8 /\ (i < 8)%nat).
  { unfold i, r. rewrite Z2Nat.id by (apply Z.div_pos; lia).
    pose proof (Z.div_mod n 8 ltac:(lia)). pose proof (Z.mod_pos_bound n 8 ltac:(lia)).
    assert (n / 8 < 8) by (apply Z.div_lt_upper_bound; lia).
    assert (0 <= n / 8) by (apply Z.div_pos; lia). lia. }
  clearbody i r. destruct Hi as (-> & Hr & Hi).
  destruct (lookup_lt_is_Some_2 l i) as [b Eb]; [lia|].
  rewrite (le_word_testbit _ i (b - 1)), (le_word_testbit l i b),
          (le_word_testbit _ i 128); try done.
  - apply nonzero_byte_bit; [|done]. by eapply Forall_lookup_1 in Hb.
  - by apply Forall_replicate.
  - by apply lookup_replicate_2.
  - rewrite list_lookup_fmap, Eb. done.
Qed.

(** With its lowest zero byte after the nonzero bytes [l1], bit 7 of that
    byte survives the three masks. *)
Lemma has_zero_zero l1 l2 :
  length (l1 ++ 0 :: l2) = 8%nat -> Forall (fun b => 1 <= b < 256) l1 -> Forall byte_ok l2 ->
  has_zero (le_word (l1 ++ 0 :: l2)) = true.
Proof.
  intros Hl H1 H2. rewrite length_app in Hl. cbn in Hl.
  set (k := 8 * Z.of_nat (length l1)). set (N := 7 + k).
  assert (Hall : Forall byte_ok (l1 ++ 0 :: l2)).
  { apply Forall_app. split; [by apply nonzero_bytes|]. by constructor. }
  assert (HN : 0 <= N < 64) by (unfold N, k; lia).
  assert (HNk : N = 8 * Z.of_nat (length l1) + 7) by (unfold N, k; lia).
  unfold has_zero. apply negb_true_iff, Z.eqb_neq. intros E.
  apply (f_equal (fun z => Z.testbit z N)) in E. revert E.
  rewrite Z.bits_0, !Z.land_spec. unfold wrap at 1 2.
  rewrite !Z.mod_pow2_bits_low, Z.lnot_spec by lia.
  rewrite HNk at 2 3. rewrite (le_word_testbit _ (length l1) 0) by
    (done || lia || by apply list_lookup_middle).
  rewrite highs_word, (le_word_testbit _ (length l1) 128) by
    (lia || (by apply Forall_replicate) || (apply lookup_replicate_2; lia)).
  destruct (sub_ones l1 H1) as [Hs Hp]. pose proof (le_word_bound _ Hp) as Hb.
  rewrite length_map in Hb.
  assert (Hpow : 256 ^ Z.of_nat (length l1) = 2 ^ k).
  { unfold k. rewrite Z.pow_mul_r by lia. done. }
  rewrite ones_word, le_word_app, Hpow in *.
  replace 8%nat with (length l1 + S (7 - length l1))%nat by lia.
  rewrite replicate_add, le_word_app, length_replicate, Hpow.
  cbn [replicate le_word]. set (w := le_word (replicate (7 - length l1) 1)). set (v := le_word l2).
  replace (le_word l1 + 2 ^ k * (0 + 256 * v) -
           (le_word (replicate (length l1) 1) + 2 ^ k * (1 + 256 * w)))
    with (le_word (map Z.pred l1) + 2 ^ k * (255 + 256 * (v - w - 1))) by (rewrite <- Hs; lia).
  unfold N. rewrite testbit_high, testbit_low by (done || lia). done.
Qed.

(** The word test on any eight bytes. *)
Lemma has_zero_iff l :
  length l = 8%nat -> Forall byte_ok l -> has_zero (le_word l) = existsb (Z.eqb 0) l.
Proof.
  intros Hl Hb.
  assert (Hsplit : forall l : list Z, Forall byte_ok l ->
    (Forall (fun b => 1 <= b < 256) l /\ existsb (Z.eqb 0) l = false) \/
    (exists l1 l2, l = l1 ++ 0 :: l2 /\ Forall (fun b => 1 <= b < 256) l1 /\
       existsb (Z.eqb 0) l = true)).
  { clear. induction 1 as [|b l Hb Hl IH]; [by left|]. unfold byte_ok in Hb. cbn [existsb].
    destruct (Z.eqb_spec 0 b) as [<-|Hne].
    - right. by exists [], l.
    - destruct IH as [[? ->]|(l1 & l2 & -> & H1 & ->)].
      + left. split; [constructor; [lia|done]|done].
      + right. exists (b :: l1), l2. split; [done|]. split; [|done].
        constructor; [lia|done]. }
  destruct (Hsplit l Hb) as [[H ->]|(l1 & l2 & -> & H1 & ->)].
  - by apply has_zero_nonzero.
  - apply has_zero_zero; [done|done|]. by apply Forall_app in Hb as [_ [_ ?]%Forall_cons].
Qed.

(** The word test is exact: for a word of any eight bytes it answers
    whether one of them is zero, with no false positive. *)
Theorem has_zero_exact l :
  length l = 8%nat -> Forall byte_ok l -> has_zero (le_word l) = existsb (Z.eqb 0) l.
Proof. apply has_zero_iff. Qed.

(** ** Scans *)

(** [q] is a position inside the string [l] at [p]: the rest of it, [l'],
    starts there. *)
Definition at_suffix (m : mem Z) (p : Z) (l : list Z) (q : Z) (l' : list Z) : Prop :=
  p <= q /\ cstr m q l' /\ q + Z.of_nat (length l') = p + Z.of_nat (length l).

Lemma at_suffix_refl m p l : cstr m p l -> at_suffix m p l p l.
Proof. done. Qed.

Lemma at_suffix_step m p l q b l' :
  at_suffix m p l q (b :: l') -> m !! q = Some b /\ 1 <= b < 256 /\ at_suffix m p l (q + 1) l'.
Proof.
  intros (Hq & Hc & Hl). apply cstr_cons in Hc as (Hb & Hr & Hc).
  cbn [length] in Hl. unfold at_suffix. split_and!; done || lia.
Qed.

Lemma at_suffix_nil m p l q :
  at_suffix m p l q [] -> m !! q = Some 0 /\ q = p + Z.of_nat (length l).
Proof. intros (Hq & Hc & Hl). apply cstr_nil in Hc. cbn in Hl. split; [done|lia]. Qed.

Lemma scan_nul_ok fuel p l m :
  cstr m p l -> (length l < fuel)%nat ->
  wp (scan_nul fuel p) (fun q m' => q = p + Z.of_nat (length l) /\ m' = m) m.
Proof.
  intros Hc Hf. unfold scan_nul.
  apply (wp_loop (fun q m' => m' = m /\ exists l', at_suffix m p l q l')
           (fun q => Z.to_nat (p + Z.of_nat (length l) - q)));
    [|by eauto using at_suffix_refl|lia].
  intros q m' [-> [[|b l'] Hs]]; wp_step.
  - apply at_suffix_nil in Hs as [H0 ->]. eapply wp_load; [done|]. by apply wp_ret.
  - pose proof (at_suffix_step _ _ _ _ _ _ Hs) as (Hb & Hr & Hs').
    eapply wp_load; [done|]. destruct (Z.eqb_spec b 0); [lia|]. wp_step.
    split; [by eauto|]. destruct Hs' as (_ & _ & Hl). destruct Hs as (? & _ & _). lia.
Qed.

(** Reading the aligned word at a position of the string: if it holds a zero
    byte the test sees it, otherwise it is the next eight characters. *)
Lemma wp_test_word m q l (Q : Z -> mem Z -> Prop) :
  bytes_ok m -> word_mapped m -> q mod 8 = 0 -> cstr m q l ->
  (forall w, has_zero (le_word w) = true -> Q (le_word w) m) ->
  (forall w l', l = w ++ l' -> length w = 8%nat -> cells m q w -> Forall byte_ok w ->
     has_zero (le_word w) = false -> Q (le_word w) m) ->
  wp (load64 q) Q m.
Proof.
  intros Hb Hw Hq Hc H1 H2.
  assert (Hm : mapped m q 8).
  { apply word_mapped_aligned; [done| |done]. apply (cstr_mapped _ _ _ Hc). lia. }
  destruct (mapped_cells m q 8 Hb Hm) as [Hr Hok].
  pose proof (range_length m q 8 Hm) as Hl. change (Z.to_nat 8) with 8%nat in Hl.
  apply (wp_load64 _ _ (range m q 8)); [done|done|].
  destruct (has_zero (le_word (range m q 8))) eqn:E; [by apply H1|].
  destruct (cstr_prefix m q l (range m q 8)) as [l' ->]; [done|done| |by eapply H2].
  by rewrite <- has_zero_iff.
Qed.

Lemma at_suffix_word m p l q w l' :
  at_suffix m p l q (w ++ l') -> length w = 8%nat -> at_suffix m p l (q + 8) l'.
Proof.
  intros (Hq & Hc & Hl) Hw. apply cstr_app in Hc as (_ & _ & Hc). rewrite Hw in Hc.
  rewrite length_app in Hl. unfold at_suffix. split_and!; done || lia.
Qed.

Lemma scan_words_ok fuel p l m :
  bytes_ok m -> word_mapped m -> p mod 8 = 0 -> cstr m p l -> (length l < fuel)%nat ->
  wp (scan_words fuel p) (fun q m' => m' = m /\ exists l', at_suffix m p l q l') m.
Proof.
  intros Hb Hw Hp Hc Hf. unfold scan_words.
  apply (wp_loop (fun q m' => m' = m /\ q mod 8 = 0 /\ exists l', at_suffix m p l q l')
           (fun q => Z.to_nat (p + Z.of_nat (length l) - q)));
    [|by eauto using at_suffix_refl|lia].
  intros q m' (-> & Hq & l' & Hs). wp_step.
  apply (wp_test_word m q l'); [done|done|done|apply Hs| |].
  - intros w ->. apply wp_ret. by eauto.
  - intros w l'' -> Hlw _ _ ->. apply wp_ret.
    pose proof (at_suffix_word _ _ _ _ _ _ Hs Hlw) as Hs'.
    split; [split; [done|split; [|by eauto]]|].
    + rewrite <- Z.add_mod_idemp_l, Hq by lia. done.
    + destruct Hs' as (_ & _ & Hl), Hs as (? & _ & _). lia.
Qed.

(** The three phases of [strlen] together. *)
Lemma strlen_ok fuel s l m :
  bytes_ok m -> word_mapped m -> cstr m s l ->
  0 <= s -> s + Z.of_nat (length l) < 2 ^ 64 -> (length l < fuel)%nat ->
  strlen fuel s m = Ok (Z.of_nat (length l), m).
Proof.
  intros Hb Hw Hc Hs Hs' Hf. apply wp_eq. unfold strlen. wp_step.
  eapply (wp_mono _ (fun r m' => m' = m /\ match r with
    | inr n => n = Z.of_nat (length l)
    | inl q => q mod 8 = 0 /\ exists l', at_suffix m s l q l'
    end)).
  { intros [q|n] m' [-> H]; [|by wp_step].
    destruct H as (Hq & l' & Hsuf).
    assert (Hll : (length l' <= length l)%nat) by (destruct Hsuf as (? & _ & ?); lia).
    wp_step. eapply wp_mono; [|apply (scan_words_ok fuel q l'); [done..|apply Hsuf|lia]].
    intros q' m' [-> [l'' Hs'']]. wp_step.
    destruct Hs'' as (? & Hc'' & Hl''), Hsuf as (? & _ & Hl').
    eapply wp_mono; [|apply (scan_nul_ok fuel q' l''); [done|lia]].
    intros q'' m' [-> ->]. wp_step. split; [|done]. rewrite u64_small; lia. }
  rewrite land_7. destruct (Z.eqb_spec (s mod 8) 0) as [H8|_]; cbn [negb].
  { apply wp_ret. by eauto using at_suffix_refl. }
  apply (wp_loop (fun q m' => m' = m /\ exists l', at_suffix m s l q l')
           (fun q => Z.to_nat (s + Z.of_nat (length l) - q)));
    [|by eauto using at_suffix_refl|lia].
  intros q m' [-> [l' Hsuf]]. rewrite land_7.
  destruct (Z.eqb_spec (q mod 8) 0) as [H8|_]; wp_step; [by eauto|].
  destruct l' as [|b l'].
  - apply at_suffix_nil in Hsuf as [H0 ->]. eapply wp_load; [done|]. apply wp_ret.
    split; [done|]. rewrite u64_small; lia.
  - pose proof (at_suffix_step _ _ _ _ _ _ Hsuf) as (Hb' & Hr & Hsuf').
    eapply wp_load; [done|]. destruct (Z.eqb_spec b 0); [lia|]. wp_step.
    split; [by eauto|]. destruct Hsuf' as (_ & _ & Hl), Hsuf as (? & _ & _). lia.
Qed.

(** C3. [strlen] is the number of bytes before the NUL, for every alignment
    of the string: the byte prefix, the word scan (which may read past the
    NUL, but never outside the aligned word that holds it) and the final byte
    scan agree with a byte-by-byte count. *)
Theorem strlen_correct fuel s l m :
  bytes_ok m -> word_mapped m -> cstr m s l ->
  0 <= s -> s + Z.of_nat (length l) < 2 ^ 64 -> (length l < fuel)%nat ->
  strlen fuel s m = Ok (Z.of_nat (length l), m).
Proof. apply strlen_ok. Qed.

(** ** Copying *)

(** [l] and its NUL are left to copy from [s] to [d], and doing so gives [mf]. *)
Definition copy_left (mf : mem Z) (d s : Z) (l : list Z) (m : mem Z) : Prop :=
  cstr m s l /\ mapped m d (Z.of_nat (length l) + 1) /\
  disjoint d (Z.of_nat (length l) + 1) s (Z.of_nat (length l) + 1) /\
  blit m d (l ++ [0]) = mf.

Lemma copy_left_step mf d s w l m :
  copy_left mf d s (w ++ l) m ->
  copy_left mf (d + Z.of_nat (length w)) (s + Z.of_nat (length w)) l (blit m d w).
Proof.
  unfold copy_left, disjoint. rewrite length_app. intros (Hc & Hm & Hd & Heq).
  apply cstr_app in Hc as (_ & _ & Hc). split_and!.
  - apply cstr_blit_out; [done|]. unfold disjoint. lia.
  - apply blit_mapped. eapply mapped_sub; [done|lia|lia].
  - lia.
  - by rewrite <- app_assoc, blit_app in Heq.
Qed.

(** One character: either the NUL is stored and the copy is complete, or one
    more byte is in place. *)
Lemma copy_left_char mf d s l m :
  copy_left mf d s l m ->
  exists c, m !! s = Some c /\ byte_ok c /\ is_Some (m !! d) /\
    ((c = 0 /\ l = [] /\ <[d:=c]> m = mf) \/
     (c <> 0 /\ exists l', l = c :: l' /\ copy_left mf (d + 1) (s + 1) l' (<[d:=c]> m))).
Proof.
  intros HI. pose proof HI as (Hc & Hm & Hd & Heq). destruct l as [|c l].
  - exists 0. apply cstr_nil in Hc. split_and!; [done|done|apply Hm; cbn; lia|by left].
  - exists c. apply (copy_left_step mf d s [c] l) in HI.
    apply cstr_cons in Hc as (H0 & Hr & _). unfold byte_ok.
    split_and!; [done|lia|lia|apply Hm; cbn; lia|]. right. split; [lia|by exists l].
Qed.

Lemma copy_str_ok mf fuel d s l m :
  copy_left mf d s l m -> (length l < fuel)%nat ->
  wp (copy_str fuel d s) (fun _ m' => m' = mf) m.
Proof.
  intros HI Hf. unfold copy_str.
  apply (wp_loop (fun '(x, y) m' => exists l', copy_left mf x y l' m' /\
                    y + Z.of_nat (length l') = s + Z.of_nat (length l))
           (fun '(_, y) => Z.to_nat (s + Z.of_nat (length l) - y))); [|by eauto|lia].
  intros [x y] m' (l' & HI' & Hy).
  destruct (copy_left_char _ _ _ _ _ HI') as (c & Hc & Hok & Hm & Hcase).
  wp_step. eapply wp_load; [done|]. wp_step. apply wp_store; [done|].
  rewrite u8_byte by done. destruct Hcase as [(-> & -> & ->)|(Hne & l'' & -> & HI'')].
  - by apply wp_ret.
  - destruct (Z.eqb_spec c 0); [lia|]. wp_step. cbn [length] in Hy.
    split; [exists l''; split; [done|lia]|lia].
Qed.

(** The same with memory fit for the word scans; [e] is the address of the
    source's NUL, which bounds the remaining iterations. *)
Definition copy_inv (mf : mem Z) (e d s : Z) (m : mem Z) : Prop :=
  bytes_ok m /\ word_mapped m /\
  exists l, copy_left mf d s l m /\ s + Z.of_nat (length l) = e.

Lemma copy_inv_step mf e d s w l m :
  bytes_ok m -> word_mapped m -> copy_left mf d s (w ++ l) m ->
  s + Z.of_nat (length (w ++ l)) = e ->
  copy_inv mf e (d + Z.of_nat (length w)) (s + Z.of_nat (length w)) (blit m d w).
Proof.
  intros Hok Hw HI He. pose proof HI as ((_ & Hb) & Hm & _ & _).
  apply Forall_app in Hb as [Hb _]. rewrite length_app in He, Hm. split_and!.
  - apply bytes_ok_blit; [done|by apply nonzero_bytes].
  - apply word_mapped_blit; [|done]. eapply mapped_sub; [done|lia|lia].
  - exists l. split; [by apply copy_left_step|lia].
Qed.

Lemma strcpy_prefix_ok mf e fuel d s m :
  copy_inv mf e d s m -> (Z.to_nat (e - s) < fuel)%nat ->
  wp (strcpy_prefix fuel d s)
     (fun r m' => match r with
                  | Some (d', s') => copy_inv mf e d' s' m' /\ s <= s' /\ s' mod 8 = 0
                  | None => m' = mf
                  end) m.
Proof.
  intros HI Hf. unfold strcpy_prefix.
  apply (wp_loop (fun '(x, y) m' => copy_inv mf e x y m' /\ s <= y)
           (fun '(_, y) => Z.to_nat (e - y))); [|by eauto with lia|done].
  intros [x y] m' ((Hok & Hw & l & HI' & He) & Hy). rewrite land_7.
  destruct (Z.eqb_spec (y mod 8) 0) as [H8|_]; wp_step.
  { split; [|done]. split_and!; [done|done|by exists l]. }
  destruct (copy_left_char _ _ _ _ _ HI') as (c & Hc & Hcok & Hm & Hcase).
  eapply wp_load; [done|]. wp_step. apply wp_store; [done|].
  rewrite u8_byte by done. destruct Hcase as [(-> & -> & ->)|(Hne & l' & -> & _)].
  - by apply wp_ret.
  - destruct (Z.eqb_spec c 0); [lia|]. wp_step.
    split; [|cbn [length] in He; lia]. split; [|lia].
    by apply (copy_inv_step mf e x y [c] l' m').
Qed.

Lemma strcpy_words_ok mf e fuel d s m :
  copy_inv mf e d s m -> s mod 8 = 0 -> (Z.to_nat (e - s) < fuel)%nat ->
  wp (strcpy_words fuel d s) (fun '(d', s') m' => copy_inv mf e d' s' m' /\ s <= s') m.
Proof.
  intros HI H8 Hf. unfold strcpy_words.
  apply (wp_loop (fun '(x, y) m' => copy_inv mf e x y m' /\ s <= y /\ y mod 8 = 0)
           (fun '(_, y) => Z.to_nat (e - y))); [|by eauto with lia|done].
  intros [x y] m' ((Hok & Hw & l & HI' & He) & Hy & Hy8). pose proof HI' as (Hc & Hm & _ & _).
  wp_step. apply (wp_test_word m' y l); [done|done|done|done| |].
  - intros w ->. apply wp_ret. split; [|done]. split_and!; [done|done|by exists l].
  - intros w l' -> Hlw Hcw Hbw ->. wp_step. apply (wp_load64 _ _ w); [done|done|].
    wp_step. rewrite length_app in Hm.
    apply wp_store64; [done|done|eapply mapped_sub; [done|lia|lia]|]. wp_step.
    pose proof (copy_inv_step mf e x y w l' m' Hok Hw HI' He) as HI''. rewrite Hlw in HI''.
    rewrite length_app in He. split; [|lia]. split_and!; [done|lia|].
    rewrite <- Z.add_mod_idemp_l, Hy8 by lia. done.
Qed.

(** C9. [strcpy] stores the whole string and its NUL at [dest], changes
    nothing else and returns [dest], for every alignment of the source and
    any alignment of the destination. *)
Theorem strcpy_correct fuel dest src l m :
  bytes_ok m -> word_mapped m -> cstr m src l ->
  mapped m dest (Z.of_nat (length l) + 1) ->
  disjoint dest (Z.of_nat (length l) + 1) src (Z.of_nat (length l) + 1) ->
  (length l < fuel)%nat ->
  strcpy fuel dest src m = Ok (dest, blit m dest (l ++ [0])).
Proof.
  intros Hok Hw Hc Hm Hd Hf. apply wp_eq. unfold strcpy.
  set (mf := blit m dest (l ++ [0])). set (e := src + Z.of_nat (length l)).
  assert (HI : copy_inv mf e dest src m) by (split_and!; [done..|by exists l]).
  wp_step. eapply wp_mono; [|apply (strcpy_prefix_ok mf e); [done|lia]].
  intros [[d s]|] m'; [|intros ->; by apply wp_ret]. intros (HI' & Hs & H8).
  wp_step. eapply wp_mono; [|apply (strcpy_words_ok mf e); [done|done|lia]].
  intros [d' s'] m'' ((_ & _ & l' & HI'' & He) & Hs'). wp_step.
  eapply wp_mono; [|apply (copy_str_ok mf fuel d' s' l'); [done|lia]].
  intros _ m3 ->. by apply wp_ret.
Qed.

(** [strcat] appends: the string at [src] and its NUL go where the NUL of
    [dest] was, and nothing else changes. *)
Theorem strcat_correct fuel dest src ld l m :
  cstr m dest ld -> cstr m src l ->
  mapped m dest (Z.of_nat (length ld + length l) + 1) ->
  disjoint (dest + Z.of_nat (length ld)) (Z.of_nat (length l) + 1)
           src (Z.of_nat (length l) + 1) ->
  (length ld < fuel)%nat -> (length l < fuel)%nat ->
  strcat fuel dest src m = Ok (dest, blit m (dest + Z.of_nat (length ld)) (l ++ [0])).
Proof.
  intros Hc Hs Hm Hd Hf1 Hf2. apply wp_eq. unfold strcat.
  wp_step. eapply wp_mono; [|by apply (scan_nul_ok fuel dest ld)].
  intros tmp m' [-> ->].
  wp_step. eapply wp_mono; [|apply (copy_str_ok (blit m (dest + Z.of_nat (length ld)) (l ++ [0])) fuel _ src l);
    [|done]].
  - intros _ m' ->. by wp_step.
  - split_and!; [done| |done|done]. eapply mapped_sub; [done|lia|lia].
Qed.

(** ** Bounded functions *)

(** [strnlen] returns the number of bytes before the first NUL among the
    first [maxlen], given that the byte it stops at can be read. *)
Theorem strnlen_correct s maxlen l m :
  0 <= maxlen < 2 ^ 64 -> 0 <= s -> s + maxlen < 2 ^ 64 -> cstrn m s maxlen l ->
  is_Some (m !! (s + Z.of_nat (length l))) ->
  strnlen s maxlen m = Ok (Z.of_nat (length l), m).
Proof.
  intros Hn Hs Hs' Hc Hr. apply wp_eq. unfold strnlen.
  apply (wp_loop (fun '(q, n) m' => m' = m /\ s <= q /\ exists l', cstrn m q n l' /\
           q + Z.of_nat (length l') = s + Z.of_nat (length l) /\ 0 <= n /\ q + n = s + maxlen)
           (fun '(_, n) => Z.to_nat n)); [|split_and!; eauto with lia|lia].
  intros [q n] m' (-> & Hq & l' & Hc' & Hl & Hn0 & Hqn).
  apply cstrn_inv in Hc' as [[-> Hend]|(b & l'' & -> & Hn1 & Hb & Hb' & Hc')]; wp_step.
  - cbn in Hl. rewrite Z.add_0_r in Hl. subst q. destruct Hr as [c Hc0].
    apply (wp_load _ _ c); [done|].
    assert ((c =? 0) || (n =? 0) = true) as -> by (destruct Hend as [->|[? ?]];
      [by rewrite orb_true_r|by assert (c = 0) as -> by congruence]).
    wp_step. split; [|done]. rewrite u64_small; lia.
  - apply (wp_load _ _ b); [done|].
    destruct (Z.eqb_spec b 0); [lia|]. destruct (Z.eqb_spec n 0); [lia|]. cbn [orb].
    cbn [length] in Hl. wp_step. split; [|lia]. split_and!; [done|lia|].
    exists l''. split_and!; [done|lia..].
Qed.

(** [strnlen] reads one byte past its bound: on [maxlen] readable
    non-NUL bytes followed by an unmapped one it faults, where the answer
    [maxlen] needs no further read. *)
Theorem strnlen_overread s maxlen l m :
  0 <= maxlen -> cstrn m s maxlen l -> Z.of_nat (length l) = maxlen ->
  m !! (s + maxlen) = None ->
  strnlen s maxlen m = Fault.
Proof.
  intros Hn (Hc & Hb & _) Hl Hu. unfold strnlen.
  assert (Hgo : forall l s maxlen f, cells m s l -> Forall (fun b => 1 <= b < 256) l ->
    Z.of_nat (length l) = maxlen -> m !! (s + maxlen) = None -> (length l < f)%nat ->
    forall base, loop f (fun '(es, maxlen) =>
      let! c := load es in
      if (c =? 0) || (maxlen =? 0) then ret (inr (u64 (es - base)))
      else ret (inl (es + 1, maxlen - 1))) (s, maxlen) m = Fault).
  { clear. induction l as [|b l IH]; intros s n [|f] Hc Hb <- Hu Hf base; try (cbn in Hf; lia);
      cbn [loop]; unfold bind at 1, bind at 1, load at 1.
    - cbn in Hu. rewrite Z.add_0_r in Hu. by rewrite Hu.
    - apply cells_cons in Hc as [-> Hc]. apply Forall_cons in Hb as [Hb' Hb].
      cbn [length] in *. destruct (Z.eqb_spec b 0); [lia|]. destruct (Z.eqb_spec (Z.of_nat (S (length l))) 0); [lia|].
      cbn [orb]. unfold ret at 1. apply IH; [done|done|lia| |lia].
      rewrite <- Hu. f_equal. lia. }
  apply Hgo with l; [done|done|done|done|lia].
Qed.

(** [n] bytes are left to fill from [s] to [d]. *)
Definition ncopy_left (mf : mem Z) (d s n : Z) (l : list Z) (m : mem Z) : Prop :=
  0 <= n /\ cstrn m s n l /\ mapped m d n /\
  disjoint d n s (Z.min n (Z.of_nat (length l) + 1)) /\
  blit m d (l ++ replicate (Z.to_nat (n - Z.of_nat (length l))) 0) = mf.

Lemma ncopy_left_step mf d s n b l m :
  ncopy_left mf d s n (b :: l) m ->
  ncopy_left mf (d + 1) (s + 1) (n - 1) l (<[d:=b]> m).
Proof.
  intros (Hn & Hc & Hm & Hd & Heq). unfold disjoint in Hd. cbn [length] in *.
  apply cstrn_inv in Hc as [[? _]|(? & ? & [= <- <-] & Hn1 & Hb & Hr & Hc)]; [done|].
  split_and!; [lia| | | |].
  - apply (cstrn_blit_out m (s + 1) (n - 1) l d [b]); [done|]. unfold disjoint. cbn. lia.
  - apply mapped_insert. eapply mapped_sub; [done|lia|lia].
  - unfold disjoint. lia.
  - rewrite <- Heq. cbn [app blit]. do 3 f_equal. lia.
Qed.

(** C38. [strncpy] fills exactly [count] bytes: the characters before the
    first NUL of the source and then NULs; nothing else changes, and without
    a NUL in the first [count] bytes the result is not terminated. *)
Theorem strncpy_correct dest src count l m :
  0 <= count < 2 ^ 64 -> cstrn m src count l -> mapped m dest count ->
  disjoint dest count src (Z.min count (Z.of_nat (length l) + 1)) ->
  strncpy dest src count m =
    Ok (dest, blit m dest (l ++ replicate (Z.to_nat (count - Z.of_nat (length l))) 0)).
Proof.
  intros Hn Hc Hm Hd. apply wp_eq. unfold strncpy. set (mf := blit m dest _).
  wp_step. eapply (wp_mono _ (fun '(d, n) m' =>
    0 <= n /\ mapped m' d n /\ blit m' d (replicate (Z.to_nat n) 0) = mf)).
  { intros [d n] m' (Hn' & Hm' & Heq). wp_step.
    apply (wp_loop (fun '(d, n) m' =>
      0 <= n /\ mapped m' d n /\ blit m' d (replicate (Z.to_nat n) 0) = mf)
      (fun '(_, n) => Z.to_nat n)); [|done|lia].
    clear d n m' Hn' Hm' Heq. intros [d n] m' (Hn' & Hm' & Heq). wp_if; wp_step.
    - subst n. by apply wp_ret.
    - apply wp_store; [apply Hm'; lia|]. wp_step. split; [|lia]. split_and!; [lia| |].
      + apply mapped_insert. eapply mapped_sub; [done|lia|lia].
      + rewrite <- Heq. replace (Z.to_nat n) with (S (Z.to_nat (n - 1))) by lia. done. }
  apply (wp_loop (fun '(d, s, n) m' => exists l, ncopy_left mf d s n l m')
           (fun '(_, _, n) => Z.to_nat n)); [|exists l; split_and!; [lia|done..]|lia].
  intros [[d s] n] m' (l' & HI). pose proof HI as (Hn' & Hc' & Hm' & Hd' & Heq).
  apply cstrn_inv in Hc' as [[-> [->|[Hn1 H0]]]|(b & l'' & -> & Hn1 & Hb & Hr & _)].
  - cbn. apply wp_ret. done.
  - destruct (Z.eqb_spec n 0); [lia|]. wp_step. eapply wp_load; [done|]. wp_step.
    apply wp_store; [apply Hm'; lia|]. apply wp_ret. cbn [app length] in Heq.
    rewrite Z.sub_0_r in Heq. split_and!; [lia|by apply mapped_insert|].
    rewrite <- Heq. replace (Z.to_nat n) with (S (Z.to_nat (n - 1))) by lia.
    cbn [replicate blit]. by rewrite insert_insert_eq.
  - destruct (Z.eqb_spec n 0); [lia|]. wp_step. eapply wp_load; [done|]. wp_step.
    apply wp_store; [apply Hm'; lia|]. destruct (Z.eqb_spec b 0); [lia|]. wp_step.
    rewrite u8_byte by (unfold byte_ok; lia). split; [|lia].
    exists l''. by apply ncopy_left_step.
Qed.

(** [strncat]'s copy loop: what it and the final [*tmp = 0] write. *)
Definition ncat_left (mf : mem Z) (d s n : Z) (l : list Z) (m : mem Z) : Prop :=
  0 <= n /\ cstrn m s n l /\ mapped m d (Z.of_nat (length l) + 1) /\
  disjoint d (Z.of_nat (length l) + 1) s (Z.min n (Z.of_nat (length l) + 1)) /\
  blit m d (l ++ [0]) = mf.

Lemma ncat_left_step mf d s n b l m :
  ncat_left mf d s n (b :: l) m -> ncat_left mf (d + 1) (s + 1) (n - 1) l (<[d:=b]> m).
Proof.
  intros (Hn & Hc & Hm & Hd & Heq). unfold disjoint in Hd. cbn [length] in *.
  apply cstrn_inv in Hc as [[? _]|(? & ? & [= <- <-] & Hn1 & Hb & Hr & Hc)]; [done|].
  split_and!; [lia| | | |done].
  - apply (cstrn_blit_out m (s + 1) (n - 1) l d [b]); [done|]. unfold disjoint. cbn. lia.
  - apply mapped_insert. eapply mapped_sub; [done|lia|lia].
  - unfold disjoint. lia.
Qed.

(** C37. [strncat] appends at most [n] characters of the source, always
    followed by a NUL, and changes nothing else. *)
Theorem strncat_correct fuel dest src n ld l m :
  0 <= n < 2 ^ 64 -> cstr m dest ld -> cstrn m src n l ->
  mapped m dest (Z.of_nat (length ld + length l) + 1) ->
  disjoint (dest + Z.of_nat (length ld)) (Z.of_nat (length l) + 1)
           src (Z.min n (Z.of_nat (length l) + 1)) ->
  (length ld < fuel)%nat ->
  strncat fuel dest src n m = Ok (dest, blit m (dest + Z.of_nat (length ld)) (l ++ [0])).
Proof.
  intros Hn Hc Hs Hm Hd Hf. apply wp_eq. unfold strncat.
  wp_step. eapply wp_mono; [|by apply (scan_nul_ok fuel dest ld)].
  intros tmp m' [-> ->]. set (d0 := dest + Z.of_nat (length ld)) in *. set (mf := blit m d0 _).
  wp_step. eapply (wp_mono _ (fun d m' => is_Some (m' !! d) /\ <[d:=0]> m' = mf)).
  { intros d m' [Hd' Heq]. wp_step. apply wp_store; [done|]. by apply wp_ret. }
  apply (wp_loop (fun '(d, s, n) m' => exists l, ncat_left mf d s n l m')
           (fun '(_, _, n) => Z.to_nat n)); [| |lia].
  2: { exists l. split_and!; [lia|done| |done|done]. eapply mapped_sub; [done|lia|lia]. }
  intros [[d s] k] m' (l' & HI). pose proof HI as (Hk & Hc' & Hm' & Hd' & Heq).
  assert (Hs0 : is_Some (m' !! d)) by (apply Hm'; lia).
  apply cstrn_inv in Hc' as [[-> [->|[Hn1 H0]]]|(b & l'' & -> & Hn1 & Hb & Hr & _)].
  - by apply wp_ret.
  - destruct (Z.ltb_spec 0 k); [|lia]. cbn [negb]. wp_step. eapply wp_load; [done|]. wp_step.
    apply wp_store; [done|]. apply wp_ret. cbn in Heq.
    split; [by apply lookup_insert_is_Some'; right|]. by rewrite insert_insert_eq.
  - destruct (Z.ltb_spec 0 k); [|lia]. cbn [negb]. wp_step. eapply wp_load; [done|]. wp_step.
    apply wp_store; [done|]. destruct (Z.eqb_spec b 0); [lia|]. wp_step.
    rewrite u8_byte by (unfold byte_ok; lia). split; [|lia].
    exists l''. by apply ncat_left_step.
Qed.

(** [strlcpy] and [strlcat] keep [n - 1] characters and a NUL. *)
Definition lcopy_left (mf : mem Z) (d s n : Z) (l : list Z) (m : mem Z) : Prop :=
  1 <= n /\ cstr m s l /\ mapped m d (Z.min n (Z.of_nat (length l) + 1)) /\
  disjoint d (Z.min n (Z.of_nat (length l) + 1)) s (Z.of_nat (length l) + 1) /\
  blit m d (take (Z.to_nat (n - 1)) l ++ [0]) = mf.

Lemma lcopy_left_step mf d s n b l m :
  lcopy_left mf d s n (b :: l) m -> 1 < n ->
  lcopy_left mf (d + 1) (s + 1) (n - 1) l (<[d:=b]> m).
Proof.
  intros (Hn & Hc & Hm & Hd & Heq) Hn1. unfold disjoint in Hd. cbn [length] in *.
  apply cstr_cons in Hc as (Hb & Hr & Hc). split_and!; [lia| | | |].
  - apply (cstr_blit_out m (s + 1) l d [b]); [done|]. unfold disjoint. cbn. lia.
  - apply mapped_insert. eapply mapped_sub; [done|lia|lia].
  - unfold disjoint. lia.
  - rewrite <- Heq. replace (Z.to_nat (n - 1)) with (S (Z.to_nat (n - 1 - 1))) by lia. done.
Qed.

(** A full destination: only the NUL is left to store, characters are skipped. *)
Lemma lcopy_left_skip mf d s b l m :
  lcopy_left mf d s 1 (b :: l) m -> lcopy_left mf d (s + 1) 1 l m.
Proof.
  intros (Hn & Hc & Hm & Hd & Heq). unfold disjoint in Hd. cbn [length] in *.
  apply cstr_cons in Hc as (Hb & Hr & Hc). split_and!; [lia|done| | |done].
  - eapply mapped_sub; [done|lia|lia].
  - unfold disjoint. lia.
Qed.

Lemma lcopy_left_end mf d s n m :
  lcopy_left mf d s n [] m -> is_Some (m !! d) /\ <[d:=0]> m = mf.
Proof.
  intros (Hn & _ & Hm & _ & Heq). rewrite take_nil in Heq. split; [|done].
  apply Hm. cbn [length]. lia.
Qed.

Lemma lcopy_left_full mf d s l m :
  lcopy_left mf d s 1 l m -> is_Some (m !! d) /\ <[d:=0]> m = mf.
Proof. intros (Hn & _ & Hm & _ & Heq). split; [|done]. apply Hm. lia. Qed.

(** The [do ... while (--n != 0)] of [strlcpy], with [n] characters of room
    before the NUL. *)
Lemma strlcpy_loop_ok mf fuel d s n l m :
  lcopy_left mf d s (n + 1) l m -> 0 < n -> (Z.to_nat n < fuel)%nat ->
  wp (loop fuel (fun '(d, s, n) =>
        let! c := load s in
        do! store8 d c in
        if c =? 0 then ret (inr (d + 1, s + 1, n))
        else if n - 1 =? 0 then ret (inr (d + 1, s + 1, n - 1))
        else ret (inl (d + 1, s + 1, n - 1))) (d, s, n))
     (fun '(d', s', n') m' =>
        (n' <> 0 /\ m' = mf /\ s' = s + Z.of_nat (length l) + 1) \/
        (n' = 0 /\ exists l', lcopy_left mf d' s' 1 l' m' /\
           s' + Z.of_nat (length l') = s + Z.of_nat (length l) /\ s <= s')) m.
Proof.
  intros HI Hn Hf.
  apply (wp_loop (fun '(x, y, k) m' => 0 < k /\ exists l', lcopy_left mf x y (k + 1) l' m' /\
           y + Z.of_nat (length l') = s + Z.of_nat (length l) /\ s <= y)
           (fun '(_, _, k) => Z.to_nat k)); [|split; [done|exists l; by split_and!]|done].
  intros [[x y] k] m' (Hk & l' & HI' & Hl & Hy). pose proof HI' as (_ & Hc & Hm & _ & Heq).
  wp_step. destruct l' as [|b l'].
  - apply lcopy_left_end in HI' as [Hx <-]. apply cstr_nil in Hc. cbn in Hl.
    eapply wp_load; [done|]. wp_step. apply wp_store; [done|]. apply wp_ret.
    left. split_and!; [lia|done|lia].
  - pose proof Hc as (Hb & Hr & _)%cstr_cons. eapply wp_load; [done|]. wp_step.
    apply wp_store; [apply Hm; cbn; lia|]. rewrite u8_byte by (unfold byte_ok; lia).
    destruct (Z.eqb_spec b 0); [lia|].
    apply lcopy_left_step in HI'; [|lia]. replace (k + 1 - 1) with (k - 1 + 1) in HI' by lia.
    cbn [length] in Hl. destruct (Z.eqb_spec (k - 1) 0) as [E|E]; wp_step.
    + right. split; [done|]. rewrite E in HI'. exists l'. split_and!; [done|lia|lia].
    + split; [|lia]. split; [lia|]. exists l'. split_and!; [done|lia|lia].
Qed.

(** [while ( *s++);] *)
Lemma skip_nul_ok fuel p l m :
  cstr m p l -> (length l < fuel)%nat ->
  wp (loop fuel (fun s =>
        let! c := load s in
        if c =? 0 then ret (inr (s + 1)) else ret (inl (s + 1))) p)
     (fun q m' => q = p + Z.of_nat (length l) + 1 /\ m' = m) m.
Proof.
  intros Hc Hf.
  apply (wp_loop (fun q m' => m' = m /\ exists l', at_suffix m p l q l')
           (fun q => Z.to_nat (p + Z.of_nat (length l) - q)));
    [|by eauto using at_suffix_refl|lia].
  intros q m' [-> [[|b l'] Hs]]; wp_step.
  - apply at_suffix_nil in Hs as [H0 ->]. eapply wp_load; [done|]. by apply wp_ret.
  - pose proof (at_suffix_step _ _ _ _ _ _ Hs) as (Hb & Hr & Hs').
    eapply wp_load; [done|]. destruct (Z.eqb_spec b 0); [lia|]. wp_step.
    split; [by eauto|]. destruct Hs' as (_ & _ & Hl), Hs as (? & _ & _). lia.
Qed.

(** What [strlcpy] leaves in memory. *)
Definition strlcpy_mem (m : mem Z) (dest size : Z) (l : list Z) : mem Z :=
  if size =? 0 then m else blit m dest (take (Z.to_nat (size - 1)) l ++ [0]).

(** C32. [strlcpy] always returns the length of the source; when [size > 0]
    the destination holds its first [size - 1] characters at most, NUL
    terminated, and nothing beyond them is written. *)
Theorem strlcpy_correct fuel dest src size l m :
  0 <= size < 2 ^ 64 -> cstr m src l -> 0 <= src -> src + Z.of_nat (length l) + 1 < 2 ^ 64 ->
  mapped m dest (Z.min size (Z.of_nat (length l) + 1)) ->
  disjoint dest (Z.min size (Z.of_nat (length l) + 1)) src (Z.of_nat (length l) + 1) ->
  (length l < fuel)%nat ->
  strlcpy fuel dest src size m = Ok (Z.of_nat (length l), strlcpy_mem m dest size l).
Proof.
  intros Hn Hc Hs Hs' Hm Hd Hf. apply wp_eq. unfold strlcpy, strlcpy_mem.
  destruct (Z.eqb_spec size 0) as [->|Hnz]; cbn [negb andb].
  { apply wp_bind, wp_ret, wp_bind, wp_bind, wp_ret.
    eapply wp_mono; [|by apply skip_nul_ok]. intros q m' [-> ->]. wp_step.
    split; [|done]. rewrite u64_small; lia. }
  set (mf := blit m dest _).
  assert (HI : lcopy_left mf dest src size l m) by (split_and!; [lia|done..]).
  wp_step. eapply (wp_mono _ (fun '(d', s', n') m' =>
        (n' <> 0 /\ m' = mf /\ s' = src + Z.of_nat (length l) + 1) \/
        (n' = 0 /\ exists l', lcopy_left mf d' s' 1 l' m' /\
           s' + Z.of_nat (length l') = src + Z.of_nat (length l) /\ src <= s'))).
  - intros [[d s] n] m' [(Hn' & -> & ->)|(-> & l' & HI' & Hl & Hls)]; wp_step.
    + destruct (Z.eqb_spec n 0); [done|]. apply wp_ret, wp_ret.
      split; [|done]. rewrite u64_small; lia.
    + apply wp_bind. destruct (lcopy_left_full _ _ _ _ _ HI') as [Hd' Heq].
      apply wp_store; [done|]. change (u8 0) with 0. rewrite Heq.
      eapply wp_mono; [|apply (skip_nul_ok fuel s l'); [|lia]].
      * intros q m'' [-> ->]. wp_step. split; [|done]. rewrite u64_small; lia.
      * rewrite <- Heq. destruct HI' as (_ & Hc' & _ & Hd'' & _). unfold disjoint in Hd''.
        apply (cstr_blit_out m' s l' d [0]); [done|]. unfold disjoint. cbn. lia.
  - destruct (Z.eqb_spec (size - 1) 0) as [E|E]; cbn [negb].
    + apply wp_ret. right. split; [done|]. replace size with 1 in HI by lia.
      exists l. split_and!; [done|lia|lia].
    + apply strlcpy_loop_ok; [by replace (size - 1 + 1) with size by lia|lia|lia].
Qed.

(** What [strlcat] leaves in memory, after [ld] at [dest]. *)
Definition strlcat_mem (m : mem Z) (dest size : Z) (ld l : list Z) : mem Z :=
  if Z.of_nat (length ld) =? size then m
  else blit m (dest + Z.of_nat (length ld))
            (take (Z.to_nat (size - Z.of_nat (length ld) - 1)) l ++ [0]).

Lemma strlcat_copy_ok mf fuel d s n l m :
  lcopy_left mf d s n l m -> (length l < fuel)%nat ->
  wp (let! '(d, s) := loop fuel (fun '(d, s, n) =>
        let! c := load s in
        if c =? 0 then ret (inr (d, s))
        else
          let! '(d, n) :=
            (if negb (n =? 1) then
               let! c := load s in
               do! store8 d c in
               ret (d + 1, n - 1)
             else ret (d, n)) in
          ret (inl (d, s + 1, n))) (d, s, n) in
      do! store8 d 0 in ret s)
     (fun s' m' => s' = s + Z.of_nat (length l) /\ m' = mf) m.
Proof.
  intros HI Hf. wp_step.
  apply (wp_loop (fun '(x, y, k) m' => exists l', lcopy_left mf x y k l' m' /\
           y + Z.of_nat (length l') = s + Z.of_nat (length l) /\ s <= y)
           (fun '(_, y, _) => Z.to_nat (s + Z.of_nat (length l) - y)));
    [|exists l; by split_and!|lia].
  intros [[x y] k] m' (l' & HI' & Hl & Hy). pose proof HI' as (Hk & Hc & Hm & _ & Heq).
  wp_step. destruct l' as [|b l'].
  - apply lcopy_left_end in HI' as [Hx Heq']. apply cstr_nil in Hc. cbn in Hl.
    eapply wp_load; [done|]. apply wp_ret. wp_step. apply wp_store; [done|]. apply wp_ret.
    split; [lia|done].
  - pose proof Hc as (Hb & Hr & _)%cstr_cons. eapply wp_load; [done|].
    destruct (Z.eqb_spec b 0); [lia|]. cbn [length] in Hl. wp_step.
    destruct (Z.eqb_spec k 1) as [->|Hk1]; cbn [negb].
    + apply wp_ret, wp_ret. apply lcopy_left_skip in HI'.
      split; [exists l'; split_and!; [done|lia|lia]|lia].
    + wp_step. eapply wp_load; [done|]. wp_step.
      apply wp_store; [apply Hm; cbn; lia|]. apply wp_ret, wp_ret.
      rewrite u8_byte by (unfold byte_ok; lia). apply lcopy_left_step in HI'; [|lia].
      split; [exists l'; split_and!; [done|lia|lia]|lia].
Qed.

(** C13. [strlcat] on a destination buffer of [size] bytes holding [ld]
    appends what fits, NUL terminated, and returns the length it tried to
    create; a destination with no NUL in its [size] bytes is left alone. *)
Theorem strlcat_correct fuel dest src size ld l m :
  bytes_ok m -> word_mapped m ->
  0 <= size < 2 ^ 63 -> cstrn m dest size ld -> cstr m src l ->
  0 <= dest -> dest + size < 2 ^ 63 -> 0 <= src -> src + Z.of_nat (length l) + 1 < 2 ^ 63 ->
  mapped m dest size -> disjoint dest size src (Z.of_nat (length l) + 1) ->
  (length l < fuel)%nat ->
  strlcat fuel dest src size m =
    Ok (Z.of_nat (length ld) + Z.of_nat (length l), strlcat_mem m dest size ld l).
Proof.
  intros Hok Hw Hn Hcd Hc Hd0 Hd1 Hs0 Hs1 Hm Hd Hf. apply wp_eq. unfold strlcat, strlcat_mem.
  set (k := Z.of_nat (length ld)).
  assert (Hk : 0 <= k <= size) by (destruct Hcd as (_ & _ & [?|[? _]]); lia).
  wp_step. eapply (wp_mono _ (fun d m' => d = dest + k /\ m' = m)).
  2: { apply (wp_loop (fun '(q, n) m' => m' = m /\ exists l', cstrn m q n l' /\ 0 <= n /\
           q + Z.of_nat (length l') = dest + k /\ dest <= q)
           (fun '(_, n) => Z.to_nat n)); [|split; [done|exists ld; split_and!; [done|lia..]]|lia].
    intros [q n] m' (-> & l' & Hc' & Hn' & Hl & Hq).
    apply cstrn_inv in Hc' as [[-> [->|[Hn1 H0]]]|(b & l'' & -> & Hn1 & Hb & Hr & Hc')];
      cbn [length] in Hl.
    - apply wp_ret. split; [lia|done].
    - destruct (Z.eqb_spec n 0); [lia|]. wp_step. eapply wp_load; [done|]. apply wp_ret.
      split; [lia|done].
    - destruct (Z.eqb_spec n 0); [lia|]. wp_step. eapply wp_load; [done|].
      destruct (Z.eqb_spec b 0); [lia|]. wp_step. split; [|lia]. split; [done|].
      exists l''. split_and!; [done|lia..]. }
  intros d m' [-> ->]. replace (dest + k - dest) with k by lia.
  rewrite (u64_small k), (u64_small (size - k)) by lia.
  destruct (Z.eqb_spec (size - k) 0), (Z.eqb_spec k size); try lia.
  - wp_step. eapply wp_mono; [|apply wp_eq, (strlen_ok fuel src l); done || lia].
    intros n m' [-> ->]. wp_step. split; [|done]. apply u64_small. lia.
  - set (mf := blit m _ _).
    assert (HI : lcopy_left mf (dest + k) src (size - k) l m).
    { unfold disjoint in *. split_and!; [lia|done| |unfold disjoint; lia|done].
      eapply mapped_sub; [done|lia|lia]. }
    pose proof (strlcat_copy_ok _ fuel _ _ _ _ _ HI Hf) as Hcopy. apply wp_bind_inv in Hcopy.
    wp_step. eapply wp_mono; [|exact Hcopy]. clear Hcopy. intros [d s] m' Hcopy.
    apply wp_bind_inv in Hcopy. wp_step. eapply wp_mono; [|exact Hcopy].
    intros _ m'' [-> ->]. wp_step. split; [|done]. rewrite u64_small; lia.
Qed.

(** ** Runs on concrete memories *)

(** The string abcdefghij from address 66, in three mapped words. *)
Definition ten : list Z := [97; 98; 99; 100; 101; 102; 103; 104; 105; 106].
Definition ten_at : mem Z := blit (blit ∅ 64 (replicate 24 0)) 66 ten.

Lemma has_zero_witness : has_zero (le_word [1; 2; 128; 0; 1; 255; 7; 8]) = true.
Proof. apply (has_zero_exact [1; 2; 128; 0; 1; 255; 7; 8]); decided. Defined.

Lemma strlen_witness : strlen 11 66 ten_at = Ok (10, ten_at).
Proof. apply (strlen_correct 11 66 ten ten_at); first [decided | cbn; lia]. Defined.

Lemma strcpy_witness :
  let m := blit ten_at 128 (replicate 16 9) in
  strcpy 11 129 66 m = Ok (129, blit m 129 (ten ++ [0])).
Proof. intros m. apply (strcpy_correct 11 129 66 ten m); first [decided | cbn; lia]. Defined.

Lemma strnlen_witness : strnlen 66 4 ten_at = Ok (4, ten_at).
Proof.
  apply (strnlen_correct 66 4 [97; 98; 99; 100] ten_at); first [lia | decided].
Defined.

Lemma strncpy_witness :
  let m := blit ten_at 128 (replicate 16 9) in
  strncpy 128 73 6 m = Ok (128, blit m 128 [104; 105; 106; 0; 0; 0]).
Proof.
  intros m. apply (strncpy_correct 128 73 6 [104; 105; 106] m); first [lia | decided].
Defined.

Lemma strncat_witness :
  let m := blit ten_at 128 [65; 66; 0; 9; 9; 9] in
  strncat 3 128 66 3 m = Ok (128, blit m 130 [97; 98; 99; 0]).
Proof.
  intros m. apply (strncat_correct 3 128 66 3 [65; 66] [97; 98; 99] m);
    first [decided | cbn; lia].
Defined.

Lemma strlcpy_witness :
  let m := blit ten_at 128 (replicate 16 9) in
  strlcpy 11 128 66 4 m = Ok (10, blit m 128 [97; 98; 99; 0]).
Proof.
  intros m. apply (strlcpy_correct 11 128 66 4 ten m); first [decided | cbn; lia].
Defined.

Lemma strlcat_witness :
  let m := blit ten_at 128 ([65; 66; 0] ++ replicate 13 9) in
  strlcat 11 128 66 6 m = Ok (12, blit m 130 [97; 98; 99; 0]).
Proof.
  intros m. apply (strlcat_correct 11 128 66 6 [65; 66] ten m); first [decided | cbn; lia].
Defined.
