(* ===== verification/StrSearch.v ===== *)
(** * C strings: comparison and search

    [string/src/string.cpp], lines 166-342: [strcmp], [strncmp],
    [strcasecmp], [strncasecmp], [strchr], [strrchr], [strnchr], [strnstr]
    and [strstr].  Pointers returned by the searches are [option Z], [None]
    being [nullptr].  The overloads on [char *] only cast the result of the
    [const char *] ones. *)

From stdpp Require Import base list numbers gmap.
From S2P Require Import Prelude Memory Bytes StrCopy.

(** ** Comparison *)

(** The byte loop of [strcmp] up to an aligned [s1]. *)
Definition strcmp_prefix (fuel : nat) (s1 s2 : Z) : M (mem Z) (Z * Z + Z) :=
  loop fuel (fun '(s1, s2) =>
    if Z.land s1 7 =? 0 then ret (inr (inl (s1, s2)))
    else
      let! a := load s1 in
      let! b := load s2 in
      if negb (a =? b) then ret (inr (inr (a - b)))
      else if a =? 0 then ret (inr (inr 0))
      else ret (inl (s1 + 1, s2 + 1))) (s1, s2).

(** [while (!has_zero( *ls1) && *ls1 == *ls2) { ls1++; ls2++; }] *)
Definition strcmp_words (fuel : nat) (ls1 ls2 : Z) : M (mem Z) (Z * Z) :=
  loop fuel (fun '(ls1, ls2) =>
    let! w1 := load64 ls1 in
    if has_zero w1 then ret (inr (ls1, ls2))
    else
      let! w1 := load64 ls1 in
      let! w2 := load64 ls2 in
      if w1 =? w2 then ret (inl (ls1 + 8, ls2 + 8)) else ret (inr (ls1, ls2)))
    (ls1, ls2).

(** [while ( *s1 && *s1 == *s2) { s1++; s2++; }] and the final difference. *)
Definition strcmp_tail (fuel : nat) (s1 s2 : Z) : M (mem Z) Z :=
  let! '(s1, s2) := loop fuel (fun '(s1, s2) =>
      let! a := load s1 in
      if a =? 0 then ret (inr (s1, s2))
      else
        let! a := load s1 in
        let! b := load s2 in
        if a =? b then ret (inl (s1 + 1, s2 + 1)) else ret (inr (s1, s2))) (s1, s2) in
  let! a := load s1 in
  let! b := load s2 in
  ret (a - b).

Definition strcmp (fuel : nat) (s1 s2 : Z) : M (mem Z) Z :=
  let! r := strcmp_prefix fuel s1 s2 in
  match r with
  | inr d => ret d
  | inl (s1, s2) =>
      let! '(s1, s2) := strcmp_words fuel s1 s2 in
      strcmp_tail fuel s1 s2
  end.

Definition strncmp (s1 s2 count : Z) : M (mem Z) Z :=
  loop (S (Z.to_nat count)) (fun '(s1, s2, count) =>
    if count =? 0 then ret (inr 0)
    else
      let! c1 := load s1 in
      let! c2 := load s2 in
      if negb (c1 =? c2) then ret (inr (c1 - c2))
      else if c1 =? 0 then ret (inr 0)
      else ret (inl (s1 + 1, s2 + 1, count - 1))) (s1, s2, count).

(** [static_cast<unsigned char>(c | 0x20)] for the [char] [c]. *)
Definition fold_case (b : Z) : Z := u8 (Z.lor (schar b) 0x20).

Definition strcasecmp (fuel : nat) (s1 s2 : Z) : M (mem Z) Z :=
  loop fuel (fun '(s1, s2) =>
    let! a := load s1 in
    let c1 := fold_case a in
    let! b := load s2 in
    let c2 := fold_case b in
    if negb (c1 =? c2) || (c1 =? 0) then ret (inr (c1 - c2))
    else ret (inl (s1 + 1, s2 + 1))) (s1, s2).

Definition strncasecmp (s1 s2 len : Z) : M (mem Z) Z :=
  if len =? 0 then ret 0
  else
    loop (S (Z.to_nat len)) (fun '(s1, s2, len) =>
      let! a := load s1 in
      let c1 := fold_case a in
      let! b := load s2 in
      let c2 := fold_case b in
      let len := u64 (len - 1) in
      if (len =? 0) || negb (c1 =? c2) then ret (inr (c1 - c2))
      else ret (inl (s1 + 1, s2 + 1, len))) (s1, s2, len).

(** ** Search *)

Definition strchr (fuel : nat) (s c : Z) : M (mem Z) (option Z) :=
  let ch := u8 c in
  if ch =? 0 then let! s := scan_nul fuel s in ret (Some s)
  else
    let! s := loop fuel (fun s =>
        let! b := load s in
        if (b =? 0) || (schar b =? ch) then ret (inr s) else ret (inl (s + 1))) s in
    let! b := load s in
    ret (if schar b =? ch then Some s else None).

Definition strrchr (fuel : nat) (s c : Z) : M (mem Z) (option Z) :=
  loop fuel (fun '(s, last) =>
    let! b := load s in
    let last := if schar b =? schar (u8 c) then Some s else last in
    let! b := load s in
    if b =? 0 then ret (inr last) else ret (inl (s + 1, last))) (s, None).

Definition strnchr (s count c : Z) : M (mem Z) (option Z) :=
  loop (S (Z.to_nat count)) (fun '(s, count) =>
    if count =? 0 then ret (inr None)
    else
      let! b := load s in
      if schar b =? schar (u8 c) then ret (inr (Some s))
      else
        let! b := load s in
        if b =? 0 then ret (inr None) else ret (inl (s + 1, count - 1))) (s, count).

Definition strnstr (fuel : nat) (s1 s2 len : Z) : M (mem Z) (option Z) :=
  let! l2 := strlen fuel s2 in
  if l2 =? 0 then ret (Some s1)
  else
    loop (S (Z.to_nat len)) (fun '(s1, len) =>
      if negb (l2 <=? len) then ret (inr None)
      else
        let! d := strncmp s1 s2 l2 in
        if d =? 0 then ret (inr (Some s1)) else ret (inl (s1 + 1, len - 1))) (s1, len).

(** The inner loop of [strstr]: whether the rest of the needle at [n] matches
    at [h]. *)
Definition strstr_match (fuel : nat) (h n : Z) : M (mem Z) bool :=
  let! '(h, n) := loop fuel (fun '(h, n) =>
      let! b := load n in
      if b =? 0 then ret (inr (h, n))
      else
        let! a := load h in
        let! b := load n in
        if a =? b then ret (inl (h + 1, n + 1)) else ret (inr (h, n))) (h, n) in
  let! b := load n in
  ret (b =? 0).

Definition strstr (fuel : nat) (haystack needle : Z) : M (mem Z) (option Z) :=
  let! first := load needle in
  if first =? 0 then ret (Some haystack)
  else
    loop fuel (fun haystack =>
      let! c := load haystack in
      if c =? 0 then ret (inr None)
      else
        let! c := load haystack in
        let! found := (if c =? first then strstr_match fuel (haystack + 1) (needle + 1)
                       else ret false) in
        if found : bool then ret (inr (Some haystack)) else ret (inl (haystack + 1))) haystack.

Definition hay := blit ∅ 16 [97; 98; 97; 98; 99; 200; 0; 0; 97; 98; 99; 0; 0; 0; 0; 0; 0; 0; 0; 0; 0; 0; 0; 0].
Example strstr_ex : strstr 20 16 24 hay = Ok (Some 18, hay).
Proof. vm_compute. reflexivity. Qed.
Example strchr_ex : strchr 20 16 99 hay = Ok (Some 20, hay).
Proof. vm_compute. reflexivity. Qed.
Example strchr_high_ex : strchr 20 16 200 hay = Ok (None, hay).
Proof. vm_compute. reflexivity. Qed.
Example strcmp_ex : strcmp 20 16 24 hay = Ok (-2, hay).
Proof. vm_compute. reflexivity. Qed.

(** ** [strcmp] and [strncmp] *)

(** Two strings are left to compare and their comparison gives [R]; [e] is
    the address of the first string's NUL. *)
Definition scmp_left (R e s1 s2 : Z) (l1 l2 : list Z) (m : mem Z) : Prop :=
  cstr m s1 l1 /\ cstr m s2 l2 /\ cmp_bytes (l1 ++ [0]) (l2 ++ [0]) = R /\
  s1 + Z.of_nat (length l1) = e.

(** One character of each string. *)
Lemma scmp_left_char R e s1 s2 l1 l2 m :
  scmp_left R e s1 s2 l1 l2 m ->
  exists a b, m !! s1 = Some a /\ m !! s2 = Some b /\
    ((a <> b /\ R = a - b) \/ (a = 0 /\ b = 0 /\ R = 0) \/
     (a = b /\ a <> 0 /\ exists l1' l2', l1 = a :: l1' /\ l2 = a :: l2' /\
        scmp_left R e (s1 + 1) (s2 + 1) l1' l2' m)).
Proof.
  intros (H1 & H2 & HR & He). cbn [length] in *.
  destruct l1 as [|a l1], l2 as [|b l2]; cbn [app cmp_bytes length] in HR, He.
  - exists 0, 0. apply cstr_nil in H1, H2. cbn in HR. split; [done|]. split; [done|].
    right; left. done.
  - apply cstr_nil in H1. apply cstr_cons in H2 as (? & ? & _). exists 0, b.
    destruct (Z.eqb_spec 0 b); [lia|]. split; [done|]. split; [done|]. by left.
  - apply cstr_nil in H2. apply cstr_cons in H1 as (? & ? & _). exists a, 0.
    destruct (Z.eqb_spec a 0); [lia|]. split; [done|]. split; [done|]. by left.
  - apply cstr_cons in H1 as (? & ? & H1), H2 as (? & ? & H2). exists a, b.
    split; [done|]. split; [done|].
    destruct (Z.eqb_spec a b) as [->|]; [|by left]. right. right.
    split; [done|]. split; [lia|]. exists l1, l2. split; [done|]. split; [done|].
    split_and!; [done|done|done|lia].
Qed.

Lemma strcmp_prefix_ok R e fuel s1 s2 l1 l2 m :
  scmp_left R e s1 s2 l1 l2 m -> (length l1 < fuel)%nat ->
  wp (strcmp_prefix fuel s1 s2)
     (fun r m' => m' = m /\ match r with
        | inr d => d = R
        | inl (s1', s2') => s1' mod 8 = 0 /\ exists k1 k2,
            scmp_left R e s1' s2' k1 k2 m /\ (length k1 <= length l1)%nat /\
            s2' + Z.of_nat (length k2) = s2 + Z.of_nat (length l2) /\ s2 <= s2'
        end) m.
Proof.
  intros HI Hf. unfold strcmp_prefix.
  apply (wp_loop (fun '(x, y) m' => m' = m /\ s1 <= x /\ exists k1 k2,
            scmp_left R e x y k1 k2 m /\
            y + Z.of_nat (length k2) = s2 + Z.of_nat (length l2) /\ s2 <= y)
           (fun '(x, _) => Z.to_nat (e - x)));
    [|split_and!; [done|lia|exists l1, l2; split_and!; done || lia]|
      destruct HI as (_ & _ & _ & ?); lia].
  intros [x y] m' (-> & Hx & k1 & k2 & HI' & Hy & Hy'). rewrite land_7.
  pose proof HI as (_ & _ & _ & He). pose proof HI' as (_ & _ & _ & He').
  destruct (Z.eqb_spec (x mod 8) 0) as [H8|_]; wp_step.
  { split; [done|]. split; [done|]. exists k1, k2. split_and!; done || lia. }
  destruct (scmp_left_char _ _ _ _ _ _ _ HI') as (a & b & Ha & Hb & Hcase).
  eapply wp_load; [done|]. wp_step. eapply wp_load; [done|].
  destruct Hcase as [[Hne HR]|[(-> & -> & HR)|(-> & Hne & l1' & l2' & -> & -> & HI'')]].
  - destruct (Z.eqb_spec a b); [done|]. by apply wp_ret.
  - apply wp_ret. done.
  - rewrite Z.eqb_refl. cbn [negb]. destruct (Z.eqb_spec b 0); [done|]. apply wp_ret.
    cbn [length] in *. split; [|lia]. split_and!; [done|lia|]. exists l1', l2'.
    split_and!; [done|lia|lia].
Qed.

Lemma strcmp_words_ok R e fuel s1 s2 l1 l2 m :
  bytes_ok m -> word_mapped m -> s1 mod 8 = 0 ->
  mapped m s2 (Z.of_nat (length l2) + 8) ->
  scmp_left R e s1 s2 l1 l2 m -> (length l1 < fuel)%nat ->
  wp (strcmp_words fuel s1 s2)
     (fun '(s1', s2') m' => m' = m /\ exists k1 k2,
        scmp_left R e s1' s2' k1 k2 m /\ (length k1 <= length l1)%nat) m.
Proof.
  intros Hok Hw H8 Hm HI Hf. unfold strcmp_words. pose proof HI as (_ & _ & _ & He).
  apply (wp_loop (fun '(x, y) m' => m' = m /\ x mod 8 = 0 /\ s1 <= x /\ exists k1 k2,
            scmp_left R e x y k1 k2 m /\
            y + Z.of_nat (length k2) = s2 + Z.of_nat (length l2) /\ s2 <= y)
           (fun '(x, _) => Z.to_nat (e - x)));
    [|split_and!; [done|done|lia|exists l1, l2; split_and!; done || lia]|lia].
  intros [x y] m' (-> & Hx8 & Hx & k1 & k2 & HI' & Hy & Hy').
  pose proof HI' as (H1 & H2 & HR & He'). wp_step.
  apply (wp_test_word m x k1); [done|done|done|done| |].
  { intros w ->. apply wp_ret. split; [done|]. exists k1, k2. split; [done|lia]. }
  intros w k1' -> Hlw Hcw Hbw Hz. rewrite Hz. wp_step.
  apply (wp_load64 _ _ w); [done|done|]. wp_step.
  assert (Hmy : mapped m y 8) by (eapply mapped_sub; [done|lia|lia]).
  destruct (mapped_cells m y 8 Hok Hmy) as [Hcv Hbv].
  pose proof (range_length m y 8 Hmy) as Hlv. change (Z.to_nat 8) with 8%nat in Hlv.
  apply (wp_load64 _ _ (range m y 8)); [done|done|].
  destruct (Z.eqb_spec (le_word w) (le_word (range m y 8))) as [E|E]; wp_step.
  - apply le_word_inj in E; [|congruence|done|done]. rewrite <- E in *.
    destruct (cstr_prefix m y k2 w) as [k2' ->]; [done|done| |].
    { by rewrite <- has_zero_iff. }
    rewrite length_app in *. split; [|lia]. split_and!; [done| |lia|].
    { rewrite <- Z.add_mod_idemp_l, Hx8 by lia. done. }
    apply cstr_app in H1 as (_ & _ & H1), H2 as (_ & _ & H2). rewrite Hlw in H1, H2.
    rewrite <- !app_assoc, cmp_bytes_app in HR.
    exists k1', k2'. split_and!; [|lia|lia]. split_and!; [done|done|done|lia].
  - split; [done|]. exists (w ++ k1'), k2. split; [done|lia].
Qed.

Lemma strcmp_tail_ok R e fuel s1 s2 l1 l2 m :
  scmp_left R e s1 s2 l1 l2 m -> (length l1 < fuel)%nat ->
  wp (strcmp_tail fuel s1 s2) (fun r m' => r = R /\ m' = m) m.
Proof.
  intros HI Hf. unfold strcmp_tail. pose proof HI as (_ & _ & _ & He). wp_step.
  eapply (wp_mono _ (fun '(x, y) m' => m' = m /\ exists a b,
            m !! x = Some a /\ m !! y = Some b /\ R = a - b)).
  { intros [x y] m' (-> & a & b & Ha & Hb & ->). wp_step. eapply wp_load; [done|].
    wp_step. eapply wp_load; [done|]. by apply wp_ret. }
  apply (wp_loop (fun '(x, y) m' => m' = m /\ s1 <= x /\ exists k1 k2,
            scmp_left R e x y k1 k2 m) (fun '(x, _) => Z.to_nat (e - x)));
    [|by split_and!; [done|lia|exists l1, l2]|lia].
  intros [x y] m' (-> & Hx & k1 & k2 & HI'). pose proof HI' as (_ & _ & _ & He').
  destruct (scmp_left_char _ _ _ _ _ _ _ HI') as (a & b & Ha & Hb & Hcase).
  wp_step. eapply wp_load; [done|].
  destruct (Z.eqb_spec a 0) as [->|Ha0]; wp_step.
  { split; [done|]. exists 0, b. split_and!; [done|done|].
    destruct Hcase as [[_ ?]|[(_ & -> & ->)|(_ & ? & _)]]; done. }
  eapply wp_load; [done|]. wp_step. eapply wp_load; [done|].
  destruct Hcase as [[Hne HR]|[(-> & -> & HR)|(-> & Hne & l1' & l2' & -> & -> & HI'')]].
  - destruct (Z.eqb_spec a b); [done|]. apply wp_ret. split; [done|]. by exists a, b.
  - done.
  - rewrite Z.eqb_refl. apply wp_ret. cbn [length] in He'. split; [|lia].
    split_and!; [done|lia|]. by exists l1', l2'.
Qed.

(** C10. [strcmp] is the difference of the first two characters (as unsigned
    bytes, the NULs included) that differ, and 0 on equal strings, for every
    pair of alignments, provided the seven bytes after the NUL of [s2] can be
    read. *)
Theorem strcmp_correct fuel s1 s2 l1 l2 m :
  bytes_ok m -> word_mapped m -> cstr m s1 l1 -> cstr m s2 l2 ->
  mapped m s2 (Z.of_nat (length l2) + 8) -> (length l1 < fuel)%nat ->
  strcmp fuel s1 s2 m = Ok (cmp_bytes (l1 ++ [0]) (l2 ++ [0]), m).
Proof.
  intros Hok Hw H1 H2 Hm Hf. apply wp_eq. unfold strcmp.
  set (R := cmp_bytes _ _). set (e := s1 + Z.of_nat (length l1)).
  assert (HI : scmp_left R e s1 s2 l1 l2 m) by done.
  wp_step. eapply wp_mono; [|by apply (strcmp_prefix_ok R e fuel s1 s2 l1 l2)].
  intros [[x y]|d] m' [-> H]; [|by apply wp_ret].
  destruct H as (Hx8 & k1 & k2 & HI' & Hk1 & Hk2 & Hy). wp_step.
  eapply wp_mono; [|apply (strcmp_words_ok R e fuel x y k1 k2); [done|done|done| |done|lia]].
  - intros [x' y'] m' (-> & k1' & k2' & HI'' & Hk1').
    apply (strcmp_tail_ok R e fuel x' y' k1' k2'); [done|lia].
  - eapply mapped_sub; [done|lia|lia].
Qed.

Lemma load_bytes_fault n p a m :
  p <= a < p + Z.of_nat n -> m !! a = None -> load_bytes n p m = Fault.
Proof.
  revert p. induction n as [|n IH]; intros p Ha Hn; [lia|]. cbn. unfold bind, load.
  destruct (m !! p) as [b|] eqn:E; [|done].
  rewrite IH; [done| |done]. assert (a <> p) by congruence. lia.
Qed.

(** [strcmp] aligns [s1] only, so it reads eight bytes of [s2] at a time
    whatever the alignment of [s2]: with an aligned [s1] of eight characters
    or more it faults when a byte in the first eight of [s2], after the NUL
    that already decides the comparison, is not mapped. *)
Theorem strcmp_overread fuel s1 s2 l1 l2 a m :
  bytes_ok m -> cstr m s1 l1 -> cstr m s2 l2 -> s1 mod 8 = 0 -> (8 <= length l1)%nat ->
  s2 + Z.of_nat (length l2) < a < s2 + 8 -> m !! a = None -> (0 < fuel)%nat ->
  strcmp fuel s1 s2 m = Fault.
Proof.
  intros Hok H1 H2 H8 Hl Ha Hn Hf. destruct fuel as [|fuel]; [lia|].
  rewrite <- (take_drop 8 l1) in H1. apply cstr_app in H1 as (Hc & Hb & _).
  assert (Hl8 : length (take 8 l1) = 8%nat) by (rewrite length_take; lia).
  assert (Hload : load64 s1 m = Ok (le_word (take 8 l1), m)).
  { apply wp_eq. by apply (wp_load64 _ _ (take 8 l1)). }
  assert (Hload2 : load64 s2 m = Fault).
  { unfold load64, bind. rewrite (load_bytes_fault 8 s2 a); [done|lia|done]. }
  unfold strcmp, strcmp_prefix, strcmp_words. cbn [loop].
  rewrite land_7, H8. unfold bind at 1 2, ret at 1. cbn -[load64 has_zero loop strcmp_tail].
  unfold bind, ret. rewrite Hload, has_zero_nonzero by done. by rewrite Hload, Hload2.
Qed.

(** [strncmp] compares at most [count] characters and stops after a NUL. *)
Theorem strncmp_correct s1 s2 count l1 l2 m :
  0 <= count < 2 ^ 64 -> cstrn m s1 count l1 -> cstrn m s2 count l2 ->
  strncmp s1 s2 count m =
    Ok (cmp_bytes (take (Z.to_nat count) (l1 ++ [0])) (take (Z.to_nat count) (l2 ++ [0])), m).
Proof.
  intros Hn H1 H2. apply wp_eq. unfold strncmp. set (R := cmp_bytes _ _).
  apply (wp_loop (fun '(x, y, n) m' => m' = m /\ 0 <= n /\ exists k1 k2,
    cstrn m x n k1 /\ cstrn m y n k2 /\
    cmp_bytes (take (Z.to_nat n) (k1 ++ [0])) (take (Z.to_nat n) (k2 ++ [0])) = R)
    (fun '(_, _, n) => Z.to_nat n)); [|split_and!; [done|lia|by exists l1, l2]|lia].
  clear H1 H2. intros [[x y] n] m' (-> & Hn' & k1 & k2 & H1 & H2 & HR).
  destruct (Z.eqb_spec n 0) as [->|Hnz]; [by apply wp_ret|].
  replace (Z.to_nat n) with (S (Z.to_nat (n - 1))) in HR by lia.
  assert (Hhd : forall x k, cstrn m x n k -> exists a k', k ++ [0] = a :: k' /\ m !! x = Some a /\
    ((a = 0 /\ k' = []) \/
     (a <> 0 /\ exists k'', k' = k'' ++ [0] /\ cstrn m (x + 1) (n - 1) k''))).
  { intros p k Hk. apply cstrn_inv in Hk as [[-> [?|[? ?]]]|(b & k' & -> & _ & ? & ? & ?)];
      [lia| |].
    - exists 0, []. split_and!; [done|done|by left].
    - exists b, (k' ++ [0]). split_and!; [done|done|]. right. split; [lia|by exists k']. }
  destruct (Hhd x k1 H1) as (a & k1' & E1 & Ha & Hk1).
  destruct (Hhd y k2 H2) as (b & k2' & E2 & Hb & Hk2).
  rewrite E1, E2 in HR. cbn [take cmp_bytes] in HR.
  wp_step. eapply wp_load; [done|]. wp_step. eapply wp_load; [done|].
  destruct (Z.eqb_spec a b) as [->|Hne]; cbn [negb]; [|by apply wp_ret].
  destruct Hk1 as [[-> ->]|(Hne & j1 & -> & Hj1)], Hk2 as [[Hb0 ->]|(? & j2 & -> & Hj2)];
    try done.
  - apply wp_ret. rewrite !take_nil in HR. done.
  - destruct (Z.eqb_spec b 0); [done|]. wp_step. split; [|lia].
    split_and!; [done|lia|]. by exists j1, j2.
Qed.

(** ** Case-insensitive comparison *)

(** Bit 5 survives the narrowing: no character folds to zero. *)
Lemma fold_case_nonzero b : fold_case b <> 0.
Proof.
  intros H. apply (f_equal (fun z => Z.testbit z 5)) in H. revert H.
  unfold fold_case, wrap. rewrite Z.mod_pow2_bits_low, Z.lor_spec by lia.
  by rewrite orb_true_r.
Qed.

(** [strcasecmp] never answers "equal": its test for the NUL comes after
    [| 0x20], which no character survives as zero, so a call that returns has
    found a difference - on two equal strings it can only find it in the
    memory after their terminators. *)
Theorem strcasecmp_never_equal fuel s1 s2 m r m' :
  strcasecmp fuel s1 s2 m = Ok (r, m') -> r <> 0.
Proof.
  unfold strcasecmp. revert s1 s2. induction fuel as [|fuel IH]; intros s1 s2; [done|].
  cbn [loop]. unfold bind at 1 2, load at 1.
  destruct (m !! s1) as [a|]; [|done]. unfold bind at 1, load at 1.
  destruct (m !! s2) as [b|]; [|done].
  rewrite (proj2 (Z.eqb_neq _ _) (fold_case_nonzero a)), orb_false_r.
  destruct (Z.eqb_spec (fold_case a) (fold_case b)) as [E|E]; cbn [negb].
  - apply IH.
  - intros [= <- _]. lia.
Qed.

(** [strncasecmp] compares exactly the first [len] bytes of the two
    arrays with bit 5 set: it does not stop at a NUL. *)
Theorem strncasecmp_correct s1 s2 len a b m :
  0 <= len < 2 ^ 64 -> cells m s1 a -> cells m s2 b ->
  Z.of_nat (length a) = len -> Z.of_nat (length b) = len ->
  strncasecmp s1 s2 len m = Ok (cmp_bytes (map fold_case a) (map fold_case b), m).
Proof.
  intros Hn H1 H2 La Lb. apply wp_eq. unfold strncasecmp. set (R := cmp_bytes _ _).
  destruct (Z.eqb_spec len 0) as [->|Hnz].
  { apply wp_ret. destruct a; [by destruct b|cbn in La; lia]. }
  apply (wp_loop (fun '(x, y, n) m' => m' = m /\ 0 < n <= len /\ exists k1 k2,
    cells m x k1 /\ cells m y k2 /\ Z.of_nat (length k1) = n /\ Z.of_nat (length k2) = n /\
    cmp_bytes (map fold_case k1) (map fold_case k2) = R)
    (fun '(_, _, n) => Z.to_nat n)); [|split_and!; [done|lia|lia|by exists a, b]|lia].
  clearbody R. clear a b H1 H2 La Lb. intros [[x y] n] m' (-> & Hn' & k1 & k2 & H1 & H2 & L1 & L2 & HR).
  destruct k1 as [|c1 k1]; [cbn in L1; lia|]. destruct k2 as [|c2 k2]; [cbn in L2; lia|].
  apply cells_cons in H1 as [Hc1 H1], H2 as [Hc2 H2]. cbn [length map cmp_bytes] in *.
  wp_step. eapply wp_load; [done|]. wp_step. eapply wp_load; [done|].
  rewrite u64_small by lia.
  destruct (Z.eqb_spec (fold_case c1) (fold_case c2)) as [E|E]; cbn [negb].
  - rewrite orb_false_r. destruct (Z.eqb_spec (n - 1) 0); apply wp_ret.
    + split; [|done]. destruct k1; [|cbn in L1; lia]. rewrite E. cbn in HR. lia.
    + split; [|lia]. split_and!; [done|lia|lia|]. exists k1, k2. split_and!; done || lia.
  - rewrite orb_true_r. by apply wp_ret.
Qed.

(** ** Character search *)

(** Reference: the address of the first, and of the last, [c] in [l] placed
    at [p]. *)
Fixpoint find_first (p c : Z) (l : list Z) : option Z :=
  match l with
  | [] => None
  | b :: l => if b =? c then Some p else find_first (p + 1) c l
  end.

Fixpoint find_last (p c : Z) (l : list Z) : option Z :=
  match l with
  | [] => None
  | b :: l =>
      match find_last (p + 1) c l with
      | Some q => Some q
      | None => if b =? c then Some p else None
      end
  end.

Lemma find_first_Some p c l q :
  find_first p c l = Some q <->
  exists i, q = p + Z.of_nat i /\ l !! i = Some c /\ forall j, (j < i)%nat -> l !! j <> Some c.
Proof.
  revert p. induction l as [|b l IH]; intros p; cbn [find_first].
  - split; [done|]. by intros (? & _ & ? & _).
  - destruct (Z.eqb_spec b c) as [->|Hne].
    + split; [intros [= <-]; exists 0%nat; split_and!; [lia|done|lia]|].
      intros ([|i] & -> & Hi & Hmin); [f_equal; lia|].
      by destruct (Hmin 0%nat); [lia|].
    + rewrite IH. split.
      * intros (i & -> & Hi & Hmin). exists (S i). split_and!; [lia|done|].
        intros [|j] Hj; cbn; [congruence|]. apply Hmin. lia.
      * intros ([|i] & -> & Hi & Hmin); cbn in Hi; [congruence|].
        exists i. split_and!; [lia|done|]. intros j Hj. apply (Hmin (S j)). lia.
Qed.

Lemma schar_eqb a b : byte_ok a -> byte_ok b -> (schar a =? schar b) = (a =? b).
Proof.
  intros Ha Hb. destruct (Z.eqb_spec (schar a) (schar b)) as [E|E], (Z.eqb_spec a b); try done.
  - by apply schar_inj in E.
  - congruence.
Qed.

Lemma schar_low a b : byte_ok a -> 0 <= b < 128 -> (schar a =? b) = (a =? b).
Proof.
  unfold byte_ok, schar. intros. destruct (Z.ltb_spec a 128); [done|].
  destruct (Z.eqb_spec (a - 256) b), (Z.eqb_spec a b); lia.
Qed.

(** [strchr] finds the first occurrence of an ASCII character, the
    terminating NUL included, or returns [nullptr]. *)
Theorem strchr_correct fuel s c l m :
  cstr m s l -> u8 c < 128 -> (length l < fuel)%nat ->
  strchr fuel s c m = Ok (find_first s (u8 c) (l ++ [0]), m).
Proof.
  intros Hc Hlow Hf. apply wp_eq. unfold strchr. set (ch := u8 c) in *.
  assert (0 <= ch) by (apply wrap_range; lia). set (R := find_first _ _ _).
  destruct (Z.eqb_spec ch 0) as [Hz|Hnz].
  { wp_step. eapply wp_mono; [|by apply (scan_nul_ok fuel s l)]. intros q m' [-> ->].
    wp_step. split; [|done]. symmetry. apply find_first_Some. exists (length l).
    rewrite Hz. split_and!; [done|by apply list_lookup_middle|].
    intros j Hj. rewrite lookup_app_l by done. intros Hj0.
    apply (cstr_lookup _ _ _ _ _ Hc) in Hj0. lia. }
  wp_step. eapply (wp_mono _ (fun q m' => m' = m /\ exists b, m !! q = Some b /\
    (if schar b =? ch then Some q else None) = R)).
  { intros q m' (-> & b & Hb & HR). wp_step. eapply wp_load; [done|]. by apply wp_ret. }
  apply (wp_loop (fun q m' => m' = m /\ exists l', at_suffix m s l q l' /\
           find_first q ch (l' ++ [0]) = R)
           (fun q => Z.to_nat (s + Z.of_nat (length l) - q)));
    [|split; [done|by exists l]|lia].
  intros q m' (-> & [|b l'] & Hs & HR); wp_step; cbn [app find_first] in HR.
  - apply at_suffix_nil in Hs as [H0 ->]. eapply wp_load; [done|]. apply wp_ret.
    split; [done|]. exists 0. split; [done|]. by rewrite schar_low by done.
  - pose proof (at_suffix_step _ _ _ _ _ _ Hs) as (Hb & Hr & Hs').
    eapply wp_load; [done|]. destruct (Z.eqb_spec b 0); [lia|]. cbn [orb].
    rewrite schar_low by (unfold byte_ok; lia).
    destruct (Z.eqb_spec b ch) as [E|E]; apply wp_ret.
    + split; [done|]. exists b. split; [done|].
      rewrite schar_low by (unfold byte_ok; lia). by rewrite (proj2 (Z.eqb_eq b ch)).
    + destruct Hs' as (? & ? & Hl), Hs as (? & _ & _).
      split; [|lia]. split; [done|]. by exists l'.
Qed.

(** With a signed [char], [strchr] never finds a character above 127:
    it compares the promoted [char] with an [unsigned char]. *)
Theorem strchr_high_missing fuel s c l m :
  cstr m s l -> 128 <= u8 c -> (length l < fuel)%nat ->
  strchr fuel s c m = Ok (None, m).
Proof.
  intros Hc Hhigh Hf. apply wp_eq. unfold strchr. set (ch := u8 c) in *.
  assert (Hs : forall b, byte_ok b -> (schar b =? ch) = false).
  { unfold byte_ok, schar. intros b Hb. apply Z.eqb_neq. destruct (Z.ltb_spec b 128); lia. }
  destruct (Z.eqb_spec ch 0); [lia|]. wp_step.
  eapply (wp_mono _ (fun q m' => m' = m /\ m !! q = Some 0)).
  { intros q m' [-> H0]. wp_step. eapply wp_load; [done|]. apply wp_ret.
    rewrite Hs by done. done. }
  apply (wp_loop (fun q m' => m' = m /\ exists l', at_suffix m s l q l')
           (fun q => Z.to_nat (s + Z.of_nat (length l) - q)));
    [|by eauto using at_suffix_refl|lia].
  intros q m' (-> & [|b l'] & Hq); wp_step.
  - apply at_suffix_nil in Hq as [H0 ->]. eapply wp_load; [done|]. by apply wp_ret.
  - pose proof (at_suffix_step _ _ _ _ _ _ Hq) as (Hb & Hr & Hs').
    eapply wp_load; [done|]. destruct (Z.eqb_spec b 0); [lia|]. cbn [orb].
    rewrite Hs by (unfold byte_ok; lia). apply wp_ret.
    split; [by eauto|]. destruct Hs' as (? & ? & Hl), Hq as (? & _ & _). lia.
Qed.

(** [strrchr] finds the last occurrence of the character, the
    terminating NUL included, for every character value. *)
Theorem strrchr_correct fuel s c l m :
  cstr m s l -> (length l < fuel)%nat ->
  strrchr fuel s c m = Ok (find_last s (u8 c) (l ++ [0]), m).
Proof.
  intros Hc Hf. apply wp_eq. unfold strrchr. set (ch := u8 c).
  assert (Hch : byte_ok ch) by (apply wrap_range; lia). set (R := find_last _ _ _).
  apply (wp_loop (fun '(q, last) m' => m' = m /\ exists l', at_suffix m s l q l' /\
           match find_last q ch (l' ++ [0]) with Some r => Some r | None => last end = R)
           (fun '(q, _) => Z.to_nat (s + Z.of_nat (length l) - q))); [| |lia].
  2: { split; [done|]. exists l. split; [done|]. unfold R. by destruct (find_last _ _ _). }
  intros [q last] m' (-> & [|b l'] & Hs & HR); wp_step; cbn [app find_last] in HR.
  - apply at_suffix_nil in Hs as [H0 ->]. eapply wp_load; [done|]. wp_step.
    eapply wp_load; [done|]. apply wp_ret. rewrite schar_eqb by done.
    split; [|done]. rewrite <- HR. by destruct (0 =? ch).
  - pose proof (at_suffix_step _ _ _ _ _ _ Hs) as (Hb & Hr & Hs').
    eapply wp_load; [done|]. wp_step. eapply wp_load; [done|].
    destruct (Z.eqb_spec b 0); [lia|]. apply wp_ret.
    rewrite schar_eqb by first [done|unfold byte_ok; lia].
    destruct Hs' as (? & ? & Hl), Hs as (? & _ & _). split; [|lia]. split; [done|].
    exists l'. split; [done|]. rewrite <- HR.
    destruct (find_last (q + 1) ch (l' ++ [0])); [done|]. by destruct (b =? ch).
Qed.

(** [strnchr] finds the first occurrence among the first [count]
    characters, the NUL that ends the string included. *)
Theorem strnchr_correct s count c l m :
  0 <= count < 2 ^ 64 -> cstrn m s count l ->
  strnchr s count c m = Ok (find_first s (u8 c) (take (Z.to_nat count) (l ++ [0])), m).
Proof.
  intros Hn Hc. apply wp_eq. unfold strnchr. set (ch := u8 c).
  assert (Hch : byte_ok ch) by (apply wrap_range; lia). set (R := find_first _ _ _).
  apply (wp_loop (fun '(q, n) m' => m' = m /\ 0 <= n /\ exists l', cstrn m q n l' /\
           find_first q ch (take (Z.to_nat n) (l' ++ [0])) = R)
           (fun '(_, n) => Z.to_nat n)); [|split_and!; [done|lia|by exists l]|lia].
  clear Hc. intros [q n] m' (-> & Hn' & l' & Hc & HR).
  destruct (Z.eqb_spec n 0) as [->|Hnz]; [by apply wp_ret|].
  replace (Z.to_nat n) with (S (Z.to_nat (n - 1))) in HR by lia.
  apply cstrn_inv in Hc as [[-> [?|[_ H0]]]|(b & l'' & -> & _ & Hb & Hr & Hc)]; [lia| |];
    cbn [app take find_first] in HR; wp_step.
  - eapply wp_load; [done|]. rewrite schar_eqb by done.
    rewrite take_nil in HR. cbn [find_first] in HR.
    destruct (Z.eqb_spec 0 ch); [by apply wp_ret|]. wp_step. eapply wp_load; [done|].
    by apply wp_ret.
  - eapply wp_load; [done|]. rewrite schar_eqb by first [done|unfold byte_ok; lia].
    destruct (Z.eqb_spec b ch); [by apply wp_ret|]. wp_step. eapply wp_load; [done|].
    destruct (Z.eqb_spec b 0); [lia|]. apply wp_ret. split; [|lia].
    split_and!; [done|lia|]. by exists l''.
Qed.

(** ** Substring search *)

Fixpoint is_prefix (n h : list Z) : bool :=
  match n, h with
  | [], _ => true
  | a :: n, b :: h => (a =? b) && is_prefix n h
  | _ :: _, [] => false
  end.

(** Reference: the first address at which [n] occurs in [h] placed at [p]. *)
Fixpoint find_sub (p : Z) (n h : list Z) : option Z :=
  if is_prefix n h then Some p
  else match h with
       | [] => None
       | _ :: h => find_sub (p + 1) n h
       end.

Lemma is_prefix_spec n h : is_prefix n h = true <-> exists k, h = n ++ k.
Proof.
  revert h. induction n as [|a n IH]; intros h; cbn; [by split; [exists h|]|].
  destruct h as [|b h]; [split; [done|by intros [k ?]]|].
  destruct (Z.eqb_spec a b) as [->|Hne]; cbn [andb].
  - rewrite IH. split; intros [k Hk]; exists k; [by rewrite Hk|by injection Hk].
  - split; [done|]. intros [k [= ? ?]]. congruence.
Qed.

Lemma find_sub_Some p n h q :
  find_sub p n h = Some q <->
  exists i, q = p + Z.of_nat i /\ (i <= length h)%nat /\ is_prefix n (drop i h) = true /\
    forall j, (j < i)%nat -> is_prefix n (drop j h) = false.
Proof.
  revert p. induction h as [|b h IH]; intros p; cbn [find_sub];
    destruct (is_prefix n _) eqn:E.
  - split; [intros [= <-]; exists 0%nat; split_and!; [lia|done|done|lia]|].
    intros ([|i] & -> & Hi & _); [f_equal; lia|cbn in Hi; lia].
  - split; [done|]. intros ([|i] & -> & Hi & Hp & _); [cbn in Hp; congruence|cbn in Hi; lia].
  - split; [intros [= <-]; exists 0%nat; split_and!; [lia|lia|done|lia]|].
    intros ([|i] & -> & _ & _ & Hmin); [f_equal; lia|].
    specialize (Hmin 0%nat ltac:(lia)). cbn in Hmin. congruence.
  - rewrite IH. split.
    + intros (i & -> & Hi & Hp & Hmin). exists (S i). cbn [length drop].
      split_and!; [lia|lia|done|]. intros [|j] Hj; [done|]. apply Hmin. lia.
    + intros ([|i] & -> & Hi & Hp & Hmin); cbn [length drop] in *; [congruence|].
      exists i. split_and!; [lia|lia|done|]. intros j Hj. apply (Hmin (S j)). lia.
Qed.

Lemma strstr_match_ok fuel h n lh ln m :
  cstr m h lh -> cstr m n ln -> (length ln < fuel)%nat ->
  wp (strstr_match fuel h n) (fun r m' => r = is_prefix ln lh /\ m' = m) m.
Proof.
  intros Hh Hn Hf. unfold strstr_match. set (R := is_prefix ln lh). wp_step.
  eapply (wp_mono _ (fun '(x, y) m' => m' = m /\ exists b, m !! y = Some b /\ (b =? 0) = R)).
  { intros [x y] m' (-> & b & Hb & HR). wp_step. eapply wp_load; [done|]. by apply wp_ret. }
  apply (wp_loop (fun '(x, y) m' => m' = m /\ exists kh kn, cstr m x kh /\
           at_suffix m n ln y kn /\ is_prefix kn kh = R)
           (fun '(_, y) => Z.to_nat (n + Z.of_nat (length ln) - y)));
    [|split; [done|by exists lh, ln]|lia].
  intros [x y] m' (-> & kh & [|b kn] & Hx & Hs & HR); wp_step.
  - apply at_suffix_nil in Hs as [H0 ->]. eapply wp_load; [done|]. apply wp_ret.
    split; [done|]. by exists 0.
  - pose proof (at_suffix_step _ _ _ _ _ _ Hs) as (Hb & Hr & Hs').
    eapply wp_load; [done|]. destruct (Z.eqb_spec b 0); [lia|]. wp_step.
    destruct kh as [|c kh]; cbn [is_prefix] in HR.
    + apply cstr_nil in Hx. eapply wp_load; [done|]. wp_step. eapply wp_load; [done|].
      destruct (Z.eqb_spec 0 b); [lia|]. apply wp_ret. split; [done|].
      exists b. split; [done|]. rewrite <- HR. apply Z.eqb_neq. lia.
    + apply cstr_cons in Hx as (Hc & _ & Hx). eapply wp_load; [done|]. wp_step.
      eapply wp_load; [done|]. rewrite (Z.eqb_sym c b).
      destruct (Z.eqb_spec b c) as [->|Hne]; cbn [andb] in HR; apply wp_ret.
      * destruct Hs' as (? & ? & Hl), Hs as (? & _ & _). split; [|lia].
        split; [done|]. by exists kh, kn.
      * split; [done|]. exists b. split; [done|]. rewrite <- HR. apply Z.eqb_neq. lia.
Qed.

(** C33. [strstr] returns the first position where the needle occurs in the
    haystack, or [nullptr]; the empty needle is found at the start. *)
Theorem strstr_correct fuel h n lh ln m :
  cstr m h lh -> cstr m n ln -> (length lh < fuel)%nat -> (length ln < fuel)%nat ->
  strstr fuel h n m = Ok (find_sub h ln lh, m).
Proof.
  intros Hh Hn Hfh Hfn. apply wp_eq. unfold strstr. set (R := find_sub _ _ _). wp_step.
  destruct ln as [|b ln].
  { apply cstr_nil in Hn. eapply wp_load; [done|]. apply wp_ret.
    unfold R. by destruct lh. }
  pose proof Hn as (Hb & Hr & Hn')%cstr_cons. eapply wp_load; [done|].
  destruct (Z.eqb_spec b 0); [lia|]. cbn [length] in Hfn.
  apply (wp_loop (fun q m' => m' = m /\ exists k, at_suffix m h lh q k /\
           find_sub q (b :: ln) k = R)
           (fun q => Z.to_nat (h + Z.of_nat (length lh) - q)));
    [|split; [done|by exists lh]|lia].
  intros q m' (-> & [|c k] & Hs & HR); wp_step; cbn [find_sub is_prefix] in HR.
  - apply at_suffix_nil in Hs as [H0 ->]. eapply wp_load; [done|]. by apply wp_ret.
  - pose proof (at_suffix_step _ _ _ _ _ _ Hs) as (Hc & Hrc & Hs').
    eapply wp_load; [done|]. destruct (Z.eqb_spec c 0); [lia|]. wp_step.
    eapply wp_load; [done|]. wp_step. rewrite (Z.eqb_sym c b).
    eapply (wp_mono _ (fun r m' => r = (b =? c) && is_prefix ln k /\ m' = m)).
    + intros r m' [-> ->]. destruct (_ && _); wp_step; [done|].
      destruct Hs' as (? & ? & Hl), Hs as (? & _ & _). split; [|lia].
      split; [done|]. by exists k.
    + destruct (Z.eqb_spec b c); cbn [andb]; [|by apply wp_ret].
      apply strstr_match_ok; [apply Hs'|done|lia].
Qed.

(** [strncmp] of a needle without NULs against arbitrary bytes. *)
Lemma strncmp_raw s1 s2 n a b m :
  cells m s1 a -> cells m s2 b -> Forall (fun c => 1 <= c < 256) b ->
  Z.of_nat (length a) = n -> Z.of_nat (length b) = n ->
  wp (strncmp s1 s2 n) (fun r m' => r = cmp_bytes a b /\ m' = m) m.
Proof.
  intros Ha Hb Hnz La Lb. unfold strncmp. set (R := cmp_bytes a b).
  apply (wp_loop (fun '(x, y, k) m' => m' = m /\ exists a b, cells m x a /\ cells m y b /\
    Forall (fun c => 1 <= c < 256) b /\ Z.of_nat (length a) = k /\ Z.of_nat (length b) = k /\
    cmp_bytes a b = R) (fun '(_, _, k) => Z.to_nat k));
    [|split; [done|exists a, b; by split_and!]|lia].
  clearbody R. clear a b Ha Hb Hnz La Lb.
  intros [[x y] k] m' (-> & a & b & Ha & Hb & Hnz & La & Lb & HR).
  destruct a as [|c a], b as [|d b]; cbn [length] in *; try lia.
  - subst k. cbn in HR. by apply wp_ret.
  - apply cells_cons in Ha as [Hc Ha], Hb as [Hd Hb]. apply Forall_cons in Hnz as [Hr Hnz].
    destruct (Z.eqb_spec k 0); [lia|]. cbn [cmp_bytes] in HR.
    wp_step. eapply wp_load; [done|]. wp_step. eapply wp_load; [done|].
    destruct (Z.eqb_spec c d) as [->|]; cbn [negb]; [|by apply wp_ret].
    destruct (Z.eqb_spec d 0); [lia|]. apply wp_ret. split; [|lia].
    split; [done|]. exists a, b. split_and!; done || lia.
Qed.

Lemma cmp_bytes_prefix b h :
  (length b <= length h)%nat -> (cmp_bytes (take (length b) h) b =? 0) = is_prefix b h.
Proof.
  revert h. induction b as [|c b IH]; intros [|d h] Hl; cbn in *; try done; [lia|].
  rewrite (Z.eqb_sym c d). destruct (Z.eqb_spec d c) as [->|]; cbn [andb]; [apply IH; lia|].
  apply Z.eqb_neq. lia.
Qed.

Lemma is_prefix_short b h : (length h < length b)%nat -> is_prefix b h = false.
Proof.
  intros Hl. destruct (is_prefix b h) eqn:E; [|done].
  apply is_prefix_spec in E as [k ->]. rewrite length_app in Hl. lia.
Qed.

Lemma find_sub_short p b h : (length h < length b)%nat -> find_sub p b h = None.
Proof.
  revert p. induction h as [|c h IH]; intros p Hl; cbn [find_sub];
    rewrite is_prefix_short by done; [done|]. apply IH. cbn in Hl. lia.
Qed.

(** C34. [strnstr] searches all [len] bytes at [s1], NULs included, for the
    needle: the first occurrence that lies within them, or [nullptr]. *)
Theorem strnstr_correct fuel s1 s2 len h n m :
  bytes_ok m -> word_mapped m -> cells m s1 h -> Z.of_nat (length h) = len ->
  0 <= len < 2 ^ 64 -> cstr m s2 n -> 0 <= s2 -> s2 + Z.of_nat (length n) < 2 ^ 64 ->
  (length n < fuel)%nat ->
  strnstr fuel s1 s2 len m = Ok (find_sub s1 n h, m).
Proof.
  intros Hok Hw Hh Hlen Hl Hn Hs Hs' Hf. apply wp_eq. unfold strnstr.
  set (R := find_sub _ _ _). wp_step.
  eapply wp_mono; [|by apply wp_eq, (strlen_ok fuel s2 n)]. intros l2 m' [-> ->].
  destruct n as [|b n]; [apply wp_ret; unfold R; by destruct h|].
  set (nd := b :: n) in *. assert (0 < length nd)%nat by (cbn; lia).
  destruct (Z.eqb_spec (Z.of_nat (length nd)) 0); [lia|].
  assert (Hnd : cells m s2 nd /\ Forall (fun c => 1 <= c < 256) nd).
  { destruct Hn as [Hc Hr]. by apply cells_app in Hc as [Hc _]. }
  destruct Hnd as [Hcn Hrn]. clearbody nd.
  apply (wp_loop (fun '(x, k) m' => m' = m /\ exists h, cells m x h /\
           Z.of_nat (length h) = k /\ find_sub x nd h = R) (fun '(_, k) => Z.to_nat k));
    [|split; [done|by exists h]|lia].
  clearbody R. clear h Hh Hlen. intros [x k] m' (-> & h & Hh & <- & HR).
  destruct (Z.leb_spec (Z.of_nat (length nd)) (Z.of_nat (length h))) as [Hle|Hgt]; cbn [negb].
  2: { apply wp_ret. split; [|done]. rewrite <- HR. symmetry. apply find_sub_short. lia. }
  wp_step. eapply wp_mono; [|apply (strncmp_raw x s2 _ (take (length nd) h) nd); try done].
  2: { rewrite <- (take_drop (length nd) h), cells_app in Hh. apply Hh. }
  2: { rewrite length_take. lia. }
  intros r m' [-> ->]. rewrite cmp_bytes_prefix by lia.
  destruct h as [|c h]; [cbn in Hle; lia|]. cbn [find_sub] in HR.
  destruct (is_prefix nd (c :: h)); apply wp_ret; [done|].
  apply cells_cons in Hh as [_ Hh]. cbn [length]. split; [|lia].
  split; [done|]. exists h. split_and!; [done|lia|done].
Qed.

(** ** Runs on concrete memories *)

(** [lo wo] from 64 and [hello world] from 97, on whole words. *)
Definition hello : list Z := [104; 101; 108; 108; 111; 32; 119; 111; 114; 108; 100].
Definition lo_wo : list Z := [108; 111; 32; 119; 111].
Definition two_strings : mem Z :=
  blit (blit (blit (blit ∅ 64 (replicate 16 0)) 64 lo_wo) 96 (replicate 24 0)) 97 hello.

Lemma strcmp_witness :
  strcmp 6 64 97 two_strings = Ok (4, two_strings).
Proof.
  apply (strcmp_correct 6 64 97 lo_wo hello two_strings); first [decided | cbn; lia].
Defined.

Lemma strncmp_witness : strncmp 100 106 1 two_strings = Ok (0, two_strings).
Proof.
  apply (strncmp_correct 100 106 1 [108] [108] two_strings); first [lia | decided].
Defined.

Lemma strrchr_witness : strrchr 12 97 108 two_strings = Ok (Some 106, two_strings).
Proof. apply (strrchr_correct 12 97 108 hello two_strings); first [decided | cbn; lia]. Defined.

Lemma strchr_witness : strchr 12 97 108 two_strings = Ok (Some 99, two_strings).
Proof. apply (strchr_correct 12 97 108 hello two_strings); first [decided | cbn; lia]. Defined.

Lemma strstr_witness : strstr 12 97 64 two_strings = Ok (Some 100, two_strings).
Proof.
  apply (strstr_correct 12 97 64 hello lo_wo two_strings); first [decided | cbn; lia].
Defined.

Lemma strnstr_witness : strnstr 12 97 64 7 two_strings = Ok (None, two_strings).
Proof.
  apply (strnstr_correct 12 97 64 7 (take 7 hello) lo_wo two_strings);
    first [decided | cbn; lia].
Defined.
