(* ===== verification/Compare.v ===== *)
(** * Comparison, swap and permutation of cells

    [algorithm/include/compare.inl]: [min], [max], [lexicographical_compare]
    and [swap], over any element type [T] with the comparison operators the
    templates use ([Cmp]).  The interface [CmpLaws] is what the ordering
    algorithms need from these operators.  The second half relates two
    memories that differ by a permutation of a range, which is what every
    algorithm built on [swap] does. *)

From stdpp Require Import base list numbers gmap.
From S2P Require Import Prelude Memory.

(** ** The element type *)

(** The operators [<], [<=], [>], [>=] and [==] of [T]. *)
Class Cmp (T : Type) := {
  op_lt : T -> T -> bool;
  op_le : T -> T -> bool;
  op_gt : T -> T -> bool;
  op_ge : T -> T -> bool;
  op_eq : T -> T -> bool;
}.

(** A total preorder, with the strict and reversed operators it induces. *)
Class CmpLaws (T : Type) `{Cmp T} := {
  le_total : forall a b : T, op_le a b = true \/ op_le b a = true;
  le_trans : forall a b c : T, op_le a b = true -> op_le b c = true -> op_le a c = true;
  lt_negb_le : forall a b : T, op_lt a b = negb (op_le b a);
  gt_lt : forall a b : T, op_gt a b = op_lt b a;
  ge_le : forall a b : T, op_ge a b = op_le b a;
}.

#[export] Instance Z_cmp : Cmp Z := {
  op_lt := Z.ltb; op_le := Z.leb; op_gt := Z.gtb; op_ge := Z.geb; op_eq := Z.eqb
}.

#[export] Instance Z_cmp_laws : CmpLaws Z.
Proof.
  split; cbn; intros.
  - lia.
  - lia.
  - by rewrite Z.leb_antisym, negb_involutive.
  - apply Z.gtb_ltb.
  - apply Z.geb_leb.
Qed.

Section Compare.
Context {T : Type} `{Cmp T}.

(** [min] and [max] return one of their arguments. *)
Definition min (a b : T) : T := if op_lt b a then b else a.
Definition max (a b : T) : T := if op_lt a b then b else a.

(** [swap(t[p], t[q])]. *)
Definition swap (p q : Z) : M (mem T) unit :=
  let! tmp := load p in
  let! b := load q in
  do! store p b in
  store q tmp.

Definition lexicographical_compare (t1 n1 t2 n2 : Z) : M (mem T) bool :=
  let n := if n2 <? n1 then n2 else n1 in
  let! r := for_up 0 n (fun i _ =>
      let! a := load (t1 + i) in
      let! b := load (t2 + i) in
      if op_lt a b then ret (inr true)
      else
        let! b := load (t2 + i) in
        let! a := load (t1 + i) in
        if op_lt b a then ret (inr false) else ret (inl tt)) tt in
  match r with
  | inr b => ret b
  | inl _ => ret (n1 <? n2)
  end.
End Compare.

Section Laws.
Context {T : Type} `{CmpLaws T}.

Lemma le_refl (a : T) : op_le a a = true.
Proof. by destruct (le_total a a). Qed.

Lemma lt_le (a b : T) : op_lt a b = true -> op_le a b = true.
Proof.
  rewrite lt_negb_le, negb_true_iff. intros Hb. destruct (le_total a b); congruence.
Qed.

Lemma not_lt_le (a b : T) : op_lt a b = false -> op_le b a = true.
Proof. by rewrite lt_negb_le, negb_false_iff. Qed.

Lemma not_le_le (a b : T) : op_le a b = false -> op_le b a = true.
Proof. intros E. destruct (le_total a b); congruence. Qed.

Lemma min_spec (a b : T) : op_le (min a b) a = true /\ op_le (min a b) b = true.
Proof.
  unfold min. destruct (op_lt b a) eqn:E.
  - split; [by apply lt_le|apply le_refl].
  - split; [apply le_refl|by apply not_lt_le].
Qed.

Lemma max_spec (a b : T) : op_le a (max a b) = true /\ op_le b (max a b) = true.
Proof.
  unfold max. destruct (op_lt a b) eqn:E.
  - split; [by apply lt_le|apply le_refl].
  - split; [apply le_refl|by apply not_lt_le].
Qed.
End Laws.

(** Reference: the lexicographic order on lists that [<] induces. *)
Fixpoint lex_lt {T} `{Cmp T} (l1 l2 : list T) : bool :=
  match l1, l2 with
  | [], [] => false
  | [], _ :: _ => true
  | _ :: _, [] => false
  | a :: l1, b :: l2 => op_lt a b || (negb (op_lt b a) && lex_lt l1 l2)
  end.

(** C40. [lexicographical_compare] is the lexicographic order of the two
    ranges: the first position with unequivalent elements decides, and a
    proper prefix is smaller. *)
Theorem lexicographical_compare_correct {T} `{Cmp T} t1 n1 t2 n2 (l1 l2 : list T) m :
  cells m t1 l1 -> cells m t2 l2 ->
  n1 = Z.of_nat (length l1) -> n2 = Z.of_nat (length l2) ->
  lexicographical_compare t1 n1 t2 n2 m = Ok (lex_lt l1 l2, m).
Proof.
  intros H1 H2 -> ->. apply wp_eq. unfold lexicographical_compare.
  set (n1 := Z.of_nat (length l1)). set (n2 := Z.of_nat (length l2)).
  set (n := if n2 <? n1 then n2 else n1).
  assert (Hn : n = Z.min n1 n2) by (unfold n; destruct (Z.ltb_spec n2 n1); lia).
  clearbody n. subst n. wp_step.
  apply (wp_for_up (fun i _ m' => m' = m /\
    lex_lt (drop (Z.to_nat i) l1) (drop (Z.to_nat i) l2) = lex_lt l1 l2)); [done| |].
  - intros i [] m' Hi [-> Hlex].
    destruct (lookup_lt_is_Some_2 l1 (Z.to_nat i)) as [a Ha]; [lia|].
    destruct (lookup_lt_is_Some_2 l2 (Z.to_nat i)) as [b Hb]; [lia|].
    pose proof (H1 _ _ Ha) as Hla. pose proof (H2 _ _ Hb) as Hlb.
    rewrite Z2Nat.id in Hla, Hlb by lia.
    rewrite (drop_S l1 a), (drop_S l2 b) in Hlex by done. cbn [lex_lt] in Hlex.
    wp_step. eapply wp_load; [done|]. wp_step. eapply wp_load; [done|].
    destruct (op_lt a b); cbn in Hlex; [apply wp_ret; by apply wp_ret|].
    wp_step. eapply wp_load; [done|]. wp_step. eapply wp_load; [done|].
    destruct (op_lt b a); cbn in Hlex; apply wp_ret; [by apply wp_ret|].
    split; [done|]. by replace (Z.to_nat (i + 1)) with (S (Z.to_nat i)) by lia.
  - intros [] m' [-> Hlex]. apply wp_ret. split; [|done].
    rewrite Z.max_r in Hlex by lia. rewrite <- Hlex. clear Hlex.
    destruct (drop _ l1) as [|a k1] eqn:E1, (drop _ l2) as [|b k2] eqn:E2; cbn [lex_lt];
      apply (f_equal length) in E1, E2; rewrite length_drop in E1, E2; cbn [length] in E1, E2;
      subst n1 n2; destruct (Z.ltb_spec (Z.of_nat (length l1)) (Z.of_nat (length l2)));
      lia || done.
Qed.

(** ** Permutations of a range *)

(** The transposition of two addresses. *)
Definition tr (p q a : Z) : Z := if a =? p then q else if a =? q then p else a.

Lemma tr_invol p q a : tr p q (tr p q a) = a.
Proof.
  unfold tr. destruct (Z.eqb_spec a p) as [->|Hp].
  - rewrite Z.eqb_refl. destruct (Z.eqb_spec q p); lia.
  - destruct (Z.eqb_spec a q) as [->|Hq]; [by rewrite Z.eqb_refl|].
    by rewrite (proj2 (Z.eqb_neq _ _) Hp), (proj2 (Z.eqb_neq _ _) Hq).
Qed.

Section Permute.
Context {T : Type}.
Implicit Types m : mem T.

(** [swap] exchanges two mapped cells. *)
Lemma wp_swap p q m (Q : unit -> mem T -> Prop) :
  is_Some (m !! p) -> is_Some (m !! q) ->
  (forall m', (forall a, m' !! a = m !! tr p q a) -> Q tt m') ->
  wp (swap p q) Q m.
Proof.
  intros [x Hx] [y Hy] HQ. unfold swap.
  apply wp_bind. eapply wp_load; [done|]. apply wp_bind. eapply wp_load; [done|].
  apply wp_bind. apply wp_store; [by exists x|].
  apply wp_store; [apply lookup_insert_is_Some'; by right; exists y|].
  apply HQ. intros a. unfold tr. rewrite !lookup_insert.
  destruct (Z.eqb_spec a p), (Z.eqb_spec a q); repeat case_decide; subst; congruence.
Qed.

(** [m'] is [m] with the cells of [p, p + n) permuted. *)
Definition perm_on (p n : Z) m m' : Prop :=
  exists f : Z -> Z, (forall a, m' !! a = m !! f a) /\
    (forall a b, f a = f b -> a = b) /\
    (forall a, p <= a < p + n -> p <= f a < p + n) /\
    (forall a, ~ (p <= a < p + n) -> f a = a).

Lemma perm_on_refl p n m : perm_on p n m m.
Proof. exists (fun a => a). split_and!; auto. Qed.

Lemma perm_on_trans p n m1 m2 m3 :
  perm_on p n m1 m2 -> perm_on p n m2 m3 -> perm_on p n m1 m3.
Proof.
  intros (f & Hf & If & Rf & Of) (g & Hg & Ig & Rg & Og).
  exists (fun a => f (g a)). split_and!; intros; auto.
  - by rewrite Hg, Hf.
  - rewrite Og by done. auto.
Qed.

Lemma perm_on_widen p n q k m m' :
  perm_on p n m m' -> q <= p -> p + n <= q + k -> perm_on q k m m'.
Proof.
  intros (f & Hf & If & Rf & Of) ??. exists f. split_and!; [done|done| |].
  - intros a Ha. destruct (decide (p <= a < p + n)) as [Hin|Hout].
    + specialize (Rf a Hin). lia.
    + by rewrite (Of a Hout).
  - intros a Ha. apply Of. lia.
Qed.

Lemma perm_on_swap p n a b m m' :
  p <= a < p + n -> p <= b < p + n -> (forall c, m' !! c = m !! tr a b c) ->
  perm_on p n m m'.
Proof.
  intros Ha Hb Hm. exists (tr a b). split_and!; [done| | |].
  - intros c d E. rewrite <- (tr_invol a b c), E. apply tr_invol.
  - intros c Hc. unfold tr. destruct (Z.eqb_spec c a), (Z.eqb_spec c b); lia.
  - intros c Hc. unfold tr. destruct (Z.eqb_spec c a), (Z.eqb_spec c b); lia.
Qed.

Lemma perm_on_out p n m m' a : perm_on p n m m' -> ~ (p <= a < p + n) -> m' !! a = m !! a.
Proof. intros (f & Hf & _ & _ & Of) Ha. by rewrite Hf, Of. Qed.

Lemma perm_on_in p n m m' a :
  perm_on p n m m' -> p <= a < p + n -> exists b, p <= b < p + n /\ m' !! a = m !! b.
Proof. intros (f & Hf & _ & Rf & _) Ha. exists (f a). auto. Qed.

Lemma perm_on_mapped p n m m' q k : perm_on p n m m' -> mapped m q k ->
  mapped m p n -> mapped m' q k.
Proof.
  intros HP Hm Hp a Ha. destruct (decide (p <= a < p + n)) as [Hin|Hout].
  - destruct (perm_on_in _ _ _ _ _ HP Hin) as (b & Hb & ->). by apply Hp.
  - rewrite (perm_on_out _ _ _ _ _ HP Hout). by apply Hm.
Qed.

(** On lists: the range holds a permutation of what it held. *)
Lemma perm_on_range p n m m' : perm_on p n m m' -> range m' p n ≡ₚ range m p n.
Proof.
  intros (f & Hf & If & Rf & _). unfold range.
  assert (E : omap (fun i => m' !! i) (seqZ p n) = omap (fun i => m !! i) (f <$> seqZ p n)).
  { induction (seqZ p n) as [|a l IH]; [done|]. cbn. rewrite Hf.
    destruct (m !! f a); [f_equal|]; apply IH. }
  rewrite E. apply omap_Permutation.
  apply submseteq_length_Permutation; [|by rewrite length_fmap].
  apply NoDup_submseteq.
  - apply NoDup_fmap_2; [intros a b; apply If|apply NoDup_seqZ].
  - intros b (a & -> & Ha)%list_elem_of_fmap. apply elem_of_seqZ in Ha.
    apply elem_of_seqZ. auto.
Qed.

(** A memory equal to [m] outside the range is [m] with the range rewritten. *)
Lemma blit_range m m' p n :
  mapped m' p n -> (forall a, ~ (p <= a < p + n) -> m' !! a = m !! a) ->
  m' = blit m p (range m' p n).
Proof.
  intros Hm Ho. apply map_eq. intros a.
  destruct (decide (p <= a < p + n)) as [Hin|Hout].
  - destruct (Hm a Hin) as [v Hv]. rewrite Hv. symmetry. apply blit_lookup_in; [lia|].
    destruct (lookup_lt_is_Some_2 (range m' p n) (Z.to_nat (a - p))) as [w Hw].
    { rewrite range_length by done. lia. }
    rewrite Hw. apply (range_cells _ _ _ Hm) in Hw. rewrite <- Hv, <- Hw. f_equal. lia.
  - rewrite Ho by done. symmetry. apply blit_lookup_out.
    rewrite range_length by done. lia.
Qed.

Lemma perm_on_blit p n m m' :
  mapped m p n -> perm_on p n m m' -> m' = blit m p (range m' p n).
Proof.
  intros Hm HP. apply blit_range; [by eapply perm_on_mapped|].
  intros a Ha. by eapply perm_on_out.
Qed.

(** The lists the range holds before and after are permutations of each
    other, and the cells outside are the same. *)
Lemma perm_on_Permutation p n m m' :
  perm_on p n m m' ->
  range m' p n ≡ₚ range m p n /\ (forall a, ~ (p <= a < p + n) -> m' !! a = m !! a).
Proof.
  intros (f & Hf & If & Rf & Of). split; [|intros a Ha; by rewrite Hf, Of].
  unfold range. transitivity (omap (fun i => m !! i) (f <$> seqZ p n)).
  - generalize (seqZ p n). induction l as [|a l IH]; [done|]. cbn. rewrite Hf.
    destruct (m !! f a); [by constructor|done].
  - apply omap_Permutation, submseteq_length_Permutation; [|by rewrite length_fmap].
    apply NoDup_submseteq; [apply NoDup_fmap_2; [done|apply NoDup_seqZ]|].
    intros b (a & -> & Ha%elem_of_seqZ)%list_elem_of_fmap. apply elem_of_seqZ. by apply Rf.
Qed.
End Permute.

#[export] Hint Resolve perm_on_refl perm_on_mapped : ytl.

Lemma lexicographical_compare_witness :
  let m := blit (blit ∅ 0 [1; 2; 3]) 10 [1; 3] in
  lexicographical_compare 0 3 10 2 m = Ok (true, m).
Proof.
  intros m. change true with (lex_lt [1; 2; 3] [1; 3]).
  apply (lexicographical_compare_correct 0 3 10 2 [1; 2; 3] [1; 3] m);
    first [reflexivity | decided].
Defined.
