(* ===== verification/Sequence.v ===== *)
(** * Sequence and numeric algorithms

    [algorithm/include/sequence.inl]: [copy], [fill], [reverse], [rotate];
    [algorithm/include/numeric.inl]: [accumulate], [adjacent_difference].  Two pointers of one call may point into the same array: the
    contracts say for which overlaps the result is right. *)

From stdpp Require Import base list numbers gmap.
From S2P Require Import Prelude Memory Compare.

Lemma lookup_rev {A} (l : list A) i :
  (i < length l)%nat -> rev l !! i = l !! (length l - S i)%nat.
Proof.
  revert i. induction l as [|a l IH]; intros i Hi; cbn [rev length] in *; [lia|].
  destruct (decide (i < length l)%nat) as [Hlt|Hge].
  - rewrite lookup_app_l by (by rewrite length_rev). rewrite IH by done.
    by replace (S (length l) - S i)%nat with (S (length l - S i)) by lia.
  - replace (S (length l) - S i)%nat with 0%nat by lia. rewrite lookup_app_r by (rewrite length_rev; lia).
    rewrite length_rev. by replace (i - length l)%nat with 0%nat by lia.
Qed.

Section Sequence.
Context {T : Type}.
Implicit Types (m : mem T) (l : list T).

Definition copy (src dest n : Z) : M (mem T) unit :=
  if (src <? dest) && (dest <? src + n) then
    for_down n 0 (fun i => let! v := load (src + (i - 1)) in store (dest + (i - 1)) v)
  else
    for_ 0 n (fun i => let! v := load (src + i) in store (dest + i) v).

Definition fill (t n : Z) (value : T) : M (mem T) unit :=
  for_ 0 n (fun i => store (t + i) value).

Definition reverse (t n : Z) : M (mem T) unit :=
  for_ 0 (n / 2) (fun i => swap (t + i) (t + u64 (u64 (n - 1) - i))).

Definition rotate (t n mid : Z) : M (mem T) Z :=
  if (mid =? 0) || (mid =? n) then ret (t + mid)
  else
    do! reverse t mid in
    do! reverse (t + mid) (u64 (n - mid)) in
    do! reverse t n in
    ret (t + mid).

(** ** Contracts *)

(** [copy] is correct for every overlap of the two ranges: [dest] gets
    the elements [src] held before the call and nothing else changes. *)
Theorem copy_correct src dest n m :
  0 <= n -> mapped m src n -> mapped m dest n ->
  copy src dest n m = Ok (tt, blit m dest (range m src n)).
Proof.
  intros Hn Hs Hd. apply wp_eq. unfold copy. set (l := range m src n).
  pose proof (range_cells m src n Hs) as Hc. fold l in Hc.
  assert (Hl : Z.of_nat (length l) = n) by (unfold l; rewrite range_length by done; lia).
  assert (Hv : forall i, 0 <= i < n -> exists v, l !! Z.to_nat i = Some v /\
               m !! (src + i) = Some v).
  { intros i Hi. destruct (lookup_lt_is_Some_2 l (Z.to_nat i)) as [v Hv]; [lia|].
    exists v. split; [done|]. apply Hc in Hv. by rewrite Z2Nat.id in Hv by lia. }
  clearbody l. destruct ((src <? dest) && (dest <? src + n)) eqn:Eo.
  - apply (wp_for_down (fun i m' => m' = blit m (dest + i) (drop (Z.to_nat i) l))); [lia| | |].
    + by rewrite drop_ge by lia.
    + intros i m' Hi ->. destruct (Hv (i - 1)) as (v & Hlv & Hmv); [lia|].
      apply wp_bind. apply (wp_load _ _ v).
      { rewrite blit_lookup_out by lia. done. }
      apply wp_store; [apply blit_mapped with (q := dest) (n := n); [done|lia]|].
      rewrite <- blit_insert_out by lia.
      rewrite (drop_S l v (Z.to_nat (i - 1))) by done. cbn [blit]. f_equal; [lia|].
      f_equal. lia.
    + intros m' ->. by rewrite drop_0, Z.add_0_r.
  - apply (wp_for (fun i m' => m' = blit m dest (take (Z.to_nat i) l))); [done| |].
    + intros i m' Hi ->. destruct (Hv i) as (v & Hlv & Hmv); [lia|].
      apply wp_bind. apply (wp_load _ _ v).
      { rewrite blit_lookup_out; [done|]. rewrite length_take. lia. }
      apply wp_store; [apply blit_mapped with (q := dest) (n := n); [done|lia]|].
      replace (Z.to_nat (i + 1)) with (S (Z.to_nat i)) by lia.
      rewrite (take_S_r _ _ v), blit_app by done. cbn [blit]. f_equal.
      rewrite length_take. lia.
    + intros m' ->. rewrite take_ge by lia. done.
Qed.

Lemma fill_ok t n v m :
  0 <= n -> mapped m t n ->
  wp (fill t n v) (fun _ m' => m' = blit m t (replicate (Z.to_nat n) v)) m.
Proof.
  intros Hn Hm. unfold fill.
  apply (wp_for (fun i m' => m' = blit m t (replicate (Z.to_nat i) v))); [done| |].
  - intros i m' Hi ->.
    apply wp_store; [apply blit_mapped with (q := t) (n := n); [done|lia]|].
    replace (Z.to_nat (i + 1)) with (Z.to_nat i + 1)%nat by lia.
    rewrite replicate_add, blit_app. cbn [replicate blit]. f_equal.
    rewrite length_replicate. lia.
  - intros m' ->. by rewrite Z.max_r by lia.
Qed.

(** The index map of a reversal of [n] cells from [t]. *)
Definition rev_index (t n a : Z) : Z :=
  if (t <=? a) && (a <? t + n) then 2 * t + n - 1 - a else a.

Lemma reverse_ok t n m :
  0 <= n < 2 ^ 64 -> mapped m t n ->
  wp (reverse t n) (fun _ m' => forall a, m' !! a = m !! rev_index t n a) m.
Proof.
  intros Hn Hm. unfold reverse.
  assert (Hdiv : 2 * (n / 2) <= n < 2 * (n / 2) + 2).
  { pose proof (Z.div_mod n 2 ltac:(lia)). pose proof (Z.mod_pos_bound n 2). lia. }
  set (F := fun i a => if ((t <=? a) && (a <? t + i)) || ((t + n - i <=? a) && (a <? t + n))
                       then 2 * t + n - 1 - a else a).
  apply (wp_for (fun i m' => forall a, m' !! a = m !! F i a)).
  - intros a. f_equal. unfold F. case_match; lia.
  - intros i m' Hi HF.
    rewrite (u64_small (n - 1)), u64_small by lia.
    assert (Hs : forall j, 0 <= j < n -> is_Some (m' !! (t + j))).
    { intros j Hj. rewrite HF. apply Hm. unfold F. case_match; lia. }
    apply wp_swap; [apply Hs; lia|apply Hs; lia|].
    intros m'' Hm'' a. rewrite Hm'', HF. f_equal. unfold tr.
    destruct (Z.eqb_spec a (t + i)) as [->|]; [|destruct (Z.eqb_spec a (t + (n - 1 - i))) as [->|]];
      unfold F; repeat case_match; lia.
  - intros m' HF a. rewrite HF. f_equal. unfold F, rev_index. repeat case_match; lia.
Qed.

(** Reading a memory through an index map of [n] cells from [t]. *)
Lemma reindex_blit t n l l' m m' (f : Z -> Z) :
  cells m t l -> Z.of_nat (length l) = n -> length l' = length l ->
  (forall a, m' !! a = m !! f a) -> (forall a, ~ (t <= a < t + n) -> f a = a) ->
  (forall i, 0 <= i < n -> t <= f (t + i) < t + n /\
     l' !! Z.to_nat i = l !! Z.to_nat (f (t + i) - t)) ->
  m' = blit m t l'.
Proof.
  intros Hc Hl Hl' Hm' Ho Hi. apply map_eq. intros a. rewrite Hm'.
  destruct (decide (t <= a < t + n)) as [Hin|Hout].
  - destruct (Hi (a - t)) as [Hr Hlk]; [lia|]. replace (t + (a - t)) with a in * by lia.
    destruct (lookup_lt_is_Some_2 l (Z.to_nat (f a - t))) as [v Hv]; [lia|].
    rewrite Hv in Hlk. rewrite (blit_lookup_in _ _ _ _ v) by (lia || done).
    apply Hc in Hv. rewrite <- Hv. f_equal. lia.
  - rewrite Ho by done. symmetry. apply blit_lookup_out. lia.
Qed.

(** [reverse] reverses the range and changes nothing else. *)
Theorem reverse_correct t n l m :
  n = Z.of_nat (length l) -> n < 2 ^ 64 -> cells m t l ->
  reverse t n m = Ok (tt, blit m t (rev l)).
Proof.
  intros Hn Hlt Hc. apply wp_eq.
  assert (Hm : mapped m t n) by (rewrite Hn; by apply cells_mapped).
  eapply wp_mono; [|apply (reverse_ok t n m); [lia|done]].
  intros [] m' HF. split; [done|].
  eapply reindex_blit; [done|done|by rewrite length_rev|exact HF| |].
  - intros a Ha. unfold rev_index. case_match; lia.
  - intros i Hi. unfold rev_index. case_match; [|lia]. split; [lia|].
    rewrite lookup_rev by lia. f_equal. lia.
Qed.

(** C36. [rotate] brings the elements from [mid] on to the front, in order,
    followed by the first [mid] ones: three reversals are a rotation.  It
    returns [t + mid] on every path. *)
Theorem rotate_correct t n mid l m :
  n = Z.of_nat (length l) -> n < 2 ^ 64 -> 0 <= mid <= n -> cells m t l ->
  rotate t n mid m = Ok (t + mid, blit m t (drop (Z.to_nat mid) l ++ take (Z.to_nat mid) l)).
Proof.
  intros Hn Hlt Hmid Hc. apply wp_eq. unfold rotate.
  assert (Hm : mapped m t n) by (rewrite Hn; by apply cells_mapped).
  destruct (Z.eqb_spec mid 0) as [->|H0]; cbn [orb].
  { apply wp_ret. split; [done|]. rewrite drop_0, take_0, app_nil_r. symmetry. by apply blit_id. }
  destruct (Z.eqb_spec mid n) as [->|Hne].
  { apply wp_ret. split; [done|]. rewrite drop_ge, take_ge by lia. symmetry. by apply blit_id. }
  wp_step. eapply wp_mono; [|apply (reverse_ok t mid m); [lia|eapply mapped_sub; [done|lia|lia]]].
  intros [] m1 H1. rewrite u64_small by lia.
  assert (Hm1 : forall a, t <= a < t + n -> is_Some (m1 !! a)).
  { intros a Ha. rewrite H1. apply Hm. unfold rev_index. case_match; lia. }
  wp_step. eapply wp_mono; [|apply (reverse_ok (t + mid) (n - mid) m1); [lia|]].
  2: { intros a Ha. apply Hm1. lia. }
  intros [] m2 H2.
  wp_step. eapply wp_mono; [|apply (reverse_ok t n m2); [lia|]].
  2: { intros a Ha. rewrite H2. apply Hm1. unfold rev_index. case_match; lia. }
  intros [] m3 H3. apply wp_ret. split; [done|].
  apply (reindex_blit t n l _ m m3
    (fun a => rev_index t mid (rev_index (t + mid) (n - mid) (rev_index t n a)))).
  - done.
  - done.
  - rewrite length_app, length_drop, length_take. lia.
  - intros a. by rewrite H3, H2, H1.
  - intros a Ha. unfold rev_index. repeat case_match; lia.
  - intros i Hi. set (f := rev_index t mid _).
    assert (Hf : f - t = if i <? n - mid then mid + i else i - (n - mid)).
    { unfold f, rev_index. repeat case_match; lia. }
    split; [destruct (Z.ltb_spec i (n - mid)); lia|]. rewrite Hf.
    destruct (Z.ltb_spec i (n - mid)).
    + rewrite lookup_app_l by (rewrite length_drop; lia). rewrite lookup_drop. f_equal. lia.
    + rewrite lookup_app_r by (rewrite length_drop; lia).
      rewrite length_drop, lookup_take_lt by lia. f_equal. lia.
Qed.
End Sequence.

(** ** Numeric algorithms *)

(** The [+] and [-] of [T]. *)
Class Arith (T : Type) := { op_add : T -> T -> T; op_sub : T -> T -> T }.
#[export] Instance Z_arith : Arith Z := { op_add := Z.add; op_sub := Z.sub }.

Section Numeric.
Context {T : Type} `{Arith T}.
Implicit Types (m : mem T) (l : list T).

Definition accumulate (t n : Z) (init : T) : M (mem T) T :=
  let! r := for_up 0 n (fun i init =>
      let! v := load (t + i) in
      ret (inl (op_add init v) : T + Empty_set)) init in
  match r with
  | inl init => ret init
  | inr e => match e with end
  end.

Definition adjacent_difference (t result n : Z) : M (mem T) unit :=
  if n =? 0 then ret tt
  else
    let! v := load t in
    do! store result v in
    for_ 1 n (fun i =>
      let! a := load (t + i) in
      let! b := load (t + (i - 1)) in
      store (result + i) (op_sub a b)).

(** [accumulate] is the left fold of [+] over the range. *)
Lemma accumulate_correct t n init l m :
  n = Z.of_nat (length l) -> cells m t l ->
  accumulate t n init m = Ok (foldl op_add init l, m).
Proof.
  intros Hn Hc. apply wp_eq. unfold accumulate. wp_step.
  apply (wp_for_up (fun i acc m' => m' = m /\
    foldl op_add acc (drop (Z.to_nat i) l) = foldl op_add init l)); [done| |].
  - intros i acc m' Hi [-> Hf].
    destruct (lookup_lt_is_Some_2 l (Z.to_nat i)) as [v Hv]; [lia|].
    pose proof (Hc _ _ Hv) as Hl. rewrite Z2Nat.id in Hl by lia.
    rewrite (drop_S l v) in Hf by done. wp_step. eapply wp_load; [done|]. apply wp_ret.
    split; [done|]. by replace (Z.to_nat (i + 1)) with (S (Z.to_nat i)) by lia.
  - intros acc m' [-> Hf]. rewrite drop_ge in Hf by lia. by apply wp_ret.
Qed.

(** Reference: the differences of neighbours. *)
Fixpoint differences (prev : T) l : list T :=
  match l with
  | [] => []
  | v :: l => op_sub v prev :: differences v l
  end.

Lemma differences_lookup prev l i v w :
  (prev :: l) !! i = Some v -> l !! i = Some w -> differences prev l !! i = Some (op_sub w v).
Proof.
  revert prev i. induction l as [|x l IH]; intros prev [|i] Hv Hw; cbn in *; try done.
  - congruence.
  - by apply IH.
Qed.

Lemma length_differences prev l : length (differences prev l) = length l.
Proof. revert prev. induction l; intros; cbn; auto. Qed.

(** [adjacent_difference] into a disjoint result range: the first
    element, then each element minus its predecessor. *)
Theorem adjacent_difference_correct t result v l m :
  let n := Z.of_nat (length (v :: l)) in
  cells m t (v :: l) -> mapped m result n ->
  t + n <= result \/ result + n <= t ->
  adjacent_difference t result n m = Ok (tt, blit m result (v :: differences v l)).
Proof.
  intros n Hc Hm Hd. apply wp_eq. unfold adjacent_difference.
  destruct (Z.eqb_spec n 0); [cbn [length] in n; lia|].
  pose proof Hc as (Hv & _)%cells_cons. wp_step. eapply wp_load; [done|]. wp_step.
  apply wp_store; [apply Hm; lia|]. set (D := v :: differences v l).
  assert (HD : length D = length (v :: l)) by (cbn; by rewrite length_differences).
  apply (wp_for (fun i m' => m' = blit m result (take (Z.to_nat i) D))); [done| |].
  - intros i m' Hi ->.
    destruct (lookup_lt_is_Some_2 (v :: l) (Z.to_nat i)) as [w Hw]; [lia|].
    destruct (lookup_lt_is_Some_2 (v :: l) (Z.to_nat (i - 1))) as [u Hu]; [lia|].
    pose proof (Hc _ _ Hw) as Hlw. pose proof (Hc _ _ Hu) as Hlu.
    rewrite Z2Nat.id in Hlw, Hlu by lia.
    wp_step. apply (wp_load _ _ w).
    { rewrite blit_lookup_out; [done|]. rewrite length_take. lia. }
    wp_step. apply (wp_load _ _ u).
    { rewrite blit_lookup_out; [done|]. rewrite length_take. lia. }
    apply wp_store; [apply blit_mapped with (q := result) (n := n); [done|lia]|].
    replace (Z.to_nat (i + 1)) with (S (Z.to_nat i)) by lia.
    rewrite (take_S_r _ _ (op_sub w u)), blit_app; [cbn [blit]; f_equal|].
    + rewrite length_take. lia.
    + unfold D. replace (Z.to_nat i) with (S (Z.to_nat (i - 1))) by lia. cbn [lookup list_lookup].
      apply differences_lookup; [done|].
      by replace (Z.to_nat i) with (S (Z.to_nat (i - 1))) in Hw by lia.
  - intros m' ->. split; [done|]. by rewrite take_ge by lia.
Qed.
End Numeric.

Lemma rotate_witness :
  let m := blit ∅ 10 [1; 2; 3; 4; 5] in
  rotate 10 5 2 m = Ok (12, blit m 10 [3; 4; 5; 1; 2]).
Proof.
  intros m. apply (rotate_correct 10 5 2 [1; 2; 3; 4; 5] m);
    first [lia | reflexivity | decided].
Defined.
