(* ===== verification/SearchAlg.v ===== *)
(** * Searching

    [algorithm/include/search.inl]: the linear scans [find], [count] and
    [equal], and the branch-free searches [lower_bound], [upper_bound] and
    [binary_search], which walk an array laid out as an implicit tree from
    index 1 (the Eytzinger layout) and recover the answer from the path with
    [__builtin_ctz]. *)

From stdpp Require Import base list numbers gmap.
From S2P Require Import Prelude Memory Compare.

(** [__builtin_ctz]: its argument is a 32-bit [unsigned]; undefined at 0. *)
Fixpoint ctz (fuel : nat) (z : Z) : Z :=
  match fuel with
  | O => 0
  | S fuel => if Z.odd z then 0 else 1 + ctz fuel (z / 2)
  end.

Definition builtin_ctz {S} (z : Z) : M S Z :=
  if u32 z =? 0 then fault else ret (ctz 32 (u32 z)).

Section Search.
Context {T : Type} `{Cmp T}.
Implicit Types (m : mem T) (l : list T).

(** [1 & -b] of a boolean. *)
Definition bit (b : bool) : Z := Z.land 1 (- Z.b2z b).

(** The walk the three searches share, with [goes_right v] their test of
    [v] against [x], and the shift that follows it. *)
Definition descend (goes_right : T -> bool) (t n : Z) : M (mem T) Z :=
  let! k := loop (S (Z.to_nat n)) (fun k =>
    if negb (k <=? n / 2) then ret (inr k)
    else
      let! v := load (t + k) in
      ret (inl (u64 (2 * k + bit (goes_right v))))) 1 in
  let! b := (if k <=? n then let! v := load (t + k) in ret (goes_right v) else ret false) in
  let k := u64 (2 * k + bit b) in
  let! c := builtin_ctz (u64 (Z.lnot k)) in
  ret (Z.shiftr k c).

Definition lower_bound (t n : Z) (x : T) : M (mem T) T :=
  let! k := descend (fun v => op_lt v x) t n in
  let k := u64 (u64 (Z.b2z (k <? n) * k) + u64 (Z.b2z (n <=? k) * u64 (n - 1))) in
  load (t + k).

Definition upper_bound (t n : Z) (x : T) : M (mem T) T :=
  let! k := descend (fun v => op_le v x) t n in
  load (t + k).

Definition binary_search (t n : Z) (x : T) : M (mem T) bool :=
  let! k := descend (fun v => op_le v x) t n in
  let! v := load (t + k) in
  ret (op_eq v x).

Definition find (t n : Z) (value : T) : M (mem T) Z :=
  let! r := for_up 0 n (fun i _ =>
      let! v := load (t + i) in
      if op_eq v value then ret (inr (t + i)) else ret (inl tt)) tt in
  match r with
  | inr p => ret p
  | inl _ => ret (t + n)
  end.

Definition count (t n : Z) (value : T) : M (mem T) Z :=
  let! r := for_up 0 n (fun i count =>
      let! v := load (t + i) in
      ret (inl (u64 (count + (if op_eq v value then 1 else 0))) : Z + Empty_set)) 0 in
  match r with
  | inl count => ret count
  | inr e => match e with end
  end.

Definition equal (first1 first2 n : Z) : M (mem T) bool :=
  let! r := for_up 0 n (fun i _ =>
      let! a := load (first1 + i) in
      let! b := load (first2 + i) in
      if negb (op_eq a b) then ret (inr false) else ret (inl tt)) tt in
  match r with
  | inr b => ret b
  | inl _ => ret true
  end.

(** ** The linear scans *)

(** Reference: the index of the first element equal to [value]. *)
Fixpoint index_of (value : T) l : nat :=
  match l with
  | [] => 0
  | v :: l => if op_eq v value then 0 else S (index_of value l)
  end.

(** [find] returns the address of the first element equal to the value,
    or the end of the range. *)
Theorem find_correct t value l m :
  cells m t l ->
  find t (Z.of_nat (length l)) value m = Ok (t + Z.of_nat (index_of value l), m).
Proof.
  intros Hc. apply wp_eq. unfold find. wp_step.
  apply (wp_for_up (fun i _ m' => m' = m /\
    index_of value l = (Z.to_nat i + index_of value (drop (Z.to_nat i) l))%nat)); [done| |].
  - intros i [] m' Hi [-> Hf].
    destruct (lookup_lt_is_Some_2 l (Z.to_nat i)) as [v Hv]; [lia|].
    pose proof (Hc _ _ Hv) as Hl. rewrite Z2Nat.id in Hl by lia.
    rewrite (drop_S l v) in Hf by done. cbn [index_of] in Hf.
    wp_step. eapply wp_load; [done|]. destruct (op_eq v value); apply wp_ret.
    + apply wp_ret. split; [lia|done].
    + split; [done|]. replace (Z.to_nat (i + 1)) with (S (Z.to_nat i)) by lia. lia.
  - intros [] m' [-> Hf]. apply wp_ret. rewrite drop_ge in Hf by lia. cbn in Hf.
    split; [lia|done].
Qed.

Lemma count_ok t value l m :
  cells m t l -> Z.of_nat (length l) < 2 ^ 64 ->
  count t (Z.of_nat (length l)) value m =
  Ok (Z.of_nat (length (filter (fun v => op_eq v value = true) l)), m).
Proof.
  intros Hc Hlen. apply wp_eq. unfold count. wp_step.
  set (eqs := filter (fun v => op_eq v value = true)).
  apply (wp_for_up (fun i c m' => m' = m /\ 0 <= c <= i /\
    Z.of_nat (length (eqs l)) = c + Z.of_nat (length (eqs (drop (Z.to_nat i) l))))).
  - split_and!; done || lia.
  - intros i c m' Hi (-> & Hci & Hf).
    destruct (lookup_lt_is_Some_2 l (Z.to_nat i)) as [v Hv]; [lia|].
    pose proof (Hc _ _ Hv) as Hl. rewrite Z2Nat.id in Hl by lia.
    rewrite (drop_S l v) in Hf by done. unfold eqs in Hf. rewrite filter_cons in Hf.
    wp_step. eapply wp_load; [done|]. apply wp_ret.
    replace (Z.to_nat (i + 1)) with (S (Z.to_nat i)) by lia. fold eqs in Hf.
    destruct (op_eq v value) eqn:E;
      [rewrite decide_True in Hf by done|rewrite decide_False in Hf by congruence];
      rewrite ?length_cons in Hf; rewrite u64_small by lia; split_and!; done || lia.
  - intros c m' (-> & Hci & Hf). apply wp_ret. rewrite drop_ge in Hf by lia. cbn in Hf.
    split; [lia|done].
Qed.

Lemma equal_ok t1 t2 l1 l2 m :
  cells m t1 l1 -> cells m t2 l2 -> length l1 = length l2 ->
  equal t1 t2 (Z.of_nat (length l1)) m =
  Ok (forallb (fun p => op_eq p.1 p.2) (zip l1 l2), m).
Proof.
  intros H1 H2 Hlen. apply wp_eq. unfold equal. wp_step.
  set (all := forallb (fun p : T * T => op_eq p.1 p.2)).
  apply (wp_for_up (fun i _ m' => m' = m /\
    all (zip l1 l2) = all (zip (drop (Z.to_nat i) l1) (drop (Z.to_nat i) l2)))); [done| |].
  - intros i [] m' Hi [-> Hf].
    destruct (lookup_lt_is_Some_2 l1 (Z.to_nat i)) as [a Ha]; [lia|].
    destruct (lookup_lt_is_Some_2 l2 (Z.to_nat i)) as [b Hb]; [lia|].
    pose proof (H1 _ _ Ha) as Hla. pose proof (H2 _ _ Hb) as Hlb.
    rewrite Z2Nat.id in Hla, Hlb by lia.
    rewrite (drop_S l1 a), (drop_S l2 b) in Hf by done. cbn in Hf.
    wp_step. eapply wp_load; [done|]. wp_step. eapply wp_load; [done|].
    destruct (op_eq a b); cbn in *; apply wp_ret; [|by apply wp_ret].
    split; [done|]. by replace (Z.to_nat (i + 1)) with (S (Z.to_nat i)) by lia.
  - intros [] m' [-> Hf]. apply wp_ret. rewrite !drop_ge in Hf by lia. done.
Qed.

(** ** The implicit-tree walk *)

Lemma bit_b2z b : bit b = Z.b2z b.
Proof. by destruct b. Qed.

Lemma ctz_nonneg fuel z : 0 <= ctz fuel z.
Proof.
  revert z. induction fuel as [|fuel IH]; intros z; cbn [ctz]; [done|].
  specialize (IH (z / 2)). destruct (Z.odd z); lia.
Qed.

(** The complement of [k], seen by [__builtin_ctz]. *)
Lemma u32_lnot k : 0 <= k < 2 ^ 32 -> u32 (u64 (Z.lnot k)) = 2 ^ 32 - 1 - k.
Proof.
  intros Hk. replace (Z.lnot k) with (- (k + 1)) by (unfold Z.lnot; lia).
  rewrite u64_opp by lia. unfold wrap. symmetry. apply (Z.mod_unique _ _ (2 ^ 32 - 1)); lia.
Qed.

Lemma wp_builtin_ctz {S} k (Q : Z -> S -> Prop) s :
  0 <= k < 2 ^ 32 - 1 ->
  (forall c, 0 <= c -> (Z.even k = true -> c = 0) -> Q c s) ->
  wp (builtin_ctz (u64 (Z.lnot k))) Q s.
Proof.
  intros Hk HQ. unfold builtin_ctz. rewrite u32_lnot by lia.
  destruct (Z.eqb_spec (2 ^ 32 - 1 - k) 0); [lia|]. apply wp_ret, HQ; [apply ctz_nonneg|].
  intros He. cbn [ctz]. rewrite Z.odd_sub, <- (Z.negb_even k), He. done.
Qed.

(** The walk ends past the last inner node. *)
Lemma walk_ok g t n m :
  1 <= n < 2 ^ 31 - 1 -> mapped m (t + 1) n ->
  wp (loop (Datatypes.S (Z.to_nat n)) (fun k =>
        if negb (k <=? n / 2) then ret (inr k)
        else let! v := load (t + k) in ret (inl (u64 (2 * k + bit (g v))))) 1)
     (fun k m' => m' = m /\ 1 <= k <= n + 1 /\ n < 2 * k) m.
Proof.
  intros Hn Hm. pose proof (Z.div_mod n 2 ltac:(lia)). pose proof (Z.mod_pos_bound n 2).
  apply (wp_loop (fun k m' => m' = m /\ 1 <= k <= n + 1) (fun k => Z.to_nat (n + 1 - k)));
    [|by split; [|lia]|lia].
  intros k m' [-> Hk]. destruct (Z.leb_spec k (n / 2)); cbn [negb].
  - destruct (Hm (t + k)) as [v Hv]; [lia|]. wp_step. eapply wp_load; [done|]. apply wp_ret.
    rewrite bit_b2z, u64_small by (destruct (g v); cbn; lia).
    destruct (g v); cbn; split_and!; done || lia.
  - apply wp_ret. split_and!; done || lia.
Qed.

Lemma descend_ok g t n m :
  1 <= n < 2 ^ 31 - 1 -> mapped m (t + 1) n ->
  wp (descend g t n) (fun k m' => m' = m /\ 0 <= k <= 2 * n + 2 /\
        ((forall a v, t < a <= t + n -> m !! a = Some v -> g v = false) -> n < k)) m.
Proof.
  intros Hn Hm. unfold descend. wp_step. eapply wp_mono; [|by apply walk_ok].
  intros k m' (-> & Hk & Hkn). wp_step.
  apply (wp_mono _ (fun b m' => m' = m /\ (k <= n \/ b = false) /\
    ((forall a v, t < a <= t + n -> m !! a = Some v -> g v = false) -> b = false))).
  - intros b m' (-> & Hb & Hg). rewrite bit_b2z, (u64_small (2 * k + Z.b2z b)) by (destruct b; cbn [Z.b2z]; lia).
    assert (Hbz : 0 <= Z.b2z b <= 1) by (destruct b; cbn [Z.b2z]; lia).
    wp_step. apply wp_builtin_ctz; [destruct Hb as [|E]; [lia|rewrite E; cbn [Z.b2z]; lia]|].
    intros c Hc Heven. apply wp_ret. rewrite Z.shiftr_div_pow2 by done.
    assert (Hp : 0 < 2 ^ c) by (apply Z.pow_pos_nonneg; lia). split_and!; [done| | |].
    + apply Z.div_pos; lia.
    + transitivity (2 * k + Z.b2z b); [apply Z.div_le_upper_bound; nia|].
      destruct Hb as [|E]; [lia|rewrite E; cbn [Z.b2z]; lia].
    + intros Hall. specialize (Hg Hall). rewrite Hg in *. cbn [Z.b2z] in *.
      rewrite Heven, Z.pow_0_r, Z.div_1_r; [lia|]. by rewrite Z.add_0_r, Z.even_mul.
  - destruct (Z.leb_spec k n).
    + destruct (Hm (t + k)) as [v Hv]; [lia|]. wp_step. eapply wp_load; [done|]. apply wp_ret.
      split_and!; [done|by left|]. intros Hall. apply (Hall (t + k)); [lia|done].
    + apply wp_ret. split_and!; [done|by right|done].
Qed.

Lemma lower_bound_ok t n x m :
  1 <= n < 2 ^ 31 - 1 -> mapped m t (n + 1) ->
  wp (lower_bound t n x) (fun v m' => m' = m /\
        (exists j, 0 <= j < n /\ m !! (t + j) = Some v) /\
        ((forall a w, t < a <= t + n -> m !! a = Some w -> op_lt w x = false) ->
           m !! (t + (n - 1)) = Some v)) m.
Proof.
  intros Hn Hm. unfold lower_bound. wp_step.
  eapply wp_mono; [|apply descend_ok; [done|eapply mapped_sub; [done|lia|lia]]].
  intros k m' (-> & Hk & Hlast). set (j := u64 _).
  assert (Hj : j = if k <? n then k else n - 1).
  { unfold j. rewrite (u64_small (n - 1)) by lia.
    destruct (Z.ltb_spec k n), (Z.leb_spec n k); cbn [Z.b2z]; try lia;
      rewrite !Z.mul_0_l, !Z.mul_1_l, !u64_small; rewrite ?u64_small; lia. }
  clearbody j. destruct (Hm (t + j)) as [v Hv]; [destruct (Z.ltb_spec k n); lia|].
  eapply wp_load; [done|]. split_and!; [done| |].
  - exists j. split; [destruct (Z.ltb_spec k n); lia|done].
  - intros Hall. specialize (Hlast Hall). destruct (Z.ltb_spec k n); [lia|]. congruence.
Qed.

(** C39. [lower_bound] on an array of [n] elements with [1 <= n < 2^31 - 1]
    and cells [0 .. n]: it terminates, reads nothing else and returns one of
    the first [n] elements; but for an [x] above no element it always returns
    the last of them.  With [n = 0] it reads the element at index [2^64 - 1],
    so it is undefined.  For the upper bound on [n] see
    [lower_bound_too_long]. *)
Theorem lower_bound_safe t n x m :
  0 <= n < 2 ^ 31 - 1 -> mapped m t (n + 1) ->
  if n =? 0 then m !! (t + (2 ^ 64 - 1)) = None -> lower_bound t n x m = Fault
  else
    wp (lower_bound t n x) (fun v m' => m' = m /\
        (exists j, 0 <= j < n /\ m !! (t + j) = Some v) /\
        ((forall a w, t < a <= t + n -> m !! a = Some w -> op_lt w x = false) ->
           m !! (t + (n - 1)) = Some v)) m.
Proof.
  intros Hn Hm. destruct (Z.eqb_spec n 0) as [->|]; [|apply lower_bound_ok; [lia|done]].
  intros Hnone. assert (Hd : forall g, descend g t 0 m = Ok (2, m)) by done.
  unfold lower_bound, bind. rewrite Hd. unfold load.
  change (t + _) with (t + (2 ^ 64 - 1)). by rewrite Hnone.
Qed.

(** With [2^31 - 1] elements, all below [x], the walk ends at [2^32 - 1] and
    [__builtin_ctz] gets the argument 0. *)
Theorem lower_bound_too_long t x m :
  (forall a, t < a <= t + (2 ^ 31 - 1) -> exists v, m !! a = Some v /\ op_lt v x = true) ->
  lower_bound t (2 ^ 31 - 1) x m = Fault.
Proof.
  intros Hall. unfold lower_bound, bind at 1, descend. set (n := 2 ^ 31 - 1).
  set (body := fun k => _ : M (mem T) (Z + Z)).
  assert (Hw : wp (loop (S (Z.to_nat n)) body 1) (fun k m' => k = n /\ m' = m) m).
  { apply (wp_loop (fun k m' => m' = m /\ exists j, 0 <= j <= 30 /\ k = 2 ^ (j + 1) - 1)
                   (fun k => Z.to_nat (n + 1 - k))).
    - intros k m' (-> & j & Hj & ->). unfold body.
      assert (Hp : 2 ^ (j + 1) = 2 * 2 ^ j) by (rewrite Z.pow_add_r; lia).
      assert (Hp1 : 0 < 2 ^ j) by (apply Z.pow_pos_nonneg; lia).
      assert (Hp2 : 2 ^ j <= 2 ^ 30) by (apply Z.pow_le_mono_r; lia).
      replace (n / 2) with (2 ^ 30 - 1) by done. unfold n.
      destruct (Z.leb_spec (2 ^ (j + 1) - 1) (2 ^ 30 - 1)) as [Hle|Hgt]; cbn [negb].
      + destruct (Hall (t + (2 ^ (j + 1) - 1))) as (v & Hv & Hlt); [lia|].
        wp_step. eapply wp_load; [done|]. apply wp_ret. rewrite Hlt, bit_b2z. cbn [Z.b2z].
        assert (j < 30).
        { destruct (Z.eq_dec j 30) as [->|]; [|lia]. cbn in Hle. lia. }
        rewrite u64_small by lia. split; [split; [done|]|lia].
        exists (j + 1). split; [lia|]. rewrite (Z.pow_add_r 2 (j + 1) 1) by lia. lia.
      + apply wp_ret. split; [|done]. destruct (Z.eq_dec j 30) as [->|]; [done|].
        assert (2 ^ (j + 1) <= 2 ^ 30) by (apply Z.pow_le_mono_r; lia). lia.
    - split; [done|]. by exists 0.
    - unfold n. lia. }
  unfold wp in Hw. unfold bind at 1. destruct (loop _ body 1 m) as [[k m']| |]; [|done..].
  destruct Hw as [-> ->]. rewrite Z.leb_refl. destruct (Hall (t + n)) as (v & Hv & Hlt); [unfold n; lia|].
  unfold bind, load. by rewrite Hv, Hlt.
Qed.

(** [upper_bound] and [binary_search] have no such clamp: for an [x]
    below every element they read past the end of the array. *)
Theorem upper_bound_overread t n x m :
  1 <= n < 2 ^ 31 - 1 -> mapped m (t + 1) n ->
  (forall a, t + n < a -> m !! a = None) ->
  (forall a v, t < a <= t + n -> m !! a = Some v -> op_le v x = false) ->
  upper_bound t n x m = Fault /\ binary_search t n x m = Fault.
Proof.
  intros Hn Hm Hend Hall. unfold upper_bound, binary_search.
  pose proof (descend_ok (fun v => op_le v x) t n m Hn Hm) as Hd. unfold wp in Hd.
  unfold bind at 1 2. destruct (descend _ t n m) as [[k m']| |]; [|done..].
  destruct Hd as (-> & _ & Hk). specialize (Hk Hall).
  unfold bind, load. by rewrite Hend by lia.
Qed.
End Search.

(** On the implicit tree [[2; 1; 3]] (root 2, from index 1) the lower
    bound of 2 is 2, but [lower_bound] returns 1: it shifts by the number of
    trailing ones and not one further. *)
Theorem lower_bound_wrong :
  let m := blit ∅ 0 [0; 2; 1; 3] in
  lower_bound 0 3 2 m = Ok (1, m) /\ op_lt 1 2 = true.
Proof. by vm_compute. Qed.

Lemma lower_bound_witness :
  let m := blit ∅ 8 [2; 4; 6; 8; 10; 12] in
  wp (lower_bound 8 5 7) (fun v m' => m' = m /\
    (exists j, 0 <= j < 5 /\ m !! (8 + j) = Some v) /\
    ((forall a w, 8 < a <= 13 -> m !! a = Some w -> op_lt w 7 = false) ->
       m !! 12 = Some v)) m /\
  lower_bound 8 0 7 m = Fault.
Proof.
  intros m. split.
  - apply (lower_bound_safe 8 5 7 m); first [lia | decided].
  - apply (lower_bound_safe 8 0 7 m); first [lia | decided].
Defined.

Lemma find_witness :
  let m := blit ∅ 8 [2; 4; 6; 4] in find 8 4 4 m = Ok (9, m).
Proof. intros m. exact (find_correct 8 4 [2; 4; 6; 4] m ltac:(decided)). Defined.
