(* ===== verification/Heap.v ===== *)
(** * Binary heaps

    [algorithm/include/heap.inl]: [detail::sift_up], [detail::sift_down],
    [make_heap], [push_heap], [pop_heap] and [sort_heap].  A heap is a range
    in which no element is larger than its parent. *)

From stdpp Require Import base list numbers gmap.
From S2P Require Import Prelude Memory Compare.

Section Heap.
Context {T : Type} `{Cmp T}.

Definition sift_up (t pos : Z) : M (mem T) unit :=
  loop (S (Z.to_nat pos)) (fun pos =>
    if negb (0 <? pos) then ret (inr tt)
    else
      let parent := (pos - 1) / 2 in
      let! a := load (t + parent) in
      let! b := load (t + pos) in
      if op_ge a b then ret (inr tt)
      else do! swap (t + parent) (t + pos) in ret (inl parent)) pos.

(** The index of the larger child of [pos], or [pos] itself. *)
Definition max_child (t pos n : Z) : M (mem T) Z :=
  let max_idx := pos in
  let left := u64 (2 * pos + 1) in
  let right := u64 (2 * pos + 2) in
  let! max_idx :=
    (if left <? n then
       let! a := load (t + left) in
       let! b := load (t + max_idx) in
       ret (if op_gt a b then left else max_idx)
     else ret max_idx) in
  if right <? n then
    let! a := load (t + right) in
    let! b := load (t + max_idx) in
    ret (if op_gt a b then right else max_idx)
  else ret max_idx.

Definition sift_down (t pos n : Z) : M (mem T) unit :=
  loop (S (Z.to_nat n)) (fun pos =>
    let! max_idx := max_child t pos n in
    if max_idx =? pos then ret (inr tt)
    else do! swap (t + pos) (t + max_idx) in ret (inl max_idx)) pos.

Definition make_heap (t n : Z) : M (mem T) unit :=
  for_down (n / 2) 0 (fun i => sift_down t (i - 1) n).

Definition push_heap (t n : Z) : M (mem T) unit :=
  sift_up t (u64 (n - 1)).

Definition pop_heap (t n : Z) : M (mem T) unit :=
  if n <=? 1 then ret tt
  else
    do! swap (t + 0) (t + (n - 1)) in
    sift_down t 0 (n - 1).

Definition sort_heap (t n : Z) : M (mem T) unit :=
  for_down n 1 (fun i =>
    do! swap (t + 0) (t + (i - 1)) in
    sift_down t 0 (i - 1)).

(** ** Order on cells *)

(** The element at [a] is not larger than the one at [b]. *)
Definition cell_le (m : mem T) (a b : Z) : Prop :=
  forall x y, m !! a = Some x -> m !! b = Some y -> op_le x y = true.

(** [c] is a child of [p] in the implicit tree. *)
Definition child (p c : Z) : Prop := c = 2 * p + 1 \/ c = 2 * p + 2.

(** The heap order of the [n] cells from [t] for the parents from [lo] on. *)
Definition heap_from (m : mem T) (t n lo : Z) : Prop :=
  forall p c, lo <= p -> child p c -> c < n -> cell_le m (t + c) (t + p).

Definition is_heap (m : mem T) (t n : Z) : Prop := heap_from m t n 0.

Definition sorted_on (m : mem T) (t n : Z) : Prop :=
  forall a b, t <= a -> a < b -> b < t + n -> cell_le m a b.

(** Nothing among the first [k] of [n] cells is larger than anything after. *)
Definition split_at (m : mem T) (t n k : Z) : Prop :=
  forall a b, t <= a < t + k -> t + k <= b < t + n -> cell_le m a b.
End Heap.

Section HeapOk.
Context {T : Type} `{CmpLaws T}.
Implicit Types m : mem T.

Lemma cell_le_refl m a : cell_le m a a.
Proof. intros x y Hx Hy. replace y with x by congruence. apply le_refl. Qed.

Lemma cell_le_trans m a b c :
  is_Some (m !! b) -> cell_le m a b -> cell_le m b c -> cell_le m a c.
Proof. intros [y Hy] H1 H2 x z Hx Hz. eapply le_trans; eauto. Qed.

(** Comparing in a memory whose cells [a], [b] hold what [a'], [b'] held. *)
Lemma cell_le_eq m m' a b a' b' :
  m' !! a = m !! a' -> m' !! b = m !! b' -> cell_le m a' b' -> cell_le m' a b.
Proof. unfold cell_le. intros -> ->. auto. Qed.

Lemma child_range p c : child p c -> 0 <= p -> p < c.
Proof. unfold child. lia. Qed.

Lemma parent_child c : 0 < c -> 0 <= (c - 1) / 2 < c /\ child ((c - 1) / 2) c.
Proof.
  intros Hc. unfold child. pose proof (Z.div_mod (c - 1) 2 ltac:(lia)).
  pose proof (Z.mod_pos_bound (c - 1) 2 ltac:(lia)). lia.
Qed.

(** In a heap nothing is larger than the root. *)
Lemma heap_root m t n c :
  mapped m t n -> is_heap m t n -> 0 <= c < n -> cell_le m (t + c) (t + 0).
Proof.
  intros Hm Hh [Hc Hn]. revert Hn. pattern c. revert c Hc. apply Zlt_0_ind.
  intros c IH Hc Hn. destruct (Z.eq_dec c 0) as [->|Hne]; [apply cell_le_refl|].
  destruct (parent_child c) as [Hp Hch]; [lia|].
  apply (cell_le_trans m _ (t + (c - 1) / 2)).
  - apply Hm. lia.
  - apply Hh; [lia|done|done].
  - apply IH; lia.
Qed.

(** ** [sift_down] *)

Lemma max_child_ok t pos n m :
  0 <= pos < n -> n < 2 ^ 62 -> mapped m t n ->
  wp (max_child t pos n)
     (fun k m' => m' = m /\
        (forall c, child pos c -> c < n -> cell_le m (t + c) (t + k)) /\
        (k = pos \/ (child pos k /\ k < n /\ cell_le m (t + pos) (t + k)))) m.
Proof.
  intros Hpos Hn Hm. unfold max_child. rewrite !u64_small by lia.
  assert (Hld : forall i, 0 <= i < n -> exists v, m !! (t + i) = Some v).
  { intros i Hi. apply Hm. lia. }
  destruct (Hld pos) as [vp Hvp]; [lia|].
  assert (Hle : forall i j x y, m !! (t + i) = Some x -> m !! (t + j) = Some y ->
                op_le x y = true -> cell_le m (t + i) (t + j)).
  { intros i j x y Hx Hy Hxy x' y' Hx' Hy'. congruence. }
  wp_step. eapply (wp_mono _ (fun k m' => m' = m /\
    (2 * pos + 1 < n -> cell_le m (t + (2 * pos + 1)) (t + k)) /\
    (k = pos \/ (k = 2 * pos + 1 /\ k < n /\ cell_le m (t + pos) (t + k))))).
  - intros k m' (-> & Hleft & Hk).
    assert (0 <= k < n) by lia. destruct (Hld k) as [vk Hvk]; [lia|].
    destruct (Z.ltb_spec (2 * pos + 2) n) as [Hr|Hr].
    + destruct (Hld (2 * pos + 2)) as [vr Hvr]; [lia|].
      wp_step. eapply wp_load; [done|]. wp_step. eapply wp_load; [done|]. apply wp_ret.
      rewrite gt_lt. split; [done|]. destruct (op_lt vk vr) eqn:E.
      * apply lt_le in E. pose proof (Hle k (2 * pos + 2) _ _ Hvk Hvr E) as Hkr. split.
        -- intros c [-> | ->] Hc; [|apply cell_le_refl].
           apply (cell_le_trans m _ (t + k)); [by eexists| |exact Hkr]. by apply Hleft.
        -- right. split; [by right|]. split; [done|].
           destruct Hk as [->|(-> & _ & Hk)]; [done|]. apply (cell_le_trans m _ (t + (2 * pos + 1))); [by eapply Hm; lia|done|done].
      * apply not_lt_le in E. split.
        -- intros c [-> | ->] Hc; [by apply Hleft|by eapply Hle].
        -- destruct Hk as [->|(-> & ? & ?)]; [by left|right]. split; [by left|done].
    + apply wp_ret. split; [done|]. split.
      * intros c [-> | ->] Hc; [by apply Hleft|lia].
      * destruct Hk as [->|(-> & ? & ?)]; [by left|right]. split; [by left|done].
  - destruct (Z.ltb_spec (2 * pos + 1) n) as [Hl|Hl].
    + destruct (Hld (2 * pos + 1)) as [vl Hvl]; [lia|].
      wp_step. eapply wp_load; [done|]. wp_step. eapply wp_load; [done|]. apply wp_ret.
      rewrite gt_lt. split; [done|]. destruct (op_lt vp vl) eqn:E.
      * split; [intros _; apply cell_le_refl|]. right. split; [done|]. split; [done|].
        eapply Hle; [done|done|by apply lt_le].
      * split; [|by left]. intros _. eapply Hle; [done|done|by apply not_lt_le].
    + apply wp_ret. split; [done|]. split; [lia|by left].
Qed.

(** Heap order except at [pos], whose children are below its parent. *)
Definition sift_inv (m : mem T) (t n lo pos : Z) : Prop :=
  0 <= lo <= pos /\
  (forall p c, lo <= p -> p <> pos -> child p c -> c < n -> cell_le m (t + c) (t + p)) /\
  (forall g c, lo <= g -> child g pos -> child pos c -> c < n -> cell_le m (t + c) (t + g)).

Lemma sift_inv_init m t n lo :
  0 <= lo -> heap_from m t n (lo + 1) -> sift_inv m t n lo lo.
Proof.
  intros Hlo Hh. split; [lia|]. split.
  - intros p c Hp Hne. apply Hh. lia.
  - intros g c Hg Hch. pose proof (child_range _ _ Hch). lia.
Qed.

(** Swapping the larger child up moves the exception down. *)
Lemma sift_inv_step m m' t n lo pos k :
  mapped m t n -> sift_inv m t n lo pos -> child pos k -> k < n ->
  cell_le m (t + pos) (t + k) ->
  (forall c, child pos c -> c < n -> cell_le m (t + c) (t + k)) ->
  (forall a, m' !! a = m !! tr (t + pos) (t + k) a) ->
  sift_inv m' t n lo k.
Proof.
  intros Hm (Hlo & Hh & Hg) Hk Hkn Hpk Hmax Hm'.
  pose proof (child_range _ _ Hk ltac:(lia)) as Hpk'.
  assert (Hp : m' !! (t + pos) = m !! (t + k)).
  { rewrite Hm'. f_equal. unfold tr. by rewrite Z.eqb_refl. }
  assert (Hkk : m' !! (t + k) = m !! (t + pos)).
  { rewrite Hm'. f_equal. unfold tr. rewrite Z.eqb_refl. case_match; lia. }
  assert (Ho : forall i, i <> pos -> i <> k -> m' !! (t + i) = m !! (t + i)).
  { intros i Hi1 Hi2. rewrite Hm'. f_equal. unfold tr. repeat case_match; lia. }
  split; [lia|]. split.
  - intros p c Hp1 Hpk1 Hch Hc. pose proof (child_range _ _ Hch ltac:(lia)).
    destruct (Z.eq_dec p pos) as [->|Hpp].
    + destruct (Z.eq_dec c k) as [->|Hck].
      * eapply cell_le_eq; [exact Hkk|exact Hp|exact Hpk].
      * eapply cell_le_eq; [apply Ho; lia|exact Hp|by apply Hmax].
    + destruct (Z.eq_dec c pos) as [->|Hcp].
      * eapply cell_le_eq; [exact Hp|apply Ho; lia|]. apply Hg; done.
      * assert (c <> k) by (unfold child in *; lia).
        eapply cell_le_eq; [apply Ho; lia|apply Ho; lia|by apply Hh].
  - intros g c Hg1 Hgk Hkc Hc. pose proof (child_range _ _ Hkc ltac:(lia)).
    assert (g = pos) as -> by (unfold child in *; lia).
    eapply cell_le_eq; [apply Ho; lia|exact Hp|]. apply Hh; [lia|lia|done|done].
Qed.

Lemma sift_down_ok t lo n m :
  0 <= lo <= n -> n < 2 ^ 62 -> mapped m t n -> heap_from m t n (lo + 1) ->
  wp (sift_down t lo n) (fun _ m' => heap_from m' t n lo /\ perm_on t n m m') m.
Proof.
  intros Hlo Hn Hm Hh. unfold sift_down.
  apply (wp_loop (fun pos m' => sift_inv m' t n lo pos /\ pos <= n /\ perm_on t n m m')
           (fun pos => Z.to_nat (n - pos))); [| |lia].
  2: { split; [by apply sift_inv_init; [lia|]|]. split; [lia|apply perm_on_refl]. }
  intros pos m' (HI & Hpos & HP).
  assert (Hm' : mapped m' t n) by eauto with ytl.
  destruct (Z.eq_dec pos n) as [->|Hne].
  { unfold max_child. rewrite !u64_small by (destruct HI; lia). destruct HI as (Hl & HI & _).
    destruct (Z.ltb_spec (2 * n + 1) n); [lia|]. destruct (Z.ltb_spec (2 * n + 2) n); [lia|].
    apply wp_bind, wp_bind, wp_ret, wp_ret. rewrite Z.eqb_refl. apply wp_ret.
    split; [|done]. intros p c Hp Hch Hc. pose proof (child_range _ _ Hch ltac:(lia)).
    apply HI; [lia|lia|done|done]. }
  wp_step. eapply wp_mono; [|apply max_child_ok; [destruct HI; lia|done|done]].
  intros k m'' (-> & Hmax & Hk). destruct (Z.eqb_spec k pos) as [->|Hkp].
  - apply wp_ret. split; [|done]. destruct HI as (_ & HI & _). intros p c Hp Hch Hc.
    destruct (Z.eq_dec p pos) as [->|Hpp]; [by apply Hmax|by apply HI].
  - destruct Hk as [->|(Hch & Hkn & Hpk)]; [done|].
    pose proof (child_range _ _ Hch ltac:(destruct HI; lia)).
    wp_step. apply wp_swap; [apply Hm'; destruct HI; lia|apply Hm'; destruct HI; lia|].
    intros m2 Hm2. apply wp_ret. split; [|lia]. split; [by eapply sift_inv_step|].
    split; [lia|]. eapply perm_on_trans; [exact HP|].
    eapply perm_on_swap; [| |exact Hm2]; destruct HI; lia.
Qed.

(** ** [sift_up] *)

(** Heap order except between [pos] and its parent, which is above the
    children of [pos]. *)
Definition rise_inv (m : mem T) (t n pos : Z) : Prop :=
  (forall p c, 0 <= p -> c <> pos -> child p c -> c < n -> cell_le m (t + c) (t + p)) /\
  (forall g c, 0 <= g -> child g pos -> child pos c -> c < n -> cell_le m (t + c) (t + g)).

Lemma rise_inv_step m m' t n par pos :
  mapped m t n -> rise_inv m t n pos -> 0 <= par -> child par pos -> pos < n ->
  cell_le m (t + par) (t + pos) ->
  (forall a, m' !! a = m !! tr (t + par) (t + pos) a) ->
  rise_inv m' t n par.
Proof.
  intros Hm (Hh & Hg) Hpar Hch Hpos Hle Hm'.
  pose proof (child_range _ _ Hch ltac:(lia)) as Hlt.
  assert (Hp : m' !! (t + par) = m !! (t + pos)).
  { rewrite Hm'. f_equal. unfold tr. by rewrite Z.eqb_refl. }
  assert (Hkk : m' !! (t + pos) = m !! (t + par)).
  { rewrite Hm'. f_equal. unfold tr. rewrite Z.eqb_refl. case_match; lia. }
  assert (Ho : forall i, i <> par -> i <> pos -> m' !! (t + i) = m !! (t + i)).
  { intros i Hi1 Hi2. rewrite Hm'. f_equal. unfold tr. repeat case_match; lia. }
  assert (Hsib : forall c, child par c -> c < n -> cell_le m (t + c) (t + pos)).
  { intros c Hc Hcn. destruct (Z.eq_dec c pos) as [->|]; [apply cell_le_refl|].
    apply (cell_le_trans m _ (t + par)); [apply Hm; lia|by apply Hh|done]. }
  split.
  - intros p c Hp0 Hcp Hpc Hc. pose proof (child_range _ _ Hpc ltac:(lia)).
    destruct (Z.eq_dec c pos) as [->|Hcpos].
    + assert (p = par) as -> by (unfold child in *; lia).
      eapply cell_le_eq; [exact Hkk|exact Hp|done].
    + destruct (Z.eq_dec p par) as [->|Hppar].
      * eapply cell_le_eq; [apply Ho; lia|exact Hp|by apply Hsib].
      * destruct (Z.eq_dec p pos) as [->|Hppos].
        -- eapply cell_le_eq; [apply Ho; lia|exact Hkk|]. by apply Hg.
        -- eapply cell_le_eq; [apply Ho; lia|apply Ho; lia|by apply Hh].
  - intros g c Hg0 Hgp Hpc Hc. pose proof (child_range _ _ Hgp ltac:(lia)).
    pose proof (child_range _ _ Hpc ltac:(lia)).
    assert (Hpg : cell_le m (t + par) (t + g)) by (apply Hh; [done|lia|done|lia]).
    destruct (Z.eq_dec c pos) as [->|Hcpos].
    + eapply cell_le_eq; [exact Hkk|apply Ho; lia|done].
    + eapply cell_le_eq; [apply Ho; lia|apply Ho; lia|].
      apply (cell_le_trans m _ (t + par)); [apply Hm; lia|by apply Hh|done].
Qed.

Lemma sift_up_ok t pos n m :
  0 <= pos < n -> mapped m t n -> rise_inv m t n pos ->
  wp (sift_up t pos) (fun _ m' => is_heap m' t n /\ perm_on t n m m') m.
Proof.
  intros Hpos Hm HI. unfold sift_up.
  apply (wp_loop (fun pos m' => rise_inv m' t n pos /\ 0 <= pos < n /\ perm_on t n m m')
           (fun pos => Z.to_nat pos)); [|split; [done|split; [done|apply perm_on_refl]]|lia].
  clear pos Hpos HI. intros pos m' (HI & Hpos & HP).
  assert (Hm' : mapped m' t n) by eauto with ytl.
  destruct (Z.ltb_spec 0 pos) as [Hp0|Hp0]; cbn [negb].
  2: { apply wp_ret. split; [|done]. destruct HI as [Hh _]. intros p c Hp Hch Hc.
       pose proof (child_range _ _ Hch Hp). apply Hh; [done|lia|done|done]. }
  destruct (parent_child pos Hp0) as [Hpar Hch]. set (par := (pos - 1) / 2) in *.
  destruct (Hm' (t + par)) as [va Ha]; [lia|]. destruct (Hm' (t + pos)) as [vb Hb]; [lia|].
  wp_step. eapply wp_load; [done|]. wp_step. eapply wp_load; [done|].
  rewrite ge_le. destruct (op_le vb va) eqn:E.
  - apply wp_ret. split; [|done]. destruct HI as [Hh _]. intros p c Hp Hpc Hc.
    destruct (Z.eq_dec c pos) as [->|Hcp]; [|by apply Hh].
    assert (p = par) as -> by (unfold child in *; lia).
    intros x y Hx Hy. congruence.
  - apply not_le_le in E. wp_step. apply wp_swap; [by eexists|by eexists|].
    intros m2 Hm2. apply wp_ret. split; [|lia]. split_and!.
    + eapply rise_inv_step; [exact Hm'|exact HI|lia|done|lia| |exact Hm2].
      intros x y Hx Hy. congruence.
    + lia.
    + lia.
    + eapply perm_on_trans; [exact HP|]. eapply perm_on_swap; [| |exact Hm2]; lia.
Qed.

(** ** Contracts *)

Lemma heap_from_half m t n : 0 <= n -> heap_from m t n (n / 2).
Proof.
  intros Hn p c Hp Hch Hc. pose proof (Z.div_mod n 2 ltac:(lia)).
  pose proof (Z.mod_pos_bound n 2 ltac:(lia)). unfold child in Hch. lia.
Qed.

(** C16. [make_heap] turns any range into a heap of the same elements. *)
Theorem make_heap_correct t n m :
  0 <= n < 2 ^ 62 -> mapped m t n ->
  wp (make_heap t n) (fun _ m' => is_heap m' t n /\ perm_on t n m m') m.
Proof.
  intros Hn Hm. unfold make_heap.
  assert (Hd : 0 <= n / 2 <= n) by (split; [apply Z.div_pos|apply Z.div_le_upper_bound]; lia).
  apply (wp_for_down (fun i m' => heap_from m' t n i /\ perm_on t n m m')); [lia| | |done].
  - split; [apply heap_from_half; lia|apply perm_on_refl].
  - intros i m' Hi [Hh HP]. eapply wp_mono; [|apply sift_down_ok; [lia|lia| |]].
    + intros _ m2 [Hh2 HP2]. split; [done|by eapply perm_on_trans].
    + eauto with ytl.
    + by replace (i - 1 + 1) with i by lia.
Qed.

(** C35. [push_heap] extends a heap of [n - 1] elements with the last one. *)
Theorem push_heap_correct t n m :
  1 <= n < 2 ^ 62 -> mapped m t n -> is_heap m t (n - 1) ->
  wp (push_heap t n) (fun _ m' => is_heap m' t n /\ perm_on t n m m') m.
Proof.
  intros Hn Hm Hh. unfold push_heap. rewrite u64_small by lia.
  apply sift_up_ok; [lia|done|]. split.
  - intros p c Hp Hc Hch Hcn. apply Hh; [done|done|lia].
  - intros g c Hg Hgp Hpc Hc. pose proof (child_range _ _ Hpc ltac:(lia)). lia.
Qed.

(** Moving the root of a heap of [i] elements to its end: the rest is a
    heap again and nothing in it is larger. *)
Lemma extract_max_ok t i m :
  1 < i < 2 ^ 62 -> mapped m t i -> is_heap m t i ->
  wp (do! swap (t + 0) (t + (i - 1)) in sift_down t 0 (i - 1))
     (fun _ m' => is_heap m' t (i - 1) /\ perm_on t i m m' /\
        m' !! (t + (i - 1)) = m !! (t + 0) /\
        forall c, 0 <= c < i -> cell_le m' (t + c) (t + (i - 1))) m.
Proof.
  intros Hi Hm Hh. wp_step. apply wp_swap; [apply Hm; lia|apply Hm; lia|].
  intros m1 Hm1.
  assert (HP1 : perm_on t i m m1) by (eapply perm_on_swap; [| |exact Hm1]; lia).
  assert (Hlast : m1 !! (t + (i - 1)) = m !! (t + 0)).
  { rewrite Hm1. f_equal. unfold tr. repeat case_match; lia. }
  assert (Hmid : forall c, 0 < c < i - 1 -> m1 !! (t + c) = m !! (t + c)).
  { intros c Hc. rewrite Hm1. f_equal. unfold tr. repeat case_match; lia. }
  assert (Hm1' : mapped m1 t i) by eauto with ytl.
  eapply wp_mono; [|apply sift_down_ok; [lia|lia| |]].
  - intros _ m2 [Hh2 HP2].
    assert (E : m2 !! (t + (i - 1)) = m !! (t + 0)).
    { rewrite (perm_on_out _ _ _ _ _ HP2) by lia. done. }
    split_and!; [done| |done|].
    + eapply perm_on_trans; [exact HP1|]. eapply perm_on_widen; [exact HP2|lia|lia].
    + intros c Hc.
      assert (HPm : perm_on t i m m2).
      { eapply perm_on_trans; [exact HP1|]. eapply perm_on_widen; [exact HP2|lia|lia]. }
      destruct (perm_on_in _ _ _ _ (t + c) HPm) as (b & Hb & Hcb); [lia|].
      replace b with (t + (b - t)) in Hcb by lia.
      eapply cell_le_eq; [exact Hcb|exact E|]. apply (heap_root m t i); [done|done|lia].
  - eapply mapped_sub; [done|lia|lia].
  - intros p c Hp Hch Hc. pose proof (child_range _ _ Hch ltac:(lia)).
    eapply cell_le_eq; [apply Hmid; lia|apply Hmid; lia|]. apply Hh; [lia|done|lia].
Qed.

(** C17. [pop_heap] moves the largest element to the end, keeps the other
    [n - 1] a heap, and loses nothing. *)
Theorem pop_heap_correct t n m :
  1 <= n < 2 ^ 62 -> mapped m t n -> is_heap m t n ->
  wp (pop_heap t n)
     (fun _ m' => is_heap m' t (n - 1) /\ perm_on t n m m' /\
        m' !! (t + (n - 1)) = m !! (t + 0) /\
        forall c, 0 <= c < n -> cell_le m' (t + c) (t + (n - 1))) m.
Proof.
  intros Hn Hm Hh. unfold pop_heap. destruct (Z.leb_spec n 1).
  - assert (n = 1) as -> by lia. apply wp_ret. split_and!; [|apply perm_on_refl|done|].
    + intros p c Hp Hch Hc. pose proof (child_range _ _ Hch ltac:(lia)). lia.
    + intros c Hc. replace c with 0 by lia. apply cell_le_refl.
  - apply extract_max_ok; [lia|done|done].
Qed.

Lemma sorted_on_short m t n : n <= 1 -> sorted_on m t n.
Proof. intros Hn a b Ha Hab Hb. lia. Qed.

(** Permuting inside one of the two parts keeps the split. *)
Lemma split_at_perm m m' t n k p q :
  split_at m t n k -> perm_on p q m m' -> t <= p -> p + q <= t + n ->
  p + q <= t + k \/ t + k <= p -> split_at m' t n k.
Proof.
  intros Hs HP Hp Hq Hpart a b Ha Hb.
  assert (Hpre : forall c, exists d, m' !! c = m !! d /\
    (t <= c < t + k -> t <= d < t + k) /\ (t + k <= c < t + n -> t + k <= d < t + n)).
  { intros c. destruct (decide (p <= c < p + q)) as [Hin|Hout].
    - destruct (perm_on_in _ _ _ _ _ HP Hin) as (d & Hd & E). exists d. split; [done|lia].
    - exists c. split; [by eapply perm_on_out|auto]. }
  destruct (Hpre a) as (a' & Ea & Ha' & _), (Hpre b) as (b' & Eb & _ & Hb').
  eapply cell_le_eq; [exact Ea|exact Eb|]. apply Hs; auto.
Qed.

(** What holds when [i] elements are left in the heap. *)
Definition sort_inv (m0 m : mem T) (t n i : Z) : Prop :=
  is_heap m t i /\ sorted_on m (t + i) (n - i) /\ split_at m t n i /\ perm_on t n m0 m.

Lemma sort_step_ok t n i m0 m :
  1 < i <= n -> n < 2 ^ 62 -> mapped m0 t n -> sort_inv m0 m t n i ->
  wp (do! swap (t + 0) (t + (i - 1)) in sift_down t 0 (i - 1))
     (fun _ m' => sort_inv m0 m' t n (i - 1)) m.
Proof.
  intros Hi Hn Hm0 (Hh & Hs & Hle & HP).
  assert (Hm : mapped m t n) by eauto with ytl.
  eapply wp_mono; [|apply extract_max_ok; [lia|eapply mapped_sub; [done|lia|lia]|done]].
  intros _ m2 (Hh2 & HP2 & Hroot & Hmax).
  assert (Hle2 : split_at m2 t n i) by (eapply split_at_perm; [done|done|lia..]).
  split_and!; [done| | |].
  - intros a b Ha Hab Hb. destruct (Z.eq_dec a (t + (i - 1))) as [->|Hne].
    + apply Hle2; lia.
    + eapply cell_le_eq; [eapply perm_on_out; [done|lia]|eapply perm_on_out; [done|lia]|].
      apply Hs; lia.
  - intros a b Ha Hb. destruct (Z.eq_dec b (t + (i - 1))) as [->|Hne].
    + replace a with (t + (a - t)) by lia. apply Hmax. lia.
    + apply Hle2; lia.
  - eapply perm_on_trans; [exact HP|]. eapply perm_on_widen; [exact HP2|lia|lia].
Qed.

Lemma sort_inv_init m t n :
  is_heap m t n -> sort_inv m m t n n.
Proof.
  intros Hh. split_and!; [done|apply sorted_on_short; lia| |apply perm_on_refl].
  intros a b Ha Hb. lia.
Qed.

Lemma sort_inv_done m0 m t n : sort_inv m0 m t n 1 -> sorted_on m t n /\ perm_on t n m0 m.
Proof.
  intros (_ & Hs & Hle & HP). split; [|done]. intros a b Ha Hab Hb.
  destruct (Z.eq_dec a t) as [->|Hne]; [apply Hle; lia|apply Hs; lia].
Qed.

(** [sort_heap] sorts a heap, in place. *)
Theorem sort_heap_correct t n m :
  0 <= n < 2 ^ 62 -> mapped m t n -> is_heap m t n ->
  wp (sort_heap t n) (fun _ m' => sorted_on m' t n /\ perm_on t n m m') m.
Proof.
  intros Hn Hm Hh. unfold sort_heap. destruct (Z.eq_dec n 0) as [->|Hnz].
  { apply wp_of_eq with tt m; [done|]. split; [by apply sorted_on_short|apply perm_on_refl]. }
  apply (wp_for_down (fun i m' => sort_inv m m' t n i)); [lia|by apply sort_inv_init| |].
  - intros i m' Hi HI. apply sort_step_ok; [lia|lia|done|done].
  - intros m' HI. by apply sort_inv_done.
Qed.
End HeapOk.

(** Sortedness of a range as sortedness of the list it holds. *)
Lemma sorted_on_list {T} `{Cmp T} (m : mem T) t n i j x y :
  mapped m t n -> sorted_on m t n ->
  range m t n !! i = Some x -> range m t n !! j = Some y -> (i < j)%nat -> op_le x y = true.
Proof.
  intros Hm Hs Hi Hj Hij. pose proof (lookup_lt_Some _ _ _ Hj) as Hl.
  rewrite range_length in Hl by done.
  apply (range_cells _ _ _ Hm) in Hi, Hj. eapply (Hs (t + Z.of_nat i) (t + Z.of_nat j)); done || lia.
Qed.

(** ** Runs on concrete arrays *)

#[export] Instance cell_le_dec {T} `{Cmp T} (m : mem T) a b : Decision (cell_le m a b).
Proof.
  unfold cell_le. destruct (m !! a) as [x|]; [|by left].
  destruct (m !! b) as [y|]; [|by left].
  refine (cast_if (decide (op_le x y = true))); naive_solver.
Defined.

Lemma is_heap_seqZ {T} `{Cmp T} (m : mem T) t n :
  is_heap m t n <-> Forall (fun c => cell_le m (t + c) (t + (c - 1) / 2)) (seqZ 1 (n - 1)).
Proof.
  rewrite Forall_forall. setoid_rewrite elem_of_seqZ. split.
  - intros Hh c Hc. pose proof (Z.div_mod (c - 1) 2).
    pose proof (Z.mod_pos_bound (c - 1) 2). apply (Hh ((c - 1) / 2) c); unfold child; lia.
  - intros Hf p c Hp Hc Hn.
    replace p with ((c - 1) / 2) by (destruct Hc as [-> | ->]; Z.to_euclidean_division_equations; lia).
    apply Hf. unfold child in Hc. lia.
Qed.

#[export] Instance is_heap_dec {T} `{Cmp T} (m : mem T) t n : Decision (is_heap m t n).
Proof.
  refine (cast_if (decide
    (Forall (fun c => cell_le m (t + c) (t + (c - 1) / 2)) (seqZ 1 (n - 1)))));
    by rewrite is_heap_seqZ.
Defined.

Lemma make_heap_witness :
  let m := blit ∅ 8 [3; 1; 4; 1; 5; 9] in
  wp (make_heap 8 6) (fun _ m' => is_heap m' 8 6 /\ perm_on 8 6 m m') m /\
  make_heap 8 6 m = Ok (tt, blit ∅ 8 [9; 5; 4; 1; 1; 3]).
Proof.
  intros m. split; [|vm_compute; reflexivity].
  apply (make_heap_correct 8 6 m); first [lia | decided].
Defined.

Lemma push_heap_witness :
  let m := blit ∅ 8 [9; 5; 4; 1; 10] in
  wp (push_heap 8 5) (fun _ m' => is_heap m' 8 5 /\ perm_on 8 5 m m') m /\
  push_heap 8 5 m = Ok (tt, blit ∅ 8 [10; 9; 4; 1; 5]).
Proof.
  intros m. split; [|vm_compute; reflexivity].
  apply (push_heap_correct 8 5 m); first [lia | decided].
Defined.

Lemma pop_heap_witness :
  let m := blit ∅ 8 [9; 5; 4; 1] in
  wp (pop_heap 8 4) (fun _ m' => is_heap m' 8 3 /\ perm_on 8 4 m m' /\
    m' !! 11 = Some 9 /\ forall c, 0 <= c < 4 -> cell_le m' (8 + c) 11) m.
Proof. intros m. apply (pop_heap_correct 8 4 m); first [lia | decided]. Defined.

Lemma sort_heap_witness :
  let m := blit ∅ 8 [9; 5; 4; 1] in
  wp (sort_heap 8 4) (fun _ m' => sorted_on m' 8 4 /\ perm_on 8 4 m m') m /\
  sort_heap 8 4 m = Ok (tt, blit ∅ 8 [1; 4; 5; 9]).
Proof.
  intros m. split; [|vm_compute; reflexivity].
  apply (sort_heap_correct 8 4 m); first [lia | decided].
Defined.
