(* ===== verification/Sort.v ===== *)
(** * Sorting

    [algorithm/include/sort.inl]: [detail::partition] (Lomuto, last element as
    pivot), [detail::quick_sort], the inclusive [detail::sift_down], [sort],
    [partial_sort] and [nth_element].  Sizes are [size_t]: the subtractions
    that can wrap below zero are written with [u64]. *)

From stdpp Require Import base list numbers gmap.
From S2P Require Import Prelude Memory Compare Heap.

Section Sort.
Context {T : Type} `{Cmp T}.

Definition partition (t n : Z) : M (mem T) Z :=
  let! pivot := load (t + u64 (n - 1)) in
  let! r := for_up 0 (u64 (n - 1)) (fun j i =>
    let! v := load (t + j) in
    if op_le v pivot then
      do! swap (t + i) (t + j) in ret (inl (i + 1))
    else ret (inl i : Z + Empty_set)) 0 in
  match r with
  | inl i => do! swap (t + i) (t + u64 (n - 1)) in ret i
  | inr e => match e with end
  end.

Fixpoint quick_sort (fuel : nat) (t n : Z) : M (mem T) unit :=
  match fuel with
  | O => fun _ => NoFuel
  | S fuel =>
      if n <=? 1 then ret tt
      else
        let! p := partition t n in
        do! quick_sort fuel t p in
        quick_sort fuel (t + p + 1) (u64 (u64 (n - p) - 1))
  end.

(** The child [detail::sift_down] exchanges [root] with, or [root]. *)
Definition swap_child (t root end_ : Z) : M (mem T) Z :=
  let child := u64 (root * 2 + 1) in
  let swap_idx := root in
  let! a := load (t + swap_idx) in
  let! b := load (t + child) in
  let swap_idx := if op_lt a b then child else swap_idx in
  if u64 (child + 1) <=? end_ then
    let! a := load (t + swap_idx) in
    let! b := load (t + u64 (child + 1)) in
    ret (if op_lt a b then u64 (child + 1) else swap_idx)
  else ret swap_idx.

Definition sift_down (t start end_ : Z) : M (mem T) unit :=
  loop (S (S (Z.to_nat end_))) (fun root =>
    if negb (u64 (root * 2 + 1) <=? end_) then ret (inr tt)
    else
      let! swap_idx := swap_child t root end_ in
      if swap_idx =? root then ret (inr tt)
      else do! swap (t + root) (t + swap_idx) in ret (inl swap_idx)) start.

Definition sort (t num : Z) : M (mem T) unit :=
  quick_sort (S (Z.to_nat num)) t num.

(** The first loop of [partial_sort], down to and including index 0. *)
Definition partial_heapify (t m : Z) : M (mem T) unit :=
  loop (S (S (Z.to_nat (u64 (m - 1) / 2)))) (fun i =>
    if i =? u64 (-1) then ret (inr tt)
    else do! sift_down t i (u64 (m - 1)) in ret (inl (u64 (i - 1)))) (u64 (m - 1) / 2).

Definition partial_sort (t num m : Z) : M (mem T) unit :=
  if num <=? m then sort t num
  else
    do! partial_heapify t m in
    do! for_ m num (fun i =>
      let! a := load (t + i) in
      let! b := load (t + 0) in
      if op_lt a b then
        do! swap (t + 0) (t + i) in
        sift_down t 0 (u64 (m - 1))
      else ret tt) in
    for_down (u64 (m - 1)) 0 (fun i =>
      do! swap (t + 0) (t + i) in
      sift_down t 0 (i - 1)).

Definition nth_element (t num nth : Z) : M (mem T) unit :=
  if num <=? nth then ret tt
  else
    loop (S (Z.to_nat num)) (fun lr =>
      let '(left', right') := lr in
      let! p := partition (t + left') (u64 (u64 (right' - left') + 1)) in
      let p := u64 (p + left') in
      if p =? nth then ret (inr tt)
      else if p <? nth then ret (inl (u64 (p + 1), right'))
      else ret (inl (left', u64 (p - 1)))) (0, u64 (num - 1)).
End Sort.

Section SortOk.
Context {T : Type} `{CmpLaws T}.
Implicit Types m : mem T.

(** ** [partition] *)

(** The loop of [partition] at [j]: a permutation so far, elements up to the
    pivot before [i], elements from the pivot on between [i] and [j]. *)
Definition part_inv t n m pivot (j i : Z) m' : Prop :=
  0 <= i <= j /\ perm_on t (n - 1) m m' /\
  (forall k v, 0 <= k < i -> m' !! (t + k) = Some v -> op_le v pivot = true) /\
  (forall k v, i <= k < j -> m' !! (t + k) = Some v -> op_le pivot v = true).

Lemma part_inv_mapped t n m pivot j i m' :
  mapped m t n -> part_inv t n m pivot j i m' -> mapped m' t n.
Proof.
  intros Hm (_ & HP & _). eapply perm_on_mapped; [exact HP|done|].
  eapply mapped_sub; [done|lia|lia].
Qed.

Lemma part_inv_step t n m pivot j i m' :
  mapped m t n -> 0 <= j < n - 1 -> part_inv t n m pivot j i m' ->
  wp (let! v := load (t + j) in
      if op_le v pivot then do! swap (t + i) (t + j) in ret (inl (i + 1))
      else ret (inl i : Z + Empty_set))
     (fun r m2 => match r with inl i => part_inv t n m pivot (j + 1) i m2 | inr _ => False end) m'.
Proof.
  intros Hm Hj HI. pose proof (part_inv_mapped _ _ _ _ _ _ _ Hm HI) as Hm'.
  destruct HI as (Hi & HP & Hlo & Hhi).
  destruct (Hm' (t + j)) as [v Hv]; [lia|]. wp_step. eapply wp_load; [done|].
  destruct (op_le v pivot) eqn:E.
  - wp_step. apply wp_swap; [apply Hm'; lia|by eexists|]. intros m2 Hm2. apply wp_ret.
    split_and!; [lia|lia| | |].
    + eapply perm_on_trans; [exact HP|]. eapply perm_on_swap; [| |exact Hm2]; lia.
    + intros k w Hk. rewrite Hm2. unfold tr.
      destruct (Z.eqb_spec (t + k) (t + i)); [congruence|].
      destruct (Z.eqb_spec (t + k) (t + j)); [lia|]. apply Hlo. lia.
    + intros k w Hk. rewrite Hm2. unfold tr.
      destruct (Z.eqb_spec (t + k) (t + i)); [lia|].
      destruct (Z.eqb_spec (t + k) (t + j)); apply Hhi; lia.
  - apply not_le_le in E. apply wp_ret. split_and!; [lia|lia|done|done|].
    intros k w Hk Hw. destruct (Z.eq_dec k j) as [->|]; [congruence|].
    apply (Hhi k); [lia|done].
Qed.

(** Moving the pivot to [i] after the loop. *)
Lemma part_inv_done t n m pivot i m' m2 :
  1 <= n -> m !! (t + (n - 1)) = Some pivot -> part_inv t n m pivot (n - 1) i m' ->
  (forall a, m2 !! a = m' !! tr (t + i) (t + (n - 1)) a) ->
  0 <= i < n /\ perm_on t n m m2 /\ split_at m2 t n i /\ split_at m2 t n (i + 1).
Proof.
  intros Hn Hpv (Hi & HP & Hlo & Hhi) Hm2.
  assert (Hpv' : m' !! (t + (n - 1)) = Some pivot).
  { rewrite (perm_on_out _ _ _ _ _ HP); [done|lia]. }
  assert (Hlo2 : forall a x, t <= a <= t + i -> m2 !! a = Some x -> op_le x pivot = true).
  { intros a x Ha. rewrite Hm2. unfold tr.
    destruct (Z.eqb_spec a (t + i)); [intros; replace x with pivot by congruence; apply le_refl|].
    destruct (Z.eqb_spec a (t + (n - 1))); [lia|].
    replace a with (t + (a - t)) by lia. apply Hlo. lia. }
  assert (Hhi2 : forall a x, t + i <= a < t + n -> m2 !! a = Some x -> op_le pivot x = true).
  { intros a x Ha. rewrite Hm2. unfold tr.
    destruct (Z.eqb_spec a (t + i)); [intros; replace x with pivot by congruence; apply le_refl|].
    destruct (Z.eqb_spec a (t + (n - 1))); [apply Hhi; lia|].
    replace a with (t + (a - t)) by lia. apply Hhi. lia. }
  assert (Hsplit : forall k, i <= k <= i + 1 -> split_at m2 t n k).
  { intros k Hk a b Ha Hb x y Hx Hy. eapply le_trans; [apply (Hlo2 a); [lia|done]|].
    apply (Hhi2 b); [lia|done]. }
  split; [lia|]. split; [|split; apply Hsplit; lia].
  eapply perm_on_trans; [eapply perm_on_widen; [exact HP|lia|lia]|].
  eapply perm_on_swap; [| |exact Hm2]; lia.
Qed.

Lemma partition_ok t n m :
  1 <= n < 2 ^ 62 -> mapped m t n ->
  wp (partition t n) (fun p m' => 0 <= p < n /\ perm_on t n m m' /\
        split_at m' t n p /\ split_at m' t n (p + 1)) m.
Proof.
  intros Hn Hm. unfold partition. rewrite u64_small by lia.
  destruct (Hm (t + (n - 1))) as [pivot Hpv]; [lia|].
  wp_step. eapply wp_load; [done|]. wp_step.
  apply (wp_for_up (part_inv t n m pivot)).
  - split_and!; [lia|lia|apply perm_on_refl|lia|lia].
  - intros j i m' Hj HI. eapply wp_mono; [|by apply part_inv_step].
    intros [i'|e] m2; [done|by destruct e].
  - intros i m' HI. rewrite Z.max_r in HI by lia.
    pose proof (part_inv_mapped _ _ _ _ _ _ _ Hm HI) as Hm'. pose proof (proj1 HI).
    wp_step. apply wp_swap; [apply Hm'; lia|apply Hm'; lia|]. intros m2 Hm2. apply wp_ret.
    by eapply part_inv_done; [lia| | |].
Qed.

(** ** [quick_sort] *)

Lemma sorted_glue m t n p :
  split_at m t n p -> split_at m t n (p + 1) -> 0 <= p < n ->
  sorted_on m t p -> sorted_on m (t + p + 1) (n - p - 1) -> sorted_on m t n.
Proof.
  intros H1 H2 Hp Hl Hr a b Ha Hab Hb.
  destruct (decide (b < t + p)); [apply Hl; lia|].
  destruct (decide (a < t + p)); [apply H1; lia|].
  destruct (decide (a = t + p)); [apply H2; lia|apply Hr; lia].
Qed.

Lemma sorted_on_out m m' t n p q :
  sorted_on m t n -> perm_on p q m m' -> p + q <= t \/ t + n <= p -> sorted_on m' t n.
Proof.
  intros Hs HP Hd a b Ha Hab Hb.
  eapply cell_le_eq; [eapply perm_on_out; [done|lia]|eapply perm_on_out; [done|lia]|].
  apply Hs; lia.
Qed.

Lemma quick_sort_ok fuel t n m :
  0 <= n < 2 ^ 62 -> (Z.to_nat n < fuel)%nat -> mapped m t n ->
  wp (quick_sort fuel t n) (fun _ m' => sorted_on m' t n /\ perm_on t n m m') m.
Proof.
  revert t n m. induction fuel as [|fuel IH]; intros t n m Hn Hf Hm; [lia|].
  cbn [quick_sort]. destruct (Z.leb_spec n 1).
  { apply wp_ret. split; [by apply sorted_on_short|apply perm_on_refl]. }
  wp_step. eapply wp_mono; [|apply partition_ok; [lia|done]].
  intros p m1 (Hp & HP1 & Hs1 & Hs1'). assert (Hm1 : mapped m1 t n) by eauto with ytl.
  wp_step. eapply wp_mono; [|apply IH; [lia|lia|eapply mapped_sub; [done|lia|lia]]].
  intros _ m2 [Hl HP2].
  assert (HP2' : perm_on t n m1 m2) by (eapply perm_on_widen; [exact HP2|lia|lia]).
  assert (Hm2 : mapped m2 t n) by eauto with ytl. rewrite (u64_small (n - p)), u64_small by lia.
  eapply wp_mono; [|apply IH; [lia|lia|eapply mapped_sub; [done|lia|lia]]].
  intros _ m3 [Hr HP3]. split.
  - apply (sorted_glue _ _ _ p); [| |done| |done].
    + eapply split_at_perm; [|exact HP3|lia..]. eapply split_at_perm; [done|exact HP2|lia..].
    + eapply split_at_perm; [|exact HP3|lia..]. eapply split_at_perm; [done|exact HP2|lia..].
    + eapply sorted_on_out; [done|exact HP3|lia].
  - eapply perm_on_trans; [exact HP1|]. eapply perm_on_trans; [exact HP2'|].
    eapply perm_on_widen; [exact HP3|lia|lia].
Qed.

(** C4. [sort] sorts any range in place and only permutes it. *)
Theorem sort_correct t n m :
  0 <= n < 2 ^ 62 -> mapped m t n ->
  wp (sort t n) (fun _ m' => sorted_on m' t n /\ perm_on t n m m') m.
Proof. intros Hn Hm. apply quick_sort_ok; [done|lia|done]. Qed.

(** ** The inclusive [sift_down] *)

Lemma swap_child_eq t root e m :
  0 <= root -> e < 2 ^ 62 -> root * 2 + 1 <= e -> mapped m t (e + 1) ->
  swap_child t root e m = max_child t root (e + 1) m.
Proof.
  intros Hr He Hc Hm. unfold swap_child, max_child. cbv zeta.
  rewrite (Z.mul_comm root 2), !(u64_small (2 * root + 1)), !(u64_small (2 * root + 2)) by lia.
  rewrite !(u64_small (2 * root + 1 + 1)) by lia. replace (2 * root + 1 + 1) with (2 * root + 2) by lia.
  destruct (Hm (t + root)) as [vr Hvr]; [lia|].
  destruct (Hm (t + (2 * root + 1))) as [vl Hvl]; [lia|].
  destruct (Z.ltb_spec (2 * root + 1) (e + 1)); [|lia].
  rewrite (bind_load _ vr _ m Hvr), (bind_load _ vl _ m Hvl), bind_bind.
  rewrite (bind_load _ vl _ m Hvl), bind_bind, (bind_load _ vr _ m Hvr), bind_ret, gt_lt.
  destruct (Z.leb_spec (2 * root + 2) e), (Z.ltb_spec (2 * root + 2) (e + 1)); try lia; [|done].
  destruct (Hm (t + (2 * root + 2))) as [vs Hvs]; [lia|].
  rewrite (bind_load _ vs _ m Hvs).
  destruct (op_lt vr vl);
    rewrite ?(bind_load _ vr _ m Hvr), ?(bind_load _ vl _ m Hvl), (bind_load _ vs _ m Hvs);
    rewrite ?(bind_load _ vr _ m Hvr), ?(bind_load _ vl _ m Hvl), gt_lt; done.
Qed.

Lemma sift_down_eq t start e m :
  0 <= start <= e -> e < 2 ^ 62 - 1 -> mapped m t (e + 1) ->
  sift_down t start e m = Heap.sift_down t start (e + 1) m.
Proof.
  intros Hs He Hm. unfold sift_down, Heap.sift_down.
  replace (Z.to_nat (e + 1)) with (S (Z.to_nat e)) by lia.
  apply (loop_ext (fun root m => 0 <= root <= e /\ mapped m t (e + 1))); [| |done].
  - clear m Hm start Hs. intros root m [Hr Hm]. rewrite u64_small by lia.
    destruct (Z.leb_spec (root * 2 + 1) e) as [Hc|Hc]; cbn [negb].
    + unfold bind at 1 3. by rewrite swap_child_eq by lia || done.
    + unfold max_child. rewrite !u64_small by lia. unfold bind at 1.
      destruct (Z.ltb_spec (2 * root + 1) (e + 1)); [lia|].
      destruct (Z.ltb_spec (2 * root + 2) (e + 1)); [lia|].
      rewrite bind_ret. unfold ret at 2. by rewrite Z.eqb_refl.
  - clear m Hm start Hs. intros root m root' m' [Hr Hm].
    destruct (negb _) eqn:Hc; [done|]. rewrite u64_small in Hc by lia.
    unfold bind at 1. rewrite swap_child_eq by lia || done.
    pose proof (max_child_ok t root (e + 1) m ltac:(lia) ltac:(lia) Hm) as Hk. unfold wp in Hk.
    destruct (max_child t root (e + 1) m) as [[k m1]| |]; [|done..].
    destruct Hk as (-> & _ & Hk). destruct (Z.eqb_spec k root) as [->|Hkr]; [done|].
    destruct Hk as [->|(Hch & Hk & _)]; [done|]. pose proof (child_range _ _ Hch ltac:(lia)).
    intros E. assert (Hw : wp (do! swap (t + root) (t + k) in ret (inl k : Z + unit))
      (fun x m' => x = inl k /\ mapped m' t (e + 1)) m).
    { wp_step. apply wp_swap; [apply Hm; lia|apply Hm; lia|]. intros m2 Hm2. apply wp_ret.
      split; [done|]. eapply (perm_on_mapped t (e + 1) m); [eapply perm_on_swap; [| |exact Hm2]; lia|done|done]. }
    unfold wp in Hw. rewrite E in Hw. destruct Hw as [? ?]. simplify_eq. split; [lia|done].
Qed.

Lemma sift_down_incl_ok t lo n m :
  0 <= lo < n -> n < 2 ^ 62 -> mapped m t n -> heap_from m t n (lo + 1) ->
  wp (sift_down t lo (n - 1)) (fun _ m' => heap_from m' t n lo /\ perm_on t n m m') m.
Proof.
  intros Hlo Hn Hm Hh. eapply wp_ext; [apply sift_down_eq; [lia|lia|]|].
  - by replace (n - 1 + 1) with n by lia.
  - replace (n - 1 + 1) with n by lia. apply sift_down_ok; [lia|lia|done|done].
Qed.

(** The inclusive [detail::sift_down] of sort.inl and the exclusive one
    of heap.inl have the same effect on every mapped range. *)
Theorem sift_down_agree t start e m :
  0 <= start <= e -> e < 2 ^ 62 - 1 -> mapped m t (e + 1) ->
  sift_down t start e m = Heap.sift_down t start (e + 1) m.
Proof. apply sift_down_eq. Qed.

(** ** [partial_sort] *)

Lemma partial_heapify_ok t k m :
  1 <= k < 2 ^ 62 -> mapped m t k ->
  wp (partial_heapify t k) (fun _ m' => is_heap m' t k /\ perm_on t k m m') m.
Proof.
  intros Hk Hm. unfold partial_heapify. rewrite (u64_small (k - 1)) by lia.
  assert (Hd : 0 <= (k - 1) / 2 < k).
  { split; [apply Z.div_pos|apply Z.div_lt_upper_bound]; lia. }
  assert (Hneg : u64 (-1) = 2 ^ 64 - 1) by reflexivity.
  set (i0 := (k - 1) / 2) in *.
  apply (wp_loop (fun i m' => exists j, -1 <= j <= i0 /\ i = u64 j /\
      heap_from m' t k (j + 1) /\ perm_on t k m m')
    (fun i => if i =? u64 (-1) then 0%nat else S (Z.to_nat i))).
  - intros i m' (j & Hj & -> & Hh & HP). destruct (Z.eq_dec j (-1)) as [->|Hne].
    { rewrite Z.eqb_refl. by apply wp_ret. }
    rewrite (u64_small j), Hneg by lia. destruct (Z.eqb_spec j (2 ^ 64 - 1)); [lia|].
    wp_step. eapply wp_mono; [|apply sift_down_incl_ok; [lia|lia|by eauto with ytl|done]].
    intros _ m2 [Hh2 HP2]. apply wp_ret. split.
    + exists (j - 1). split_and!; [lia|lia|done| |by eapply perm_on_trans].
      by replace (j - 1 + 1) with j by lia.
    + destruct (Z.eq_dec j 0) as [->|]; [rewrite Z.eqb_refl; lia|].
      rewrite u64_small by lia. destruct (Z.eqb_spec (j - 1) (2 ^ 64 - 1)); lia.
  - exists i0. split_and!; [lia|lia|by rewrite u64_small by lia| |apply perm_on_refl].
    intros p c Hp Hch Hc. unfold child in Hch. subst i0.
    pose proof (Z.div_mod (k - 1) 2 ltac:(lia)). pose proof (Z.mod_pos_bound (k - 1) 2). lia.
  - case_match; lia.
Qed.

(** One element of the scan: the heap keeps the [k] smallest so far. *)
Lemma partial_step_ok t k i m :
  1 <= k <= i -> i < 2 ^ 62 -> mapped m t (i + 1) -> is_heap m t k -> split_at m t i k ->
  wp (let! a := load (t + i) in
      let! b := load (t + 0) in
      if op_lt a b then do! swap (t + 0) (t + i) in sift_down t 0 (u64 (k - 1)) else ret tt)
     (fun _ m' => is_heap m' t k /\ split_at m' t (i + 1) k /\ perm_on t (i + 1) m m') m.
Proof.
  intros Hk Hi Hm Hh Hs. rewrite u64_small by lia.
  destruct (Hm (t + i)) as [vi Hvi]; [lia|]. destruct (Hm (t + 0)) as [v0 Hv0]; [lia|].
  assert (Hroot : forall c, 0 <= c < k -> cell_le m (t + c) (t + 0)).
  { intros c Hc. apply (heap_root m t k); [|done|done]. eapply mapped_sub; [done|lia|lia]. }
  wp_step. eapply wp_load; [done|]. wp_step. eapply wp_load; [done|].
  destruct (op_lt vi v0) eqn:E.
  - wp_step. apply wp_swap; [by eexists|by eexists|]. intros m1 Hm1.
    assert (Hs1 : split_at m1 t (i + 1) k).
    { apply lt_le in E. intros a b Ha Hb.
      assert (Hb' : m1 !! b = m !! (if b =? t + i then t + 0 else b)).
      { rewrite Hm1. f_equal. unfold tr. repeat case_match; lia. }
      assert (Ha' : m1 !! a = m !! (if a =? t + 0 then t + i else a)).
      { rewrite Hm1. f_equal. unfold tr. repeat case_match; lia. }
      eapply cell_le_eq; [exact Ha'|exact Hb'|].
      apply (cell_le_trans m _ (t + 0)); [by eexists| |].
      - destruct (Z.eqb_spec a (t + 0)); [intros x y Hx Hy; congruence|].
        replace a with (t + (a - t)) by lia. apply Hroot. lia.
      - destruct (Z.eqb_spec b (t + i)); [apply cell_le_refl|apply Hs; lia]. }
    assert (HP1 : perm_on t (i + 1) m m1) by (eapply perm_on_swap; [| |exact Hm1]; lia).
    eapply wp_mono; [|apply sift_down_incl_ok; [lia|lia| |]].
    + intros _ m2 [Hh2 HP2]. split_and!; [done|eapply split_at_perm; [done|exact HP2|lia..]|].
      eapply perm_on_trans; [exact HP1|]. eapply perm_on_widen; [exact HP2|lia|lia].
    + eapply mapped_sub with (n := i + 1); [by eauto with ytl|lia|lia].
    + intros p c Hp Hch Hc. pose proof (child_range _ _ Hch ltac:(lia)).
      assert (Hmid : forall d, 0 < d < k -> m1 !! (t + d) = m !! (t + d)).
      { intros d Hd. rewrite Hm1. f_equal. unfold tr. repeat case_match; lia. }
      eapply cell_le_eq; [apply Hmid; lia|apply Hmid; lia|]. apply Hh; [lia|done|done].
  - apply not_lt_le in E. apply wp_ret. split_and!; [done| |apply perm_on_refl].
    intros a b Ha Hb. destruct (Z.eq_dec b (t + i)) as [->|]; [|apply Hs; lia].
    apply (cell_le_trans m _ (t + 0)); [by eexists| |intros x y Hx Hy; congruence].
    replace a with (t + (a - t)) by lia. apply Hroot. lia.
Qed.

(** The last loop of [partial_sort] is [sort_heap] on the first [k]. *)
Lemma partial_unheap_ok t k m :
  1 <= k < 2 ^ 62 -> mapped m t k -> is_heap m t k ->
  wp (for_down (u64 (k - 1)) 0 (fun i => do! swap (t + 0) (t + i) in sift_down t 0 (i - 1)))
     (fun _ m' => sorted_on m' t k /\ perm_on t k m m') m.
Proof.
  intros Hk Hm Hh. rewrite u64_small by lia.
  apply (wp_for_down (fun i m' => sort_inv m m' t k (i + 1))); [lia| | |].
  - replace (k - 1 + 1) with k by lia. by apply sort_inv_init.
  - intros i m' Hi HI. assert (Hm' : mapped m' t k) by (destruct HI as (_ & _ & _ & HP); eauto with ytl).
    assert (Hstep := sort_step_ok t k (i + 1) m m' ltac:(lia) ltac:(lia) Hm HI).
    replace (i + 1 - 1) with i in Hstep by lia. apply wp_bind_inv in Hstep.
    assert (Hsw : wp (swap (t + 0) (t + i)) (fun _ m2 => mapped m2 t k) m').
    { apply wp_swap; [apply Hm'; lia|apply Hm'; lia|]. intros m2 Hm2.
      eapply (perm_on_mapped t k m'); [eapply perm_on_swap; [| |exact Hm2]; lia|done|done]. }
    wp_step. eapply wp_mono; [|exact (wp_conj _ _ _ _ Hsw Hstep)].
    intros [] m2 [Hm2 Hw]. eapply wp_ext.
    { apply sift_down_eq; [lia|lia|]. eapply mapped_sub; [exact Hm2|lia|lia]. }
    replace (i - 1 + 1) with i by lia. done.
  - intros m' HI. by apply sort_inv_done.
Qed.

Lemma partial_sort_ok t n k m :
  0 <= n < 2 ^ 62 -> 1 <= k \/ n <= k -> mapped m t n ->
  wp (partial_sort t n k) (fun _ m' => sorted_on m' t (Z.min k n) /\
        split_at m' t n (Z.min k n) /\ perm_on t n m m') m.
Proof.
  intros Hn Hk Hm. unfold partial_sort. destruct (Z.leb_spec n k).
  { rewrite Z.min_r by lia. eapply wp_mono; [|apply quick_sort_ok; [done|lia|done]].
    intros _ m' [Hs HP]. split_and!; [done| |done]. intros a b Ha Hb. lia. }
  rewrite Z.min_l by lia. wp_step.
  eapply wp_mono; [|apply partial_heapify_ok; [lia|eapply mapped_sub; [done|lia|lia]]].
  intros _ m1 [Hh HP1]. wp_step.
  apply (wp_for (fun i m' => is_heap m' t k /\ split_at m' t i k /\ perm_on t n m m')).
  - split_and!; [done| |eapply perm_on_widen; [exact HP1|lia|lia]]. intros a b Ha Hb. lia.
  - intros i m' Hi (Hh' & Hs & HP). assert (Hm' : mapped m' t n) by eauto with ytl.
    eapply wp_mono; [|apply partial_step_ok; [lia|lia| |done|done]].
    + intros _ m2 (Hh2 & Hs2 & HP2). split_and!; [done|done|].
      eapply perm_on_trans; [exact HP|]. eapply perm_on_widen; [exact HP2|lia|lia].
    + eapply mapped_sub; [done|lia|lia].
  - intros m' (Hh' & Hs & HP). rewrite Z.max_r in Hs by lia.
    assert (Hm' : mapped m' t n) by eauto with ytl.
    eapply wp_mono; [|apply partial_unheap_ok; [lia| |done]].
    + intros _ m2 [Hs2 HP2]. split_and!; [done| |].
      * eapply split_at_perm; [exact Hs|exact HP2|lia..].
      * eapply perm_on_trans; [exact HP|]. eapply perm_on_widen; [exact HP2|lia|lia].
    + eapply mapped_sub; [done|lia|lia].
Qed.

(** With [k = 0] and a nonempty range [partial_sort] does not return:
    [(m - 1) / 2] wraps to [2^63 - 1] and the first heapify step reads
    there, far outside any array. *)
Theorem partial_sort_zero t n m :
  0 < n -> m !! (t + (2 ^ 63 - 1)) = None -> partial_sort t n 0 m = Fault.
Proof.
  intros Hn Hm. unfold partial_sort. destruct (Z.leb_spec n 0); [lia|].
  unfold bind at 1. unfold partial_heapify.
  change (u64 (0 - 1) / 2) with (2 ^ 63 - 1). cbn [loop].
  unfold bind at 1. unfold bind at 1. change (2 ^ 63 - 1 =? u64 (-1)) with false.
  unfold sift_down. cbn [loop]. change (u64 (0 - 1)) with (2 ^ 64 - 1).
  change (negb (u64 ((2 ^ 63 - 1) * 2 + 1) <=? 2 ^ 64 - 1)) with false. cbv iota.
  unfold bind, swap_child, bind at 1, load at 1. by rewrite Hm.
Qed.

(** C14. [partial_sort] with a positive count [k] puts the [k] smallest
    elements first, in order, and only permutes the range; a count of at least
    [n] sorts it.  With [k = 0] it does nothing to an empty range, and on any
    other it is undefined: [(m - 1) / 2] wraps to [2^63 - 1] and the first
    heapify step reads there. *)
Theorem partial_sort_correct t n k m :
  0 <= n < 2 ^ 62 -> 0 <= k -> mapped m t n ->
  if (k =? 0) && (0 <? n) then m !! (t + (2 ^ 63 - 1)) = None -> partial_sort t n k m = Fault
  else
    wp (partial_sort t n k) (fun _ m' => sorted_on m' t (Z.min k n) /\
          split_at m' t n (Z.min k n) /\ perm_on t n m m') m.
Proof.
  intros Hn Hk Hm. destruct (Z.eqb_spec k 0) as [->|Hk0]; cbn [andb];
    [|by apply partial_sort_ok; [|lia|]].
  destruct (Z.ltb_spec 0 n); [by apply partial_sort_zero|].
  assert (n = 0) as -> by lia. apply (partial_sort_ok t 0 0 m); [lia|lia|done].
Qed.

(** ** [nth_element] *)

(** A split of a middle part is a split of the whole between the parts'
    own bounds. *)
Lemma split_at_widen m t n l r k :
  split_at m t n l -> split_at m t n r -> 0 <= k <= r - l -> split_at m (t + l) (r - l) k ->
  split_at m t n (l + k).
Proof.
  intros Hl Hr Hk Hm a b Ha Hb. destruct (decide (a < t + l)); [apply Hl; lia|].
  destruct (decide (t + r <= b)); [apply Hr; lia|apply Hm; lia].
Qed.

(** C15. [nth_element] terminates with, at index [k], the element a sort
    would put there: nothing before it is larger, nothing after smaller. *)
Theorem nth_element_correct t n k m :
  0 <= k < n -> n < 2 ^ 62 -> mapped m t n ->
  wp (nth_element t n k) (fun _ m' => split_at m' t n k /\ split_at m' t n (k + 1) /\
        perm_on t n m m') m.
Proof.
  intros Hk Hn Hm. unfold nth_element. destruct (Z.leb_spec n k); [lia|].
  rewrite (u64_small (n - 1)) by lia.
  apply (wp_loop (fun lr m' => 0 <= lr.1 <= k /\ k <= lr.2 < n /\ perm_on t n m m' /\
      split_at m' t n lr.1 /\ split_at m' t n (lr.2 + 1)) (fun lr => Z.to_nat (lr.2 - lr.1)));
    cbn [fst snd]; [| |lia].
  2: { split_and!; [lia|lia|lia|lia|apply perm_on_refl|intros a b Ha Hb; lia..]. }
  intros [lo hi] m' (Hlo & Hhi & HP & Hsl & Hsr). cbn [fst snd] in *.
  assert (Hm' : mapped m' t n) by eauto with ytl.
  rewrite (u64_small (hi - lo)), (u64_small (hi - lo + 1)) by lia. wp_step.
  eapply wp_mono; [|apply partition_ok; [lia|eapply mapped_sub; [done|lia|lia]]].
  intros p m2 (Hp & HP2 & Hs & Hs'). rewrite (u64_small (p + lo)) by lia.
  assert (HPn : perm_on t n m m2).
  { eapply perm_on_trans; [exact HP|]. eapply perm_on_widen; [exact HP2|lia|lia]. }
  assert (Hsl2 : split_at m2 t n lo) by (eapply split_at_perm; [done|exact HP2|lia..]).
  assert (Hsr2 : split_at m2 t n (hi + 1)) by (eapply split_at_perm; [done|exact HP2|lia..]).
  assert (Hsp : split_at m2 t n (p + lo)).
  { rewrite Z.add_comm. apply split_at_widen with (r := hi + 1); [done|done|lia|].
    by replace (hi + 1 - lo) with (hi - lo + 1) by lia. }
  assert (Hsp' : split_at m2 t n (p + lo + 1)).
  { replace (p + lo + 1) with (lo + (p + 1)) by lia.
    apply split_at_widen with (r := hi + 1); [done|done|lia|].
    by replace (hi + 1 - lo) with (hi - lo + 1) by lia. }
  destruct (Z.eqb_spec (p + lo) k) as [<-|Hne]; [by apply wp_ret|].
  destruct (Z.ltb_spec (p + lo) k); apply wp_ret; rewrite u64_small by lia; cbn [fst snd].
  - split_and!; done || lia.
  - replace (p + lo - 1 + 1) with (p + lo) by lia. split_and!; done || lia.
Qed.
End SortOk.

(** ** Runs on concrete arrays *)

Lemma sort_witness :
  let m := blit ∅ 8 [3; 1; 4; 1; 5; 9; 2] in
  wp (sort 8 7) (fun _ m' => sorted_on m' 8 7 /\ perm_on 8 7 m m') m /\
  sort 8 7 m = Ok (tt, blit ∅ 8 [1; 1; 2; 3; 4; 5; 9]).
Proof.
  intros m. split; [|vm_compute; reflexivity].
  apply (sort_correct 8 7 m); first [lia | decided].
Defined.

Lemma partial_sort_witness :
  let m := blit ∅ 8 [3; 1; 4; 1; 5; 9; 2] in
  wp (partial_sort 8 7 3) (fun _ m' => sorted_on m' 8 3 /\ split_at m' 8 7 3 /\
    perm_on 8 7 m m') m /\
  partial_sort 8 7 0 m = Fault.
Proof.
  intros m. split.
  - apply (partial_sort_correct 8 7 3 m); first [lia | decided].
  - apply (partial_sort_correct 8 7 0 m); first [lia | decided].
Defined.

Lemma nth_element_witness :
  let m := blit ∅ 8 [3; 1; 4; 1; 5; 9; 2] in
  wp (nth_element 8 7 2) (fun _ m' => split_at m' 8 7 2 /\ split_at m' 8 7 3 /\
    perm_on 8 7 m m') m.
Proof.
  intros m. apply (nth_element_correct 8 7 2 m); first [lia | decided].
Defined.
