(* ===== verification/Udp.v ===== *)
(** * The UDP connection pool

    [network/include/udp.h] and [network/src/udp.cpp]: [UDPPool], a table of
    1024 connections with a list of free indices, and one ring of
    [MAX_BUFFERED_PACKETS] packets shared by all connections.  The operating
    system is the interface [Net] over an abstract world: socket calls, the
    resolver and the allocator.  Properties are proved in UdpQueue.v and
    UdpPool.v. *)

From stdpp Require Import base list numbers.
From S2P Require Import Prelude Bytes.

(** ** Data (udp.h) *)

Definition MAX_BUFFERED_PACKETS : Z := 8.
Definition DEFAULT_PACKET_SIZE : Z := 1024.
Definition MAX_CONNECTIONS : Z := 1024.

Inductive UDP_STATE := FREE | PENDING | ACTIVE | STATE_ERROR.

Inductive ERROR :=
| NONE | SOCKET_CREATION_FAILED | SEND_FAILED | BIND_FAILED | CONNECT_FAILED
| ASYNCIFY_FAILED | GETADDRINFO_FAILED | RECV_FAILED | POLL_FAILED
| FAILED_TO_READ_IO_LEN | INVALID_ADDR.

Inductive SEND_RESULT := OK | BUFFERED | FAILED.

#[export] Instance UDP_STATE_eq_dec : EqDecision UDP_STATE.
Proof. solve_decision. Defined.
#[export] Instance ERROR_eq_dec : EqDecision ERROR.
Proof. solve_decision. Defined.
#[export] Instance SEND_RESULT_eq_dec : EqDecision SEND_RESULT.
Proof. solve_decision. Defined.

(** The 28 bytes of the union, whose first two are [family]. *)
Record Address := { storage : list Z; addr_len : Z }.

Definition Address0 : Address := {| storage := replicate 28 0; addr_len := 0 |}.
Definition family (a : Address) : Z := le_word (take 2 (storage a)).
Definition valid (a : Address) : bool := 0 <? addr_len a.

(** [operator==]: [memcmp] of [addr_len] bytes, converted to [size_t]. *)
Definition address_eq (a b : Address) : res bool :=
  if addr_len a =? addr_len b then
    if (u64 (addr_len a) <=? 28) then
      Ok (cmp_bytes (take (Z.to_nat (addr_len a)) (storage a))
                    (take (Z.to_nat (addr_len a)) (storage b)) =? 0)
    else Fault
  else Ok false.

(** A block of the C heap behind a pointer: none, live with its contents, or
    already freed. *)
Inductive buffer := Null | Live (bytes : list Z) | Dangling.

(** A pointer into [addr_storage]: the index, and the number of times the
    vector had been reallocated when it was taken. *)
Record addr_ptr := { ptr_gen : nat; ptr_idx : nat }.

Record PacketData := {
  data : buffer;
  to : option addr_ptr;
  len : Z;
  max_len : Z;
}.

Definition PacketData0 : PacketData :=
  {| data := Null; to := None; len := 0; max_len := 0 |}.

Record ConnectionData := {
  socket : Z;
  recv_buffer : buffer;
  max_packet_size : Z;
  data_len : Z;
  from : Address;
  error : ERROR;
  state : UDP_STATE;
}.

Definition ConnectionData0 : ConnectionData :=
  {| socket := -1; recv_buffer := Null; max_packet_size := DEFAULT_PACKET_SIZE;
     data_len := 0; from := Address0; error := NONE; state := FREE |}.

Definition set_socket v c := {| socket := v; recv_buffer := recv_buffer c;
  max_packet_size := max_packet_size c; data_len := data_len c; from := from c;
  error := error c; state := state c |}.
Definition set_recv_buffer v n c := {| socket := socket c; recv_buffer := v;
  max_packet_size := n; data_len := data_len c; from := from c;
  error := error c; state := state c |}.
Definition set_data_len v c := {| socket := socket c; recv_buffer := recv_buffer c;
  max_packet_size := max_packet_size c; data_len := v; from := from c;
  error := error c; state := state c |}.
Definition set_from v c := {| socket := socket c; recv_buffer := recv_buffer c;
  max_packet_size := max_packet_size c; data_len := data_len c; from := v;
  error := error c; state := state c |}.
Definition set_error v c := {| socket := socket c; recv_buffer := recv_buffer c;
  max_packet_size := max_packet_size c; data_len := data_len c; from := from c;
  error := v; state := state c |}.
Definition set_state v c := {| socket := socket c; recv_buffer := recv_buffer c;
  max_packet_size := max_packet_size c; data_len := data_len c; from := from c;
  error := error c; state := v |}.

(** ** The operating system *)

(** Result of a transfer: bytes moved, [errno == EWOULDBLOCK], other errors. *)
Inductive io := Done (n : Z) | WouldBlock | Failed.

(** The calls the code makes; [W] is everything outside the program.  A
    failing call returns -1 (or [None]).  [net_recv] gets the buffer it may
    write and returns its new contents; [net_send] gets the bytes at the
    pointer it is given, [None] for a null pointer. *)
Class Net (W : Type) := {
  net_socket : Z -> W -> Z * W;
  net_connect : Z -> Address -> W -> Z * W;
  net_bind : Z -> Address -> W -> Z * W;
  net_getfl : Z -> W -> Z * W;
  net_setfl_nonblock : Z -> Z -> W -> Z * W;
  net_fionread : Z -> W -> option Z * W;
  net_recv : Z -> buffer -> Z -> W -> (option Z * buffer) * W;
  net_recvfrom : Z -> buffer -> Z -> Address -> W -> (option Z * buffer * Address) * W;
  net_send : Z -> option (list Z) -> W -> io * W;
  net_sendto : Z -> option (list Z) -> Address -> W -> io * W;
  net_poll : list Z -> W -> option (list bool) * W;
  net_getaddrinfo : list Z -> list Z -> bool -> W -> option (list Z) * W;
  net_sockaddr_in : Z -> list Z;
  net_malloc : Z -> W -> buffer * W;
  net_realloc : buffer -> Z -> W -> option (list Z) * W;
}.

(** What POSIX documents of the calls: a receive writes inside the buffer it
    is given and fails on a null one, the flags of an open descriptor can be
    read ([fd_open] says which are open; connecting and binding close none),
    blocks have the size asked for, socket addresses fit [sockaddr_in6],
    [poll] answers for each descriptor. *)
Class NetLaws (W : Type) `{Net W} := {
  fd_open : Z -> W -> Prop;
  socket_law f w fd w' : net_socket f w = (fd, w') -> fd <> -1 -> fd_open fd w';
  connect_law fd g a w r w' : net_connect g a w = (r, w') -> fd_open fd w -> fd_open fd w';
  bind_law fd g a w r w' : net_bind g a w = (r, w') -> fd_open fd w -> fd_open fd w';
  getfl_law fd w r w' : net_getfl fd w = (r, w') -> fd_open fd w -> 0 <= r;
  recv_law fd b n w r b' w' : net_recv fd b n w = ((r, b'), w') ->
    match b with
    | Live l => (exists l', b' = Live l' /\ length l' = length l) /\
                (forall k, r = Some k -> 0 <= k <= n)
    | _ => r = None /\ b' = b
    end;
  recvfrom_law fd b n a w r b' a' w' : net_recvfrom fd b n a w = ((r, b', a'), w') ->
    match b with
    | Live l => (exists l', b' = Live l' /\ length l' = length l) /\
                (forall k, r = Some k -> 0 <= k <= n)
    | _ => r = None /\ b' = b
    end;
  malloc_law n w b w' : net_malloc n w = (b, w') ->
    b = Null \/ exists l, b = Live l /\ length l = Z.to_nat n;
  realloc_law b n w l w' : net_realloc b n w = (Some l, w') -> length l = Z.to_nat n;
  getaddrinfo_law h p v w l w' : net_getaddrinfo h p v w = (Some l, w') -> (length l <= 28)%nat;
  poll_law fds w l w' : net_poll fds w = (Some l, w') -> length l = length fds;
}.

(** ** The pool *)

Record udp (W : Type) := {
  conns_ : list ConnectionData;
  free_indices_ : list Z;
  packets : list PacketData;
  length_ : Z;
  addr_storage : list Address;
  addr_cap : nat;
  addr_gen : nat;
  net : W;
}.
Arguments Build_udp {W}.
Arguments conns_ {W}.
Arguments free_indices_ {W}.
Arguments packets {W}.
Arguments length_ {W}.
Arguments addr_storage {W}.
Arguments addr_cap {W}.
Arguments addr_gen {W}.
Arguments net {W}.

Section Setters.
Context {W : Type}.
Implicit Types s : udp W.

Definition with_conns v s := Build_udp v (free_indices_ s) (packets s) (length_ s)
  (addr_storage s) (addr_cap s) (addr_gen s) (net s).
Definition with_free v s := Build_udp (conns_ s) v (packets s) (length_ s)
  (addr_storage s) (addr_cap s) (addr_gen s) (net s).
Definition with_packets v s := Build_udp (conns_ s) (free_indices_ s) v (length_ s)
  (addr_storage s) (addr_cap s) (addr_gen s) (net s).
Definition with_length v s := Build_udp (conns_ s) (free_indices_ s) (packets s) v
  (addr_storage s) (addr_cap s) (addr_gen s) (net s).
Definition with_addrs v c g s := Build_udp (conns_ s) (free_indices_ s) (packets s) (length_ s)
  v c g (net s).
Definition with_net (v : W) s := Build_udp (conns_ s) (free_indices_ s) (packets s) (length_ s)
  (addr_storage s) (addr_cap s) (addr_gen s) v.
End Setters.

Section Udp.
Context {W : Type} `{Net W}.

(** A call into the operating system. *)
Definition sys {A} (f : W -> A * W) : M (udp W) A :=
  fun s => let (a, w) := f (net s) in Ok (a, with_net w s).

(** [conns_[id]]: [std::array] does not check the index. *)
Definition get_conn (id : Z) : M (udp W) ConnectionData :=
  fun s => if id <? 0 then Fault
           else match conns_ s !! Z.to_nat id with
                | Some c => Ok (c, s)
                | None => Fault
                end.

Definition upd_conn (id : Z) (f : ConnectionData -> ConnectionData) : M (udp W) unit :=
  let! c := get_conn id in
  modify (fun s => with_conns (<[Z.to_nat id := f c]> (conns_ s)) s).

Definition get_packet (i : Z) : M (udp W) PacketData :=
  fun s => match packets s !! Z.to_nat i with
           | Some p => Ok (p, s)
           | None => Fault
           end.

Definition set_packet (i : Z) (p : PacketData) : M (udp W) unit :=
  modify (fun s => with_packets (<[Z.to_nat i := p]> (packets s)) s).

(** [&addr_storage.emplace_back()]: a full vector moves its elements. *)
Definition addr_emplace_back : M (udp W) addr_ptr :=
  fun s =>
    let n := length (addr_storage s) in
    let l := addr_storage s ++ [Address0] in
    if (n <? addr_cap s)%nat then
      Ok ({| ptr_gen := addr_gen s; ptr_idx := n |}, with_addrs l (addr_cap s) (addr_gen s) s)
    else
      Ok ({| ptr_gen := S (addr_gen s); ptr_idx := n |},
          with_addrs l (2 * addr_cap s + 1) (S (addr_gen s)) s).

Definition addr_get (p : addr_ptr) : M (udp W) Address :=
  fun s => if (ptr_gen p =? addr_gen s)%nat then
             match addr_storage s !! ptr_idx p with
             | Some a => Ok (a, s)
             | None => Fault
             end
           else Fault.

Definition addr_set (p : addr_ptr) (a : Address) : M (udp W) unit :=
  do! addr_get p in
  modify (fun s => with_addrs (<[ptr_idx p := a]> (addr_storage s)) (addr_cap s) (addr_gen s) s).

(** [std::free]: a pointer is freed at most once. *)
Definition std_free (b : buffer) : M (udp W) unit :=
  match b with
  | Dangling => fault
  | _ => ret tt
  end.

(** The [n] bytes a send call reads. *)
Definition payload (b : buffer) (n : Z) : M (udp W) (option (list Z)) :=
  match b with
  | Null => ret None
  | Live bytes => if Z.of_nat (length bytes) <? n then fault
                  else ret (Some (take (Z.to_nat n) bytes))
  | Dangling => fault
  end.

(** The room a receive call relies on: it is told that the buffer has [n]
    bytes, and a null pointer makes it fail. *)
Definition check_room (b : buffer) (n : Z) : M (udp W) unit :=
  match b with
  | Null => ret tt
  | Live bytes => if Z.of_nat (length bytes) <? n then fault else ret tt
  | Dangling => fault
  end.

(** ** Slots *)

Definition alloc_slot : M (udp W) Z :=
  let! l := gets free_indices_ in
  match list.last l with
  | None => ret MAX_CONNECTIONS
  | Some index => do! modify (with_free (removelast l)) in ret index
  end.

(** [free_slot] calls [close(conn.socket)], which inside the class is the
    member [UDPPool::close(uint32_t conn_id)], that is [free_slot] again,
    on the file descriptor. *)
Fixpoint free_slot (fuel : nat) (index : Z) : M (udp W) unit :=
  match fuel with
  | O => fun _ => NoFuel
  | S fuel =>
      let! conn := get_conn index in
      if decide (state conn = FREE) then ret tt
      else
        do! free_slot fuel (u32 (socket conn)) in
        let! conn := get_conn index in
        do! std_free (recv_buffer conn) in
        do! upd_conn index (fun _ => ConnectionData0) in
        modify (fun s => with_free (free_indices_ s ++ [index]) s)
  end.

Definition close (fuel : nat) (conn_id : Z) : M (udp W) unit := free_slot fuel conn_id.

Definition init_socket (sock : Z) : M (udp W) unit :=
  let! flags := sys (net_getfl sock) in
  if 0 <=? flags then
    do! sys (net_setfl_nonblock sock flags) in ret tt
  else upd_conn sock (set_error ASYNCIFY_FAILED).

Definition resolve_host (hostname port : list Z) (ipv4 : bool) : M (udp W) Address :=
  let! result := sys (net_getaddrinfo hostname port ipv4) in
  match result with
  | None => ret Address0
  | Some ai_addr =>
      if (28 <? length ai_addr)%nat then fault
      else ret {| storage := ai_addr ++ drop (length ai_addr) (storage Address0);
                  addr_len := Z.of_nat (length ai_addr) |}
  end.

(** ** Opening connections *)

Definition create (host port : list Z) (connect : bool) : M (udp W) Z :=
  let! index := alloc_slot in
  if index =? MAX_CONNECTIONS then ret MAX_CONNECTIONS
  else
    let! buf := sys (net_malloc DEFAULT_PACKET_SIZE) in
    do! upd_conn index (set_recv_buffer buf DEFAULT_PACKET_SIZE) in
    let! addr := resolve_host host port true in
    if negb (valid addr) then
      do! upd_conn index (set_error INVALID_ADDR) in ret index
    else
      let! sock := sys (net_socket (family addr)) in
      do! upd_conn index (set_socket sock) in
      if sock =? -1 then
        do! upd_conn index (set_error SOCKET_CREATION_FAILED) in ret index
      else
        let! r := sys (if connect then net_connect sock addr else net_bind sock addr) in
        if r <? 0 then
          do! upd_conn index (set_error (if connect then CONNECT_FAILED else BIND_FAILED)) in
          ret index
        else
          do! init_socket sock in
          do! upd_conn index (set_from addr) in
          do! upd_conn index (set_state ACTIVE) in
          ret index.

Definition serve (port : Z) : M (udp W) Z :=
  let addr := net_sockaddr_in port in
  let bind_addr := {| storage := addr ++ drop (length addr) (storage Address0);
                      addr_len := Z.of_nat (length addr) |} in
  let! index := alloc_slot in
  if index =? MAX_CONNECTIONS then ret MAX_CONNECTIONS
  else
    let! buf := sys (net_malloc DEFAULT_PACKET_SIZE) in
    do! upd_conn index (set_recv_buffer buf DEFAULT_PACKET_SIZE) in
    let! sock := sys (net_socket 2) in
    do! upd_conn index (set_socket sock) in
    if sock =? -1 then
      do! upd_conn index (set_error SOCKET_CREATION_FAILED) in ret index
    else
      let! r := sys (net_bind sock bind_addr) in
      if r <? 0 then
        do! upd_conn index (set_error BIND_FAILED) in ret index
      else
        do! init_socket sock in
        do! upd_conn index (set_state ACTIVE) in
        ret index.

(** The constructor: the free list is filled from 1023 down to 0. *)
Definition UDPPool_init (w : W) : udp W :=
  {| conns_ := replicate (Z.to_nat MAX_CONNECTIONS) ConnectionData0;
     free_indices_ := map (fun i => MAX_CONNECTIONS - i - 1) (seqZ 0 MAX_CONNECTIONS);
     packets := replicate (Z.to_nat MAX_BUFFERED_PACKETS) PacketData0;
     length_ := 0;
     addr_storage := [];
     addr_cap := Z.to_nat MAX_BUFFERED_PACKETS;
     addr_gen := 0;
     net := w |}.

Definition UDPPool (port : Z) : M (udp W) unit :=
  if 0 <? port then do! serve (u16 port) in ret tt else ret tt.

(** The destructor.  [recv_buffer] is a reference into [conns_]: it is read
    after the call to [close]. *)
Definition UDPPool_destroy (fuel : nat) : M (udp W) unit :=
  for_ 0 MAX_CONNECTIONS (fun i =>
    let! c := get_conn i in
    if decide (state c = FREE) then ret tt
    else
      do! close fuel (u32 (socket c)) in
      let! c := get_conn i in
      do! std_free (recv_buffer c) in
      upd_conn i (set_recv_buffer
        (match recv_buffer c with Null => Null | _ => Dangling end) (max_packet_size c))).

(** ** Receiving *)

(** The part [recv] and [recv_from] share: size of the pending datagram,
    and a buffer large enough for it. *)
Definition recv_prepare (conn_id : Z) : M (udp W) bool :=
  let! conn := get_conn conn_id in
  if negb (bool_decide (error conn = NONE)) || negb (bool_decide (state conn = ACTIVE)) then
    ret false
  else
    let! r := sys (net_fionread (socket conn)) in
    match r with
    | None => do! upd_conn conn_id (set_error FAILED_TO_READ_IO_LEN) in ret false
    | Some n =>
        do! upd_conn conn_id (set_data_len (u32 n)) in
        if u32 n =? 0 then ret false
        else if max_packet_size conn <? u32 n then
          let! new_buf := sys (net_realloc (recv_buffer conn) (u32 n)) in
          match new_buf with
          | None => do! upd_conn conn_id (set_error FAILED_TO_READ_IO_LEN) in ret false
          | Some b => do! upd_conn conn_id (set_recv_buffer (Live b) (u32 n)) in ret true
          end
        else ret true
    end.

(** The end of both: [received < 0], or the length of the data. *)
Definition recv_finish (conn_id : Z) (received : option Z) : M (udp W) bool :=
  match received with
  | None =>
      do! upd_conn conn_id (set_error RECV_FAILED) in
      do! upd_conn conn_id (set_data_len 0) in
      ret false
  | Some n => do! upd_conn conn_id (set_data_len (u32 n)) in ret true
  end.

Definition recv (conn_id : Z) : M (udp W) bool :=
  let! ready := recv_prepare conn_id in
  if negb ready then ret false
  else
    let! conn := get_conn conn_id in
    do! check_room (recv_buffer conn) (data_len conn) in
    let! r := sys (net_recv (socket conn) (recv_buffer conn) (data_len conn)) in
    let '(received, buf) := r in
    do! upd_conn conn_id (set_recv_buffer buf (max_packet_size conn)) in
    recv_finish conn_id received.

Definition recv_from (conn_id : Z) : M (udp W) bool :=
  let! ready := recv_prepare conn_id in
  if negb ready then ret false
  else
    let! conn := get_conn conn_id in
    let addr := {| storage := storage (from conn); addr_len := 28 |} in
    do! check_room (recv_buffer conn) (data_len conn) in
    let! r := sys (net_recvfrom (socket conn) (recv_buffer conn) (data_len conn) addr) in
    let '(received, buf, addr) := r in
    do! upd_conn conn_id (set_recv_buffer buf (max_packet_size conn)) in
    do! upd_conn conn_id (set_from addr) in
    recv_finish conn_id received.

(** The span [get_data] returns: reading it outside the buffer, or through
    a null pointer, is undefined. *)
Definition get_data (conn_id : Z) : M (udp W) (list Z) :=
  let! conn := get_conn conn_id in
  if data_len conn =? 0 then ret []
  else
    match recv_buffer conn with
    | Live b => if Z.of_nat (length b) <? data_len conn then fault
                else ret (take (Z.to_nat (data_len conn)) b)
    | _ => fault
    end.

Definition get_state (conn_id : Z) : M (udp W) UDP_STATE :=
  let! conn := get_conn conn_id in ret (state conn).
Definition get_error (conn_id : Z) : M (udp W) ERROR :=
  let! conn := get_conn conn_id in ret (error conn).
Definition get_from (conn_id : Z) : M (udp W) Address :=
  let! conn := get_conn conn_id in ret (from conn).

(** ** The packet queue *)

(** [memcpy(packet.data, data, n)]: a copy of no bytes does nothing, any other
    copy to a null pointer or beyond the block is undefined. *)
Definition fill_data (b : buffer) (bytes : list Z) : M (udp W) buffer :=
  match b with
  | Live old => if (length old <? length bytes)%nat then fault
                else ret (Live (bytes ++ drop (length bytes) old))
  | _ => match bytes with [] => ret b | _ => fault end
  end.

(** Room for [size] bytes in the packet; [max_len] is a [uint16_t]. *)
Definition grow_packet (slot size : Z) : M (udp W) bool :=
  let! p := get_packet slot in
  if max_len p <? size then
    let! b := sys (net_realloc (data p) size) in
    match b with
    | None =>
        do! set_packet slot {| data := Null; to := to p; len := len p; max_len := max_len p |} in
        ret false
    | Some b =>
        do! set_packet slot {| data := Live b; to := to p; len := len p; max_len := u16 size |} in
        ret true
    end
  else ret true.

(** The destination of a queued packet. *)
Definition store_dest (slot : Z) (addr : option Address) : M (udp W) unit :=
  let! p := get_packet slot in
  match addr, to p with
  | Some a, Some ptr => addr_set ptr a
  | Some a, None =>
      let! ptr := addr_emplace_back in
      do! set_packet slot {| data := data p; to := Some ptr; len := len p; max_len := max_len p |} in
      addr_set ptr a
  | None, Some ptr =>
      let! old := addr_get ptr in
      addr_set ptr {| storage := storage old; addr_len := 0 |}
  | None, None => ret tt
  end.

Definition queue_packet (addr : option Address) (bytes : list Z) : M (udp W) SEND_RESULT :=
  let size := Z.of_nat (length bytes) in
  let! n := gets length_ in
  do! modify (with_length (u32 (n + 1))) in
  let slot := Z.land n (MAX_BUFFERED_PACKETS - 1) in
  let! grown := grow_packet slot size in
  if negb grown then ret FAILED
  else
    let! p := get_packet slot in
    let! b := fill_data (data p) bytes in
    do! set_packet slot {| data := b; to := to p; len := u16 size; max_len := max_len p |} in
    do! store_dest slot addr in
    ret BUFFERED.

(** The send call of a queued packet: to its address when it has one. *)
Definition flush_send (fd : Z) (p : PacketData) : M (udp W) io :=
  let! dest := (match to p with
                | None => ret None
                | Some ptr =>
                    let! a := addr_get ptr in
                    ret (if 0 <? addr_len a then Some a else None)
                end) in
  let! bytes := payload (data p) (len p) in
  sys (match dest with
       | Some a => net_sendto fd bytes a
       | None => net_send fd bytes
       end).

(** One packet of the flush: [None] when the loop goes on. *)
Definition flush_packet (conn_id i : Z) : M (udp W) (option bool) :=
  let slot := Z.land i (MAX_BUFFERED_PACKETS - 1) in
  let! p := get_packet slot in
  if len p =? 0 then ret None
  else
    let! conn := get_conn conn_id in
    let! r := flush_send (socket conn) p in
    match r with
    | WouldBlock => ret (Some true)
    | Failed => do! upd_conn conn_id (set_error SEND_FAILED) in ret (Some false)
    | Done _ =>
        do! set_packet slot {| data := data p; to := to p; len := 0; max_len := max_len p |} in
        ret None
    end.

Definition try_flush_queue (conn_id : Z) : M (udp W) bool :=
  let! n := gets length_ in
  if n =? 0 then ret false
  else
    let! conn := get_conn conn_id in
    if negb (bool_decide (error conn = NONE)) then ret false
    else
      let start := if MAX_BUFFERED_PACKETS <? n then n - MAX_BUFFERED_PACKETS else 0 in
      let! r := for_up start n (fun i _ =>
        let! x := flush_packet conn_id i in
        match x with
        | None => ret (inl tt)
        | Some b => ret (inr b)
        end) tt in
      match r with
      | inr b => ret b
      | inl _ => do! modify (with_length 0) in ret false
      end.

(** ** Sending *)

Definition send (conn_id : Z) (bytes : list Z) : M (udp W) SEND_RESULT :=
  let! c := get_conn conn_id in
  if negb (bool_decide (error c = NONE)) || negb (bool_decide (state c = ACTIVE)) then
    ret FAILED
  else
    let! busy := try_flush_queue conn_id in
    if (busy : bool) then queue_packet None bytes
    else
      let! c := get_conn conn_id in
      let! r := sys (net_send (socket c) (Some bytes)) in
      match r with
      | WouldBlock => queue_packet None bytes
      | Failed => do! upd_conn conn_id (set_error SEND_FAILED) in ret FAILED
      | Done _ => ret OK
      end.

Definition send_to (conn_id : Z) (addr : Address) (bytes : list Z) : M (udp W) SEND_RESULT :=
  let! c := get_conn conn_id in
  if negb (bool_decide (error c = NONE)) || negb (bool_decide (state c = ACTIVE)) then
    ret FAILED
  else
    let! busy := try_flush_queue conn_id in
    if (busy : bool) then queue_packet (Some addr) bytes
    else
      let! c := get_conn conn_id in
      let! r := sys (net_sendto (socket c) (Some bytes) addr) in
      match r with
      | WouldBlock => queue_packet (Some addr) bytes
      | Failed => do! upd_conn conn_id (set_error SEND_FAILED) in ret FAILED
      | Done _ => ret OK
      end.

Definition update : M (udp W) unit :=
  for_ 0 MAX_CONNECTIONS (fun i =>
    let! c := get_conn i in
    if negb (bool_decide (state c = ACTIVE)) then ret tt
    else do! try_flush_queue i in ret tt).

Definition send_to_all (conn_ids : list Z) (bytes : list Z) : M (udp W) unit :=
  fold_right (fun id k => do! send id bytes in k) (ret tt) conn_ids.

(** [recv_from_all]: the descriptors of the usable connections are polled;
    the answer for the i-th descriptor is applied to the i-th of all
    [conn_ids]. *)
Fixpoint poll_fds (conn_ids : list Z) : M (udp W) (list Z) :=
  match conn_ids with
  | [] => ret []
  | id :: conn_ids =>
      let! c := get_conn id in
      let! fds := poll_fds conn_ids in
      ret (if negb (bool_decide (error c = NONE)) || negb (bool_decide (state c = ACTIVE))
           then fds else socket c :: fds)
  end.

Fixpoint recv_ready (conn_ids : list Z) (revents : list bool) : M (udp W) unit :=
  match revents, conn_ids with
  | [], _ => ret tt
  | _ :: _, [] => fault
  | r :: revents, id :: conn_ids =>
      do! (if (r : bool) then do! recv_from id in ret tt else ret tt) in
      recv_ready conn_ids revents
  end.

Definition recv_from_all (conn_ids : list Z) : M (udp W) unit :=
  let! fds := poll_fds conn_ids in
  let! r := sys (net_poll fds) in
  match r with
  | None => fold_right (fun id k => do! upd_conn id (set_error POLL_FAILED) in k) (ret tt) conn_ids
  | Some revents => recv_ready conn_ids revents
  end.

(** [send_oneshot]: its [close(sock)] is the member again. *)
Definition send_oneshot (fuel : nat) (host port : list Z) (bytes : list Z) : M (udp W) ERROR :=
  let! sock := sys (net_socket 2) in
  if sock =? -1 then ret SOCKET_CREATION_FAILED
  else
    let! addr := resolve_host host port true in
    if negb (valid addr) then
      do! close fuel (u32 sock) in ret INVALID_ADDR
    else
      let! sent := sys (net_sendto sock (Some bytes) addr) in
      do! close fuel (u32 sock) in
      ret (match sent with Done _ => NONE | _ => SEND_FAILED end).
End Udp.

(** [util::is_error]. *)
Definition is_error (result : SEND_RESULT) : bool := bool_decide (result = FAILED).
