(* ===== verification/UdpQueue.v ===== *)
(** * The shared packet ring of the UDP pool

    [queue_packet] and [try_flush_queue] of [network/src/udp.cpp] refine a
    window: the list of the last eight packets queued, oldest first, where a
    packet already sent is [None].  Queuing drops the oldest packet of a full
    window; flushing sends what is left in order.  A packet whose block could
    not be enlarged keeps its length without a block; such slots are the ones
    that are not [healthy]. *)

From stdpp Require Import base list numbers.
From S2P Require Import Prelude Bytes Udp.

Section Queue.
Context {W : Type} `{NetLaws W}.
Implicit Types s : udp W.

(** ** Abstract view *)

(** The bytes of a pending packet ([None] after a failed reallocation) and
    its destination ([None]: the connection's peer). *)
Definition pkt : Type := option (list Z) * option Address.

Definition dest_of s (p : PacketData) : option Address :=
  match to p with
  | None => None
  | Some ptr =>
      match addr_storage s !! ptr_idx ptr with
      | Some a => if 0 <? addr_len a then Some a else None
      | None => None
      end
  end.

Definition bytes_of (p : PacketData) : option (list Z) :=
  match data p with
  | Live b => Some (take (Z.to_nat (len p)) b)
  | _ => None
  end.

Definition view s (p : PacketData) : option pkt :=
  if len p =? 0 then None else Some (bytes_of p, dest_of s p).

Definition slot_view s (i : Z) : option pkt :=
  match packets s !! Z.to_nat (i mod 8) with
  | Some p => view s p
  | None => None
  end.

Definition first_index (n : Z) : Z := if 8 <? n then n - 8 else 0.

Definition window s : list (option pkt) :=
  slot_view s <$> seqZ (first_index (length_ s)) (length_ s - first_index (length_ s)).

(** Queuing into a window of eight. *)
Definition push (w : list (option pkt)) (x : option pkt) : list (option pkt) :=
  (if (length w =? 8)%nat then tail w else w) ++ [x].

(** Sending a window through a descriptor: [None] when everything was
    sent, otherwise the answer of [try_flush_queue] and what is left. *)
Fixpoint send_window (fd : Z) (w : list (option pkt)) (net : W)
  : option bool * list (option pkt) * W :=
  match w with
  | [] => (None, [], net)
  | None :: w => send_window fd w net
  | Some (bytes, dest) :: w' =>
      let '(r, net) := match dest with
                       | Some a => net_sendto fd bytes a net
                       | None => net_send fd bytes net
                       end in
      match r with
      | Done _ => send_window fd w' net
      | WouldBlock => (Some true, w, net)
      | Failed => (Some false, w, net)
      end
  end.

(** ** The representation invariant *)

Definition packet_ok s (p : PacketData) : Prop :=
  0 <= len p /\ 0 <= max_len p /\
  match data p with
  | Null => True
  | Live b => len p <= Z.of_nat (length b) /\ max_len p <= Z.of_nat (length b)
  | Dangling => False
  end /\
  match to p with
  | None => True
  | Some ptr => ptr_gen ptr = 0%nat /\ (ptr_idx ptr < length (addr_storage s))%nat
  end.

(** The vector of addresses never grows beyond the capacity reserved, and
    no two packets share an address. *)
Record queue_ok s : Prop := {
  q_packets : length (packets s) = 8%nat;
  q_length : in_u 32 (length_ s);
  q_each : Forall (packet_ok s) (packets s);
  q_gen : addr_gen s = 0%nat;
  q_cap : addr_cap s = 8%nat;
  q_count : length (addr_storage s) = length (omap to (packets s));
  q_inj : forall i j p q ptr1 ptr2, packets s !! i = Some p -> packets s !! j = Some q ->
    to p = Some ptr1 -> to q = Some ptr2 -> ptr_idx ptr1 = ptr_idx ptr2 -> i = j;
}.

(** ** Symbolic execution *)

Lemma wp_sys {A} (f : W -> A * W) (Q : A -> udp W -> Prop) s :
  (forall a w, f (net s) = (a, w) -> Q a (with_net w s)) -> wp (sys f) Q s.
Proof. intros HQ. unfold wp, sys. destruct (f (net s)) as [a w] eqn:E. by apply HQ. Qed.

Lemma wp_get_conn id c (Q : ConnectionData -> udp W -> Prop) s :
  0 <= id -> conns_ s !! Z.to_nat id = Some c -> Q c s -> wp (get_conn id) Q s.
Proof.
  intros Hid Hc HQ. unfold wp, get_conn. destruct (Z.ltb_spec id 0); [lia|]. by rewrite Hc.
Qed.

Lemma wp_upd_conn id c f (Q : unit -> udp W -> Prop) s :
  0 <= id -> conns_ s !! Z.to_nat id = Some c ->
  Q tt (with_conns (<[Z.to_nat id := f c]> (conns_ s)) s) -> wp (upd_conn id f) Q s.
Proof. intros Hid Hc HQ. unfold upd_conn. wp_step. by eapply wp_get_conn. Qed.

Lemma wp_get_packet i p (Q : PacketData -> udp W -> Prop) s :
  packets s !! Z.to_nat i = Some p -> Q p s -> wp (get_packet i) Q s.
Proof. intros Hp HQ. unfold wp, get_packet. by rewrite Hp. Qed.

Lemma wp_set_packet i p (Q : unit -> udp W -> Prop) s :
  Q tt (with_packets (<[Z.to_nat i := p]> (packets s)) s) -> wp (set_packet i p) Q s.
Proof. done. Qed.

Lemma wp_addr_get ptr a (Q : Address -> udp W -> Prop) s :
  ptr_gen ptr = addr_gen s -> addr_storage s !! ptr_idx ptr = Some a -> Q a s ->
  wp (addr_get ptr) Q s.
Proof. intros Hg Ha HQ. unfold wp, addr_get. by rewrite Hg, Nat.eqb_refl, Ha. Qed.

Lemma wp_addr_set ptr a (Q : unit -> udp W -> Prop) s :
  ptr_gen ptr = addr_gen s -> (ptr_idx ptr < length (addr_storage s))%nat ->
  Q tt (with_addrs (<[ptr_idx ptr := a]> (addr_storage s)) (addr_cap s) (addr_gen s) s) ->
  wp (addr_set ptr a) Q s.
Proof.
  intros Hg Hi HQ. unfold addr_set. destruct (lookup_lt_is_Some_2 _ _ Hi) as [b Hb].
  wp_step. by eapply wp_addr_get.
Qed.

Lemma wp_addr_emplace (Q : addr_ptr -> udp W -> Prop) s :
  (length (addr_storage s) < addr_cap s)%nat ->
  Q {| ptr_gen := addr_gen s; ptr_idx := length (addr_storage s) |}
    (with_addrs (addr_storage s ++ [Address0]) (addr_cap s) (addr_gen s) s) ->
  wp addr_emplace_back Q s.
Proof.
  intros Hc HQ. unfold wp, addr_emplace_back.
  destruct (Nat.ltb_spec (length (addr_storage s)) (addr_cap s)); [done|lia].
Qed.

(** ** The window *)

Lemma window_length s : 0 <= length_ s -> Z.of_nat (length (window s)) = Z.min 8 (length_ s).
Proof.
  intros Hn. unfold window, first_index. rewrite length_fmap, length_seqZ.
  destruct (Z.ltb_spec 8 (length_ s)); lia.
Qed.

(** One more packet, whose slot is the only one that changes. *)
Lemma window_push s s' x :
  0 <= length_ s -> length_ s' = length_ s + 1 ->
  (forall j, j mod 8 <> length_ s mod 8 -> slot_view s' j = slot_view s j) ->
  slot_view s' (length_ s) = x -> window s' = push (window s) x.
Proof.
  intros Hn Hn' Hother Hx. pose proof (window_length s Hn) as Hl.
  unfold push, window in *. rewrite Hn'. set (n := length_ s) in *. clearbody n.
  set (b := first_index (n + 1)).
  assert (Hb : b = Z.max 0 (n - 7)).
  { unfold b, first_index. destruct (Z.ltb_spec 8 (n + 1)); lia. }
  assert (Hf : first_index n = Z.max 0 (n - 8)).
  { unfold first_index. destruct (Z.ltb_spec 8 n); lia. }
  replace (n + 1 - b) with (n - b + 1) by lia.
  rewrite seqZ_app, fmap_app by lia. replace (b + (n - b)) with n by lia.
  rewrite (seqZ_cons n 1), (seqZ_nil (Z.succ n)) by lia. cbn [fmap list_fmap].
  f_equal; [|by rewrite Hx].
  assert (Hsame : slot_view s' <$> seqZ b (n - b) = slot_view s <$> seqZ b (n - b)).
  { apply list_fmap_ext. intros i j [-> Hi]%lookup_seqZ. apply Hother.
    intros E. pose proof (Z.div_mod n 8 ltac:(lia)).
    pose proof (Z.div_mod (b + Z.of_nat i) 8 ltac:(lia)). lia. }
  rewrite Hsame, Hf in *. clear Hsame Hother Hx.
  destruct (Nat.eqb_spec (length (slot_view s <$> seqZ (Z.max 0 (n - 8)) (n - Z.max 0 (n - 8)))) 8).
  - rewrite (seqZ_cons (Z.max 0 (n - 8))) by lia. cbn [fmap list_fmap tail].
    f_equal. f_equal; lia.
  - f_equal. f_equal; lia.
Qed.

(** ** Updating one packet *)

Lemma slot_range n : 0 <= n mod 8 < 8.
Proof. apply Z.mod_pos_bound. lia. Qed.

Lemma queue_slot s n : queue_ok s -> exists p, packets s !! Z.to_nat (n mod 8) = Some p.
Proof.
  intros Hq. apply lookup_lt_is_Some_2. rewrite (q_packets _ Hq). pose proof (slot_range n). lia.
Qed.

Lemma slot_view_at s i p :
  packets s !! Z.to_nat (i mod 8) = Some p -> slot_view s i = view s p.
Proof. intros Hp. unfold slot_view. by rewrite Hp. Qed.

Lemma queue_packet_ok s k p : queue_ok s -> packets s !! k = Some p -> packet_ok s p.
Proof. intros Hq Hp. exact (Forall_lookup_1 _ _ _ _ (q_each _ Hq) Hp). Qed.

(** The destination depends on the addresses only. *)
Lemma view_ext s s' p :
  (forall ptr, to p = Some ptr -> addr_storage s' !! ptr_idx ptr = addr_storage s !! ptr_idx ptr) ->
  view s' p = view s p.
Proof.
  intros Ha. unfold view. case_match; [done|]. do 2 f_equal. unfold dest_of.
  destruct (to p) as [ptr|]; [|done]. by rewrite Ha.
Qed.

Lemma slot_view_other s s' p' n j :
  packets s' = <[Z.to_nat (n mod 8) := p']> (packets s) -> j mod 8 <> n mod 8 ->
  (forall k q ptr, packets s !! k = Some q -> k <> Z.to_nat (n mod 8) -> to q = Some ptr ->
     addr_storage s' !! ptr_idx ptr = addr_storage s !! ptr_idx ptr) ->
  slot_view s' j = slot_view s j.
Proof.
  intros Hp Hj Ha. pose proof (slot_range n). pose proof (slot_range j).
  assert (Hne : Z.to_nat (j mod 8) <> Z.to_nat (n mod 8)) by lia.
  unfold slot_view. rewrite Hp, list_lookup_insert_ne by done.
  destruct (packets s !! Z.to_nat (j mod 8)) as [q|] eqn:E; [|done].
  apply view_ext. intros ptr Hptr. by eapply Ha.
Qed.

(** Replacing a packet without touching its address pointer. *)
Lemma queue_ok_update s s' k p p' :
  queue_ok s -> packets s !! k = Some p -> packets s' = <[k := p']> (packets s) ->
  to p' = to p -> packet_ok s p' -> in_u 32 (length_ s') ->
  addr_gen s' = addr_gen s -> addr_cap s' = addr_cap s ->
  length (addr_storage s') = length (addr_storage s) -> queue_ok s'.
Proof.
  intros Hq Hp Hp' Hto Hok Hlen Hg Hc Ha.
  assert (Hmono : forall q, packet_ok s q -> packet_ok s' q).
  { intros q. unfold packet_ok. by rewrite Ha. }
  pose proof (q_packets _ Hq). pose proof (lookup_lt_Some _ _ _ Hp).
  split; rewrite ?Hp'.
  - by rewrite length_insert.
  - done.
  - apply Forall_insert; [|by apply Hmono]. exact (Forall_impl _ Hmono (q_each _ Hq)).
  - by rewrite Hg, (q_gen _ Hq).
  - by rewrite Hc, (q_cap _ Hq).
  - rewrite Ha, (q_count _ Hq). f_equal.
    rewrite <- (take_drop_middle _ _ _ Hp) at 1. rewrite insert_take_drop by done.
    rewrite !omap_app. cbn. by rewrite Hto.
  - intros i j q1 q2 ptr1 ptr2 G1 G2 Ht1 Ht2 E.
    assert (Hback : forall i q, <[k:=p']> (packets s) !! i = Some q ->
      exists q0, packets s !! i = Some q0 /\ to q0 = to q).
    { intros i' q. destruct (decide (i' = k)) as [->|].
      - rewrite list_lookup_insert_eq by done. intros [= <-]. by exists p.
      - rewrite list_lookup_insert_ne by done. by exists q. }
    destruct (Hback _ _ G1) as (q1' & G1' & E1), (Hback _ _ G2) as (q2' & G2' & E2).
    eapply (q_inj _ Hq); [exact G1'|exact G2'|by rewrite E1|by rewrite E2|done].
Qed.

(** ** [queue_packet] *)

(** What the queue operations leave alone. *)
Definition same_pool s s' : Prop := conns_ s' = conns_ s /\ free_indices_ s' = free_indices_ s.

Definition norm_dest (addr : option Address) : option Address :=
  match addr with
  | Some a => if 0 <? addr_len a then Some a else None
  | None => None
  end.

(** The addresses of the packets other than [k] are the same. *)
Definition addr_frame s s' (k : nat) : Prop :=
  forall i q ptr, packets s !! i = Some q -> i <> k -> to q = Some ptr ->
    addr_storage s' !! ptr_idx ptr = addr_storage s !! ptr_idx ptr.

Lemma set_addr_ok s k p ptr a :
  queue_ok s -> packets s !! k = Some p -> to p = Some ptr ->
  let s' := with_addrs (<[ptr_idx ptr := a]> (addr_storage s)) (addr_cap s) (addr_gen s) s in
  queue_ok s' /\ addr_frame s s' k /\ dest_of s' p = norm_dest (Some a).
Proof.
  intros Hq Hp Hto s'. pose proof (queue_packet_ok _ _ _ Hq Hp) as (_ & _ & _ & Hptr).
  rewrite Hto in Hptr. destruct Hptr as [Hg Hi]. split_and!.
  - eapply (queue_ok_update s s' k p p); [done|done| |done|by eapply queue_packet_ok|
      apply (q_length _ Hq)|done|done|apply length_insert].
    by rewrite list_insert_id.
  - intros i q ptr' Hqi Hik Htq. apply list_lookup_insert_ne. intros E. apply Hik.
    by eapply (q_inj _ Hq); eauto.
  - unfold dest_of. rewrite Hto. cbn [s' with_addrs addr_storage].
    by rewrite list_lookup_insert_eq.
Qed.

Lemma queue_room s k p :
  queue_ok s -> packets s !! k = Some p -> to p = None -> (length (addr_storage s) < 8)%nat.
Proof.
  intros Hq Hp Hto. rewrite (q_count _ Hq).
  rewrite <- (take_drop_middle _ _ _ Hp), omap_app. cbn. rewrite Hto, length_app.
  assert (Ho : forall l, (length (omap to l) <= length l)%nat).
  { induction l as [|x l IH]; cbn; [lia|]. destruct (to x); cbn; lia. }
  pose proof (Ho (take k (packets s))) as Ho1. pose proof (Ho (drop (S k) (packets s))) as Ho2.
  rewrite length_take in Ho1. rewrite length_drop in Ho2.
  pose proof (lookup_lt_Some _ _ _ Hp). rewrite (q_packets _ Hq) in *.
  lia.
Qed.

(** A packet that gets its first address. *)
Lemma new_addr_ok s k p a :
  queue_ok s -> packets s !! k = Some p -> to p = None ->
  let n := length (addr_storage s) in
  let p' := {| data := data p; to := Some {| ptr_gen := 0; ptr_idx := n |};
               len := len p; max_len := max_len p |} in
  let s' := with_packets (<[k := p']> (packets s))
              (with_addrs (addr_storage s ++ [a]) (addr_cap s) (addr_gen s) s) in
  queue_ok s' /\ addr_frame s s' k /\ dest_of s' p' = norm_dest (Some a).
Proof.
  intros Hq Hp Hto n p' s'. pose proof (lookup_lt_Some _ _ _ Hp) as Hk.
  pose proof (q_packets _ Hq) as Hl8.
  assert (Hbound : forall i q ptr, packets s !! i = Some q -> to q = Some ptr -> (ptr_idx ptr < n)%nat).
  { intros i q ptr Hqi Htq. destruct (queue_packet_ok _ _ _ Hq Hqi) as (_ & _ & _ & Hptr).
    rewrite Htq in Hptr. apply Hptr. }
  assert (Hmono : forall q, packet_ok s q -> packet_ok s' q).
  { intros q (? & ? & ? & Hptr). split_and!; [done..|]. destruct (to q); [|done].
    cbn. rewrite length_app. cbn. destruct Hptr. split; [done|lia]. }
  split_and!.
  - split; cbn [s' with_packets with_addrs packets length_ addr_gen addr_cap addr_storage].
    + by rewrite length_insert.
    + apply (q_length _ Hq).
    + apply Forall_insert; [exact (Forall_impl _ Hmono (q_each _ Hq))|].
      destruct (queue_packet_ok _ _ _ Hq Hp) as (? & ? & ? & _). split_and!; [done..|].
      cbn. rewrite length_app. cbn. split; [done|lia].
    + apply (q_gen _ Hq).
    + apply (q_cap _ Hq).
    + rewrite length_app, (q_count _ Hq), insert_take_drop by done.
      rewrite <- (take_drop_middle _ _ _ Hp) at 1. rewrite !omap_app. cbn. rewrite Hto.
      rewrite !length_app. cbn. lia.
    + intros i j q1 q2 ptr1 ptr2 G1 G2 Ht1 Ht2 E.
      destruct (decide (i = k)) as [->|Hi], (decide (j = k)) as [->|Hj];
        rewrite ?list_lookup_insert_eq in G1 by done; rewrite ?list_lookup_insert_eq in G2 by done;
        rewrite ?list_lookup_insert_ne in G1 by done; rewrite ?list_lookup_insert_ne in G2 by done;
        [done| | |by eapply (q_inj _ Hq); eauto].
      * injection G1 as <-. injection Ht1 as <-. pose proof (Hbound _ _ _ G2 Ht2). cbn in E. lia.
      * injection G2 as <-. injection Ht2 as <-. pose proof (Hbound _ _ _ G1 Ht1). cbn in E. lia.
  - intros i q ptr Hqi Hik Htq. cbn. apply lookup_app_l. by eapply Hbound.
  - unfold dest_of. cbn. by rewrite lookup_app_r, Nat.sub_diag by lia.
Qed.

Lemma store_dest_ok slot p addr s :
  queue_ok s -> packets s !! Z.to_nat slot = Some p ->
  wp (store_dest slot addr) (fun _ s' => queue_ok s' /\ same_pool s s' /\
    length_ s' = length_ s /\ net s' = net s /\ addr_frame s s' (Z.to_nat slot) /\
    exists ptr', let p' := {| data := data p; to := ptr'; len := len p; max_len := max_len p |} in
      packets s' = <[Z.to_nat slot := p']> (packets s) /\ dest_of s' p' = norm_dest addr) s.
Proof.
  intros Hq Hp. unfold store_dest. wp_step. eapply wp_get_packet; [done|].
  pose proof (queue_packet_ok _ _ _ Hq Hp) as (_ & _ & _ & Hptr).
  assert (Hid : packets s = <[Z.to_nat slot := p]> (packets s)) by (by rewrite list_insert_id).
  destruct p as [d [ptr|] l mx]; cbn [to] in *.
  - destruct Hptr as [Hg Hi]. assert (Hg' : ptr_gen ptr = addr_gen s) by (by rewrite (q_gen _ Hq)).
    destruct addr as [a|].
    + apply wp_addr_set; [done|done|]. destruct (set_addr_ok s _ _ ptr a Hq Hp) as (? & ? & ?); [done|].
      split_and!; [done|done|done|done|done|]. by exists (Some ptr).
    + destruct (lookup_lt_is_Some_2 _ _ Hi) as [b Hb]. wp_step. eapply wp_addr_get; [done|done|].
      apply wp_addr_set; [done|done|].
      destruct (set_addr_ok s _ _ ptr {| storage := storage b; addr_len := 0 |} Hq Hp) as (? & ? & ?); [done|].
      split_and!; [done|done|done|done|done|]. by exists (Some ptr).
  - destruct addr as [a|].
    + pose proof (queue_room _ _ _ Hq Hp ltac:(done)) as Hroom.
      wp_step. apply wp_addr_emplace; [by rewrite (q_cap _ Hq)|].
      wp_step. apply wp_set_packet.
      apply wp_addr_set; [done|cbn; rewrite length_app; cbn; lia|].
      cbn [with_packets with_addrs packets length_ addr_gen addr_cap addr_storage ptr_idx net conns_ free_indices_].
      rewrite insert_app_r_alt, Nat.sub_diag by lia. cbn [insert list_insert].
      destruct (new_addr_ok s _ _ a Hq Hp) as (Hq' & Hf & Hd); [done|].
      rewrite (q_gen _ Hq) in *. split_and!; [exact Hq'|done|done|done|exact Hf|]. by eexists.
    + apply wp_ret. split_and!; [done|done|done|done|by intros ?|]. by exists None.
Qed.

(** The new window entry: [len] is the size modulo [2^16], and an empty
    packet counts as already sent. *)
Definition entry (addr : option Address) (bytes : list Z) : option pkt :=
  let n := u16 (Z.of_nat (length bytes)) in
  if n =? 0 then None else Some (Some (take (Z.to_nat n) bytes), norm_dest addr).

(** What is left of a packet whose reallocation failed: its length, its
    destination, and no bytes. *)
Definition lost (p : PacketData) : PacketData :=
  {| data := Null; to := to p; len := len p; max_len := max_len p |}.

(** Whether there is room for [bytes], and the world after asking. *)
Definition make_room (p : PacketData) (bytes : list Z) (w : W) : bool * W :=
  let size := Z.of_nat (length bytes) in
  if max_len p <? size then
    let (b, w) := net_realloc (data p) size w in (bool_decide (is_Some b), w)
  else (true, w).

(** A null block with a capacity: copying [bytes] to it is undefined. *)
Definition null_copy (b : buffer) (capacity : Z) (bytes : list Z) : bool :=
  match b with
  | Null => (0 <? Z.of_nat (length bytes)) && (Z.of_nat (length bytes) <=? capacity)
  | _ => false
  end.

Lemma null_copy_false b cap bytes :
  null_copy b cap bytes = false -> b = Null -> Z.of_nat (length bytes) <= cap -> bytes = [].
Proof.
  intros Hn -> Hc. destruct bytes; [done|]. cbn [null_copy length] in *.
  rewrite andb_false_iff, Z.ltb_ge, Z.leb_gt in Hn. lia.
Qed.

Lemma grow_packet_ok slot p bytes s :
  packets s !! Z.to_nat slot = Some p -> packet_ok s p ->
  wp (grow_packet slot (Z.of_nat (length bytes))) (fun g s' =>
    let (ok, w) := make_room p bytes (net s) in g = ok /\ exists p',
    s' = with_packets (<[Z.to_nat slot := p']> (packets s)) (with_net w s) /\
    to p' = to p /\ 0 <= max_len p' /\
    if ok then
      match data p' with
      | Live b => max_len p' <= Z.of_nat (length b) /\ (length bytes <= length b)%nat
      | Null => p' = p /\ Z.of_nat (length bytes) <= max_len p
      | Dangling => False
      end
    else p' = lost p) s.
Proof.
  intros Hp (Hlen & Hmax & Hdata & _). unfold grow_packet, make_room. wp_step.
  eapply wp_get_packet; [done|]. set (size := Z.of_nat (length bytes)).
  destruct (Z.ltb_spec (max_len p) size) as [Hlt|Hge].
  - wp_step. apply wp_sys. intros r w E. rewrite E. destruct r as [l|].
    + apply realloc_law in E. wp_step. apply wp_set_packet. apply wp_ret.
      rewrite bool_decide_true by (by eexists). split; [done|].
      exists {| data := Live l; to := to p; len := len p; max_len := u16 size |}.
      split; [done|]. split; [done|]. cbn.
      pose proof (wrap_range 16 size ltac:(lia)) as [? ?].
      pose proof (Z.mod_le size (2 ^ 16) ltac:(lia) ltac:(lia)). unfold wrap in *. lia.
    + wp_step. apply wp_set_packet. apply wp_ret.
      rewrite bool_decide_false by (by intros [? ?]). split; [done|]. by exists (lost p).
  - apply wp_ret. split; [done|]. exists p.
    split; [rewrite list_insert_id by done; by destruct s|]. split; [done|]. split; [done|].
    destruct (data p); [done|lia|done].
Qed.

Lemma fill_data_ok b bytes (Q : buffer -> udp W -> Prop) s :
  match b with
  | Live l => Q (Live (bytes ++ drop (length bytes) l)) s /\ (length bytes <= length l)%nat
  | Null => Q Null s /\ bytes = []
  | Dangling => False
  end -> wp (fill_data b bytes) Q s.
Proof.
  destruct b as [|l|]; [|intros [HQ Hl]|done].
  - by intros [HQ ->].
  - unfold wp, fill_data. destruct (Nat.ltb_spec (length l) (length bytes)); [lia|done].
Qed.

(** The window after one more packet.  The count of packets is a [uint32_t]:
    when it wraps to zero, nothing counts as pending. *)
Definition enqueue s (x : option pkt) : list (option pkt) :=
  if length_ s =? 2 ^ 32 - 1 then [] else push (window s) x.

Lemma window_enqueue s s' x :
  in_u 32 (length_ s) -> length_ s' = u32 (length_ s + 1) ->
  (forall j, j mod 8 <> length_ s mod 8 -> slot_view s' j = slot_view s j) ->
  slot_view s' (length_ s) = x -> window s' = enqueue s x.
Proof.
  intros Hn Hl Ho Hx. unfold in_u, enqueue in *. destruct (Z.eqb_spec (length_ s) (2 ^ 32 - 1)) as [E|Hne].
  - rewrite E in Hl. unfold window. by rewrite Hl.
  - apply window_push; [lia| |done|done]. rewrite Hl. apply wrap_small. unfold in_u. lia.
Qed.

(** The outcome of queuing [bytes] where the next slot holds [p]. *)
Definition queued s (p : PacketData) addr bytes (r : SEND_RESULT) s' : Prop :=
  queue_ok s' /\ same_pool s s' /\
  let (ok, w) := make_room p bytes (net s) in
  net s' = w /\
  if ok then r = BUFFERED /\ window s' = enqueue s (entry addr bytes)
  else r = FAILED /\ window s' = enqueue s (view s (lost p)).

Lemma u16_size (bytes : list Z) : 0 <= u16 (Z.of_nat (length bytes)) <= Z.of_nat (length bytes).
Proof.
  pose proof (wrap_range 16 (Z.of_nat (length bytes)) ltac:(lia)) as [? _].
  split; [done|]. apply Z.mod_le; lia.
Qed.

(** Storing the bytes and the destination in the slot made ready. *)
Lemma store_packet_ok addr bytes p p1 b w s :
  let n := length_ s in
  let k := Z.to_nat (n mod 8) in
  queue_ok s -> packets s !! k = Some p -> to p1 = to p -> 0 <= max_len p1 ->
  (b = Null /\ bytes = [] \/
   exists l, b = Live (bytes ++ l) /\ max_len p1 <= Z.of_nat (length bytes) + Z.of_nat (length l)) ->
  wp (do! set_packet (n mod 8) {| data := b; to := to p1; len := u16 (Z.of_nat (length bytes));
                                  max_len := max_len p1 |} in
      do! store_dest (n mod 8) addr in ret BUFFERED)
     (fun r s' => queue_ok s' /\ same_pool s s' /\ net s' = w /\ r = BUFFERED /\
        window s' = enqueue s (entry addr bytes))
     (with_packets (<[k := p1]> (packets s)) (with_net w (with_length (u32 (n + 1)) s))).
Proof.
  intros n k Hq Hp Hto Hmx Hb. pose proof (u16_size bytes) as Hsz.
  assert (Hk : (k < length (packets s))%nat) by (by eapply lookup_lt_Some).
  wp_step. apply wp_set_packet. cbn [packets with_packets]. fold k. rewrite list_insert_insert_eq.
  set (p2 := {| data := b; to := to p1; len := _; max_len := max_len p1 |}).
  set (s2 := with_packets _ _).
  assert (Hq2 : queue_ok s2).
  { apply (queue_ok_update s s2 k p p2 Hq Hp); try done; [|by apply wrap_range].
    split; [cbn; lia|]. split; [done|]. split.
    - cbn. destruct Hb as [(-> & ->)|(l & -> & ?)]; [done|]. rewrite length_app. lia.
    - cbn. rewrite Hto. apply (queue_packet_ok _ _ _ Hq Hp). }
  assert (Hp2 : packets s2 !! k = Some p2) by (by apply list_lookup_insert_eq).
  wp_step. eapply wp_mono; [|by apply store_dest_ok].
  intros _ s3 (Hq3 & [Hc Hfr] & Hl3 & Hn3 & Hframe & ptr & Hp3 & Hdest).
  apply wp_ret. split; [done|]. split; [split; [exact Hc|exact Hfr]|]. split; [exact Hn3|].
  split; [done|]. cbn [s2 packets with_packets] in Hp3. fold k in Hp3. rewrite list_insert_insert_eq in Hp3.
  apply window_enqueue; [apply (q_length _ Hq)|exact Hl3| |].
  - intros j Hj. eapply slot_view_other; [exact Hp3|exact Hj|].
    intros i q ptr' Hqi Hik Htq. rewrite (Hframe i q ptr'); [done| |done|done].
    cbn. by rewrite list_lookup_insert_ne by done.
  - erewrite slot_view_at by (fold n k; rewrite Hp3; by apply list_lookup_insert_eq).
    unfold view, entry. rewrite Hdest. cbn [len p2].
    destruct (Z.eqb_spec (u16 (Z.of_nat (length bytes))) 0); [done|]. do 2 f_equal. unfold bytes_of. cbn.
    destruct Hb as [(-> & ->)|(l & -> & ?)]; [cbn in *; lia|].
    f_equal. rewrite take_app_le; [done|lia].
Qed.

(** A slot whose reallocation failed. *)
Lemma lose_packet_ok p w s :
  let n := length_ s in
  let k := Z.to_nat (n mod 8) in
  queue_ok s -> packets s !! k = Some p ->
  let s' := with_packets (<[k := lost p]> (packets s)) (with_net w (with_length (u32 (n + 1)) s)) in
  queue_ok s' /\ window s' = enqueue s (view s (lost p)).
Proof.
  intros n k Hq Hp s'. split.
  - apply (queue_ok_update s s' k p (lost p) Hq Hp); try done; [|by apply wrap_range].
    destruct (queue_packet_ok _ _ _ Hq Hp) as (? & ? & _ & ?). by split_and!.
  - apply window_enqueue; [apply (q_length _ Hq)|done| |].
    + intros j Hj. by eapply (slot_view_other s s' (lost p)).
    + rewrite (slot_view_at s' _ (lost p)); [done|].
      apply list_lookup_insert_eq. by eapply lookup_lt_Some.
Qed.

Lemma queue_packet_ok' addr bytes p s :
  queue_ok s -> packets s !! Z.to_nat (length_ s mod 8) = Some p ->
  null_copy (data p) (max_len p) bytes = false ->
  wp (queue_packet addr bytes) (queued s p addr bytes) s.
Proof.
  intros Hq Hp Hcopy. unfold queue_packet. wp_step. apply wp_gets. wp_step. apply wp_modify.
  change (MAX_BUFFERED_PACKETS - 1) with 7. rewrite land_7.
  assert (Hk : (Z.to_nat (length_ s mod 8) < length (packets s))%nat) by (by eapply lookup_lt_Some).
  wp_step. eapply wp_mono; [|apply (grow_packet_ok _ p); [exact Hp|exact (queue_packet_ok _ _ _ Hq Hp)]].
  intros g s1. unfold queued. cbn [net with_length]. destruct (make_room p bytes (net s)) as [ok w].
  intros (-> & p1 & -> & Hto & Hmx & Hd). destruct ok; cbn [negb].
  2: { subst p1. apply wp_ret. destruct (lose_packet_ok p w s Hq Hp) as [Hq' Hw'].
       split; [exact Hq'|]. split; [done|]. split; [done|]. by split. }
  wp_step. apply (wp_get_packet _ p1); [by apply list_lookup_insert_eq|].
  wp_step. apply fill_data_ok. destruct (data p1) as [|l|] eqn:E; [|..|done].
  - destruct Hd as [-> Hle]. pose proof (null_copy_false _ _ _ Hcopy E Hle) as ->. split; [|done].
    apply (store_packet_ok addr [] p p Null w s); [done|exact Hp|done|done|by left].
  - destruct Hd as [Hd1 Hd2]. split; [|done].
    apply (store_packet_ok addr bytes p p1 _ w s); [done|exact Hp|done|done|right].
    eexists. split; [done|]. rewrite length_drop. lia.
Qed.

Lemma queue_packet_null addr bytes p s :
  packets s !! Z.to_nat (length_ s mod 8) = Some p ->
  null_copy (data p) (max_len p) bytes = true -> queue_packet addr bytes s = Fault.
Proof.
  intros Hp Hcopy. unfold null_copy in Hcopy. destruct (data p) eqn:E; [|done..].
  apply andb_true_iff in Hcopy as [Hpos Hle]. apply Z.ltb_lt in Hpos. apply Z.leb_le in Hle.
  unfold queue_packet, bind at 1 2, gets, modify. change (MAX_BUFFERED_PACKETS - 1) with 7.
  rewrite land_7. set (s1 := with_length _ s).
  assert (Hg : get_packet (length_ s mod 8) s1 = Ok (p, s1)).
  { apply wp_eq. by eapply wp_get_packet. }
  unfold grow_packet, bind. rewrite Hg. destruct (Z.ltb_spec (max_len p) (Z.of_nat (length bytes))); [lia|].
  cbn [negb ret]. rewrite Hg, E. destruct bytes; [cbn in Hpos; lia|done].
Qed.

(** *** Lost blocks *)

(** The blocks of the ring and their capacities. *)
Definition buffers s : list (buffer * Z) := (fun p => (data p, max_len p)) <$> packets s.

(** No slot has a capacity without a block. *)
Definition healthy s : Prop :=
  Forall (fun p => data p = Null -> max_len p = 0) (packets s).

Lemma healthy_null_copy s k p bytes :
  healthy s -> queue_ok s -> packets s !! k = Some p -> null_copy (data p) (max_len p) bytes = false.
Proof.
  intros Hh Hq Hp. pose proof (Forall_lookup_1 _ _ _ _ Hh Hp) as Hn. cbn in Hn.
  unfold null_copy. destruct (data p); [|done..]. rewrite Hn by done.
  destruct bytes; [done|]. cbn [length]. lia.
Qed.

(** ** [try_flush_queue] *)

Lemma wp_payload b n (Q : option (list Z) -> udp W -> Prop) s :
  match b with
  | Null => Q None s
  | Live l => n <= Z.of_nat (length l) /\ Q (Some (take (Z.to_nat n) l)) s
  | Dangling => False
  end -> wp (payload b n) Q s.
Proof.
  destruct b as [|l|]; [done| |done]. intros [Hn HQ]. unfold wp, payload.
  destruct (Z.ltb_spec (Z.of_nat (length l)) n); [lia|done].
Qed.

Definition net_dispatch (fd : Z) (x : pkt) (w : W) : io * W :=
  match x.2 with
  | Some a => net_sendto fd x.1 a w
  | None => net_send fd x.1 w
  end.

Lemma send_window_cons fd x l w :
  send_window fd (Some x :: l) w =
  let '(r, w') := net_dispatch fd x w in
  match r with
  | Done _ => send_window fd l w'
  | WouldBlock => (Some true, Some x :: l, w')
  | Failed => (Some false, Some x :: l, w')
  end.
Proof. by destruct x as [b d]. Qed.

(** The send call of one packet, in terms of its view. *)
Lemma flush_send_ok p fd (Q : io -> udp W -> Prop) s :
  queue_ok s -> packet_ok s p -> len p <> 0 ->
  (forall r w, net_dispatch fd (bytes_of p, dest_of s p) (net s) = (r, w) -> Q r (with_net w s)) ->
  wp (flush_send fd p) Q s.
Proof.
  intros Hq (_ & _ & Hd & Hto) Hl HQ. unfold flush_send. wp_step.
  apply (wp_mono _ (fun d s' => d = dest_of s p /\ s' = s)).
  - intros d s' [-> ->]. wp_step.
    apply (wp_payload _ _ (fun b s' => wp _ _ s')). unfold net_dispatch, bytes_of in HQ. cbn in HQ.
    assert (Hgo : forall b, (forall r w,
               match dest_of s p with
               | Some a => net_sendto fd b a (net s)
               | None => net_send fd b (net s)
               end = (r, w) -> Q r (with_net w s)) ->
             wp (sys match dest_of s p with
                     | Some a => net_sendto fd b a
                     | None => net_send fd b
                     end) Q s).
    { intros b HQ'. apply wp_sys. intros r w E. apply HQ'. by destruct (dest_of s p). }
    destruct (data p); [by apply Hgo| |done]. split; [lia|by apply Hgo].
  - unfold dest_of. destruct (to p) as [ptr|]; [|by apply wp_ret].
    destruct Hto as [Hg Hi]. destruct (lookup_lt_is_Some_2 _ _ Hi) as [a Ha].
    wp_step. apply (wp_addr_get _ a); [by rewrite (q_gen _ Hq)|done|]. apply wp_ret.
    by rewrite Ha.
Qed.

(** What flushing one slot does, in terms of the views. *)
Definition flushed s (id i : Z) (c : ConnectionData) (r : option bool) s' : Prop :=
  queue_ok s' /\ free_indices_ s' = free_indices_ s /\ length_ s' = length_ s /\
  buffers s' = buffers s /\ (forall j, j mod 8 <> i mod 8 -> slot_view s' j = slot_view s j) /\
  match slot_view s i with
  | None => r = None /\ net s' = net s /\ conns_ s' = conns_ s /\ slot_view s' i = None
  | Some x =>
      let '(o, w) := net_dispatch (socket c) x (net s) in
      net s' = w /\
      match o with
      | Done _ => r = None /\ conns_ s' = conns_ s /\ slot_view s' i = None
      | WouldBlock => r = Some true /\ conns_ s' = conns_ s /\ slot_view s' i = Some x
      | Failed => r = Some false /\ slot_view s' i = Some x /\
          conns_ s' = <[Z.to_nat id := set_error SEND_FAILED c]> (conns_ s)
      end
  end.

Lemma queue_ok_frame s s' :
  packets s' = packets s -> length_ s' = length_ s -> addr_storage s' = addr_storage s ->
  addr_cap s' = addr_cap s -> addr_gen s' = addr_gen s -> queue_ok s -> queue_ok s'.
Proof.
  intros Hp Hl Ha Hc Hg Hq. destruct Hq.
  split; rewrite ?Hp, ?Hl, ?Hg, ?Hc, ?Ha; try done. eapply Forall_impl; [|exact q_each0].
  intros q. unfold packet_ok. by rewrite Ha.
Qed.

Lemma slot_view_frame s s' j :
  packets s' = packets s -> addr_storage s' = addr_storage s -> slot_view s' j = slot_view s j.
Proof. intros Hp Ha. unfold slot_view, view, dest_of. by rewrite Hp, Ha. Qed.

Lemma flush_packet_ok id i c s :
  queue_ok s -> 0 <= id -> conns_ s !! Z.to_nat id = Some c ->
  wp (flush_packet id i) (flushed s id i c) s.
Proof.
  intros Hq Hid Hc. unfold flush_packet. change (MAX_BUFFERED_PACKETS - 1) with 7.
  rewrite land_7. pose proof (queue_slot s i Hq) as [p Hp].
  pose proof (queue_packet_ok _ _ _ Hq Hp) as Hpok.
  wp_step. eapply wp_get_packet; [done|]. unfold flushed.
  rewrite (slot_view_at _ _ _ Hp). unfold view at 1.
  destruct (Z.eqb_spec (len p) 0) as [Hl|Hl].
  { apply wp_ret. split_and!; try done. rewrite (slot_view_at _ _ _ Hp). unfold view. by rewrite Hl. }
  wp_step. eapply wp_get_conn; [done|done|].
  wp_step. apply flush_send_ok; [done|done|done|]. intros o w E. rewrite E.
  assert (Hk : (Z.to_nat (i mod 8) < length (packets s))%nat) by (by eapply lookup_lt_Some).
  assert (Hsame : slot_view s i = Some (bytes_of p, dest_of s p)).
  { rewrite (slot_view_at _ _ _ Hp). unfold view. destruct (Z.eqb_spec (len p) 0); [lia|done]. }
  destruct o as [n| |].
  - wp_step. apply wp_set_packet. apply wp_ret. set (p' := {| data := _ |}). set (s' := with_packets _ _).
    assert (Hp' : packets s' = <[Z.to_nat (i mod 8) := p']> (packets s)) by done.
    split_and!; try done.
    + eapply (queue_ok_update s s' _ p p'); try done; [|apply (q_length _ Hq)].
      destruct Hpok as (? & ? & Hd & Hto). split_and!; [done|done| |done].
      cbn. destruct (data p); [done|lia|done].
    + unfold buffers. rewrite Hp', list_fmap_insert. apply list_insert_id.
      by rewrite list_lookup_fmap, Hp.
    + intros j Hj. by eapply slot_view_other; [exact Hp'|exact Hj|].
    + erewrite slot_view_at by (rewrite Hp'; by apply list_lookup_insert_eq). done.
  - apply wp_ret. split_and!; try done. by eapply queue_ok_frame; [..|exact Hq].
  - wp_step. eapply wp_upd_conn; [done|exact Hc|]. apply wp_ret.
    split_and!; try done. by eapply queue_ok_frame; [..|exact Hq].
Qed.

(** The result of a flush of the whole window through connection [id]. *)
Definition flush_result s (id : Z) (c : ConnectionData) (b : bool) s' : Prop :=
  queue_ok s' /\ free_indices_ s' = free_indices_ s /\ buffers s' = buffers s /\
  let '(r, rest, w) := send_window (socket c) (window s) (net s) in
  net s' = w /\ length_ s' = (if bool_decide (r = None) then 0 else length_ s) /\
  match r with
  | None => b = false /\ conns_ s' = conns_ s /\ window s' = []
  | Some busy =>
      b = busy /\
      window s' = replicate (length (window s) - length rest) None ++ rest /\
      conns_ s' = if busy then conns_ s
                  else <[Z.to_nat id := set_error SEND_FAILED c]> (conns_ s)
  end.

Lemma mod8_ne start i j : start <= i < start + 8 -> start <= j < start + 8 -> i <> j ->
  j mod 8 <> i mod 8.
Proof.
  intros Hi Hj Hne E. pose proof (Z.div_mod i 8 ltac:(lia)). pose proof (Z.div_mod j 8 ltac:(lia)). lia.
Qed.

Lemma window_split s s' i :
  let st := first_index (length_ s) in
  st <= i <= length_ s -> length_ s' = length_ s ->
  (forall j, st <= j < i -> slot_view s' j = None) ->
  (forall j, i <= j < length_ s -> slot_view s' j = slot_view s j) ->
  let rest := slot_view s <$> seqZ i (length_ s - i) in
  window s' = replicate (length (window s) - length rest) None ++ rest.
Proof.
  intros st Hi Hl Hlo Hhi rest. unfold window, rest. rewrite Hl. fold st. set (n := length_ s) in *.
  rewrite !length_fmap, !length_seqZ.
  replace (n - st) with ((i - st) + (n - i)) at 1 by lia.
  rewrite seqZ_app, fmap_app by lia. replace (st + (i - st)) with i by lia.
  f_equal; [|apply list_fmap_ext; intros k j [-> Hk]%lookup_seqZ; apply Hhi; lia].
  replace (Z.to_nat (n - st) - Z.to_nat (n - i))%nat with (length (seqZ st (i - st)))
    by (rewrite length_seqZ; lia).
  apply list_eq. intros k. rewrite list_lookup_fmap.
  destruct (seqZ st (i - st) !! k) as [j|] eqn:E; cbn [fmap option_fmap option_map].
  - rewrite lookup_replicate_2 by (by eapply lookup_lt_Some).
    apply lookup_seqZ in E as [-> ?]. f_equal. apply Hlo. lia.
  - symmetry. apply lookup_ge_None_2. rewrite length_replicate. by apply lookup_ge_None_1.
Qed.

(** The flush of [s] before packet [i]: the packets before it are gone, the
    others as they were, and sending what is left from here has the outcome of
    sending the whole window. *)
Definition flush_inv s (c : ConnectionData) (i : Z) s' : Prop :=
  let n := length_ s in
  queue_ok s' /\ free_indices_ s' = free_indices_ s /\ conns_ s' = conns_ s /\ length_ s' = n /\
  buffers s' = buffers s /\
  (forall j, first_index n <= j < i -> slot_view s' j = None) /\
  (forall j, i <= j < n -> slot_view s' j = slot_view s j) /\
  send_window (socket c) (window s) (net s) =
  send_window (socket c) (slot_view s <$> seqZ i (n - i)) (net s').

Lemma first_index_bound n : 0 <= n -> 0 <= first_index n <= n /\ n <= first_index n + 8.
Proof. intros Hn. unfold first_index. destruct (Z.ltb_spec 8 n); lia. Qed.

(** A refused packet ends the flush with the rest of the window queued. *)
Lemma flush_stop s id c i b s2 :
  first_index (length_ s) <= i < length_ s -> queue_ok s2 ->
  free_indices_ s2 = free_indices_ s -> length_ s2 = length_ s -> buffers s2 = buffers s ->
  (forall j, first_index (length_ s) <= j < i -> slot_view s2 j = None) ->
  (forall j, i <= j < length_ s -> slot_view s2 j = slot_view s j) ->
  send_window (socket c) (window s) (net s) =
    (Some b, slot_view s <$> seqZ i (length_ s - i), net s2) ->
  conns_ s2 = (if b then conns_ s else <[Z.to_nat id := set_error SEND_FAILED c]> (conns_ s)) ->
  flush_result s id c b s2.
Proof.
  intros Hi Hq Hf Hl Hb Hlo Hhi Hsw Hcs. unfold flush_result.
  split; [done|]. split; [done|]. split; [done|]. rewrite Hsw. split; [done|].
  split; [done|]. split; [done|]. split; [|done]. apply window_split; [lia|done..].
Qed.

Lemma flush_step s id c i r s1 s2 :
  first_index (length_ s) <= i < length_ s -> 0 <= length_ s ->
  flush_inv s c i s1 -> flushed s1 id i c r s2 ->
  match r with
  | None => flush_inv s c (i + 1) s2
  | Some b => flush_result s id c b s2
  end.
Proof.
  intros Hi Hn (Hq1 & Hf1 & Hc1 & Hl1 & Hb1 & Hlo & Hhi & Hsend)
    (Hq2 & Hf2 & Hl2 & Hb2 & Hother & Hcase).
  pose proof (first_index_bound _ Hn) as [_ Hst].
  assert (Hlo2 : forall j, first_index (length_ s) <= j < i -> slot_view s2 j = None).
  { intros j Hj. rewrite Hother by (apply (mod8_ne (first_index (length_ s))); lia). by apply Hlo. }
  assert (Hhi2 : forall j, i < j < length_ s -> slot_view s2 j = slot_view s j).
  { intros j Hj. rewrite Hother by (apply (mod8_ne (first_index (length_ s))); lia). apply Hhi. lia. }
  rewrite (seqZ_cons i) in Hsend by lia. cbn [fmap list_fmap] in Hsend.
  replace (Z.succ i) with (i + 1) in Hsend by lia.
  replace (Z.pred (length_ s - i)) with (length_ s - (i + 1)) in Hsend by lia.
  rewrite Hhi in Hcase by lia.
  assert (Hcont : slot_view s2 i = None -> conns_ s2 = conns_ s1 ->
    send_window (socket c) (window s) (net s) =
    send_window (socket c) (slot_view s <$> seqZ (i + 1) (length_ s - (i + 1))) (net s2) ->
    flush_inv s c (i + 1) s2).
  { intros Hi2 Hcs Hsw. split_and!; [done|congruence|congruence|congruence|congruence| | |done].
    - intros j Hj. destruct (Z.eq_dec j i) as [->|]; [done|apply Hlo2; lia].
    - intros j Hj. apply Hhi2. lia. }
  assert (Hstop : forall b, slot_view s2 i = slot_view s i ->
    send_window (socket c) (window s) (net s) =
      (Some b, slot_view s i :: (slot_view s <$> seqZ (i + 1) (length_ s - (i + 1))), net s2) ->
    conns_ s2 = (if b then conns_ s else <[Z.to_nat id := set_error SEND_FAILED c]> (conns_ s)) ->
    flush_result s id c b s2).
  { intros b Hi2 Hsw Hcs. eapply flush_stop; try done; [congruence|congruence|congruence| |].
    - intros j Hj. destruct (Z.eq_dec j i) as [->|]; [done|apply Hhi2; lia].
    - rewrite Hsw, (seqZ_cons i) by lia. cbn [fmap list_fmap]. repeat f_equal; lia. }
  destruct (slot_view s i) as [x|].
  - rewrite send_window_cons in Hsend.
    destruct (net_dispatch (socket c) x (net s1)) as [o w]. destruct Hcase as [<- Ho].
    destruct o as [k| |]; destruct Ho as (-> & Ho1 & Ho2);
      [by apply Hcont|apply Hstop; congruence|apply Hstop; congruence].
  - destruct Hcase as (-> & Hw & Hcs & Hi2). rewrite <- Hw in Hsend. by apply Hcont.
Qed.

Lemma try_flush_queue_ok id c s :
  queue_ok s -> 0 <= id -> conns_ s !! Z.to_nat id = Some c -> error c = NONE ->
  wp (try_flush_queue id) (flush_result s id c) s.
Proof.
  intros Hq Hid Hc He. pose proof (q_length _ Hq) as Hn0. unfold in_u in Hn0.
  unfold try_flush_queue. wp_step. apply wp_gets.
  destruct (Z.eqb_spec (length_ s) 0) as [Hn|Hn].
  { apply wp_ret. split_and!; [done..|]. unfold window. by rewrite Hn. }
  wp_step. eapply wp_get_conn; [done|done|]. rewrite bool_decide_true by done. cbn [negb].
  change (if MAX_BUFFERED_PACKETS <? length_ s then length_ s - MAX_BUFFERED_PACKETS else 0)
    with (first_index (length_ s)).
  pose proof (first_index_bound (length_ s) ltac:(lia)) as [Hst _].
  wp_step. apply (wp_for_up (fun i _ s' => flush_inv s c i s')).
  - split_and!; try done. lia.
  - intros i [] s1 Hi HI. wp_step.
    eapply wp_mono; [|apply (flush_packet_ok id i c); [apply HI|done|]].
    2: { by destruct HI as (_ & _ & -> & _). }
    intros r s2 Hfl. pose proof (flush_step s id c i r s1 s2 ltac:(lia) ltac:(lia) HI Hfl) as Hstep.
    destruct r as [b|]; [apply wp_ret; by apply wp_ret|by apply wp_ret].
  - intros [] s1. rewrite Z.max_r by lia. intros (Hq1 & Hf1 & Hc1 & Hl1 & Hb1 & _ & _ & Hsend).
    wp_step. apply wp_modify. apply wp_ret. split; [destruct Hq1; by split|].
    split; [done|]. split; [exact Hb1|]. rewrite Hsend, Z.sub_diag. cbn. done.
Qed.

(** *** While reallocation succeeds, no block is lost *)

Definition realloc_total : Prop := forall b n w, (net_realloc b n w).1 <> None.

Lemma healthy_get_packet {A} i (k : PacketData -> M (udp W) A) :
  (forall p, (data p = Null -> max_len p = 0) -> preserves healthy (k p)) ->
  preserves healthy (bind (get_packet i) k).
Proof.
  intros Hk s a s' Hh. unfold bind, get_packet. destruct (packets s !! Z.to_nat i) as [p|] eqn:Hp; [|done].
  apply Hk; [|done]. exact (Forall_lookup_1 _ _ _ _ Hh Hp).
Qed.

Lemma healthy_set_packet i p :
  (data p = Null -> max_len p = 0) -> preserves healthy (set_packet i p).
Proof. intros Hp. apply preserves_modify. intros s Hh. by apply Forall_insert. Qed.

Lemma healthy_sys {A} (f : W -> A * W) : preserves healthy (sys f).
Proof. intros s a s' Hh. unfold sys. destruct (f (net s)) as [b w]. by intros [= <- <-]. Qed.

Lemma healthy_realloc {A} b n (k : option (list Z) -> M (udp W) A) :
  realloc_total -> (forall l, preserves healthy (k (Some l))) ->
  preserves healthy (bind (sys (net_realloc b n)) k).
Proof.
  intros Hre Hk s a s' Hh. unfold bind, sys. pose proof (Hre b n (net s)) as Hs.
  destruct (net_realloc b n (net s)) as [[l|] w]; [|done]. by apply Hk.
Qed.

Lemma healthy_get_conn id : preserves healthy (get_conn id).
Proof.
  intros s a s' Hh. unfold get_conn. destruct (id <? 0); [done|].
  destruct (conns_ s !! Z.to_nat id); [by intros [= <- <-]|done].
Qed.

Lemma healthy_upd_conn id f : preserves healthy (upd_conn id f).
Proof. apply preserves_bind; [apply healthy_get_conn|]. intros c. by apply preserves_modify. Qed.

Lemma healthy_addr_get ptr : preserves healthy (addr_get ptr).
Proof.
  intros s a s' Hh. unfold addr_get. destruct (_ =? _)%nat; [|done].
  destruct (addr_storage s !! _); [by intros [= <- <-]|done].
Qed.

Lemma healthy_addr_set ptr a : preserves healthy (addr_set ptr a).
Proof. apply preserves_bind; [apply healthy_addr_get|]. intros b. by apply preserves_modify. Qed.

Lemma healthy_emplace : preserves healthy addr_emplace_back.
Proof. intros s a s' Hh. unfold addr_emplace_back. by destruct (_ <? _)%nat; intros [= <- <-]. Qed.

Lemma healthy_payload b n : preserves healthy (payload b n).
Proof.
  destruct b; cbn [payload]; [apply preserves_ret| |apply preserves_fault].
  destruct (_ <? n); [apply preserves_fault|apply preserves_ret].
Qed.

(** [memcpy] leaves a block where there was one. *)
Lemma healthy_fill {A} b bytes (k : buffer -> M (udp W) A) :
  (forall b', (b' = Null -> b = Null) -> preserves healthy (k b')) ->
  preserves healthy (bind (fill_data b bytes) k).
Proof.
  intros Hk s a s' Hh. unfold bind, fill_data. destruct b as [|l|].
  - destruct bytes; [|done]. by apply Hk.
  - destruct (_ <? _)%nat; [done|]. by apply Hk.
  - destruct bytes; [|done]. by apply Hk.
Qed.

(** C5. [queue_packet] refines the window.  Where there is room, or
    [realloc] makes room, the packet is accepted: a full window drops its
    oldest entry, every other pending packet keeps its bytes and destination,
    and connections are untouched.  A packet longer than [2^16 - 1] bytes is
    cut to its size modulo [2^16], and when the 32-bit count of packets wraps
    the window is empty.  When [realloc] fails the call answers [FAILED], but
    the slot is used up: it keeps the length of the packet it held, without
    its bytes.  On a slot lost in this way whose old capacity would do for the
    new packet, the call is undefined: it copies to a null pointer. *)
Theorem queue_packet_refines addr bytes p s :
  queue_ok s -> packets s !! Z.to_nat (length_ s mod 8) = Some p ->
  if null_copy (data p) (max_len p) bytes then queue_packet addr bytes s = Fault
  else wp (queue_packet addr bytes) (queued s p addr bytes) s.
Proof.
  intros Hq Hp. destruct (null_copy _ _ _) eqn:Hcopy.
  - by eapply queue_packet_null.
  - by apply queue_packet_ok'.
Qed.

(** C6. [try_flush_queue] refines sending the window: the pending packets
    go out oldest first, each once, to their destinations; the first one
    refused stops the flush, and it and the later ones stay queued. *)
Theorem try_flush_queue_refines id c s :
  queue_ok s -> 0 <= id -> conns_ s !! Z.to_nat id = Some c -> error c = NONE ->
  wp (try_flush_queue id) (flush_result s id c) s.
Proof. apply try_flush_queue_ok. Qed.
End Queue.

Create HintDb healthy.
#[export] Hint Resolve healthy_sys healthy_get_conn healthy_upd_conn healthy_addr_get
  healthy_addr_set healthy_emplace healthy_payload : healthy.

(** [keep_healthy] follows the control structure of an operation. *)
Ltac keep_healthy :=
  repeat lazymatch goal with
  | |- preserves _ (bind (get_packet _) _) => apply healthy_get_packet; intros ? ?
  | |- preserves _ (bind (fill_data _ _) _) => apply healthy_fill; intros ? ?
  | |- preserves _ (bind (sys (net_realloc _ _)) _) => apply healthy_realloc; [done|intros ?]
  | |- preserves _ (bind _ _) => apply preserves_bind; [|intros ?]
  | |- preserves _ (ret _) => apply preserves_ret
  | |- preserves _ (gets _) => apply preserves_gets
  | |- preserves _ fault => apply preserves_fault
  | |- preserves _ (modify _) => apply preserves_modify; by intros ? ?
  | |- preserves _ (set_packet _ _) => apply healthy_set_packet; cbn [data max_len]
  | |- preserves _ (for_ _ _ _) => apply preserves_for; intros ?
  | |- preserves _ (for_up _ _ _ _) => apply preserves_for_n; intros ? ?
  | |- preserves _ (if ?b then _ else _) => destruct b
  | |- preserves _ (match ?x with _ => _ end) => destruct x
  | |- preserves _ _ => solve [auto with healthy]
  | |- _ = Null -> _ => by auto
  end.

Section Healthy.
Context {W : Type} `{Net W}.

Lemma healthy_grow slot size : realloc_total -> preserves healthy (grow_packet slot size).
Proof. intros Hre. unfold grow_packet. keep_healthy. Qed.

Lemma healthy_store_dest slot addr : preserves (healthy (W := W)) (store_dest slot addr).
Proof. unfold store_dest. keep_healthy. Qed.

#[local] Hint Resolve healthy_grow healthy_store_dest : healthy.

Lemma healthy_queue_packet addr bytes : realloc_total -> preserves healthy (queue_packet addr bytes).
Proof.
  intros Hre. unfold queue_packet. keep_healthy.
Qed.

Lemma healthy_flush_send fd p : preserves healthy (flush_send fd p).
Proof. unfold flush_send. keep_healthy. Qed.

#[local] Hint Resolve healthy_flush_send : healthy.

Lemma healthy_flush_packet id i : preserves healthy (flush_packet id i).
Proof. unfold flush_packet. keep_healthy. Qed.

#[local] Hint Resolve healthy_flush_packet : healthy.

Lemma healthy_try_flush id : preserves healthy (try_flush_queue id).
Proof. unfold try_flush_queue. keep_healthy. Qed.
End Healthy.

#[export] Hint Resolve healthy_queue_packet healthy_try_flush : healthy.
