(* ===== verification/UdpPool.v ===== *)
(** * Connections of the UDP pool

    Contracts of the operations of [UDPPool] on its connection table: slots,
    opening, closing, receiving and sending, and the states the public calls
    reach.  The operating system is assumed to be as [NetLaws] of Udp.v. *)

From stdpp Require Import base list numbers sets.
From S2P Require Import Prelude Bytes Udp UdpQueue.

Section Pool.
Context {W : Type} `{NetLaws W}.
Implicit Types s : udp W.

(** A connection whose error is clear describes its buffer truthfully. *)
Definition conn_ok (c : ConnectionData) : Prop :=
  recv_buffer c <> Dangling /\
  (error c = NONE -> 0 <= data_len c <= max_packet_size c /\
     match recv_buffer c with
     | Live b => max_packet_size c <= Z.of_nat (length b)
     | _ => data_len c = 0
     end).

(** The slots: a table of 1024 connections, distinct free indices, and the
    connection of a free index is in state [FREE]. *)
Record pool_ok s : Prop := {
  p_conns : length (conns_ s) = Z.to_nat MAX_CONNECTIONS;
  p_each : Forall conn_ok (conns_ s);
  p_nodup : NoDup (free_indices_ s);
  p_free : forall i, i ∈ free_indices_ s -> 0 <= i < MAX_CONNECTIONS /\
    exists c, conns_ s !! Z.to_nat i = Some c /\ state c = FREE /\ data_len c = 0;
  p_queue : queue_ok s;
}.

Lemma conn0_ok : conn_ok ConnectionData0.
Proof. split; [done|]. intros _. cbn. unfold DEFAULT_PACKET_SIZE. lia. Qed.

Lemma queue_ok_init (w : W) : queue_ok (UDPPool_init w).
Proof.
  split; cbn; try done.
  - repeat constructor; done.
  - intros i j p q ptr1 ptr2 Hp _ Hto. exfalso.
    change (replicate 8 PacketData0 !! i = Some p) in Hp.
    apply lookup_replicate in Hp as [-> _]. done.
Qed.

Lemma pool_ok_init (w : W) : pool_ok (UDPPool_init w).
Proof.
  split.
  - apply length_replicate.
  - apply Forall_replicate, conn0_ok.
  - unfold UDPPool_init, free_indices_. apply NoDup_fmap_2; [|apply NoDup_seqZ].
    intros a b E. lia.
  - intros i Hi. unfold UDPPool_init, free_indices_, conns_ in *.
    change (i ∈ (fun i => MAX_CONNECTIONS - i - 1) <$> seqZ 0 MAX_CONNECTIONS) in Hi.
    apply list_elem_of_fmap in Hi as (j & -> & Hj%elem_of_seqZ). unfold MAX_CONNECTIONS in *.
    split; [lia|]. exists ConnectionData0. split; [|done]. apply lookup_replicate_2. lia.
  - apply queue_ok_init.
Qed.

(** ** Updating one connection *)

Lemma pool_conn s id : pool_ok s -> 0 <= id < MAX_CONNECTIONS ->
  exists c, conns_ s !! Z.to_nat id = Some c.
Proof.
  intros Hp Hid. apply lookup_lt_is_Some_2. rewrite (p_conns _ Hp).
  unfold MAX_CONNECTIONS in *. lia.
Qed.

Lemma pool_conn_ok s k c : pool_ok s -> conns_ s !! k = Some c -> conn_ok c.
Proof. intros Hp Hc. exact (Forall_lookup_1 _ _ _ _ (p_each _ Hp) Hc). Qed.

Lemma pool_not_free s id c :
  pool_ok s -> conns_ s !! Z.to_nat id = Some c -> state c <> FREE -> id ∉ free_indices_ s.
Proof. intros Hp Hc Hst Hi. destruct (p_free _ Hp _ Hi) as (_ & d & Hd & ? & _). congruence. Qed.

(** Changing a connection that is not on the free list, or keeping it free,
    keeps the pool well formed. *)
Lemma pool_ok_update s s' id c c' :
  pool_ok s -> 0 <= id -> conns_ s !! Z.to_nat id = Some c ->
  conns_ s' = <[Z.to_nat id := c']> (conns_ s) -> free_indices_ s' = free_indices_ s ->
  queue_ok s' -> conn_ok c' ->
  id ∉ free_indices_ s \/ (state c' = FREE /\ data_len c' = 0) -> pool_ok s'.
Proof.
  intros Hp Hid Hc Hcs Hf Hq Hok Hst. split; rewrite ?Hcs, ?Hf.
  - rewrite length_insert. apply Hp.
  - apply Forall_insert; [apply Hp|done].
  - apply Hp.
  - intros i Hi. destruct (p_free _ Hp i Hi) as (Hr & d & Hd & Hfree & Hdl). split; [done|].
    destruct (decide (Z.to_nat i = Z.to_nat id)) as [E|Hne].
    + assert (i = id) as -> by lia. exists c'. rewrite list_lookup_insert_eq by (by eapply lookup_lt_Some).
      split; [done|]. by destruct Hst.
    + exists d. by rewrite list_lookup_insert_ne by done.
  - done.
Qed.

Lemma pool_ok_frame s s' :
  conns_ s' = conns_ s -> free_indices_ s' = free_indices_ s -> queue_ok s' ->
  pool_ok s -> pool_ok s'.
Proof. intros Hc Hf Hq Hp. destruct Hp. split; rewrite ?Hc, ?Hf; done. Qed.

Lemma queue_ok_net s cs fr (w : W) :
  queue_ok s -> queue_ok (Build_udp cs fr (packets s) (length_ s) (addr_storage s)
                            (addr_cap s) (addr_gen s) w).
Proof. apply queue_ok_frame; done. Qed.

(** ** Unusable connections *)

Definition usable (c : ConnectionData) : Prop := error c = NONE /\ state c = ACTIVE.

Lemma usable_test c :
  negb (bool_decide (error c = NONE)) || negb (bool_decide (state c = ACTIVE)) = false <-> usable c.
Proof.
  unfold usable. rewrite orb_false_iff, !negb_false_iff, !bool_decide_eq_true. done.
Qed.

Lemma not_usable_test c :
  ~ usable c ->
  negb (bool_decide (error c = NONE)) || negb (bool_decide (state c = ACTIVE)) = true.
Proof.
  intros Hu. destruct (_ || _) eqn:E; [done|]. by apply usable_test in E.
Qed.

Lemma unusable_ok id c addr bytes s :
  0 <= id -> conns_ s !! Z.to_nat id = Some c -> ~ usable c ->
  send id bytes s = Ok (FAILED, s) /\ send_to id addr bytes s = Ok (FAILED, s) /\
  recv id s = Ok (false, s) /\ recv_from id s = Ok (false, s).
Proof.
  intros Hid Hc Hu. apply not_usable_test in Hu.
  assert (Hg : get_conn id s = Ok (c, s)).
  { apply wp_eq. by eapply wp_get_conn. }
  unfold send, send_to, recv, recv_from, recv_prepare, bind. by rewrite Hg, Hu.
Qed.

(** Errors are sticky: on a connection with an error, or not active,
    sending and receiving do nothing at all and report failure. *)
Theorem error_sticky id c addr bytes s :
  0 <= id -> conns_ s !! Z.to_nat id = Some c -> ~ usable c ->
  send id bytes s = Ok (FAILED, s) /\ send_to id addr bytes s = Ok (FAILED, s) /\
  recv id s = Ok (false, s) /\ recv_from id s = Ok (false, s).
Proof. apply unusable_ok. Qed.

(** ** Working on one connection *)

(** [s'] is [s] with connection [id] replaced by [c] and the world moved on. *)
Definition at_conn s (id : Z) (c : ConnectionData) s' : Prop :=
  0 <= id < Z.of_nat (length (conns_ s)) /\
  s' = with_net (net s') (with_conns (<[Z.to_nat id := c]> (conns_ s)) s).

Lemma at_conn_refl s id c :
  0 <= id -> conns_ s !! Z.to_nat id = Some c -> at_conn s id c s.
Proof.
  intros Hid Hc. pose proof (lookup_lt_Some _ _ _ Hc). split; [lia|].
  rewrite list_insert_id by done. by destruct s.
Qed.

Lemma at_conn_lookup s id c s' : at_conn s id c s' -> conns_ s' !! Z.to_nat id = Some c.
Proof. intros [Hid ->]. apply list_lookup_insert_eq. lia. Qed.

Lemma wp_get_at s0 id c (Q : ConnectionData -> udp W -> Prop) s :
  at_conn s0 id c s -> Q c s -> wp (get_conn id) Q s.
Proof.
  intros Ha HQ. pose proof Ha as [? _]. eapply wp_get_conn; [lia| |done]. by eapply at_conn_lookup.
Qed.

Lemma wp_upd_at s0 id c f (Q : unit -> udp W -> Prop) s :
  at_conn s0 id c s -> (forall s', at_conn s0 id (f c) s' -> net s' = net s -> Q tt s') ->
  wp (upd_conn id f) Q s.
Proof.
  intros Ha HQ. pose proof Ha as [Hid Hs]. eapply wp_upd_conn; [lia|by eapply at_conn_lookup|].
  apply HQ; [|done]. split; [done|]. rewrite Hs. cbn. by rewrite list_insert_insert_eq.
Qed.

Lemma wp_sys_at {A} s0 id c (f : W -> A * W) (Q : A -> udp W -> Prop) s :
  at_conn s0 id c s ->
  (forall a s', f (net s) = (a, net s') -> at_conn s0 id c s' -> Q a s') -> wp (sys f) Q s.
Proof.
  intros [Hid Hs] HQ. apply wp_sys. intros a w E. apply HQ; [done|]. split; [done|].
  rewrite Hs. done.
Qed.

Lemma at_conn_pool s id c0 c s' :
  pool_ok s -> conns_ s !! Z.to_nat id = Some c0 -> at_conn s id c s' -> conn_ok c ->
  id ∉ free_indices_ s \/ (state c = FREE /\ data_len c = 0) -> pool_ok s'.
Proof.
  intros Hp Hc [Hid Hs] Hok Hst.
  apply (pool_ok_update s s' id c0 c); [done|lia|done|by rewrite Hs|by rewrite Hs| |done|done].
  rewrite Hs. exact (queue_ok_net s _ _ _ (p_queue _ Hp)).
Qed.

(** ** Receiving *)

(** What [recv_prepare] leaves: no data, an error, or a buffer that holds
    the announced datagram. *)
Definition prepared (c c' : ConnectionData) (ready : bool) : Prop :=
  state c' = state c /\ socket c' = socket c /\ from c' = from c /\
  if ready then
    error c' = NONE /\ 0 < data_len c' <= max_packet_size c' /\ data_len c' < 2 ^ 32 /\
    match recv_buffer c' with
    | Live b => max_packet_size c' <= Z.of_nat (length b)
    | Null => True
    | Dangling => False
    end
  else
    conn_ok c' /\ (error c' = NONE /\ data_len c' = 0 \/ error c' = FAILED_TO_READ_IO_LEN).

Lemma recv_prepare_ok id c s :
  pool_ok s -> 0 <= id -> conns_ s !! Z.to_nat id = Some c -> usable c ->
  wp (recv_prepare id) (fun b s' => exists c', at_conn s id c' s' /\ prepared c c' b) s.
Proof.
  intros Hp Hid Hc Hu. pose proof (at_conn_refl _ _ _ Hid Hc) as Ha.
  pose proof (pool_conn_ok _ _ _ Hp Hc) as [Hdang Hok]. pose proof Hu as [He Hst].
  specialize (Hok He) as [Hdl Hbuf].
  unfold recv_prepare. wp_step. eapply wp_get_at; [done|].
  rewrite (proj2 (usable_test c) Hu). wp_step. eapply wp_sys_at; [done|]. intros r s1 _ Ha1.
  destruct r as [n|].
  2: { wp_step. eapply wp_upd_at; [done|]. intros s2 Ha2 _. apply wp_ret. eexists. split; [exact Ha2|].
       split_and!; try done. by right. }
  wp_step. eapply wp_upd_at; [done|]. intros s2 Ha2 _.
  pose proof (wrap_range 32 n ltac:(lia)) as Hn. unfold in_u in Hn. set (k := u32 n) in *.
  destruct (Z.eqb_spec k 0) as [Hk|Hk].
  { apply wp_ret. eexists. split; [exact Ha2|]. split_and!; try done; [|by left]. split; [done|]. intros _.
    cbn. split; [lia|]. by destruct (recv_buffer c). }
  destruct (Z.ltb_spec (max_packet_size c) k) as [Hlt|Hge].
  - wp_step. eapply wp_sys_at; [done|]. intros nb s3 E Ha3. destruct nb as [b|].
    + apply realloc_law in E. wp_step. eapply wp_upd_at; [done|]. intros s4 Ha4 _. apply wp_ret.
      eexists. split; [exact Ha4|]. split_and!; try done; cbn; lia.
    + wp_step. eapply wp_upd_at; [done|]. intros s4 Ha4 _. apply wp_ret.
      eexists. split; [exact Ha4|]. split_and!; try done. by right.
  - apply wp_ret. eexists. split; [exact Ha2|]. split_and!; try done; cbn; try lia.
    by destruct (recv_buffer c).
Qed.

(** The buffer has the room the receive call is told of. *)
Lemma check_room_ok c c1 (Q : unit -> udp W -> Prop) s :
  prepared c c1 true -> Q tt s -> wp (check_room (recv_buffer c1) (data_len c1)) Q s.
Proof.
  intros (_ & _ & _ & _ & Hdl & _ & Hb) HQ. unfold check_room.
  destruct (recv_buffer c1) as [|l|]; [by apply wp_ret| |done].
  destruct (Z.ltb_spec (Z.of_nat (length l)) (data_len c1)); [lia|by apply wp_ret].
Qed.

(** The outcomes of a receive on a usable connection: a datagram is in the
    buffer, nothing was pending, or the connection now carries an error. *)
Definition received (c c' : ConnectionData) (b : bool) : Prop :=
  state c' = state c /\ socket c' = socket c /\ conn_ok c' /\
  if b then error c' = NONE /\ exists l, recv_buffer c' = Live l
  else error c' = NONE /\ data_len c' = 0 \/ error c' = FAILED_TO_READ_IO_LEN \/
       error c' = RECV_FAILED.

Lemma recv_finish_ok s0 id c b0 c1 r b s :
  prepared c c1 true -> at_conn s0 id (set_recv_buffer b (max_packet_size c1) c1) s \/
    (exists a, at_conn s0 id (set_from a (set_recv_buffer b (max_packet_size c1) c1)) s) ->
  recv_buffer c1 = b0 ->
  match b0 with
  | Live l => (exists l', b = Live l' /\ length l' = length l) /\
              (forall k, r = Some k -> 0 <= k <= data_len c1)
  | _ => r = None /\ b = b0
  end ->
  wp (recv_finish id r) (fun x s' => exists c', at_conn s0 id c' s' /\ net s' = net s /\
    received c c' x /\ (x = true -> r = Some (data_len c') /\ recv_buffer c' = b)) s.
Proof.
  intros (Hst & Hso & _ & He & Hdl & Hlt & Hb) Ha <- Hr.
  assert (Hgo : forall c2, at_conn s0 id c2 s -> state c2 = state c1 -> socket c2 = socket c1 ->
    error c2 = NONE -> max_packet_size c2 = max_packet_size c1 -> recv_buffer c2 = b ->
    wp (recv_finish id r) (fun x s' => exists c', at_conn s0 id c' s' /\ net s' = net s /\
      received c c' x /\ (x = true -> r = Some (data_len c') /\ recv_buffer c' = b)) s).
  { clear Ha. intros c2 Ha Hst2 Hso2 He2 Hmx2 Hb2.
    assert (Hbd : b <> Dangling).
    { destruct (recv_buffer c1); [by destruct Hr as [_ ->]| |done]. by destruct Hr as [(l' & -> & _) _]. }
    unfold recv_finish. destruct r as [k|].
    - wp_step. eapply wp_upd_at; [done|]. intros s1 Ha1 Hn1. apply wp_ret. eexists.
      destruct (recv_buffer c1) as [|l|]; [by destruct Hr| |by destruct Hr].
      destruct Hr as [(l' & -> & Hl') Hk]. specialize (Hk k eq_refl).
      assert (Hku : u32 k = k) by (apply wrap_small; unfold in_u; lia).
      split; [exact Ha1|]. split; [done|]. unfold received, conn_ok. cbn.
      rewrite Hst2, Hso2, He2, Hb2, Hmx2, Hku. split_and!; try done; try lia. by eexists.
    - wp_step. eapply wp_upd_at; [done|]. intros s1 Ha1 Hn1.
      wp_step. eapply wp_upd_at; [done|]. intros s2 Ha2 Hn2. apply wp_ret. eexists.
      split; [exact Ha2|]. split; [congruence|]. unfold received, conn_ok. cbn.
      rewrite Hst2, Hso2, Hb2. split_and!; try done. by right; right. }
  destruct Ha as [Ha|[a Ha]]; by eapply Hgo.
Qed.

Lemma recv_ok id c s :
  pool_ok s -> 0 <= id -> conns_ s !! Z.to_nat id = Some c -> usable c ->
  wp (recv id) (fun b s' => pool_ok s' /\ exists c', at_conn s id c' s' /\ received c c' b /\
    (b = true -> exists b0 n w, net_recv (socket c) b0 n w =
                   ((Some (data_len c'), recv_buffer c'), net s'))) s.
Proof.
  intros Hp Hid Hc Hu. unfold recv. wp_step.
  eapply wp_mono; [|by eapply recv_prepare_ok]. intros ready s1 (c1 & Ha1 & Hprep).
  assert (Hpool : forall c' s', at_conn s id c' s' -> conn_ok c' -> state c' = state c -> pool_ok s').
  { intros c' s' Ha Hok Hst. eapply at_conn_pool; [exact Hp|exact Hc|exact Ha|done|left].
    eapply pool_not_free; [done|done|]. destruct Hu. congruence. }
  destruct ready; cbn [negb].
  - wp_step. eapply wp_get_at; [done|]. wp_step. apply (check_room_ok c); [done|].
    wp_step. eapply wp_sys_at; [done|]. intros [r b] s2 E Ha2. apply recv_law in E as Hlaw.
    wp_step. eapply wp_upd_at; [done|]. intros s3 Ha3 Hn3.
    eapply wp_mono; [|eapply recv_finish_ok; [exact Hprep|by left|done|done]].
    intros x s4 (c4 & Ha4 & Hn4 & Hrec & Hx). pose proof Hrec as (Hst4 & _ & Hok4 & _).
    split; [by eapply Hpool|]. exists c4. split; [done|]. split; [done|]. intros Hxt.
    destruct (Hx Hxt) as [-> ->]. destruct Hprep as (_ & <- & _). rewrite Hn4, Hn3.
    by exists (recv_buffer c1), (data_len c1), (net s1).
  - apply wp_ret. destruct Hprep as (Hst & Hso & _ & Hok & Hcase).
    split; [by eapply Hpool|]. exists c1. split; [done|]. split; [|done].
    split_and!; try done. destruct Hcase as [?|?]; [by left|by right; left].
Qed.

(** C19. [recv] on a usable connection never touches anything but its own
    connection, and reports [true] only with a datagram the system
    delivered into a buffer of sufficient size. *)
Theorem recv_correct id c s :
  pool_ok s -> 0 <= id -> conns_ s !! Z.to_nat id = Some c -> usable c ->
  wp (recv id) (fun b s' => pool_ok s' /\ exists c', at_conn s id c' s' /\ received c c' b /\
    (b = true -> exists b0 n w, net_recv (socket c) b0 n w =
                   ((Some (data_len c'), recv_buffer c'), net s'))) s.
Proof. apply recv_ok. Qed.

(** The same for [recv_from], which also stores the sender's address. *)
Lemma recv_from_ok id c s :
  pool_ok s -> 0 <= id -> conns_ s !! Z.to_nat id = Some c -> usable c ->
  wp (recv_from id) (fun b s' => pool_ok s' /\ exists c', at_conn s id c' s' /\ received c c' b) s.
Proof.
  intros Hp Hid Hc Hu. unfold recv_from. wp_step.
  eapply wp_mono; [|by eapply recv_prepare_ok]. intros ready s1 (c1 & Ha1 & Hprep).
  assert (Hpool : forall c' s', at_conn s id c' s' -> conn_ok c' -> state c' = state c -> pool_ok s').
  { intros c' s' Ha Hok Hst. eapply at_conn_pool; [exact Hp|exact Hc|exact Ha|done|left].
    eapply pool_not_free; [done|done|]. destruct Hu. congruence. }
  destruct ready; cbn [negb].
  - wp_step. eapply wp_get_at; [done|]. wp_step. apply (check_room_ok c); [done|].
    wp_step. eapply wp_sys_at; [done|]. intros [[r b] a] s2 E Ha2. apply recvfrom_law in E as Hlaw.
    wp_step. eapply wp_upd_at; [done|]. intros s3 Ha3 Hn3.
    wp_step. eapply wp_upd_at; [done|]. intros s4 Ha4 Hn4.
    eapply wp_mono; [|eapply recv_finish_ok; [exact Hprep|right; by eexists|done|done]].
    intros x s5 (c5 & Ha5 & Hn5 & Hrec & Hx). pose proof Hrec as (Hst5 & _ & Hok5 & _).
    split; [by eapply Hpool|]. by exists c5.
  - apply wp_ret. destruct Hprep as (Hst & Hso & _ & Hok & Hcase).
    split; [by eapply Hpool|]. exists c1. split; [done|].
    split_and!; try done. destruct Hcase as [?|?]; [by left|by right; left].
Qed.

(** The span of [get_data] lies in the buffer while no error is set. *)
Lemma get_data_ok id c s :
  pool_ok s -> 0 <= id -> conns_ s !! Z.to_nat id = Some c -> error c = NONE ->
  wp (get_data id) (fun l s' => s' = s /\ Z.of_nat (length l) = data_len c /\
    (forall b, recv_buffer c = Live b -> l = take (Z.to_nat (data_len c)) b)) s.
Proof.
  intros Hp Hid Hc He. destruct (pool_conn_ok _ _ _ Hp Hc) as [Hd Hok].
  specialize (Hok He) as [Hdl Hb]. unfold get_data. wp_step. eapply wp_get_conn; [done|done|].
  destruct (Z.eqb_spec (data_len c) 0) as [Hz|Hz].
  { apply wp_ret. rewrite Hz. done. }
  destruct (recv_buffer c) as [|b|]; [lia| |done].
  destruct (Z.ltb_spec (Z.of_nat (length b)) (data_len c)); [lia|]. apply wp_ret.
  split_and!; [done|rewrite length_take; lia|by intros ? [= ->]].
Qed.

(** ** Slots *)

Lemma alloc_slot_ok s :
  pool_ok s ->
  wp alloc_slot (fun i s' => pool_ok s' /\
    (free_indices_ s = [] /\ i = MAX_CONNECTIONS /\ s' = s \/
     exists l c, free_indices_ s = l ++ [i] /\ s' = with_free l s /\ (i ∉ l) /\
       0 <= i < MAX_CONNECTIONS /\ conns_ s !! Z.to_nat i = Some c /\
       state c = FREE /\ data_len c = 0)) s.
Proof.
  intros Hp. unfold alloc_slot. wp_step. apply wp_gets.
  destruct (decide (free_indices_ s = [])) as [E|Hne].
  { rewrite E. apply wp_ret. split; [done|by left]. }
  destruct (exists_last Hne) as (l & i & E). rewrite E, last_snoc, removelast_last.
  wp_step. apply wp_modify. apply wp_ret.
  destruct (p_free _ Hp i) as (Hi & c & Hc & Hst & Hdl); [rewrite E; apply elem_of_app; right; by left|].
  pose proof (p_nodup _ Hp) as Hnd. rewrite E in Hnd. apply NoDup_app in Hnd as (Hnd & Hni & _).
  split; [|right; exists l, c; split_and!; try done].
  - destruct Hp. split; try done; cbn.
    + intros j Hj. apply p_free0. rewrite E. apply elem_of_app. by left.
    + by apply (queue_ok_net s).
  - intros Hl. apply (Hni i Hl). by left.
  - lia.
  - lia.
Qed.

(** A connection that was given the slot [i]. *)
Definition opened s (i : Z) s' : Prop :=
  list.last (free_indices_ s) = Some i /\ free_indices_ s' = removelast (free_indices_ s) /\
  (i ∉ free_indices_ s') /\ 0 <= i < MAX_CONNECTIONS /\
  exists c', conns_ s' = <[Z.to_nat i := c']> (conns_ s) /\ max_packet_size c' = DEFAULT_PACKET_SIZE /\
    (state c' = ACTIVE /\ socket c' <> -1 \/ state c' = FREE /\ error c' <> NONE).

Lemma opened_intro s l i c c' s' :
  pool_ok (with_free l s) -> free_indices_ s = l ++ [i] -> i ∉ l -> 0 <= i < MAX_CONNECTIONS ->
  conns_ s !! Z.to_nat i = Some c -> at_conn (with_free l s) i c' s' ->
  conn_ok c' -> max_packet_size c' = DEFAULT_PACKET_SIZE ->
  state c' = ACTIVE /\ socket c' <> -1 \/ state c' = FREE /\ error c' <> NONE ->
  pool_ok s' /\ opened s i s'.
Proof.
  intros Hp E Hl Hi Hc Ha Hok Hmx Hst. split.
  - eapply at_conn_pool; [exact Hp|exact Hc|exact Ha|done|by left].
  - destruct Ha as [_ ->]. unfold opened. cbn. rewrite E, last_snoc, removelast_last.
    split_and!; try done; [lia|lia|]. by exists c'.
Qed.

Lemma init_socket_ok s0 id c sock (Q : unit -> udp W -> Prop) s :
  at_conn s0 id c s -> fd_open sock (net s) ->
  (forall s', at_conn s0 id c s' -> Q tt s') -> wp (init_socket sock) Q s.
Proof.
  intros Ha Hop HQ. unfold init_socket. wp_step. eapply wp_sys_at; [done|]. intros flags s1 E Ha1.
  apply getfl_law in E; [|done]. destruct (Z.leb_spec 0 flags); [|lia].
  wp_step. eapply wp_sys_at; [done|]. intros r s2 _ Ha2. apply wp_ret. by apply HQ.
Qed.

Lemma resolve_host_ok s0 id c h p v (Q : Address -> udp W -> Prop) s :
  at_conn s0 id c s -> (forall a s', at_conn s0 id c s' -> Q a s') -> wp (resolve_host h p v) Q s.
Proof.
  intros Ha HQ. unfold resolve_host. wp_step. eapply wp_sys_at; [done|]. intros r s1 E Ha1.
  destruct r as [l|]; [|apply wp_ret; by apply HQ]. apply getaddrinfo_law in E.
  destruct (Nat.ltb_spec 28 (length l)); [lia|]. apply wp_ret. by apply HQ.
Qed.

Lemma fresh_conn_ok b n c :
  (b = Null \/ exists l, b = Live l /\ length l = Z.to_nat n) -> 0 <= n -> data_len c = 0 ->
  conn_ok (set_recv_buffer b n c).
Proof.
  intros Hb Hn Hdl. split; cbn.
  - by destruct Hb as [->|(l & -> & _)].
  - intros _. split; [lia|]. destruct Hb as [->|(l & -> & Hl)]; lia.
Qed.

(** What the two ways to open a socket have in common: the slot, then a
    failure that records its error, or an active connection. *)
Lemma create_ok host port connect s :
  pool_ok s ->
  wp (create host port connect) (fun i s' => pool_ok s' /\
    (free_indices_ s = [] /\ i = MAX_CONNECTIONS /\ s' = s \/ opened s i s')) s.
Proof.
  intros Hp. unfold create. wp_step. eapply wp_mono; [|by apply alloc_slot_ok].
  intros i s1 [Hp1 [(Hf & -> & ->)|(l & c & Hf & -> & Hl & Hi & Hc & Hst & Hdl)]].
  { rewrite Z.eqb_refl. apply wp_ret. split; [done|by left]. }
  destruct (Z.eqb_spec i MAX_CONNECTIONS); [lia|].
  assert (Ha0 : at_conn (with_free l s) i c (with_free l s)) by (apply at_conn_refl; [lia|done]).
  wp_step. eapply wp_sys_at; [done|]. intros buf s2 E Ha2. apply malloc_law in E.
  wp_step. eapply wp_upd_at; [done|]. intros s3 Ha3 _.
  pose proof (fresh_conn_ok buf DEFAULT_PACKET_SIZE c E ltac:(done) Hdl) as Hok.
  set (c3 := set_recv_buffer buf DEFAULT_PACKET_SIZE c) in *.
  assert (Hfail : forall c' s', at_conn (with_free l s) i c' s' -> conn_ok c' ->
    max_packet_size c' = DEFAULT_PACKET_SIZE ->
    (state c' = ACTIVE /\ socket c' <> -1 \/ state c' = FREE /\ error c' <> NONE) ->
    wp (ret i) (fun i s' => pool_ok s' /\
      (free_indices_ s = [] /\ i = MAX_CONNECTIONS /\ s' = s \/ opened s i s')) s').
  { intros c' s' Ha' Hok' Hmx' Hst'. apply wp_ret.
    destruct (opened_intro s l i c c' s') as [? ?]; try done. split; [done|by right]. }
  wp_step. eapply resolve_host_ok; [done|]. intros addr s4 Ha4.
  destruct (valid addr); cbn [negb].
  2: { wp_step. eapply wp_upd_at; [done|]. intros s5 Ha5 _.
       eapply Hfail; [exact Ha5|split; [apply Hok|done]|done|by right]. }
  wp_step. eapply wp_sys_at; [done|]. intros sock s5 Es Ha5.
  wp_step. eapply wp_upd_at; [done|]. intros s6 Ha6 Hn6.
  destruct (Z.eqb_spec sock (-1)) as [->|Hsock].
  { wp_step. eapply wp_upd_at; [done|]. intros s7 Ha7 _.
    eapply Hfail; [exact Ha7|split; [apply Hok|done]|done|by right]. }
  wp_step. eapply wp_sys_at; [done|]. intros r s7 Er Ha7. destruct (Z.ltb_spec r 0).
  { wp_step. eapply wp_upd_at; [done|]. intros s8 Ha8 _.
    eapply Hfail; [exact Ha8|split; [apply Hok|by destruct connect]|done|].
    right. split; [done|by destruct connect]. }
  assert (Hop : fd_open sock (net s7)).
  { apply socket_law in Es; [|done]. rewrite <- Hn6 in Es.
    destruct connect; [by eapply connect_law|by eapply bind_law]. }
  wp_step. eapply init_socket_ok; [done|exact Hop|]. intros s8 Ha8.
  wp_step. eapply wp_upd_at; [done|]. intros s9 Ha9 _.
  wp_step. eapply wp_upd_at; [done|]. intros s10 Ha10 _.
  eapply Hfail; [exact Ha10|exact Hok|done|by left].
Qed.

Lemma serve_ok port s :
  pool_ok s ->
  wp (serve port) (fun i s' => pool_ok s' /\
    (free_indices_ s = [] /\ i = MAX_CONNECTIONS /\ s' = s \/ opened s i s')) s.
Proof.
  intros Hp. unfold serve. wp_step. eapply wp_mono; [|by apply alloc_slot_ok].
  intros i s1 [Hp1 [(Hf & -> & ->)|(l & c & Hf & -> & Hl & Hi & Hc & Hst & Hdl)]].
  { rewrite Z.eqb_refl. apply wp_ret. split; [done|by left]. }
  destruct (Z.eqb_spec i MAX_CONNECTIONS); [lia|].
  assert (Ha0 : at_conn (with_free l s) i c (with_free l s)) by (apply at_conn_refl; [lia|done]).
  wp_step. eapply wp_sys_at; [done|]. intros buf s2 E Ha2. apply malloc_law in E.
  wp_step. eapply wp_upd_at; [done|]. intros s3 Ha3 _.
  pose proof (fresh_conn_ok buf DEFAULT_PACKET_SIZE c E ltac:(done) Hdl) as Hok.
  set (c3 := set_recv_buffer buf DEFAULT_PACKET_SIZE c) in *.
  assert (Hend : forall c' s', at_conn (with_free l s) i c' s' -> conn_ok c' ->
    max_packet_size c' = DEFAULT_PACKET_SIZE ->
    (state c' = ACTIVE /\ socket c' <> -1 \/ state c' = FREE /\ error c' <> NONE) ->
    wp (ret i) (fun i s' => pool_ok s' /\
      (free_indices_ s = [] /\ i = MAX_CONNECTIONS /\ s' = s \/ opened s i s')) s').
  { intros c' s' Ha' Hok' Hmx' Hst'. apply wp_ret.
    destruct (opened_intro s l i c c' s') as [? ?]; try done. split; [done|by right]. }
  wp_step. eapply wp_sys_at; [done|]. intros sock s5 Es Ha5.
  wp_step. eapply wp_upd_at; [done|]. intros s6 Ha6 Hn6.
  destruct (Z.eqb_spec sock (-1)) as [->|Hsock].
  { wp_step. eapply wp_upd_at; [done|]. intros s7 Ha7 _.
    eapply Hend; [exact Ha7|split; [apply Hok|done]|done|by right]. }
  wp_step. eapply wp_sys_at; [done|]. intros r s7 Er Ha7. destruct (Z.ltb_spec r 0).
  { wp_step. eapply wp_upd_at; [done|]. intros s8 Ha8 _.
    eapply Hend; [exact Ha8|split; [apply Hok|done]|done|by right]. }
  assert (Hop : fd_open sock (net s7)).
  { apply socket_law in Es; [|done]. rewrite <- Hn6 in Es. by eapply bind_law. }
  wp_step. eapply init_socket_ok; [done|exact Hop|]. intros s8 Ha8.
  wp_step. eapply wp_upd_at; [done|]. intros s9 Ha9 _.
  eapply Hend; [exact Ha9|exact Hok|done|by left].
Qed.

(** Closing a slot in state [FREE] does nothing. *)
Lemma close_free fuel i c s :
  0 <= i -> conns_ s !! Z.to_nat i = Some c -> state c = FREE ->
  close (S fuel) i s = Ok (tt, s).
Proof.
  intros Hi Hc Hst. apply wp_eq. cbn. wp_step. eapply wp_get_conn; [done|done|].
  rewrite decide_True by done. by apply wp_ret.
Qed.

(** C21. [create] takes the last free index; on success the connection is
    active, on any failure the index is returned with the error recorded
    and state [FREE], off the free list, where [close] ignores it: that
    slot is lost for good. *)
Theorem udp_create_correct host port connect s :
  pool_ok s ->
  wp (create host port connect) (fun i s' => pool_ok s' /\
    (free_indices_ s = [] /\ i = MAX_CONNECTIONS /\ s' = s \/
     opened s i s' /\ ((exists c', conns_ s' !! Z.to_nat i = Some c' /\ state c' = ACTIVE) \/
                      (forall fuel, close (S fuel) i s' = Ok (tt, s'))))) s.
Proof.
  intros Hp. eapply wp_mono; [|by apply create_ok]. intros i s' [Hp' [Hnone|Ho]]; (split; [done|]).
  - by left.
  - right. split; [done|]. destruct Ho as (_ & _ & _ & Hi & c' & Hcs & _ & Hst).
    assert (Hc' : conns_ s' !! Z.to_nat i = Some c').
    { rewrite Hcs. apply list_lookup_insert_eq. rewrite (p_conns _ Hp). unfold MAX_CONNECTIONS in *. lia. }
    destruct Hst as [[Hst _]|[Hst _]]; [left; by exists c'|right].
    intros fuel. eapply close_free; [lia|done|done].
Qed.

(** ** Closing *)

(** The connections one call of [close(i)] resets: [i], then the slot whose
    index is the file descriptor of [i], and so on up to a free slot. *)
Inductive close_chain (cs : list ConnectionData) : Z -> list Z -> Prop :=
| chain_free i c : 0 <= i -> cs !! Z.to_nat i = Some c -> state c = FREE -> close_chain cs i []
| chain_next i c l : 0 <= i -> cs !! Z.to_nat i = Some c -> state c <> FREE ->
    recv_buffer c <> Dangling -> close_chain cs (u32 (socket c)) l -> close_chain cs i (i :: l).

Definition reset_all (l : list Z) (cs : list ConnectionData) : list ConnectionData :=
  fold_right (fun i cs => <[Z.to_nat i := ConnectionData0]> cs) cs l.

Lemma chain_det cs i l1 l2 : close_chain cs i l1 -> close_chain cs i l2 -> l1 = l2.
Proof.
  intros Hch. revert l2. induction Hch as [i c Hi Hc Hst|i c l Hi Hc Hst Hd Hch IH];
    intros l2 Hch2; inversion Hch2; simplify_eq; [done|]. f_equal. auto.
Qed.

(** The part of a chain that starts at one of its members is a chain. *)
Lemma chain_suffix cs i l j :
  close_chain cs i l -> j ∈ l -> exists l', close_chain cs j l' /\ (length l' <= length l)%nat.
Proof.
  induction 1 as [|i c l Hi Hc Hst Hd Hch IH]; intros Hj; [by apply elem_of_nil in Hj|].
  apply elem_of_cons in Hj as [-> | Hj].
  - eexists. split; [by econstructor|done].
  - destruct (IH Hj) as (l' & ? & ?). exists l'. split; [done|cbn; lia].
Qed.

Lemma chain_nodup cs i l : close_chain cs i l -> NoDup l.
Proof.
  induction 1 as [|i c l Hi Hc Hst Hd Hch IH]; [constructor|]. constructor; [|done].
  intros Hin. destruct (chain_suffix _ _ _ _ Hch Hin) as (l' & Hl' & Hlen).
  assert (Hfull : close_chain cs i (i :: l)) by (by econstructor).
  pose proof (chain_det _ _ _ _ Hl' Hfull) as ->. cbn in Hlen. lia.
Qed.

Lemma chain_busy cs i l :
  close_chain cs i l -> Forall (fun j => exists c, cs !! Z.to_nat j = Some c /\ state c <> FREE) l.
Proof. induction 1; constructor; eauto. Qed.

Lemma chain_nonneg cs i l : close_chain cs i l -> Forall (Z.le 0) l.
Proof. induction 1; by constructor. Qed.

Lemma reset_all_lookup l cs k :
  (k ∉ Z.to_nat <$> l) -> reset_all l cs !! k = cs !! k.
Proof.
  induction l as [|i l IH]; cbn; intros Hk; [done|]. apply not_elem_of_cons in Hk as [? ?].
  rewrite list_lookup_insert_ne by done. by apply IH.
Qed.

Lemma to_nat_not_in i l : 0 <= i -> Forall (Z.le 0) l -> i ∉ l -> Z.to_nat i ∉ Z.to_nat <$> l.
Proof.
  intros Hi Hl Hn (j & E & Hj)%list_elem_of_fmap. apply Hn.
  rewrite Forall_forall in Hl. specialize (Hl j Hj). by replace i with j by lia.
Qed.

Lemma close_chain_ok i l fuel s :
  close_chain (conns_ s) i l -> (length l < fuel)%nat ->
  close fuel i s = Ok (tt, with_free (free_indices_ s ++ reverse l) (with_conns (reset_all l (conns_ s)) s)).
Proof.
  intros Hch. revert fuel. remember (conns_ s) as cs eqn:Ecs. revert s Ecs.
  induction Hch as [i c Hi Hc Hst|i c l Hi Hc Hst Hd Hch IH]; intros s -> fuel Hf.
  - destruct fuel as [|fuel]; [cbn in Hf; lia|]. rewrite (close_free fuel i c) by done.
    cbn. rewrite app_nil_r. by destruct s.
  - destruct fuel as [|fuel]; [cbn in Hf; lia|]. cbn [length] in Hf. apply wp_eq. cbn [close free_slot].
    wp_step. eapply wp_get_conn; [done|done|]. rewrite decide_False by done. wp_step.
    eapply wp_of_eq; [apply (IH s eq_refl fuel); lia|].
    assert (Hc2 : reset_all l (conns_ s) !! Z.to_nat i = Some c).
    { rewrite reset_all_lookup; [done|]. apply to_nat_not_in; [done|by eapply chain_nonneg|].
      assert (Hfull : close_chain (conns_ s) i (i :: l)) by (by econstructor).
      by apply chain_nodup, NoDup_cons in Hfull as [? _]. }
    wp_step. eapply wp_get_conn; [done|exact Hc2|].
    wp_step. apply (wp_mono _ (fun _ s' => s' = with_free (free_indices_ s ++ reverse l)
      (with_conns (reset_all l (conns_ s)) s))).
    2: { destruct (recv_buffer c); [by apply wp_ret|by apply wp_ret|done]. }
    intros _ ? ->. wp_step. eapply wp_upd_conn; [done|exact Hc2|].
    apply wp_modify. split; [done|]. by rewrite reverse_cons, app_assoc.
Qed.

(** C20. [close] resets the connection, but what it does with the file
    descriptor is to close the connection {e of that number}, and so on;
    the operating system is not called, so no descriptor is ever closed. *)
Theorem close_correct i l fuel s :
  close_chain (conns_ s) i l -> (length l < fuel)%nat ->
  exists s', close fuel i s = Ok (tt, s') /\ net s' = net s /\
    conns_ s' = reset_all l (conns_ s) /\ free_indices_ s' = free_indices_ s ++ reverse l.
Proof. intros Hch Hf. eexists. split; [by eapply close_chain_ok|done]. Qed.

(** When a connection's descriptor equals its own index, [close] calls
    itself for ever. *)
Theorem close_diverges i c s fuel :
  in_u 32 i -> conns_ s !! Z.to_nat i = Some c -> state c <> FREE -> socket c = i ->
  close fuel i s = NoFuel.
Proof.
  intros Hi Hc Hst Hso. assert (Hg : get_conn i s = Ok (c, s)).
  { apply wp_eq. eapply wp_get_conn; [apply Hi|done|done]. }
  induction fuel as [|fuel IH]; [done|]. cbn [close free_slot] in *. unfold bind at 1.
  rewrite Hg, decide_False, Hso, wrap_small by done. unfold bind at 1. unfold close in IH. by rewrite IH.
Qed.

(** ** Sending *)

(** The window a flush leaves, and the connection it leaves. *)
Definition flush_window s (r : option bool) (rest : list (option pkt)) : list (option pkt) :=
  match r with
  | None => []
  | Some _ => replicate (length (window s) - length rest) None ++ rest
  end.

(** The packet went to the queue, through a state [s1] in which the flush has
    left the window [left] and the connections [cs], and the world is [w]. *)
Definition via_queue s (n : Z) (left : list (option pkt)) (cs : list ConnectionData) (w : W)
    addr bytes (res : SEND_RESULT) s' : Prop :=
  exists s1 p, buffers s1 = buffers s /\ length_ s1 = n /\ window s1 = left /\ conns_ s1 = cs /\
    net s1 = w /\ packets s1 !! Z.to_nat (n mod 8) = Some p /\ queued s1 p addr bytes res s'.

(** The outcome of [send] ([addr = None]) and [send_to], where [direct] is
    the system call for a packet that is not queued. *)
Definition sent s (id : Z) (c : ConnectionData) (direct : Z -> W -> io * W) addr bytes
    (res : SEND_RESULT) s' : Prop :=
  pool_ok s' /\ free_indices_ s' = free_indices_ s /\
  let '(r, rest, w) := send_window (socket c) (window s) (net s) in
  let left := flush_window s r rest in
  let n := if bool_decide (r = None) then 0 else length_ s in
  let flushed_conns := if bool_decide (r = Some false)
                       then <[Z.to_nat id := set_error SEND_FAILED c]> (conns_ s) else conns_ s in
  if bool_decide (r = Some true) then via_queue s n left (conns_ s) w addr bytes res s'
  else
    match direct (socket c) w with
    | (Done _, w') => res = OK /\ net s' = w' /\ conns_ s' = flushed_conns /\ window s' = left
    | (WouldBlock, w') => via_queue s n left flushed_conns w' addr bytes res s'
    | (Failed, w') => res = FAILED /\ net s' = w' /\ window s' = left /\
        conns_ s' = <[Z.to_nat id := set_error SEND_FAILED c]> (conns_ s)
    end.

(** The ring holds a slot whose block is lost, with a capacity that would do
    for [bytes]. *)
Definition null_slot s (bytes : list Z) : Prop :=
  Exists (fun x => null_copy x.1 x.2 bytes = true) (buffers s).

Lemma set_error_ok c e : conn_ok c -> e <> NONE -> conn_ok (set_error e c).
Proof. intros [Hd _] He. by split. Qed.

Lemma pool_ok_flush s id c b s' :
  pool_ok s -> 0 <= id -> conns_ s !! Z.to_nat id = Some c -> usable c ->
  flush_result s id c b s' -> pool_ok s' /\
    exists c', conns_ s' = <[Z.to_nat id := c']> (conns_ s) /\
      (c' = c \/ c' = set_error SEND_FAILED c).
Proof.
  intros Hp Hid Hc Hu (Hq & Hf & _ & Hres).
  assert (Hcs : exists c', conns_ s' = <[Z.to_nat id := c']> (conns_ s) /\
    (c' = c \/ c' = set_error SEND_FAILED c)).
  { destruct (send_window _ _ _) as [[r rest] w]. destruct Hres as (_ & _ & Hres).
    assert (Hid' : conns_ s = <[Z.to_nat id := c]> (conns_ s)) by (by rewrite list_insert_id).
    destruct r as [[]|]; destruct Hres as (_ & ? & ?).
    - exists c. rewrite <- Hid'. split; [done|by left].
    - eexists. split; [done|by right].
    - exists c. rewrite <- Hid'. split; [congruence|by left]. }
  split; [|done]. destruct Hcs as (c' & Hcs & Hc').
  pose proof (pool_conn_ok _ _ _ Hp Hc) as Hok.
  eapply (pool_ok_update s s' id c c'); try done.
  - destruct Hc' as [-> | ->]; [done|by apply set_error_ok].
  - left. eapply pool_not_free; [done|done|]. destruct Hu. congruence.
Qed.

(** Queuing a packet after a flush of [s] that led to [s1]; [s2] is [s1] up
    to the world. *)
Lemma queue_after_ok addr bytes n left cs w s s1 s2 :
  pool_ok s1 -> free_indices_ s1 = free_indices_ s -> buffers s1 = buffers s ->
  length_ s1 = n -> window s1 = left -> conns_ s1 = cs -> s2 = with_net w s1 ->
  wpf (queue_packet addr bytes) (null_slot s bytes) (fun res s' => pool_ok s' /\
    free_indices_ s' = free_indices_ s /\ via_queue s n left cs w addr bytes res s') s2.
Proof.
  intros Hp1 Hf1 Hb1 <- <- <- ->.
  assert (Hq2 : queue_ok (with_net w s1)) by exact (queue_ok_net s1 _ _ _ (p_queue _ Hp1)).
  destruct (queue_slot _ (length_ s1) Hq2) as [p Hp]. cbn [with_net packets] in Hp.
  destruct (null_copy (data p) (max_len p) bytes) eqn:Hcopy.
  - unfold wpf. erewrite queue_packet_null; [|exact Hp|done].
    unfold null_slot. rewrite <- Hb1. apply Exists_exists. exists (data p, max_len p).
    split; [|done]. apply list_elem_of_fmap. exists p. split; [done|]. by eapply list_elem_of_lookup_2.
  - apply wpf_of_wp. eapply wp_mono; [|by apply (queue_packet_ok' addr bytes p)].
    intros res s' Hres. pose proof Hres as (Hq' & [Hc' Hf'] & _). cbn in Hc', Hf'.
    split; [by eapply (pool_ok_frame s1)|]. split; [congruence|].
    by exists (with_net w s1), p.
Qed.

(** The packet itself, when the flush did not find the socket busy. *)
Lemma send_direct_ok id c c1 direct addr bytes s s1 :
  pool_ok s1 -> 0 <= id -> conns_ s1 !! Z.to_nat id = Some c1 ->
  socket c1 = socket c -> id ∉ free_indices_ s1 ->
  free_indices_ s1 = free_indices_ s -> buffers s1 = buffers s ->
  wpf (let! c := get_conn id in
      let! r := sys (direct (socket c)) in
      match r with
      | WouldBlock => queue_packet addr bytes
      | Failed => do! upd_conn id (set_error SEND_FAILED) in ret FAILED
      | Done _ => ret OK
      end) (null_slot s bytes) (fun res s' => pool_ok s' /\ free_indices_ s' = free_indices_ s /\
        match direct (socket c) (net s1) with
        | (Done _, w') => res = OK /\ net s' = w' /\ conns_ s' = conns_ s1 /\ window s' = window s1
        | (WouldBlock, w') =>
            via_queue s (length_ s1) (window s1) (conns_ s1) w' addr bytes res s'
        | (Failed, w') => res = FAILED /\ net s' = w' /\ window s' = window s1 /\
            conns_ s' = <[Z.to_nat id := set_error SEND_FAILED c1]> (conns_ s1)
        end) s1.
Proof.
  intros Hp1 Hid Hlk Hso Hnf Hf1 Hb1. apply wpf_bind_wp. eapply wp_get_conn; [done|exact Hlk|].
  apply wpf_bind_wp, wp_sys. intros o w' E. rewrite Hso in E. rewrite E. destruct o as [k| |].
  - apply wpf_of_wp, wp_ret. split; [apply (pool_ok_frame s1); try done; by apply queue_ok_net, p_queue|]. done.
  - by apply (queue_after_ok addr bytes _ _ _ w' s s1).
  - apply wpf_of_wp. wp_step. eapply wp_upd_conn; [done|exact Hlk|]. apply wp_ret. split; [|by split_and!].
    eapply (pool_ok_update s1 _ id c1 (set_error SEND_FAILED c1)); try done.
    + exact (queue_ok_net s1 _ _ _ (p_queue _ Hp1)).
    + apply set_error_ok; [by eapply pool_conn_ok|done].
    + by left.
Qed.

Lemma send_body_ok id c direct addr bytes s :
  pool_ok s -> 0 <= id -> conns_ s !! Z.to_nat id = Some c -> usable c ->
  wpf (let! busy := try_flush_queue id in
      if (busy : bool) then queue_packet addr bytes
      else
        let! c := get_conn id in
        let! r := sys (direct (socket c)) in
        match r with
        | WouldBlock => queue_packet addr bytes
        | Failed => do! upd_conn id (set_error SEND_FAILED) in ret FAILED
        | Done _ => ret OK
        end) (null_slot s bytes) (sent s id c direct addr bytes) s.
Proof.
  intros Hp Hid Hc Hu. apply wpf_bind_wp.
  eapply wp_mono; [|apply (try_flush_queue_ok id c); [apply Hp|done|done|apply Hu]].
  intros busy s1 Hfl.
  destruct (pool_ok_flush _ _ _ _ _ Hp Hid Hc Hu Hfl) as (Hp1 & c1 & Hc1 & Hc1').
  assert (Hnf : id ∉ free_indices_ s).
  { eapply pool_not_free; [exact Hp|done|]. destruct Hu. congruence. }
  destruct Hfl as (Hq1 & Hf1 & Hb1 & Hres). unfold sent.
  destruct (send_window (socket c) (window s) (net s)) as [[r rest] w].
  destruct Hres as (<- & Hl1 & Hres).
  assert (Hlk : conns_ s1 !! Z.to_nat id = Some c1).
  { rewrite Hc1. apply list_lookup_insert_eq. by eapply lookup_lt_Some. }
  pose proof (fun Hso => send_direct_ok id c c1 direct addr bytes s s1 Hp1 Hid Hlk Hso
    ltac:(by rewrite Hf1) Hf1 Hb1) as Hdirect.
  specialize (Hdirect ltac:(by destruct Hc1' as [-> | ->])). rewrite Hl1 in Hdirect.
  assert (Herr : <[Z.to_nat id := set_error SEND_FAILED c1]> (conns_ s1) =
                 <[Z.to_nat id := set_error SEND_FAILED c]> (conns_ s)).
  { rewrite Hc1, list_insert_insert_eq. by destruct Hc1' as [-> | ->]. }
  rewrite Herr in Hdirect.
  destruct r as [[|]|]; destruct Hres as (-> & Hres).
  - destruct Hres as [Hwin Hcs]. rewrite (bool_decide_true (Some true = Some true)) by done.
    apply (queue_after_ok addr bytes _ _ _ _ s s1); try done. by destruct s1.
  - destruct Hres as [Hwin Hcs].
    rewrite (bool_decide_false (Some false = Some true)), (bool_decide_true (Some false = Some false)) by done.
    unfold flush_window. rewrite <- Hwin, <- Hcs. rewrite <- Hcs in Hdirect. exact Hdirect.
  - destruct Hres as [Hcs Hwin].
    rewrite (bool_decide_false (None = Some true)), (bool_decide_false (None = Some false)) by done.
    unfold flush_window. rewrite <- Hwin, <- Hcs. rewrite <- Hcs in Hdirect. exact Hdirect.
Qed.

(** A call of [close] that returns has followed a finite chain. *)
Lemma close_returns fuel i s s' :
  Forall conn_ok (conns_ s) -> close fuel i s = Ok (tt, s') -> exists l, close_chain (conns_ s) i l.
Proof.
  intros Hok. revert i s'. unfold close. induction fuel as [|fuel IH]; intros i s' E; [done|].
  cbn [free_slot] in E. unfold bind at 1, get_conn at 1 in E.
  destruct (Z.ltb_spec i 0); [done|]. destruct (conns_ s !! Z.to_nat i) as [c|] eqn:Hc; [|done].
  destruct (decide (state c = FREE)); [eexists; by econstructor|].
  unfold bind at 1 in E. destruct (free_slot fuel (u32 (socket c)) s) as [[[] s1]| |] eqn:E1; [|done..].
  destruct (IH _ _ E1) as [l Hl]. exists (i :: l). econstructor; try done.
  apply (Forall_lookup_1 _ _ _ _ Hok Hc).
Qed.

Lemma reset_all_in l cs k :
  k ∈ Z.to_nat <$> l -> (k < length cs)%nat -> reset_all l cs !! k = Some ConnectionData0.
Proof.
  induction l as [|i l IH]; cbn; intros Hk Hlt; [by apply elem_of_nil in Hk|].
  destruct (decide (k = Z.to_nat i)) as [->|Hne].
  - apply list_lookup_insert_eq. clear -Hlt. induction l; cbn; [done|]. by rewrite length_insert.
  - rewrite list_lookup_insert_ne by done. apply IH; [|done].
    apply elem_of_cons in Hk as [?|?]; done.
Qed.

Lemma length_reset_all l cs : length (reset_all l cs) = length cs.
Proof. induction l; cbn; [done|]. by rewrite length_insert. Qed.

Lemma close_mono f1 f2 i s r : (f1 <= f2)%nat -> close f1 i s = Ok r -> close f2 i s = Ok r.
Proof.
  revert f2 i s r. unfold close. induction f1 as [|f1 IH]; intros f2 i s r Hle E; [done|].
  destruct f2 as [|f2]; [lia|]. cbn [free_slot] in *. unfold bind at 1 in E. unfold bind at 1.
  destruct (get_conn i s) as [[c s0]| |]; [|done..]. destruct (decide (state c = FREE)); [done|].
  unfold bind at 1 in E. unfold bind at 1.
  destruct (free_slot f1 (u32 (socket c)) s0) as [r1| |] eqn:E1; [|done..].
  by rewrite (IH f2 _ _ _ ltac:(lia) E1).
Qed.

Lemma close_pool_ok fuel i s s' :
  pool_ok s -> close fuel i s = Ok (tt, s') -> pool_ok s'.
Proof.
  intros Hp E. destruct (close_returns _ _ _ _ (p_each _ Hp) E) as [l Hl].
  apply (close_mono _ (fuel + S (length l))) in E; [|lia].
  rewrite (close_chain_ok i l) in E by (done || lia). injection E as <-.
  pose proof (chain_busy _ _ _ Hl) as Hbusy. pose proof (chain_nonneg _ _ _ Hl) as Hnn.
  rewrite Forall_forall in Hbusy, Hnn.
  assert (Hlt : forall j, j ∈ l -> (Z.to_nat j < length (conns_ s))%nat).
  { intros j Hj. destruct (Hbusy j Hj) as (c & Hc & _). by eapply lookup_lt_Some. }
  split; cbn.
  - rewrite length_reset_all. apply Hp.
  - apply Forall_lookup_2. intros k c Hc. destruct (decide (k ∈ Z.to_nat <$> l)) as [Hin|Hout].
    + rewrite reset_all_in in Hc; [by simplify_eq; apply conn0_ok|done|].
      apply lookup_lt_Some in Hc. by rewrite length_reset_all in Hc.
    + rewrite reset_all_lookup in Hc by done. by eapply pool_conn_ok.
  - apply NoDup_app. split_and!; [apply Hp| |].
    + intros j Hj Hin. rewrite elem_of_reverse in Hin. destruct (Hbusy j Hin) as (c & Hc & Hst).
      by apply (pool_not_free _ _ _ Hp Hc Hst).
    + rewrite reverse_Permutation. by eapply chain_nodup.
  - intros j Hj. destruct (decide (Z.to_nat j ∈ Z.to_nat <$> l)) as [Hin|Hout].
    + assert (Hj' : j ∈ l /\ 0 <= j).
      { apply elem_of_app in Hj as [Hj|Hj]; [|rewrite elem_of_reverse in Hj; by split; [|apply Hnn]].
        destruct (p_free _ Hp _ Hj) as ((? & _) & _). split; [|done].
        apply list_elem_of_fmap in Hin as (k & E & Hk). specialize (Hnn k Hk).
        by replace j with k by lia. }
      destruct Hj' as [Hjl Hj0]. pose proof (Hlt j Hjl) as Hjlt. split.
      * pose proof (p_conns _ Hp). unfold MAX_CONNECTIONS in *. lia.
      * exists ConnectionData0. split; [by apply reset_all_in|done].
    + apply elem_of_app in Hj as [Hj|Hj]; [|rewrite elem_of_reverse in Hj].
      * rewrite reset_all_lookup by done. by apply p_free.
      * exfalso. apply Hout. by apply list_elem_of_fmap_2.
  - by apply (queue_ok_net s), p_queue.
Qed.

Lemma send_ok id c bytes s :
  pool_ok s -> 0 <= id -> conns_ s !! Z.to_nat id = Some c -> usable c ->
  wpf (send id bytes) (null_slot s bytes)
      (sent s id c (fun fd => net_send fd (Some bytes)) None bytes) s.
Proof.
  intros Hp Hid Hc Hu. unfold send. apply wpf_bind_wp. eapply wp_get_conn; [done|done|].
  rewrite (proj2 (usable_test c) Hu). by apply (send_body_ok id c (fun fd => net_send fd (Some bytes))).
Qed.

(** C18. [send] on a usable connection: pending packets go first, in order;
    if the socket is busy, then or now, the packet goes to the queue: it joins
    it, or is refused with [FAILED] when [realloc] fails ([queued]); a failed
    flush marks the connection but does not stop the new packet.  The call is
    defined unless a slot of the ring lost its block to a failed [realloc] and
    its capacity would do for the packet. *)
Theorem send_correct id c bytes s :
  pool_ok s -> 0 <= id -> conns_ s !! Z.to_nat id = Some c -> usable c ->
  wpf (send id bytes) (null_slot s bytes)
      (sent s id c (fun fd => net_send fd (Some bytes)) None bytes) s.
Proof. apply send_ok. Qed.

Lemma send_to_ok id c addr bytes s :
  pool_ok s -> 0 <= id -> conns_ s !! Z.to_nat id = Some c -> usable c ->
  wpf (send_to id addr bytes) (null_slot s bytes)
      (sent s id c (fun fd => net_sendto fd (Some bytes) addr) (Some addr) bytes) s.
Proof.
  intros Hp Hid Hc Hu. unfold send_to. apply wpf_bind_wp. eapply wp_get_conn; [done|done|].
  rewrite (proj2 (usable_test c) Hu).
  by apply (send_body_ok id c (fun fd => net_sendto fd (Some bytes) addr)).
Qed.

(** ** The pool as a state machine *)

Inductive op :=
| Create (host port : list Z) (connect : bool)
| Serve (port : Z)
| Send (id : Z) (bytes : list Z)
| Send_to (id : Z) (addr : Address) (bytes : list Z)
| Recv (id : Z)
| Recv_from (id : Z)
| Recv_from_all (ids : list Z)
| Send_to_all (ids : list Z) (bytes : list Z)
| Update
| Close (fuel : nat) (id : Z).

Definition run_op (o : op) : M (udp W) unit :=
  match o with
  | Create h p b => do! create h p b in ret tt
  | Serve p => do! serve p in ret tt
  | Send id bytes => do! send id bytes in ret tt
  | Send_to id a bytes => do! send_to id a bytes in ret tt
  | Recv id => do! recv id in ret tt
  | Recv_from id => do! recv_from id in ret tt
  | Recv_from_all ids => recv_from_all ids
  | Send_to_all ids bytes => send_to_all ids bytes
  | Update => update
  | Close fuel id => close fuel id
  end.

(** The states a program can reach from [s0] by calls that return. *)
Inductive reaches (s0 : udp W) : udp W -> Prop :=
| reach_init : reaches s0 s0
| reach_step s o s' : reaches s0 s -> run_op o s = Ok (tt, s') -> reaches s0 s'.

Lemma reaches_trans s0 s1 s2 : reaches s0 s1 -> reaches s1 s2 -> reaches s0 s2.
Proof. intros H1. induction 1; [done|]. by eapply reach_step. Qed.

Lemma reaches_one o s s' : run_op o s = Ok (tt, s') -> reaches s s'.
Proof. intros E. eapply reach_step; [apply reach_init|done]. Qed.

(** An operation keeps the pool well formed whenever it returns. *)
Local Abbreviation keeps := (preserves pool_ok).

(** An operation on one connection: an index out of range never returns,
    an unusable connection is left alone. *)
Lemma keeps_conn {A} id (m : M (udp W) A) :
  (forall s, get_conn id s = Fault -> m s = Fault) ->
  (forall s c, 0 <= id -> conns_ s !! Z.to_nat id = Some c -> ~ usable c -> exists a, m s = Ok (a, s)) ->
  (forall s c, pool_ok s -> 0 <= id -> conns_ s !! Z.to_nat id = Some c -> usable c ->
     wpf m True (fun _ s' => pool_ok s') s) -> keeps m.
Proof.
  intros Hf Hn Hu s a s' Hp E. destruct (Z.ltb_spec id 0) as [Hid|Hid].
  { rewrite Hf in E; [done|]. unfold get_conn. by destruct (Z.ltb_spec id 0); [|lia]. }
  destruct (conns_ s !! Z.to_nat id) as [c|] eqn:Hc.
  2: { rewrite Hf in E; [done|]. unfold get_conn. rewrite Hc. by destruct (id <? 0). }
  destruct (decide (error c = NONE)), (decide (state c = ACTIVE)).
  - specialize (Hu s c Hp Hid Hc ltac:(done)). unfold wpf in Hu. by rewrite E in Hu.
  - destruct (Hn s c Hid Hc) as [b E']; [by intros []|]. congruence.
  - destruct (Hn s c Hid Hc) as [b E']; [by intros []|]. congruence.
  - destruct (Hn s c Hid Hc) as [b E']; [by intros []|]. congruence.
Qed.

Lemma keeps_recv id : keeps (recv id).
Proof.
  apply (keeps_conn id).
  - intros s E. unfold recv, recv_prepare, bind. by rewrite E.
  - intros s c Hid Hc Hu. exists false. by apply (unusable_ok id c Address0 []).
  - intros s c Hp Hid Hc Hu. apply wpf_of_wp. eapply wp_mono; [|by eapply recv_ok]. by intros b s' [? _].
Qed.

Lemma keeps_recv_from id : keeps (recv_from id).
Proof.
  apply (keeps_conn id).
  - intros s E. unfold recv_from, recv_prepare, bind. by rewrite E.
  - intros s c Hid Hc Hu. exists false. by apply (unusable_ok id c Address0 []).
  - intros s c Hp Hid Hc Hu. apply wpf_of_wp. eapply wp_mono; [|by eapply recv_from_ok].
    by intros b s' [? _].
Qed.

Lemma keeps_send id bytes : keeps (send id bytes).
Proof.
  apply (keeps_conn id).
  - intros s E. unfold send, bind. by rewrite E.
  - intros s c Hid Hc Hu. exists FAILED. by apply (unusable_ok id c Address0 bytes).
  - intros s c Hp Hid Hc Hu. eapply wpf_mono; [| |by eapply send_ok]; [done|]. by intros b s' [? _].
Qed.

Lemma keeps_send_to id a bytes : keeps (send_to id a bytes).
Proof.
  apply (keeps_conn id).
  - intros s E. unfold send_to, bind. by rewrite E.
  - intros s c Hid Hc Hu. exists FAILED. by apply (unusable_ok id c a bytes).
  - intros s c Hp Hid Hc Hu. eapply wpf_mono; [| |by eapply send_to_ok]; [done|]. by intros b s' [? _].
Qed.

Lemma keeps_set_error id e : e <> NONE -> keeps (upd_conn id (set_error e)).
Proof.
  intros He s [] s' Hp E. unfold upd_conn, bind, get_conn in E. destruct (Z.ltb_spec id 0); [done|].
  destruct (conns_ s !! Z.to_nat id) as [c|] eqn:Hc; [|done]. injection E as <-.
  apply (pool_ok_update s _ id c (set_error e c)); try done.
  - exact (queue_ok_net s _ _ _ (p_queue _ Hp)).
  - apply set_error_ok; [by eapply pool_conn_ok|done].
  - destruct (decide (id ∈ free_indices_ s)) as [Hin|]; [right|by left].
    destruct (p_free _ Hp _ Hin) as (_ & d & Hd & ? & ?). by simplify_eq.
Qed.

Lemma keeps_flush id : keeps (let! c := get_conn id in
  if negb (bool_decide (state c = ACTIVE)) then ret tt else do! try_flush_queue id in ret tt).
Proof.
  intros s [] s' Hp E. unfold bind at 1, get_conn at 1 in E. destruct (Z.ltb_spec id 0); [done|].
  destruct (conns_ s !! Z.to_nat id) as [c|] eqn:Hc; [|done].
  destruct (decide (state c = ACTIVE)) as [Hst|]; [|by rewrite bool_decide_false in E by done; injection E as <-].
  rewrite bool_decide_true in E by done. cbn [negb] in E.
  destruct (decide (error c = NONE)) as [He|He].
  - pose proof (try_flush_queue_ok id c s (p_queue _ Hp) ltac:(done) Hc He) as Hw.
    unfold wp in Hw. unfold bind in E. destruct (try_flush_queue id s) as [[b s1]| |]; [|done..].
    injection E as <-. by eapply pool_ok_flush.
  - assert (Ht : try_flush_queue id s = Ok (false, s)).
    { apply wp_eq. unfold try_flush_queue. wp_step. apply wp_gets.
      destruct (length_ s =? 0); [by apply wp_ret|]. wp_step. eapply wp_get_conn; [done|done|].
      rewrite bool_decide_false by done. by apply wp_ret. }
    unfold bind in E. rewrite Ht in E. by injection E as <-.
Qed.

Lemma keeps_update : keeps update.
Proof. apply preserves_for. intros i. apply keeps_flush. Qed.

Lemma keeps_recv_from_all ids : keeps (recv_from_all ids).
Proof.
  assert (Hpoll : forall ids s fds s', poll_fds ids s = Ok (fds, s') -> s' = s).
  { clear ids. induction ids as [|id ids IH]; intros s fds s' E; [by injection E|].
    cbn [poll_fds] in E. unfold bind at 1, get_conn in E. destruct (id <? 0); [done|].
    destruct (conns_ s !! Z.to_nat id); [|done]. unfold bind in E.
    destruct (poll_fds ids s) as [[fds1 s1]| |] eqn:E1; [|done..].
    apply IH in E1 as ->. by injection E. }
  assert (Hready : forall ids revents, keeps (recv_ready ids revents)).
  { clear ids. intros ids revents. revert ids.
    induction revents as [|r revents IH]; intros [|id ids]; cbn [recv_ready];
      [apply preserves_ret|apply preserves_ret|by intros s a s' _ ?|]. apply preserves_bind; [|intros; apply IH].
    destruct r; [|apply preserves_ret]. apply preserves_bind; [apply keeps_recv_from|intros; apply preserves_ret]. }
  intros s [] s' Hp E. unfold recv_from_all, bind at 1 in E.
  destruct (poll_fds ids s) as [[fds s1]| |] eqn:E1; [|done..]. apply Hpoll in E1 as ->.
  unfold bind at 1, sys in E. destruct (net_poll fds (net s)) as [r w].
  assert (Hp1 : pool_ok (with_net w s)).
  { apply (pool_ok_frame s); try done. exact (queue_ok_net s _ _ _ (p_queue _ Hp)). }
  destruct r as [revents|]; [by eapply Hready|].
  revert E. apply (preserves_foldr _ (fun id => upd_conn id (set_error POLL_FAILED))); [|done].
  intros id. by apply keeps_set_error.
Qed.

Lemma keeps_op o : keeps (run_op o).
Proof.
  destruct o; cbn [run_op];
    try lazymatch goal with
        | |- keeps (bind _ _) => apply preserves_bind; [|intros; apply preserves_ret]
        end.
  - intros s i s' Hp E. pose proof (create_ok host port connect s Hp) as Hw. unfold wp in Hw.
    rewrite E in Hw. apply Hw.
  - intros s i s' Hp E. pose proof (serve_ok port s Hp) as Hw. unfold wp in Hw.
    rewrite E in Hw. apply Hw.
  - apply keeps_send.
  - apply keeps_send_to.
  - apply keeps_recv.
  - apply keeps_recv_from.
  - apply keeps_recv_from_all.
  - apply (preserves_foldr _ (fun id => send id bytes)). intros id. apply keeps_send.
  - apply keeps_update.
  - intros s [] s' Hp E. by eapply close_pool_ok.
Qed.

(** ** The operations return *)

Definition valid_id (id : Z) : Prop := 0 <= id < MAX_CONNECTIONS.

(** Calls with identifiers inside the table; closing is [close_correct] and
    [close_diverges]. *)
Definition op_valid (o : op) : Prop :=
  match o with
  | Create _ _ _ | Serve _ | Update => True
  | Send id _ | Send_to id _ _ | Recv id | Recv_from id => valid_id id
  | Recv_from_all ids | Send_to_all ids _ => Forall valid_id ids
  | Close _ _ => False
  end.

Lemma total_conn {A} id (m : M (udp W) A) :
  valid_id id ->
  (forall s c, 0 <= id -> conns_ s !! Z.to_nat id = Some c -> ~ usable c -> exists a, m s = Ok (a, s)) ->
  (forall s c, pool_ok s -> 0 <= id -> conns_ s !! Z.to_nat id = Some c -> usable c ->
     wp m (fun _ s' => pool_ok s') s) -> total pool_ok m.
Proof.
  intros Hid Hn Hu s Hp. destruct (pool_conn s id Hp Hid) as [c Hc]. pose proof (proj1 Hid) as Hid0.
  assert (Hun : ~ usable c -> wp m (fun _ s' => pool_ok s') s).
  { intros Hnu. destruct (Hn s c Hid0 Hc Hnu) as [a E]. by eapply wp_of_eq. }
  destruct (decide (error c = NONE)), (decide (state c = ACTIVE)); try (by apply Hun; intros []).
  by eapply Hu.
Qed.

Lemma total_recv id : valid_id id -> total pool_ok (recv id).
Proof.
  intros Hid. apply (total_conn id); [done| |].
  - intros s c Hid0 Hc Hu. exists false. by apply (unusable_ok id c Address0 []).
  - intros s c Hp Hid0 Hc Hu. eapply wp_mono; [|by eapply recv_ok]. by intros b s' [? _].
Qed.

Lemma total_recv_from id : valid_id id -> total pool_ok (recv_from id).
Proof.
  intros Hid. apply (total_conn id); [done| |].
  - intros s c Hid0 Hc Hu. exists false. by apply (unusable_ok id c Address0 []).
  - intros s c Hp Hid0 Hc Hu. eapply wp_mono; [|by eapply recv_from_ok]. by intros b s' [? _].
Qed.

(** The sends return, unless they meet a slot that lost its block. *)
Lemma sends_conn {A} id (m : M (udp W) A) bytes s :
  valid_id id -> pool_ok s ->
  (forall c, 0 <= id -> conns_ s !! Z.to_nat id = Some c -> ~ usable c -> exists a, m s = Ok (a, s)) ->
  (forall c, 0 <= id -> conns_ s !! Z.to_nat id = Some c -> usable c ->
     wpf m (null_slot s bytes) (fun _ s' => pool_ok s') s) ->
  wpf m (null_slot s bytes) (fun _ s' => pool_ok s') s.
Proof.
  intros Hid Hp Hn Hu. destruct (pool_conn s id Hp Hid) as [c Hc]. pose proof (proj1 Hid) as Hid0.
  assert (Hun : ~ usable c -> wpf m (null_slot s bytes) (fun _ s' => pool_ok s') s).
  { intros Hnu. destruct (Hn c Hid0 Hc Hnu) as [a E]. unfold wpf. by rewrite E. }
  destruct (decide (error c = NONE)), (decide (state c = ACTIVE)); try (by apply Hun; intros []).
  by eapply Hu.
Qed.

Lemma send_returns id bytes s : valid_id id -> pool_ok s ->
  wpf (send id bytes) (null_slot s bytes) (fun _ s' => pool_ok s') s.
Proof.
  intros Hid Hp. apply (sends_conn id); [done|done| |].
  - intros c Hid0 Hc Hu. exists FAILED. by apply (unusable_ok id c Address0 bytes).
  - intros c Hid0 Hc Hu. eapply wpf_mono; [| |by eapply send_ok]; [done|]. by intros b s' [? _].
Qed.

Lemma send_to_returns id a bytes s : valid_id id -> pool_ok s ->
  wpf (send_to id a bytes) (null_slot s bytes) (fun _ s' => pool_ok s') s.
Proof.
  intros Hid Hp. apply (sends_conn id); [done|done| |].
  - intros c Hid0 Hc Hu. exists FAILED. by apply (unusable_ok id c a bytes).
  - intros c Hid0 Hc Hu. eapply wpf_mono; [| |by eapply send_to_ok]; [done|]. by intros b s' [? _].
Qed.

Lemma send_to_all_returns ids bytes s : Forall valid_id ids -> pool_ok s ->
  wpf (send_to_all ids bytes) (exists s1, reaches s s1 /\ null_slot s1 bytes)
      (fun _ s' => pool_ok s') s.
Proof.
  intros Hids. revert s. induction Hids as [|id ids Hid Hids IH]; intros s Hp; [done|].
  cbn [send_to_all fold_right]. apply wpf_bind.
  eapply wpf_mono; [| |apply wpf_run, send_returns; done].
  - intros Hnull. exists s. split; [apply reach_init|done].
  - intros r s1 [E Hp1]. eapply wpf_mono; [| |by apply IH]; [|done].
    intros (s2 & Hs2 & ?). exists s2. split; [|done]. eapply reaches_trans; [|exact Hs2].
    apply (reaches_one (Send id bytes)). cbn [run_op]. unfold bind. by rewrite E.
Qed.

(** What keeps the invariant and returns is total. *)
Lemma total_of_keeps {A} (m : M (udp W) A) :
  keeps m -> (forall s, pool_ok s -> exists a s', m s = Ok (a, s')) -> total pool_ok m.
Proof.
  intros Hk Hr s Hp. destruct (Hr s Hp) as (a & s' & E). eapply wp_of_eq; [exact E|]. by eapply Hk.
Qed.

Lemma total_set_error id e : e <> NONE -> valid_id id -> total pool_ok (upd_conn id (set_error e)).
Proof.
  intros He Hid. apply total_of_keeps; [by apply keeps_set_error|]. intros s Hp.
  destruct (pool_conn s id Hp Hid) as [c Hc]. destruct Hid as [Hid _]. eexists tt, _.
  apply wp_eq. eapply wp_upd_conn; [done|exact Hc|]. by split.
Qed.

Lemma total_update : total pool_ok update.
Proof.
  apply total_for. intros id Hid. apply total_of_keeps; [apply keeps_flush|]. intros s Hp.
  destruct (pool_conn s id Hp Hid) as [c Hc]. destruct Hid as [Hid _].
  unfold bind at 1, get_conn at 1. destruct (Z.ltb_spec id 0); [lia|]. rewrite Hc.
  destruct (negb _); [by eexists _, _|]. destruct (decide (error c = NONE)) as [He|He].
  - pose proof (try_flush_queue_ok id c s (p_queue _ Hp) Hid Hc He) as Hw.
    unfold wp in Hw. unfold bind. destruct (try_flush_queue id s) as [[b s1]| |]; [|done..].
    by eexists _, _.
  - unfold try_flush_queue, bind, gets. destruct (length_ s =? 0); [by eexists _, _|].
    unfold get_conn. destruct (Z.ltb_spec id 0); [lia|]. rewrite Hc, bool_decide_false by done.
    by eexists _, _.
Qed.

(** The descriptors polled: the state is as before, and there are at most as
    many as identifiers. *)
Lemma poll_fds_ok ids s :
  pool_ok s -> Forall valid_id ids ->
  exists fds, poll_fds ids s = Ok (fds, s) /\ (length fds <= length ids)%nat.
Proof.
  intros Hp. induction 1 as [|id ids Hid Hids (fds & E & Hl)]; [by exists []|].
  cbn [poll_fds]. unfold bind at 1, get_conn.
  destruct (pool_conn s id Hp Hid) as [c Hc]. destruct (Z.ltb_spec id 0); [destruct Hid; lia|].
  rewrite Hc. unfold bind. rewrite E. eexists. split; [done|].
  destruct (_ || _); cbn [length]; lia.
Qed.

Lemma total_recv_ready ids revents :
  Forall valid_id ids -> (length revents <= length ids)%nat -> total pool_ok (recv_ready ids revents).
Proof.
  intros Hids. revert revents. induction Hids as [|id ids Hid Hids IH]; intros [|r revents] Hl;
    cbn [length recv_ready] in *; try apply total_ret; [lia|].
  apply total_bind; [|intros _; apply IH; lia].
  destruct r; [|apply total_ret]. apply total_bind; [by apply total_recv_from|intros; apply total_ret].
Qed.

Lemma total_recv_from_all ids : Forall valid_id ids -> total pool_ok (recv_from_all ids).
Proof.
  intros Hids s Hp. destruct (poll_fds_ok ids s Hp Hids) as (fds & E & Hl).
  unfold recv_from_all. wp_step. eapply wp_of_eq; [exact E|]. wp_step. apply wp_sys. intros r w Er.
  assert (Hp1 : pool_ok (with_net w s)).
  { apply (pool_ok_frame s); try done. exact (queue_ok_net s _ _ _ (p_queue _ Hp)). }
  destruct r as [revents|].
  - apply poll_law in Er. apply total_recv_ready; [done|lia|done].
  - apply (total_foldr pool_ok (fun id => upd_conn id (set_error POLL_FAILED))); [|done].
    eapply Forall_impl; [exact Hids|]. intros id Hid. by apply total_set_error.
Qed.

(** The bytes an operation sends. *)
Definition op_bytes (o : op) : option (list Z) :=
  match o with
  | Send _ bytes | Send_to _ _ bytes | Send_to_all _ bytes => Some bytes
  | _ => None
  end.

Lemma total_op o : op_valid o -> op_bytes o = None -> total pool_ok (run_op o).
Proof.
  intros Hv Hb. destruct o; cbn [run_op op_valid op_bytes] in *; try done;
    try lazymatch goal with
        | |- total _ (bind _ _) => apply total_bind; [|intros; apply total_ret]
        end.
  - intros s Hp. eapply wp_mono; [|by apply create_ok]. by intros i s' [? _].
  - intros s Hp. eapply wp_mono; [|by apply serve_ok]. by intros i s' [? _].
  - by apply total_recv.
  - by apply total_recv_from.
  - by apply total_recv_from_all.
  - apply total_update.
Qed.

(** Every call is defined and returns, except that a send may meet a slot
    that lost its block, in this state or in one it leads to. *)
Lemma op_returns o s : op_valid o -> pool_ok s ->
  wpf (run_op o) (exists bytes s1, op_bytes o = Some bytes /\ reaches s s1 /\ null_slot s1 bytes)
      (fun _ s' => pool_ok s') s.
Proof.
  intros Hv Hp. destruct (op_bytes o) as [bytes|] eqn:Hb.
  2: { apply wpf_of_wp. by apply total_op. }
  destruct o; cbn [op_bytes op_valid run_op] in *; simplify_eq.
  - apply wpf_bind. eapply wpf_mono; [| |by apply send_returns]; [|done].
    intros Hn. exists bytes, s. split; [done|]. split; [apply reach_init|done].
  - apply wpf_bind. eapply wpf_mono; [| |by apply send_to_returns]; [|done].
    intros Hn. exists bytes, s. split; [done|]. split; [apply reach_init|done].
  - eapply wpf_mono; [| |by apply send_to_all_returns]; [|done]. intros (s1 & ? & ?). by exists bytes, s1.
Qed.

(** *** While reallocation succeeds, no slot loses its block *)

Lemma healthy_not_null s bytes : healthy s -> ~ null_slot s bytes.
Proof.
  intros Hh Hn. apply Exists_exists in Hn as ([b cap] & Hin & Hc).
  apply list_elem_of_fmap in Hin as (p & [= -> ->] & Hp). unfold healthy in Hh.
  rewrite Forall_forall in Hh. specialize (Hh p Hp). unfold null_copy in Hc. cbn [fst snd] in Hc.
  destruct (data p); [|done..]. rewrite Hh in Hc by done. destruct bytes; [done|]. cbn [length] in Hc. lia.
Qed.

Lemma healthy_init (w : W) : healthy (UDPPool_init w).
Proof. by apply Forall_replicate. Qed.

Lemma healthy_free_slot fuel index : preserves (healthy (W := W)) (free_slot fuel index).
Proof.
  revert index. induction fuel as [|fuel IH]; intros index; cbn [free_slot]; [done|].
  keep_healthy. unfold std_free. keep_healthy.
Qed.

Lemma healthy_create h p b : preserves healthy (create h p b).
Proof. unfold create, alloc_slot, resolve_host, init_socket. keep_healthy. Qed.

Lemma healthy_serve p : preserves healthy (serve p).
Proof. unfold serve, alloc_slot, init_socket. keep_healthy. Qed.

Lemma healthy_recv id : realloc_total -> preserves healthy (recv id).
Proof. intros Hre. unfold recv, recv_prepare, check_room, recv_finish. keep_healthy. Qed.

Lemma healthy_recv_from id : realloc_total -> preserves healthy (recv_from id).
Proof. intros Hre. unfold recv_from, recv_prepare, check_room, recv_finish. keep_healthy. Qed.

Lemma healthy_recv_from_all ids : realloc_total -> preserves healthy (recv_from_all ids).
Proof.
  intros Hre. unfold recv_from_all. apply preserves_bind; [|intros fds; keep_healthy].
  - induction ids as [|id ids IH]; cbn [poll_fds]; keep_healthy.
  - revert ids. induction l as [|r l IH]; intros [|id ids]; cbn [recv_ready]; keep_healthy.
    by apply healthy_recv_from.
  - apply (preserves_foldr _ (fun id => upd_conn id (set_error POLL_FAILED))). intros id. keep_healthy.
Qed.

Lemma healthy_op o : realloc_total -> preserves healthy (run_op o).
Proof.
  intros Hre. destruct o; cbn [run_op].
  all: try lazymatch goal with
       | |- preserves _ (bind _ _) => apply preserves_bind; [|intros; apply preserves_ret]
       end.
  - apply healthy_create.
  - apply healthy_serve.
  - unfold send. keep_healthy.
  - unfold send_to. keep_healthy.
  - by apply healthy_recv.
  - by apply healthy_recv_from.
  - by apply healthy_recv_from_all.
  - apply (preserves_foldr _ (fun id => send id bytes)). intros id. unfold send. keep_healthy.
  - unfold update. keep_healthy.
  - apply healthy_free_slot.
Qed.

Lemma reaches_healthy s0 s : realloc_total -> healthy s0 -> reaches s0 s -> healthy s.
Proof. intros Hre H0'. induction 1 as [|s o s' _ IH E]; [done|]. by eapply (healthy_op o). Qed.

Lemma reaches_pool_ok s0 s : pool_ok s0 -> reaches s0 s -> pool_ok s.
Proof. intros H0'. induction 1 as [|s o s' _ IH E]; [done|]. by eapply (keeps_op o). Qed.


(** [recv_from_all] pairs the [i]-th polled descriptor with the [i]-th
    of all identifiers: behind an unusable connection a readable one is
    never read, and the unusable one is asked instead. *)
Theorem recv_from_all_skips a b ca cb w s :
  0 <= a -> conns_ s !! Z.to_nat a = Some ca -> ~ usable ca ->
  0 <= b -> conns_ s !! Z.to_nat b = Some cb -> usable cb ->
  net_poll [socket cb] (net s) = (Some [true], w) ->
  recv_from_all [a; b] s = Ok (tt, with_net w s).
Proof.
  intros Ha Hca Hua Hb Hcb Hub Hpoll. apply wp_eq. unfold recv_from_all. cbn [poll_fds].
  wp_step. wp_step. eapply wp_get_conn; [done|done|]. rewrite (not_usable_test ca Hua).
  wp_step. wp_step. eapply wp_get_conn; [done|done|]. rewrite (proj2 (usable_test cb) Hub).
  wp_step. wp_step. wp_step. wp_step. wp_step. apply wp_sys. intros r w' E.
  rewrite Hpoll in E. injection E as <- <-. cbn [recv_ready].
  wp_step. wp_step. eapply wp_of_eq; [by eapply (unusable_ok a ca Address0 [])|].
  wp_step. by wp_step.
Qed.
End Pool.
