(* ===== verification/UdpSim.v ===== *)
(** * A simulated network

    A concrete operating system for the UDP pool: a world that is a script of
    send results, an allocator that refuses blocks of 64 bytes and more to
    [realloc], and sockets that always have a three-byte datagram pending.  It
    satisfies [NetLaws], and the theorems of UdpQueue.v and UdpPool.v are run
    on it. *)

From stdpp Require Import base list numbers.
From S2P Require Import Prelude Bytes Udp UdpQueue UdpPool.

(** Every descriptor is 5; a send takes the next result of the script, and
    succeeds once the script is empty. *)
Abbreviation script := (list io).

Definition sim_send (w : script) : io * script :=
  match w with
  | [] => (Done 0, [])
  | r :: w => (r, w)
  end.

Definition sim_write (b : buffer) (n : Z) : option Z * buffer :=
  match b with
  | Live l => (if 3 <=? n then Some 3 else None, Live (take (length l) ([7; 8; 9] ++ drop 3 l)))
  | _ => (None, b)
  end.

Definition sim_realloc (b : buffer) (n : Z) : list Z :=
  take (Z.to_nat n)
    ((match b with Live l => l | _ => [] end) ++ replicate (Z.to_nat n) 0).

#[export] Instance sim_net : Net script := {
  net_socket _ w := (5, w);
  net_connect _ _ w := (0, w);
  net_bind _ _ w := (0, w);
  net_getfl _ w := (0, w);
  net_setfl_nonblock _ _ w := (0, w);
  net_fionread _ w := (Some 3, w);
  net_recv _ b n w := (sim_write b n, w);
  net_recvfrom _ b n a w := ((sim_write b n, a), w);
  net_send _ _ w := sim_send w;
  net_sendto _ _ _ w := sim_send w;
  net_poll fds w := (Some (replicate (length fds) true), w);
  net_getaddrinfo _ _ _ w := (Some (2 :: replicate 15 0), w);
  net_sockaddr_in _ := 2 :: replicate 15 0;
  net_malloc n w := (Live (replicate (Z.to_nat n) 0), w);
  net_realloc b n w := (if n <? 64 then Some (sim_realloc b n) else None, w);
}.

Lemma sim_write_law b n :
  match b with
  | Live l => (exists l', (sim_write b n).2 = Live l' /\ length l' = length l) /\
              (forall k, (sim_write b n).1 = Some k -> 0 <= k <= n)
  | _ => (sim_write b n).1 = None /\ (sim_write b n).2 = b
  end.
Proof.
  destruct b as [|l|]; [done| |done]. split.
  - exists (take (length l) ([7; 8; 9] ++ drop 3 l)). split; [done|].
    rewrite length_take, length_app, length_drop. cbn [length]. lia.
  - intros k. cbn. destruct (Z.leb_spec 3 n); [|done]. intros [= <-]. lia.
Qed.

Lemma sim_realloc_length b n : length (sim_realloc b n) = Z.to_nat n.
Proof. unfold sim_realloc. rewrite length_take, length_app, length_replicate. lia. Qed.

#[export] Program Instance sim_net_laws : NetLaws script := { fd_open _ _ := True }.
Next Obligation. done. Qed.
Next Obligation. done. Qed.
Next Obligation. done. Qed.
Next Obligation. intros fd w r w' [= <- _] _. done. Qed.
Next Obligation.
  intros fd b n w r b' w' E. cbn in E. injection E as E _.
  pose proof (sim_write_law b n) as Hl. by rewrite E in Hl.
Qed.
Next Obligation.
  intros fd b n a w r b' a' w' E. cbn in E. injection E as E _ _.
  pose proof (sim_write_law b n) as Hl. by rewrite E in Hl.
Qed.
Next Obligation.
  intros n w b w' [= <- _]. right. eexists. split; [done|]. by rewrite length_replicate.
Qed.
Next Obligation.
  intros b n w l w' E. cbn in E. destruct (n <? 64); [|done]. injection E as <- _.
  apply sim_realloc_length.
Qed.
Next Obligation. intros h p v w l w' [= <- _]. cbn. lia. Qed.
Next Obligation. intros fds w l w' [= <- _]. by rewrite length_replicate. Qed.

(** ** Reached states *)

Definition run_ops (l : list op) : M (udp script) unit :=
  fold_right (fun o k => do! run_op o in k) (ret tt) l.

Definition state_after (l : list op) (w : script) : udp script :=
  match run_ops l (UDPPool_init w) with
  | Ok (_, s) => s
  | _ => UDPPool_init w
  end.

Lemma run_ops_pool_ok l s s' : pool_ok s -> run_ops l s = Ok (tt, s') -> pool_ok s'.
Proof.
  revert s. induction l as [|o l IH]; intros s Hp; cbn; [by intros [= <-]|].
  unfold bind at 1. destruct (run_op o s) as [[[] s1]| |] eqn:E; [|done..].
  apply IH. by eapply (keeps_op o).
Qed.

Lemma state_after_ok l w : pool_ok (state_after l w).
Proof.
  unfold state_after. destruct (run_ops l _) as [[[] s]| |] eqn:E;
    [|apply pool_ok_init..]. eapply run_ops_pool_ok; [apply pool_ok_init|done].
Qed.

(** A connection on slot 0, and the same after a packet that had to wait. *)
Definition connected (w : script) : udp script := state_after [Create [104] [49] true] w.
Definition waiting (w : script) : udp script :=
  state_after [Create [104] [49] true; Send 0 [1; 2; 3]] w.

Definition conn_at (s : udp script) (k : nat) : ConnectionData :=
  default ConnectionData0 (conns_ s !! k).

Definition packet_at (s : udp script) (k : nat) : PacketData :=
  default PacketData0 (packets s !! k).

(** A packet of three bytes had to wait in slot 0 and was sent; one of 64
    bytes had to wait there next, and found no memory. *)
Definition lost_ops : list op :=
  [Create [104] [49] true; Send 0 [1; 2; 3]; Update; Send 0 (replicate 64 0); Update].
Definition lost_slot : udp script := state_after lost_ops [WouldBlock; Done 3; WouldBlock; WouldBlock].

(** The next packet that has to wait is copied to a null pointer. *)
Example lost_slot_send : send 0 [4; 5] lost_slot = Fault.
Proof. vm_compute. reflexivity. Qed.

(** ** Runs *)

Lemma queue_packet_witness :
  (let s := waiting [WouldBlock; WouldBlock] in
   window s = [Some (Some [1; 2; 3], None)] /\
   wp (queue_packet None [4; 5]) (queued s (packet_at s 1) None [4; 5]) s) /\
  (let s := waiting [WouldBlock; WouldBlock] in
   let big := replicate 64 0 in
   wp (queue_packet None big) (queued s (packet_at s 1) None big) s /\
   (make_room (packet_at s 1) big (net s)).1 = false) /\
  queue_packet None [4; 5] lost_slot = Fault.
Proof.
  split; [|split].
  - intros s. split; [vm_compute; reflexivity|].
    apply (queue_packet_refines None [4; 5] (packet_at s 1) s); [|vm_compute; reflexivity].
    apply p_queue, state_after_ok.
  - intros s big. split; [|vm_compute; reflexivity].
    apply (queue_packet_refines None big (packet_at s 1) s); [|vm_compute; reflexivity].
    apply p_queue, state_after_ok.
  - assert (Hn : null_copy (data (packet_at lost_slot 0)) (max_len (packet_at lost_slot 0)) [4; 5] = true)
      by (vm_compute; reflexivity).
    pose proof (queue_packet_refines None [4; 5] (packet_at lost_slot 0) lost_slot) as Hr.
    rewrite Hn in Hr. apply Hr; [|vm_compute; reflexivity]. apply p_queue, state_after_ok.
Defined.

Lemma try_flush_queue_witness :
  let s := waiting [WouldBlock; WouldBlock] in
  wp (try_flush_queue 0) (flush_result s 0 (conn_at s 0)) s.
Proof.
  intros s. apply (try_flush_queue_refines 0 (conn_at s 0) s); [|lia|vm_compute; reflexivity..].
  apply p_queue, state_after_ok.
Defined.


Lemma send_witness :
  (let s := waiting [WouldBlock; Done 3; Failed] in
   wpf (send 0 [4]) (null_slot s [4])
     (sent s 0 (conn_at s 0) (fun fd => net_send fd (Some [4])) None [4]) s) /\
  null_slot lost_slot [4; 5].
Proof.
  split; [intros s|].
  - apply (send_correct 0 (conn_at s 0) [4] s); [apply state_after_ok|lia|vm_compute; reflexivity|].
    split; vm_compute; reflexivity.
  - enough (wpf (send 0 [4; 5]) (null_slot lost_slot [4; 5])
       (sent lost_slot 0 (conn_at lost_slot 0) (fun fd => net_send fd (Some [4; 5])) None [4; 5])
       lost_slot) as Hw by (unfold wpf in Hw; rewrite lost_slot_send in Hw; exact Hw).
    apply (send_correct 0 (conn_at lost_slot 0) [4; 5] lost_slot);
      [apply state_after_ok|lia|vm_compute; reflexivity|split; vm_compute; reflexivity].
Defined.

Lemma recv_witness :
  let s := connected [] in let c := conn_at s 0 in
  wp (recv 0) (fun b s' => pool_ok s' /\ exists c', at_conn s 0 c' s' /\ received c c' b /\
    (b = true -> exists b0 n w, net_recv (socket c) b0 n w =
                   ((Some (data_len c'), recv_buffer c'), net s'))) s.
Proof.
  intros s c. apply (recv_correct 0 c s);
    [apply state_after_ok|lia|vm_compute; reflexivity|split; vm_compute; reflexivity].
Defined.

Lemma udp_create_witness :
  let s := connected [] in
  wp (create [104] [50] false) (fun i s' => pool_ok s' /\
    (free_indices_ s = [] /\ i = MAX_CONNECTIONS /\ s' = s \/
     opened s i s' /\ ((exists c', conns_ s' !! Z.to_nat i = Some c' /\ state c' = ACTIVE) \/
                      (forall fuel, close (S fuel) i s' = Ok (tt, s'))))) s.
Proof. intros s. apply (udp_create_correct [104] [50] false s), state_after_ok. Defined.

(** The descriptor of the connection on slot 0 is 5: closing it looks at slot
    5, which is free here.  Once six connections are open, slot 5 has its own
    number as its descriptor. *)
Lemma close_witness :
  let s := connected [] in
  exists s', close 2 0 s = Ok (tt, s') /\ net s' = net s /\
    conns_ s' = reset_all [0] (conns_ s) /\ free_indices_ s' = free_indices_ s ++ [0].
Proof.
  intros s. apply (close_correct 0 [0] 2 s); [|cbn; lia].
  eapply (chain_next _ 0 (conn_at s 0));
    [lia|vm_compute; reflexivity|vm_compute; discriminate|vm_compute; discriminate|].
  replace (u32 (socket (conn_at s 0))) with 5 by (vm_compute; reflexivity).
  eapply (chain_free _ _ (conn_at s 5)); [lia|vm_compute; reflexivity|vm_compute; reflexivity].
Defined.

Lemma close_diverges_witness :
  close 9 5 (state_after (replicate 6 (Create [104] [49] true)) []) = NoFuel.
Proof.
  set (s := state_after _ _).
  apply (close_diverges 5 (conn_at s 5) s 9); [done|vm_compute; reflexivity|vm_compute; discriminate|].
  vm_compute. reflexivity.
Defined.
