(* ===== verification/Https.v ===== *)
(** * The HTTPS request pool

    [network/include/https.h] and [network/src/https.cpp]: [RequestPool], a
    table of 512 requests with a list of free indices, a rotating array of
    libcurl handles and two byte vectors, [urls] and [responses], that all
    requests share.  libcurl is the interface [Curl] over an abstract world:
    it calls [write_cb] back during [curl_multi_perform]. *)

From stdpp Require Import base list numbers.
From S2P Require Import Prelude.

(** ** Data (https.h) *)

Definition MAX_CONCURRENT_REQUESTS : Z := 512.
Definition REQUEST_TIMEOUT_MS : Z := 30000.

Inductive HTTPS_STATE := FREE | PENDING | COMPLETE | STATE_ERROR.
Inductive HTTPS_METHOD := GET | POST | PUT | DELETE | HEAD | OPTIONS.
Inductive ERROR :=
| NONE | INVALID_URL | CONNECTION_FAILED | TIMEOUT | OUT_OF_MEMORY | SSL_ERROR
| NETWORK_ERROR | INTERNAL_ERROR.

#[export] Instance HTTPS_STATE_eq_dec : EqDecision HTTPS_STATE.
Proof. solve_decision. Defined.
#[export] Instance ERROR_eq_dec : EqDecision ERROR.
Proof. solve_decision. Defined.

Record RequestHandle := { index : Z; generation : Z }.

(** [CURL *]: the null pointer is 0. *)
Record RequestData := {
  state : HTTPS_STATE;
  error : ERROR;
  status_code : Z;
  url_offset : Z;
  url_length : Z;
  data_offset : Z;
  data_length : Z;
  curl : Z;
}.

Definition RequestData0 : RequestData :=
  {| state := FREE; error := NONE; status_code := 0; url_offset := 0; url_length := 0;
     data_offset := 0; data_length := 0; curl := 0 |}.

Definition set_state v r := {| state := v; error := error r; status_code := status_code r;
  url_offset := url_offset r; url_length := url_length r; data_offset := data_offset r;
  data_length := data_length r; curl := curl r |}.
Definition set_error v r := {| state := state r; error := v; status_code := status_code r;
  url_offset := url_offset r; url_length := url_length r; data_offset := data_offset r;
  data_length := data_length r; curl := curl r |}.
Definition set_data_length v r := {| state := state r; error := error r;
  status_code := status_code r; url_offset := url_offset r; url_length := url_length r;
  data_offset := data_offset r; data_length := v; curl := curl r |}.

(** ** libcurl *)

(** The result codes the code tells apart. *)
Inductive CURLcode :=
| CURLE_OK | CURLE_URL_MALFORMAT | CURLE_COULDNT_CONNECT | CURLE_OPERATION_TIMEDOUT
| CURLE_OUT_OF_MEMORY | CURLE_SSL_CONNECT_ERROR | CURLE_COULDNT_RESOLVE_HOST
| CURLE_OTHER (n : Z).

(** The options the code sets.  [CURLOPT_WRITEDATA] is the request's index.
    [CURLOPT_WRITEFUNCTION] is always [write_cb]; the code passes the name of a
    non-static member, which no compiler takes as a function pointer, and the
    model assumes what is meant: a callback reaches [write_cb] of the pool. *)
Inductive curl_opt :=
| OPT_URL (url : list Z)
| OPT_WRITEFUNCTION
| OPT_WRITEDATA (req : Z)
| OPT_TIMEOUT_MS (ms : Z)
| OPT_FOLLOWLOCATION (b : Z)
| OPT_SSL_VERIFYPEER (b : Z)
| OPT_SSL_VERIFYHOST (b : Z)
| OPT_HTTPHEADER (headers : list (list Z))
| OPT_POSTFIELDS (data : list Z)
| OPT_POSTFIELDSIZE (n : Z).

(** A message of [curl_multi_info_read]: whether it is [CURLMSG_DONE], the
    easy handle, the result. *)
Record CURLMsg := { msg_done : bool; easy_handle : Z; result : CURLcode }.

(** The calls; those on the multi handle take it first, and a null one makes
    them fail.  [curl_perform] returns the write callbacks it makes, each with
    the user data of its handle and a chunk.  [after_urls] is the memory that
    follows the elements of the vector [urls], up to the next NUL. *)
Class Curl (W : Type) := {
  curl_global_init : W -> W;
  curl_global_cleanup : W -> W;
  curl_easy_init : W -> Z * W;
  curl_easy_cleanup : Z -> W -> W;
  curl_easy_reset : Z -> W -> W;
  curl_easy_setopt : Z -> curl_opt -> W -> W;
  curl_multi_init : W -> Z * W;
  curl_multi_add : Z -> Z -> W -> W;
  curl_multi_remove : Z -> Z -> W -> W;
  curl_multi_cleanup : Z -> W -> W;
  curl_perform : Z -> W -> list (Z * list Z) * W;
  curl_info_read : Z -> W -> option CURLMsg * W;
  after_urls : list Z -> W -> list Z;
}.

(** ** The pool *)

Record pool (W : Type) := {
  requests : list RequestData;
  free_indices : list Z;
  urls : list Z;
  responses : list Z;
  multi_handle : Z;
  gen : Z;
  active_count : Z;
  curl_handles : list Z;
  next_curl_handle : Z;
  world : W;
}.
Arguments Build_pool {W}.
Arguments requests {W}.
Arguments free_indices {W}.
Arguments urls {W}.
Arguments responses {W}.
Arguments multi_handle {W}.
Arguments gen {W}.
Arguments active_count {W}.
Arguments curl_handles {W}.
Arguments next_curl_handle {W}.
Arguments world {W}.

Section Setters.
Context {W : Type}.
Implicit Types s : pool W.

Definition with_requests v s := Build_pool v (free_indices s) (urls s) (responses s)
  (multi_handle s) (gen s) (active_count s) (curl_handles s) (next_curl_handle s) (world s).
Definition with_free v g s := Build_pool (requests s) v (urls s) (responses s)
  (multi_handle s) g (active_count s) (curl_handles s) (next_curl_handle s) (world s).
Definition with_urls v s := Build_pool (requests s) (free_indices s) v (responses s)
  (multi_handle s) (gen s) (active_count s) (curl_handles s) (next_curl_handle s) (world s).
Definition with_responses v s := Build_pool (requests s) (free_indices s) (urls s) v
  (multi_handle s) (gen s) (active_count s) (curl_handles s) (next_curl_handle s) (world s).
Definition with_multi v s := Build_pool (requests s) (free_indices s) (urls s) (responses s)
  v (gen s) (active_count s) (curl_handles s) (next_curl_handle s) (world s).
Definition with_active v s := Build_pool (requests s) (free_indices s) (urls s) (responses s)
  (multi_handle s) (gen s) v (curl_handles s) (next_curl_handle s) (world s).
Definition with_handles v s := Build_pool (requests s) (free_indices s) (urls s) (responses s)
  (multi_handle s) (gen s) (active_count s) v (next_curl_handle s) (world s).
Definition with_next v s := Build_pool (requests s) (free_indices s) (urls s) (responses s)
  (multi_handle s) (gen s) (active_count s) (curl_handles s) v (world s).
Definition with_world (v : W) s := Build_pool (requests s) (free_indices s) (urls s) (responses s)
  (multi_handle s) (gen s) (active_count s) (curl_handles s) (next_curl_handle s) v.
End Setters.

Section Https.
Context {W : Type} `{Curl W}.

Definition sys (f : W -> W) : M (pool W) unit := modify (fun s => with_world (f (world s)) s).

(** A call on [multi_handle]. *)
Definition sys_multi (f : Z -> W -> W) : M (pool W) unit :=
  modify (fun s => with_world (f (multi_handle s) (world s)) s).

(** [requests[i]], unchecked. *)
Definition get_req (i : Z) : M (pool W) RequestData :=
  fun s => if i <? 0 then Fault
           else match requests s !! Z.to_nat i with
                | Some r => Ok (r, s)
                | None => Fault
                end.

Definition upd_req (i : Z) (f : RequestData -> RequestData) : M (pool W) unit :=
  let! r := get_req i in
  modify (fun s => with_requests (<[Z.to_nat i := f r]> (requests s)) s).

(** The indices of the free requests, in order. *)
Definition free_of (l : list RequestData) : list Z :=
  omap (fun p => if decide (state p.2 = FREE) then Some (Z.of_nat p.1) else None)
       (zip (seq 0 (length l)) l).

(** [free_indices.back()] of an empty vector is undefined. *)
Definition alloc_slot : M (pool W) Z :=
  do! modify (fun s =>
    if decide (free_indices s = []) then with_free (free_of (requests s)) (u32 (gen s + 1)) s else s) in
  let! l := gets free_indices in
  match list.last l with
  | None => fault
  | Some i => do! modify (fun s => with_free (removelast l) (gen s) s) in ret i
  end.

Definition free_slot (i : Z) : M (pool W) unit :=
  do! upd_req i (set_state FREE) in
  modify (fun s => with_free (free_indices s ++ [i]) (gen s) s).

Definition valid_handle (h : RequestHandle) : M (pool W) bool :=
  if negb (index h <? MAX_CONCURRENT_REQUESTS) then ret false
  else
    let! g := gets gen in
    if negb (generation h =? g) then ret false
    else
      let! r := get_req (index h) in
      ret (bool_decide (state r <> FREE)).

(** A C string: the bytes before the first NUL. *)
Fixpoint c_string (l : list Z) : list Z :=
  match l with
  | [] => []
  | c :: l => if c =? 0 then [] else c :: c_string l
  end.

Definition init_curl_handle (h req : Z) : M (pool W) unit :=
  do! sys (curl_easy_reset h) in
  let! r := get_req req in
  let! u := gets urls in
  let! tail := gets (fun s => after_urls (urls s) (world s)) in
  do! sys (curl_easy_setopt h (OPT_URL (c_string (drop (Z.to_nat (url_offset r)) u ++ tail)))) in
  do! sys (curl_easy_setopt h OPT_WRITEFUNCTION) in
  do! sys (curl_easy_setopt h (OPT_WRITEDATA req)) in
  do! sys (curl_easy_setopt h (OPT_TIMEOUT_MS REQUEST_TIMEOUT_MS)) in
  do! sys (curl_easy_setopt h (OPT_FOLLOWLOCATION 1)) in
  do! sys (curl_easy_setopt h (OPT_SSL_VERIFYPEER 1)) in
  sys (curl_easy_setopt h (OPT_SSL_VERIFYHOST 2)).

Definition create (url : list Z) (method : HTTPS_METHOD) : M (pool W) RequestHandle :=
  let! i := alloc_slot in
  let! offset := gets (fun s => Z.of_nat (length (urls s))) in
  do! modify (fun s => with_urls (urls s ++ url) s) in
  let! next := gets next_curl_handle in
  let! handles := gets curl_handles in
  match handles !! Z.to_nat next with
  | None => fault
  | Some h =>
      do! upd_req i (fun _ =>
        {| state := PENDING; error := NONE; status_code := 0;
           url_offset := u32 offset; url_length := u32 (Z.of_nat (length url));
           data_offset := 0; data_length := 0; curl := h |}) in
      do! modify (with_next (let n := u32 (next + 1) in
                             if MAX_CONCURRENT_REQUESTS <=? n then 0 else n)) in
      do! init_curl_handle h i in
      let! g := gets gen in
      ret {| index := i; generation := g |}
  end.

(** ** Options and start *)

Definition with_valid (h : RequestHandle) (k : RequestData -> M (pool W) unit) : M (pool W) unit :=
  let! b := valid_handle h in
  if negb b then ret tt else let! r := get_req (index h) in k r.

Definition set_headers (h : RequestHandle) (headers : list (list Z)) : M (pool W) unit :=
  with_valid h (fun r => sys (curl_easy_setopt (curl r) (OPT_HTTPHEADER headers))).

Definition set_post_data (h : RequestHandle) (data : list Z) : M (pool W) unit :=
  with_valid h (fun r =>
    do! sys (curl_easy_setopt (curl r) (OPT_POSTFIELDS data)) in
    sys (curl_easy_setopt (curl r) (OPT_POSTFIELDSIZE (Z.of_nat (length data))))).

Definition start (h : RequestHandle) : M (pool W) unit :=
  with_valid h (fun r =>
    do! sys_multi (fun m => curl_multi_add m (curl r)) in
    modify (fun s => with_active (u32 (active_count s + 1)) s)).

Definition start_batch (handles : list RequestHandle) : M (pool W) unit :=
  fold_right (fun h k => do! start h in k) (ret tt) handles.

(** ** Progress *)

Definition curl_to_error (code : CURLcode) : ERROR :=
  match code with
  | CURLE_OK => NONE
  | CURLE_URL_MALFORMAT => INVALID_URL
  | CURLE_COULDNT_CONNECT => CONNECTION_FAILED
  | CURLE_OPERATION_TIMEDOUT => TIMEOUT
  | CURLE_OUT_OF_MEMORY => OUT_OF_MEMORY
  | CURLE_SSL_CONNECT_ERROR => SSL_ERROR
  | CURLE_COULDNT_RESOLVE_HOST => NETWORK_ERROR
  | _ => INTERNAL_ERROR
  end.

(** [responses.insert(begin + data_offset + data_length, chunk)]; the
    position must lie in the vector. *)
Definition write_cb (req : Z) (chunk : list Z) : M (pool W) unit :=
  let! r := get_req req in
  let! resp := gets responses in
  let pos := data_offset r + data_length r in
  if Z.of_nat (length resp) <? pos then fault
  else
    do! modify (with_responses (take (Z.to_nat pos) resp ++ chunk ++ drop (Z.to_nat pos) resp)) in
    upd_req req (set_data_length (u32 (data_length r + Z.of_nat (length chunk)))).

(** The first request that uses the handle of a finished transfer. *)
Definition owner (l : list RequestData) (h : Z) : option nat :=
  fst <$> list_find (fun r => curl r = h) l.

Definition finish (m : CURLMsg) : M (pool W) unit :=
  if negb (msg_done m) then ret tt
  else
    let! l := gets requests in
    match owner l (easy_handle m) with
    | None => ret tt
    | Some k =>
        let i := Z.of_nat k in
        match result m with
        | CURLE_OK => do! upd_req i (set_state COMPLETE) in
                      do! sys_multi (fun mh => curl_multi_remove mh (easy_handle m)) in
                      modify (fun s => with_active (u32 (active_count s - 1)) s)
        | code => do! upd_req i (set_state STATE_ERROR) in
                  do! upd_req i (set_error (curl_to_error code)) in
                  do! sys_multi (fun mh => curl_multi_remove mh (easy_handle m)) in
                  modify (fun s => with_active (u32 (active_count s - 1)) s)
        end
    end.

Definition run_callbacks (l : list (Z * list Z)) : M (pool W) unit :=
  fold_right (fun p k => do! write_cb p.1 p.2 in k) (ret tt) l.

Definition update (fuel : nat) : M (pool W) unit :=
  let! mh := gets multi_handle in
  let! w := gets world in
  let '(calls, w') := curl_perform mh w in
  do! modify (with_world w') in
  do! run_callbacks calls in
  loop fuel (fun _ =>
    let! w := gets world in
    let '(msg, w') := curl_info_read mh w in
    do! modify (with_world w') in
    match msg with
    | None => ret (inr tt)
    | Some m => do! finish m in ret (inl tt)
    end) tt.

(** ** Queries *)

Definition get_state (h : RequestHandle) : M (pool W) HTTPS_STATE :=
  let! b := valid_handle h in
  if b : bool then let! r := get_req (index h) in ret (state r) else ret STATE_ERROR.

Definition get_error (h : RequestHandle) : M (pool W) ERROR :=
  let! b := valid_handle h in
  if b : bool then let! r := get_req (index h) in ret (error r) else ret INTERNAL_ERROR.

Definition get_status_code (h : RequestHandle) : M (pool W) Z :=
  let! b := valid_handle h in
  if b : bool then let! r := get_req (index h) in ret (status_code r) else ret 0.

(** Reading the span outside the vector is undefined. *)
Definition get_response (h : RequestHandle) : M (pool W) (list Z) :=
  let! b := valid_handle h in
  if negb b then ret []
  else
    let! r := get_req (index h) in
    let! resp := gets responses in
    if Z.of_nat (length resp) <? data_offset r + data_length r then fault
    else ret (take (Z.to_nat (data_length r)) (drop (Z.to_nat (data_offset r)) resp)).

Fixpoint update_batch (fuel : nat) (handles : list RequestHandle) : M (pool W) unit :=
  match handles with
  | [] => ret tt
  | h :: handles =>
      let! st := get_state h in
      if decide (st = PENDING) then update fuel else update_batch fuel handles
  end.

(** ** Construction *)

Definition empty_pool (w : W) : pool W :=
  {| requests := replicate (Z.to_nat MAX_CONCURRENT_REQUESTS) RequestData0;
     free_indices := []; urls := []; responses := []; multi_handle := 0; gen := 0; active_count := 0;
     curl_handles := replicate (Z.to_nat MAX_CONCURRENT_REQUESTS) 0;
     next_curl_handle := 0; world := w |}.

(** The loop of the constructor fills the free list from 511 down to 0. *)
Definition RequestPool : M (pool W) unit :=
  do! sys curl_global_init in
  let! w := gets world in
  let '(m, w') := curl_multi_init w in
  do! modify (with_world w') in
  do! modify (with_multi m) in
  for_ 0 MAX_CONCURRENT_REQUESTS (fun i =>
    do! modify (fun s => with_free (free_indices s ++ [MAX_CONCURRENT_REQUESTS - i - 1]) (gen s) s) in
    let! w := gets world in
    let '(h, w') := curl_easy_init w in
    do! modify (with_world w') in
    modify (fun s => with_handles (<[Z.to_nat i := h]> (curl_handles s)) s)).

Definition RequestPool_destroy : M (pool W) unit :=
  let! l := gets curl_handles in
  do! fold_right (fun h k => do! (if h =? 0 then ret tt else sys (curl_easy_cleanup h)) in k)
        (ret tt) l in
  let! m := gets multi_handle in
  do! (if m =? 0 then ret tt else sys (curl_multi_cleanup m)) in
  sys curl_global_cleanup.
End Https.
