(* ===== verification/NetErrors.v ===== *)
(** * Texts of the network errors

    [util::error_string] of [network/src/udp.cpp] and of
    [network/src/https.cpp], and [util::is_success]. *)

From stdpp Require Import base numbers.
From Stdlib Require Import String.
From S2P Require Import Prelude Udp Https.

Open Scope string_scope.

Module UdpErrors.
Definition error_string (e : Udp.ERROR) : string :=
  match e with
  | Udp.NONE => "No error"
  | Udp.SOCKET_CREATION_FAILED => "Failed to create socket"
  | Udp.SEND_FAILED => "Failed to send packet"
  | Udp.BIND_FAILED => "Failed to bind socket"
  | Udp.CONNECT_FAILED => "Failed to connect"
  | Udp.ASYNCIFY_FAILED => "Failed to make socket non-blocking"
  | Udp.GETADDRINFO_FAILED => "Failed to resolve address"
  | Udp.RECV_FAILED => "Failed to receive packet"
  | Udp.POLL_FAILED => "Failed to poll sockets"
  | Udp.FAILED_TO_READ_IO_LEN => "Failed to read IO length"
  | Udp.INVALID_ADDR => "Invalid address"
  end.

(** Distinct errors have distinct texts. *)
Lemma udp_error_string_inj e1 e2 : error_string e1 = error_string e2 -> e1 = e2.
Proof. destruct e1, e2; cbn; congruence. Qed.
End UdpErrors.

Module HttpsErrors.
Definition error_string (e : Https.ERROR) : string :=
  match e with
  | Https.NONE => "No error"
  | Https.INVALID_URL => "Invalid URL"
  | Https.CONNECTION_FAILED => "Connection failed"
  | Https.TIMEOUT => "Request timed out"
  | Https.OUT_OF_MEMORY => "Out of memory"
  | Https.SSL_ERROR => "SSL error"
  | Https.NETWORK_ERROR => "Network error"
  | Https.INTERNAL_ERROR => "Internal error"
  end.

Definition is_success (code : Z) : bool := ((200 <=? code) && (code <? 300))%Z.

Lemma https_error_string_inj e1 e2 : error_string e1 = error_string e2 -> e1 = e2.
Proof. destruct e1, e2; cbn; congruence. Qed.
End HttpsErrors.
