(* ===== verification/HttpsPool.v ===== *)
(** * Requests of the HTTPS pool

    Contracts of [RequestPool]: slots, handles, the states of a request, the
    shared response vector, and the invariant of every reachable pool. *)

From stdpp Require Import base list numbers sets.
From S2P Require Import Prelude Https.

(** The messages left to read: reading takes one, removing a handle adds
    none, which is what makes the loop of [update] end; a message names a
    handle, never the null pointer. *)
Class CurlLaws (W : Type) `{Curl W} := {
  msgs_left : W -> nat;
  info_read_law mh w m w' : curl_info_read mh w = (Some m, w') ->
    (msgs_left w' < msgs_left w)%nat /\ easy_handle m <> 0;
  remove_law mh h w : (msgs_left (curl_multi_remove mh h w) <= msgs_left w)%nat;
}.

Section Pool.
Context {W : Type} `{Curl W}.
Implicit Types s : pool W.

Definition req_ok s (r : RequestData) : Prop :=
  (state r = FREE -> curl r = 0) /\
  status_code r = 0 /\ data_offset r = 0 /\ 0 <= data_length r <= Z.of_nat (length (responses s)).

(** The free list is exactly the requests in state [FREE], and neither the
    generation nor a status code ever moves. *)
Record pool_ok s : Prop := {
  h_requests : length (requests s) = Z.to_nat MAX_CONCURRENT_REQUESTS;
  h_nodup : NoDup (free_indices s);
  h_free : forall i, i ∈ free_indices s <-> 0 <= i < MAX_CONCURRENT_REQUESTS /\
    exists r, requests s !! Z.to_nat i = Some r /\ state r = FREE;
  h_gen : gen s = 0;
  h_each : Forall (req_ok s) (requests s);
  h_handles : length (curl_handles s) = Z.to_nat MAX_CONCURRENT_REQUESTS;
  h_next : 0 <= next_curl_handle s < MAX_CONCURRENT_REQUESTS;
}.

(** ** Symbolic execution *)

Lemma wp_get_req i r (Q : RequestData -> pool W -> Prop) s :
  0 <= i -> requests s !! Z.to_nat i = Some r -> Q r s -> wp (get_req i) Q s.
Proof.
  intros Hi Hr HQ. unfold wp, get_req. destruct (Z.ltb_spec i 0); [lia|]. by rewrite Hr.
Qed.

Lemma wp_upd_req i r f (Q : unit -> pool W -> Prop) s :
  0 <= i -> requests s !! Z.to_nat i = Some r ->
  Q tt (with_requests (<[Z.to_nat i := f r]> (requests s)) s) -> wp (upd_req i f) Q s.
Proof. intros Hi Hr HQ. unfold upd_req. wp_step. by eapply wp_get_req. Qed.

Lemma pool_req s i : pool_ok s -> 0 <= i < MAX_CONCURRENT_REQUESTS ->
  exists r, requests s !! Z.to_nat i = Some r.
Proof.
  intros Hp Hi. apply lookup_lt_is_Some_2. rewrite (h_requests _ Hp).
  unfold MAX_CONCURRENT_REQUESTS in *. lia.
Qed.

(** ** Construction *)

Lemma RequestPool_ok w : wp RequestPool (fun _ s => pool_ok s) (empty_pool w).
Proof.
  unfold RequestPool. wp_step. apply wp_modify. wp_step. apply wp_gets.
  destruct (curl_multi_init _) as [mh w1]. wp_step. apply wp_modify. wp_step. apply wp_modify.
  apply (wp_for (fun i s => 0 <= i <= MAX_CONCURRENT_REQUESTS /\
    requests s = replicate (Z.to_nat MAX_CONCURRENT_REQUESTS) RequestData0 /\
    free_indices s = (fun i => MAX_CONCURRENT_REQUESTS - i - 1) <$> seqZ 0 i /\
    gen s = 0 /\ length (curl_handles s) = Z.to_nat MAX_CONCURRENT_REQUESTS /\
    next_curl_handle s = 0)).
  - split_and!; try done.
  - intros i s Hi (_ & Hr & Hf & Hg & Hh & Hn). wp_step. apply wp_modify. wp_step. apply wp_gets.
    destruct (curl_easy_init _) as [h w']. wp_step. apply wp_modify. apply wp_modify.
    cbn. rewrite length_insert. split_and!; try done; try lia.
    rewrite Hf, seqZ_app, fmap_app by lia. done.
  - intros s. rewrite Z.max_r by done. intros (_ & Hr & Hf & Hg & Hh & Hn). split; try done.
    + rewrite Hr. apply length_replicate.
    + rewrite Hf. apply NoDup_fmap_2; [intros a b; lia|apply NoDup_seqZ].
    + intros i. rewrite Hf, Hr, list_elem_of_fmap. unfold MAX_CONCURRENT_REQUESTS in *. split.
      * intros (j & -> & Hj%elem_of_seqZ). split; [lia|]. exists RequestData0.
        split; [apply lookup_replicate_2; lia|done].
      * intros [Hi _]. exists (512 - i - 1). split; [lia|]. apply elem_of_seqZ. lia.
    + rewrite Hr. apply Forall_replicate. split_and!; try done; cbn; lia.
    + rewrite Hn. unfold MAX_CONCURRENT_REQUESTS. lia.
Qed.

(** ** Handles *)

Lemma valid_handle_ok h r (Q : bool -> pool W -> Prop) s :
  0 <= index h < MAX_CONCURRENT_REQUESTS -> generation h = gen s ->
  requests s !! Z.to_nat (index h) = Some r -> state r <> FREE -> Q true s ->
  wp (valid_handle h) Q s.
Proof.
  intros Hi Hg Hr Hst HQ. unfold valid_handle.
  destruct (Z.ltb_spec (index h) MAX_CONCURRENT_REQUESTS); [|lia]. cbn [negb].
  wp_step. apply wp_gets. rewrite Hg, Z.eqb_refl. cbn [negb]. wp_step.
  eapply wp_get_req; [lia|done|]. apply wp_ret. by rewrite bool_decide_true.
Qed.

(** A handle names a request in use. *)
Definition live s (h : RequestHandle) (r : RequestData) : Prop :=
  0 <= index h < MAX_CONCURRENT_REQUESTS /\ generation h = gen s /\
  requests s !! Z.to_nat (index h) = Some r /\ state r <> FREE.

Lemma get_state_ok h r s : live s h r -> get_state h s = Ok (state r, s).
Proof.
  intros (Hi & Hg & Hr & Hst). apply wp_eq. unfold get_state. wp_step.
  eapply valid_handle_ok; [done|done|done|done|]. wp_step. eapply wp_get_req; [lia|done|]. by apply wp_ret.
Qed.

Lemma get_response_ok h r s :
  live s h r -> 0 <= data_length r -> data_offset r = 0 ->
  data_length r <= Z.of_nat (length (responses s)) ->
  get_response h s = Ok (take (Z.to_nat (data_length r)) (responses s), s).
Proof.
  intros (Hi & Hg & Hr & Hst) Hdl Hdo Hlen. apply wp_eq. unfold get_response. wp_step.
  eapply valid_handle_ok; [done|done|done|done|]. cbn [negb]. wp_step. eapply wp_get_req; [lia|done|].
  wp_step. apply wp_gets. rewrite Hdo, Z.add_0_l.
  destruct (Z.ltb_spec (Z.of_nat (length (responses s))) (data_length r)); [lia|]. by apply wp_ret.
Qed.

(** ** Slots *)

Lemma free_of_nil (l : list RequestData) :
  (forall k r, l !! k = Some r -> state r <> FREE) -> free_of l = [].
Proof.
  intros Hl. unfold free_of. generalize 0%nat.
  induction l as [|r l IH]; intros b; cbn; [done|].
  rewrite decide_False by (by apply (Hl 0%nat)). apply IH. intros k. apply (Hl (S k)).
Qed.

(** When no index is free no request is free either, so the refill finds
    nothing and [back()] reads an empty vector. *)
Lemma alloc_slot_empty s : pool_ok s -> free_indices s = [] -> alloc_slot s = Fault.
Proof.
  intros Hp Hf. unfold alloc_slot, bind, modify, gets. rewrite decide_True by done. cbn.
  rewrite free_of_nil; [done|]. intros k r Hr Hst.
  assert (Hin : Z.of_nat k ∈ free_indices s).
  { apply (h_free _ Hp). pose proof (lookup_lt_Some _ _ _ Hr) as Hk. rewrite (h_requests _ Hp) in Hk.
    unfold MAX_CONCURRENT_REQUESTS in *. split; [lia|]. exists r. by rewrite Nat2Z.id. }
  rewrite Hf in Hin. by apply elem_of_nil in Hin.
Qed.

Lemma request_alloc_slot_ok s l i (Q : Z -> pool W -> Prop) :
  free_indices s = l ++ [i] -> Q i (with_free l (gen s) s) -> wp alloc_slot Q s.
Proof.
  intros Hf HQ. unfold alloc_slot. wp_step. apply wp_modify.
  rewrite decide_False by (rewrite Hf; by destruct l). wp_step. apply wp_gets.
  rewrite Hf, last_snoc, removelast_last. wp_step. apply wp_modify. by apply wp_ret.
Qed.

Lemma c_string_app u v : Forall (fun c => c <> 0) u -> c_string (u ++ v) = u ++ c_string v.
Proof.
  induction 1 as [|c u Hc Hu IH]; cbn; [done|]. destruct (Z.eqb_spec c 0); [done|]. by rewrite IH.
Qed.

(** The calls [init_curl_handle] makes for a request whose URL the C string
    [url] is. *)
Definition init_calls (h req : Z) (url : list Z) (w : W) : W :=
  fold_left (fun w o => curl_easy_setopt h o w)
    [OPT_URL url; OPT_WRITEFUNCTION; OPT_WRITEDATA req; OPT_TIMEOUT_MS REQUEST_TIMEOUT_MS;
     OPT_FOLLOWLOCATION 1; OPT_SSL_VERIFYPEER 1; OPT_SSL_VERIFYHOST 2] (curl_easy_reset h w).

Lemma init_curl_handle_ok h req r s (Q : unit -> pool W -> Prop) :
  0 <= req -> requests s !! Z.to_nat req = Some r ->
  Q tt (with_world (init_calls h req
    (c_string (drop (Z.to_nat (url_offset r)) (urls s) ++ after_urls (urls s) (curl_easy_reset h (world s))))
    (world s)) s) -> wp (init_curl_handle h req) Q s.
Proof.
  intros Hi Hr HQ. unfold init_curl_handle, sys. wp_step. apply wp_modify. wp_step.
  eapply wp_get_req; [done|done|]. wp_step. apply wp_gets. wp_step. apply wp_gets.
  do 6 (wp_step; apply wp_modify). apply wp_modify. by destruct s.
Qed.

(** A free request taken into use. *)
Lemma pool_ok_take s s' l i r :
  pool_ok s -> free_indices s = l ++ [i] -> requests s' = <[Z.to_nat i := r]> (requests s) ->
  free_indices s' = l -> gen s' = gen s -> responses s' = responses s ->
  curl_handles s' = curl_handles s -> 0 <= next_curl_handle s' < MAX_CONCURRENT_REQUESTS ->
  state r <> FREE -> req_ok s r -> pool_ok s'.
Proof.
  intros Hp Hf Hr Hl Hg Hresp Hh Hn Hst Hok.
  assert (Hnd := h_nodup _ Hp). rewrite Hf in Hnd. apply NoDup_app in Hnd as (Hnd & Hni & _).
  assert (Hi : i ∈ free_indices s) by (rewrite Hf; apply elem_of_app; right; by left).
  pose proof (proj1 (h_free _ Hp i) Hi) as (Hir & r0 & Hr0 & _).
  assert (Hreq : forall q, req_ok s q -> req_ok s' q) by (unfold req_ok; by rewrite Hresp).
  split; rewrite ?Hr, ?Hl, ?Hg, ?Hh; try done; [| |apply (h_gen _ Hp)| |apply (h_handles _ Hp)].
  - rewrite length_insert. apply Hp.
  - intros j. destruct (decide (j = i)) as [->|Hne].
    + split; [intros Hj; exfalso; apply (Hni i Hj); by left|].
      rewrite list_lookup_insert_eq by (by eapply lookup_lt_Some).
      intros (_ & r' & [= <-] & Hst'). done.
    + assert (Hj : j ∈ l <-> j ∈ free_indices s).
      { rewrite Hf, elem_of_app, list_elem_of_singleton. tauto. }
      rewrite Hj, (h_free _ Hp). split; intros (Hb & r' & Hr' & Hst'); (split; [done|]); exists r';
        (split; [|done]).
      * by rewrite list_lookup_insert_ne by lia.
      * by rewrite list_lookup_insert_ne in Hr' by lia.
  - apply Forall_insert; [exact (Forall_impl _ _ _ (h_each _ Hp) Hreq)|by apply Hreq].
Qed.

(** The request [create] sets up on the handle [h]. *)
Definition new_request s (url : list Z) (h : Z) : RequestData :=
  {| state := PENDING; error := NONE; status_code := 0;
     url_offset := u32 (Z.of_nat (length (urls s))); url_length := u32 (Z.of_nat (length url));
     data_offset := 0; data_length := 0; curl := h |}.

Lemma request_create_ok url method l i s :
  pool_ok s -> free_indices s = l ++ [i] ->
  wp (create url method) (fun h s' => exists hc, let r := new_request s url hc in
    pool_ok s' /\ h = {| index := i; generation := gen s |} /\ live s' h r /\
    free_indices s' = l /\ requests s' = <[Z.to_nat i := r]> (requests s) /\
    urls s' = urls s ++ url /\
    world s' = init_calls hc i (c_string (drop (Z.to_nat (url_offset r)) (urls s ++ url) ++
      after_urls (urls s ++ url) (curl_easy_reset hc (world s)))) (world s)) s.
Proof.
  intros Hp Hf. unfold create. wp_step.
  eapply request_alloc_slot_ok; [done|]. wp_step. apply wp_gets. wp_step. apply wp_modify.
  wp_step. apply wp_gets. wp_step. apply wp_gets. cbn [with_urls with_free urls curl_handles next_curl_handle].
  assert (Hi : i ∈ free_indices s) by (rewrite Hf; apply elem_of_app; right; by left).
  pose proof (proj1 (h_free _ Hp i) Hi) as (Hir & r0 & Hr0 & Hst0).
  destruct (lookup_lt_is_Some_2 (curl_handles s) (Z.to_nat (next_curl_handle s))) as [h Hh].
  { rewrite (h_handles _ Hp). pose proof (h_next _ Hp). unfold MAX_CONCURRENT_REQUESTS in *. lia. }
  rewrite Hh. fold (new_request s url h). set (r := new_request s url h).
  wp_step. eapply (wp_upd_req i r0 (fun _ => r)); [lia|done|]. wp_step. apply wp_modify.
  assert (Hri : <[Z.to_nat i:=r]> (requests s) !! Z.to_nat i = Some r).
  { apply list_lookup_insert_eq. by eapply lookup_lt_Some. }
  wp_step. eapply (init_curl_handle_ok h i r); [lia|exact Hri|].
  wp_step. apply wp_gets. apply wp_ret. exists h.
  split; [|split_and!; done]. eapply (pool_ok_take s _ l i r); try done; cbn [with_world with_next next_curl_handle].
  - pose proof (wrap_range 32 (next_curl_handle s + 1) ltac:(lia)) as Hw. unfold in_u in Hw.
    unfold MAX_CONCURRENT_REQUESTS. destruct (Z.leb_spec 512 (u32 (next_curl_handle s + 1))); lia.
  - split_and!; try done; cbn; lia.
Qed.

(** C26. [create] gives the last free index; the request is pending with no
    error and empty response, its slice of [urls] is the URL, all other
    requests are untouched.  But the C string passed to libcurl runs on
    past the vector: the URL is followed by whatever memory comes next. *)
Theorem https_create_correct url method l i s :
  pool_ok s -> free_indices s = l ++ [i] -> Z.of_nat (length (urls s ++ url)) < 2 ^ 32 ->
  Forall (fun c => c <> 0) url ->
  wp (create url method) (fun h s' => exists r,
    pool_ok s' /\ h = {| index := i; generation := gen s |} /\ live s' h r /\
    state r = PENDING /\ error r = NONE /\ data_length r = 0 /\
    free_indices s' = l /\ requests s' = <[Z.to_nat i := r]> (requests s) /\
    urls s' = urls s ++ url /\
    take (Z.to_nat (url_length r)) (drop (Z.to_nat (url_offset r)) (urls s')) = url /\
    world s' = init_calls (curl r) i
      (url ++ c_string (after_urls (urls s ++ url) (curl_easy_reset (curl r) (world s)))) (world s)) s.
Proof.
  intros Hp Hf Hlen Hurl. rewrite length_app in Hlen.
  eapply wp_mono; [|by eapply request_create_ok]. intros h s' (hc & Hp' & Hh & Hlive & Hf' & Hr' & Hu' & Hw').
  exists (new_request s url hc).
  assert (Hoff : url_offset (new_request s url hc) = Z.of_nat (length (urls s))).
  { cbn. apply wrap_small. unfold in_u. lia. }
  assert (Hul : url_length (new_request s url hc) = Z.of_nat (length url)).
  { cbn. apply wrap_small. unfold in_u. lia. }
  rewrite Hoff, ?Nat2Z.id, drop_app_length, c_string_app in Hw' by done.
  split_and!; try done. by rewrite Hoff, Hul, !Nat2Z.id, Hu', drop_app_length, take_ge.
Qed.

(** ** Responses *)

Lemma write_cb_ok i r chunk s (Q : unit -> pool W -> Prop) :
  0 <= i -> requests s !! Z.to_nat i = Some r -> req_ok s r ->
  data_length r + Z.of_nat (length chunk) < 2 ^ 32 ->
  let d := Z.to_nat (data_length r) in
  let s1 := with_responses (take d (responses s) ++ chunk ++ drop d (responses s)) s in
  Q tt (with_requests (<[Z.to_nat i := set_data_length (data_length r + Z.of_nat (length chunk)) r]>
          (requests s)) s1) ->
  wp (write_cb i chunk) Q s.
Proof.
  intros Hi Hr (_ & _ & Hdo & Hdl) Hlt d s1 HQ. unfold write_cb. wp_step. eapply wp_get_req; [done|done|].
  wp_step. apply wp_gets. rewrite Hdo, Z.add_0_l.
  destruct (Z.ltb_spec (Z.of_nat (length (responses s))) (data_length r)); [lia|].
  wp_step. apply wp_modify. eapply wp_upd_req; [done|exact Hr|].
  rewrite wrap_small by (unfold in_u; lia). exact HQ.
Qed.

(** C27. While libcurl delivers the chunks of one request, its response
    grows by exactly these chunks, in order. *)
Theorem response_correct h r chunks s :
  live s h r -> req_ok s r ->
  data_length r + Z.of_nat (length (concat chunks)) < 2 ^ 32 ->
  exists old, get_response h s = Ok (old, s) /\
    wp (run_callbacks ((fun c => (index h, c)) <$> chunks))
       (fun _ s' => get_response h s' = Ok (old ++ concat chunks, s')) s.
Proof.
  intros Hl Hok Hlt. exists (take (Z.to_nat (data_length r)) (responses s)).
  split; [destruct Hok as (_ & _ & Hdo & Hdl); apply get_response_ok; done || lia|].
  revert r s Hl Hok Hlt. induction chunks as [|c chunks IH]; intros r s Hl Hok Hlt.
  - apply wp_ret. rewrite app_nil_r. destruct Hok as (_ & _ & Hdo & Hdl). apply get_response_ok; done || lia.
  - destruct Hl as (Hi & Hg & Hr & Hst). pose proof Hok as (_ & Hsc & Hdo & Hdl).
    cbn [concat] in *. rewrite length_app in Hlt. cbn [fmap list_fmap run_callbacks fold_right fst snd].
    wp_step. eapply (write_cb_ok _ r); [lia|done|done|lia|].
    set (d := Z.to_nat (data_length r)). set (r' := set_data_length _ r). set (s' := with_requests _ _).
    assert (Hresp : responses s' = take d (responses s) ++ c ++ drop d (responses s)) by done.
    assert (Hd' : Z.to_nat (data_length r') = (d + length c)%nat) by (cbn; lia).
    assert (Htake : take (Z.to_nat (data_length r')) (responses s') = take d (responses s) ++ c).
    { rewrite Hresp, Hd', app_assoc, take_app_length'; [done|].
      rewrite length_app, length_take. lia. }
    rewrite app_assoc, <- Htake. apply (IH r' s').
    + split_and!; try done; [lia|lia|].
      apply list_lookup_insert_eq. by eapply lookup_lt_Some.
    + split; [by intros ?|]. split; [done|]. split; [done|].
      rewrite Hresp, !length_app, length_take, length_drop. cbn. lia.
    + cbn. lia.
Qed.

(** The responses of different requests share one vector, and every
    [data_offset] is 0: a chunk for a second request is inserted in front of
    the first one's data, whose response then starts with foreign bytes. *)
Theorem responses_mix h1 h2 r1 r2 a b s :
  live s h1 r1 -> live s h2 r2 -> index h1 <> index h2 -> req_ok s r1 -> req_ok s r2 ->
  data_length r1 = 0 -> data_length r2 = 0 ->
  Z.of_nat (length a) < 2 ^ 32 -> Z.of_nat (length b) < 2 ^ 32 ->
  wp (run_callbacks [(index h1, a); (index h2, b)]) (fun _ s' =>
    get_response h2 s' = Ok (b, s') /\
    get_response h1 s' = Ok (take (length a) (b ++ a), s')) s.
Proof.
  intros (Hi1 & Hg1 & Hr1 & Hst1) (Hi2 & Hg2 & Hr2 & Hst2) Hne Hok1 Hok2 Hd1 Hd2 Ha Hb.
  cbn [run_callbacks fold_right fst snd]. wp_step. eapply write_cb_ok; [lia|done|done|lia|].
  rewrite Hd1, Z.add_0_l. cbn [Z.to_nat take drop app].
  wp_step. apply (write_cb_ok _ r2); [lia| | |lia|].
  { cbn. rewrite list_lookup_insert_ne by lia. exact Hr2. }
  { split_and!; try apply Hok2; rewrite Hd2; cbn; lia. }
  rewrite Hd2, Z.add_0_l. cbn [Z.to_nat take drop app]. apply wp_ret.
  set (s' := with_requests _ _).
  assert (Hresp : responses s' = b ++ a ++ responses s) by done.
  split.
  - rewrite (get_response_ok h2 (set_data_length (Z.of_nat (length b)) r2)); cbn -[s'].
    + by rewrite Hresp, Nat2Z.id, take_app_length.
    + split_and!; try done; [lia|lia|]. cbn. apply list_lookup_insert_eq. rewrite length_insert.
      by eapply lookup_lt_Some.
    + lia.
    + apply Hok2.
    + rewrite Hresp, !length_app. lia.
  - rewrite (get_response_ok h1 (set_data_length (Z.of_nat (length a)) r1)); cbn -[s'].
    + rewrite Hresp, Nat2Z.id, app_assoc, take_app_le; [done|]. rewrite length_app. lia.
    + split_and!; try done; [lia|lia|]. cbn. rewrite list_lookup_insert_ne by lia.
      apply list_lookup_insert_eq. by eapply lookup_lt_Some.
    + lia.
    + apply Hok1.
    + rewrite Hresp, !length_app. lia.
Qed.

(** ** Finished transfers *)

Definition finished (code : CURLcode) (r : RequestData) : RequestData :=
  match code with
  | CURLE_OK => set_state COMPLETE r
  | code => set_error (curl_to_error code) (set_state STATE_ERROR r)
  end.

Lemma finish_ok m k r s :
  msg_done m = true -> owner (requests s) (easy_handle m) = Some k ->
  requests s !! k = Some r ->
  finish m s = Ok (tt, with_active (u32 (active_count s - 1))
    (with_world (curl_multi_remove (multi_handle s) (easy_handle m) (world s))
      (with_requests (<[k := finished (result m) r]> (requests s)) s))).
Proof.
  intros Hd Ho Hr. apply wp_eq. unfold finish. rewrite Hd. cbn [negb]. wp_step. apply wp_gets.
  rewrite Ho. assert (Hk : requests s !! Z.to_nat (Z.of_nat k) = Some r) by (by rewrite Nat2Z.id).
  assert (Hlt : (Z.to_nat (Z.of_nat k) < length (requests s))%nat) by (by eapply lookup_lt_Some).
  destruct (result m); (wp_step; eapply wp_upd_req; [lia|exact Hk|]; wp_step);
    [apply wp_modify; apply wp_modify; by rewrite Nat2Z.id|..];
    (eapply wp_upd_req; [lia|by apply list_lookup_insert_eq|]; wp_step; apply wp_modify;
     apply wp_modify; cbn; by rewrite list_insert_insert_eq, Nat2Z.id).
Qed.

(** A finished transfer moves the request that owns the handle to
    [COMPLETE], or to [ERROR] with the translated error, and lowers the
    number of active requests; no other request changes. *)
Theorem finish_correct m k r s :
  msg_done m = true -> owner (requests s) (easy_handle m) = Some k ->
  requests s !! k = Some r ->
  finish m s = Ok (tt, with_active (u32 (active_count s - 1))
    (with_world (curl_multi_remove (multi_handle s) (easy_handle m) (world s))
      (with_requests (<[k := finished (result m) r]> (requests s)) s))).
Proof. apply finish_ok. Qed.

(** ** Reachable pools *)

Local Abbreviation keeps := (preserves pool_ok).

Lemma requests_ok_frame s s' :
  requests s' = requests s -> free_indices s' = free_indices s -> gen s' = gen s ->
  responses s' = responses s -> curl_handles s' = curl_handles s ->
  next_curl_handle s' = next_curl_handle s -> pool_ok s -> pool_ok s'.
Proof.
  intros Hr Hf Hg Hresp Hh Hn Hp. destruct Hp. unfold req_ok in *.
  split; rewrite ?Hr, ?Hf, ?Hg, ?Hh, ?Hn; try done. unfold req_ok. by rewrite Hresp.
Qed.

Lemma keeps_sys f : keeps (sys f).
Proof. apply preserves_modify. intros s. by apply requests_ok_frame. Qed.

Lemma keeps_sys_multi f : keeps (sys_multi f).
Proof. apply preserves_modify. intros s. by apply requests_ok_frame. Qed.

Lemma keeps_get_req i : keeps (get_req i).
Proof.
  intros s r s' Hp E. unfold get_req in E. destruct (i <? 0); [done|].
  destruct (requests s !! Z.to_nat i); [|done]. by injection E as _ <-.
Qed.

(** Replacing a request, free or not as before. *)
Lemma pool_ok_replace s s' k r r' :
  pool_ok s -> requests s !! k = Some r -> requests s' = <[k := r']> (requests s) ->
  free_indices s' = free_indices s -> gen s' = gen s -> curl_handles s' = curl_handles s ->
  next_curl_handle s' = next_curl_handle s ->
  (length (responses s) <= length (responses s'))%nat ->
  req_ok s' r' -> (state r' = FREE <-> state r = FREE) -> pool_ok s'.
Proof.
  intros Hp Hr Hr' Hf Hg Hh Hn Hlen Hok Hst. destruct Hp.
  split; rewrite ?Hr', ?Hf, ?Hg, ?Hh, ?Hn; try done.
  - by rewrite length_insert.
  - intros j. rewrite h_free0. destruct (decide (Z.to_nat j = k)) as [E|Hne].
    + rewrite E, list_lookup_insert_eq by (by eapply lookup_lt_Some). rewrite Hr.
      split; intros (Hb & q & [= <-] & Hq); (split; [done|]); eexists; (split; [done|]); by apply Hst.
    + by rewrite list_lookup_insert_ne by done.
  - apply Forall_insert; [|done]. eapply Forall_impl; [exact h_each0|].
    intros q (? & ? & ? & ?). split_and!; try done; lia.
Qed.

Lemma keeps_with_valid h k : (forall r, keeps (k r)) -> keeps (with_valid h k).
Proof.
  intros Hk. unfold with_valid, valid_handle.
  apply preserves_bind; [|intros b; destruct (negb b); [apply preserves_ret|]].
  - destruct (negb _); [apply preserves_ret|]. apply preserves_bind; [apply preserves_gets|intros g].
    destruct (negb _); [apply preserves_ret|].
    apply preserves_bind; [apply keeps_get_req|intros r; apply preserves_ret].
  - apply preserves_bind; [apply keeps_get_req|done].
Qed.

Lemma keeps_active f : keeps (modify (fun s => with_active (f s) s)).
Proof. apply preserves_modify. intros s. by apply requests_ok_frame. Qed.

Lemma keeps_world w : keeps (modify (with_world w)).
Proof. apply preserves_modify. intros s. by apply requests_ok_frame. Qed.

Lemma keeps_write_cb i chunk : keeps (write_cb i chunk).
Proof.
  intros s [] s' Hp E. unfold write_cb, upd_req, bind, get_req, gets, modify in E.
  destruct (Z.ltb_spec i 0); [done|].
  destruct (requests s !! Z.to_nat i) as [r|] eqn:Hr; [|done].
  pose proof (Forall_lookup_1 _ _ _ _ (h_each _ Hp) Hr) as (Hcf & Hsc & Hdo & Hdl).
  rewrite Hdo, Z.add_0_l in E.
  destruct (Z.ltb_spec (Z.of_nat (length (responses s))) (data_length r)); [lia|].
  cbn [with_responses requests] in E. rewrite Hr in E. injection E as <-.
  set (resp := _ ++ chunk ++ _).
  assert (Hlen : length resp = (length (responses s) + length chunk)%nat).
  { unfold resp. rewrite !length_app, length_take, length_drop. lia. }
  eapply (pool_ok_replace s _ _ r); try done; cbn -[resp]; [lia|].
  split_and!; try done; cbn -[resp]; [by apply wrap_range|].
  pose proof (Z.mod_le (data_length r + Z.of_nat (length chunk)) (2 ^ 32) ltac:(lia) ltac:(lia)).
  unfold wrap. lia.
Qed.

Lemma keeps_finish m : easy_handle m <> 0 -> keeps (finish m).
Proof.
  intros Hm s [] s' Hp E. destruct (msg_done m) eqn:Hd.
  2: { unfold finish in E. rewrite Hd in E. by injection E as <-. }
  destruct (owner (requests s) (easy_handle m)) as [k|] eqn:Ho.
  2: { assert (E' : finish m s = Ok (tt, s)).
       { apply wp_eq. unfold finish. rewrite Hd. cbn [negb]. wp_step. apply wp_gets. rewrite Ho. by apply wp_ret. }
       rewrite E' in E. by injection E as <-. }
  pose proof Ho as Ho'. unfold owner in Ho'. destruct (list_find _ _) as [[k' r]|] eqn:Hfind; [|done].
  injection Ho' as ->. apply list_find_Some in Hfind as (Hr & Hc & _).
  rewrite (finish_ok m k r) in E by done. injection E as <-.
  pose proof (Forall_lookup_1 _ _ _ _ (h_each _ Hp) Hr) as (Hcf & Hsc & Hdo & Hdl).
  assert (Hst : state r <> FREE) by (intros Hst; specialize (Hcf Hst); congruence).
  eapply (pool_ok_replace s _ k r); try done.
  - by destruct (result m).
  - by destruct (result m).
Qed.

Lemma keeps_create url method : keeps (create url method).
Proof.
  intros s h s' Hp E. destruct (decide (free_indices s = [])) as [Hf|Hf].
  - unfold create, bind in E. by rewrite alloc_slot_empty in E.
  - destruct (exists_last Hf) as (l & i & Hl). pose proof (request_create_ok url method l i s Hp Hl) as Hw.
    unfold wp in Hw. rewrite E in Hw. by destruct Hw as (hc & ? & _).
Qed.

(** ** [update] and the state machine *)

Context `{!CurlLaws W}.

Lemma request_keeps_update fuel : keeps (update fuel).
Proof.
  unfold update. apply preserves_bind; [apply preserves_gets|intros mh].
  apply preserves_bind; [apply preserves_gets|intros w].
  destruct (curl_perform mh w) as [calls w1]. apply preserves_bind; [apply keeps_world|intros _].
  apply preserves_bind; [by apply preserves_foldr; intros; apply keeps_write_cb|intros _].
  apply preserves_loop. intros _. apply preserves_bind; [apply preserves_gets|intros w2].
  destruct (curl_info_read mh w2) as [msg w3] eqn:E. apply preserves_bind; [apply keeps_world|intros _].
  destruct msg as [m|]; [|apply preserves_ret]. apply preserves_bind; [|intros; apply preserves_ret].
  apply keeps_finish. by eapply info_read_law.
Qed.

(** The message loop ends: removing handles adds no message. *)
Lemma finish_msgs m s : wp (finish m) (fun _ s' => (msgs_left (world s') <= msgs_left (world s))%nat) s.
Proof.
  destruct (msg_done m) eqn:Hd.
  2: { unfold finish. rewrite Hd. by apply wp_ret. }
  destruct (owner (requests s) (easy_handle m)) as [k|] eqn:Ho.
  2: { unfold finish. rewrite Hd. cbn [negb]. wp_step. apply wp_gets. rewrite Ho. by apply wp_ret. }
  pose proof Ho as Ho'. unfold owner in Ho'. destruct (list_find _ _) as [[k' r]|] eqn:Hfind; [|done].
  injection Ho' as ->. apply list_find_Some in Hfind as (Hr & Hc & _).
  eapply wp_of_eq; [by apply (finish_ok m k r)|]. cbn. apply remove_law.
Qed.

(** C28. [update] returns: if the callbacks libcurl makes are for requests
    of a well-formed pool, its message loop ends after the messages that
    were left, and the pool is well formed again. *)
Theorem update_terminates fuel s :
  pool_ok s -> Forall (fun p => 0 <= p.1 < MAX_CONCURRENT_REQUESTS) (curl_perform (multi_handle s) (world s)).1 ->
  (msgs_left (curl_perform (multi_handle s) (world s)).2 < fuel)%nat ->
  wp (update fuel) (fun _ s' => pool_ok s') s.
Proof.
  intros Hp Hcalls Hfuel. assert (Hret : wp (update fuel) (fun _ _ => True) s).
  2: { unfold wp in *. destruct (update fuel s) as [[[] s']| |] eqn:E; [|done..]. by eapply request_keeps_update. }
  unfold update. wp_step. apply wp_gets. wp_step. apply wp_gets.
  destruct (curl_perform (multi_handle s) (world s)) as [calls w1]. cbn [fst snd] in *.
  wp_step. apply wp_modify. wp_step.
  apply (wp_mono _ (fun _ s' => world s' = w1)).
  - intros _ s1 Hw1. apply (wp_loop_var (fun _ _ => True) (fun _ s => msgs_left (world s)));
      [|done|by rewrite Hw1].
    intros _ s2 _. wp_step. apply wp_gets. destruct (curl_info_read (multi_handle s) (world s2)) as [msg w3] eqn:E.
    wp_step. apply wp_modify. destruct msg as [m|]; [|by apply wp_ret].
    wp_step. eapply wp_mono; [|apply finish_msgs]. intros [] s3 Hs3. apply wp_ret. split; [done|].
    cbn in Hs3. destruct (info_read_law _ _ _ _ E). lia.
  - assert (Hp1 : pool_ok (with_world w1 s)) by by apply (requests_ok_frame s).
    assert (Hw : world (with_world w1 s) = w1) by done.
    generalize dependent (with_world w1 s). clear -Hcalls.
    induction Hcalls as [|[i chunk] calls Hi Hcalls IH]; intros s Hp Hw; [by apply wp_ret|].
    cbn [run_callbacks fold_right fst snd] in *. wp_step.
    assert (Hwp : wp (write_cb i chunk) (fun _ s' => world s' = w1) s).
    { destruct (pool_req s i Hp Hi) as [r Hr].
      pose proof (Forall_lookup_1 _ _ _ _ (h_each _ Hp) Hr) as (_ & _ & Hdo & Hdl).
      unfold write_cb. wp_step. eapply wp_get_req; [lia|done|]. wp_step. apply wp_gets.
      rewrite Hdo. destruct (Z.ltb_spec (Z.of_nat (length (responses s))) (0 + data_length r)); [lia|].
      wp_step. apply wp_modify. by eapply wp_upd_req; [lia|exact Hr|]. }
    unfold wp in Hwp |- *. destruct (write_cb i chunk s) as [[[] s1]| |] eqn:E; [|done..].
    apply IH; [by eapply keeps_write_cb|done].
Qed.

(** The calls a program can make. *)
Inductive op :=
| Create (url : list Z) (method : HTTPS_METHOD)
| Set_headers (h : RequestHandle) (headers : list (list Z))
| Set_post_data (h : RequestHandle) (data : list Z)
| Start (h : RequestHandle)
| Start_batch (hs : list RequestHandle)
| Update (fuel : nat)
| Update_batch (fuel : nat) (hs : list RequestHandle).

Definition run_op (o : op) : M (pool W) unit :=
  match o with
  | Create url m => do! create url m in ret tt
  | Set_headers h l => set_headers h l
  | Set_post_data h d => set_post_data h d
  | Start h => start h
  | Start_batch hs => start_batch hs
  | Update fuel => update fuel
  | Update_batch fuel hs => update_batch fuel hs
  end.

Inductive reachable (w0 : W) : pool W -> Prop :=
| reach_init s : RequestPool (empty_pool w0) = Ok (tt, s) -> reachable w0 s
| reach_step s o s' : reachable w0 s -> run_op o s = Ok (tt, s') -> reachable w0 s'.

Lemma keeps_start h : keeps (start h).
Proof.
  apply keeps_with_valid. intros r.
  apply preserves_bind; [apply keeps_sys_multi|intros; apply (keeps_active (fun s => u32 (active_count s + 1)))].
Qed.

Lemma keeps_update_batch fuel hs : keeps (update_batch fuel hs).
Proof.
  induction hs as [|h hs IH]; cbn [update_batch]; [apply preserves_ret|].
  apply preserves_bind.
  - unfold get_state, valid_handle. apply preserves_bind.
    + destruct (negb _); [apply preserves_ret|]. apply preserves_bind; [apply preserves_gets|intros g].
      destruct (negb _); [apply preserves_ret|].
      apply preserves_bind; [apply keeps_get_req|intros; apply preserves_ret].
    + intros b. destruct b; [|apply preserves_ret].
      apply preserves_bind; [apply keeps_get_req|intros; apply preserves_ret].
  - intros st. destruct (decide (st = PENDING)); [apply request_keeps_update|done].
Qed.

Lemma request_keeps_op o : keeps (run_op o).
Proof.
  destruct o; cbn [run_op].
  - apply preserves_bind; [apply keeps_create|intros; apply preserves_ret].
  - apply keeps_with_valid. intros r. apply keeps_sys.
  - apply keeps_with_valid. intros r. apply preserves_bind; intros; apply keeps_sys.
  - apply keeps_start.
  - apply preserves_foldr. apply keeps_start.
  - apply request_keeps_update.
  - apply keeps_update_batch.
Qed.

Lemma reachable_pool_ok w0 s : reachable w0 s -> pool_ok s.
Proof.
  induction 1 as [s E|s o s' _ IH E]; [|by eapply request_keeps_op].
  pose proof (RequestPool_ok w0) as Hw. unfold wp in Hw. by rewrite E in Hw.
Qed.

(** C8. In every reachable pool the free list is exactly the requests in
    state [FREE] and each response lies inside the shared vector; and a
    request slot is never given back: the generation stays 0, every status
    code stays 0, and once the free list is empty [create] is undefined. *)
Theorem https_reachable_ok w0 s :
  reachable w0 s -> pool_ok s /\
  (forall h, 0 <= index h -> get_status_code h s = Ok (0, s)) /\
  (free_indices s = [] -> forall url method, create url method s = Fault).
Proof.
  intros Hr. apply reachable_pool_ok in Hr as Hp. split; [done|]. split.
  - intros h Hi. unfold get_status_code, valid_handle, bind.
    destruct (Z.ltb_spec (index h) MAX_CONCURRENT_REQUESTS); [|done]. cbn [negb]. unfold gets.
    destruct (negb _); [done|]. unfold get_req. destruct (Z.ltb_spec (index h) 0); [lia|].
    destruct (pool_req s (index h) Hp) as [r E]; [lia|]. rewrite E.
    pose proof (Forall_lookup_1 _ _ _ _ (h_each _ Hp) E) as (_ & Hsc & _).
    unfold ret. destruct (bool_decide _); [|done]. by rewrite E, Hsc.
  - intros Hf url method. unfold create, bind. by rewrite alloc_slot_empty.
Qed.
End Pool.
