(* ===== verification/HttpsSim.v ===== *)
(** * A simulated libcurl

    A concrete libcurl for the request pool: easy handles are numbered, the
    write callbacks and the messages of the next calls of
    [curl_multi_perform] and [curl_multi_info_read] are scripts, and one byte
    of garbage follows the vector of URLs.  It satisfies [CurlLaws], and the
    theorems of HttpsPool.v are run on it. *)

From stdpp Require Import base list numbers.
From S2P Require Import Prelude Https HttpsPool.

Record sim := {
  handles : Z;
  calls : list (Z * list Z);
  msgs : list CURLMsg;
}.

(** Messages name a handle. *)
Definition sim_message (w : sim) : option CURLMsg * sim :=
  match msgs w with
  | m :: l => if easy_handle m =? 0 then (None, w)
              else (Some m, {| handles := handles w; calls := calls w; msgs := l |})
  | [] => (None, w)
  end.

#[export] Instance sim_curl : Curl sim := {
  curl_global_init w := w;
  curl_global_cleanup w := w;
  curl_easy_init w :=
    (handles w + 1, {| handles := handles w + 1; calls := calls w; msgs := msgs w |});
  curl_easy_cleanup _ w := w;
  curl_easy_reset _ w := w;
  curl_easy_setopt _ _ w := w;
  curl_multi_init w := (1000, w);
  curl_multi_add _ _ w := w;
  curl_multi_remove _ _ w := w;
  curl_multi_cleanup _ w := w;
  curl_perform _ w := (calls w, {| handles := handles w; calls := []; msgs := msgs w |});
  curl_info_read _ := sim_message;
  after_urls _ _ := [120; 0];
}.

#[export] Program Instance sim_curl_laws : CurlLaws sim := { msgs_left w := length (msgs w) }.
Next Obligation.
  intros mh w m w'. cbn. unfold sim_message. destruct (msgs w) as [|m1 l] eqn:E; [done|].
  destruct (Z.eqb_spec (easy_handle m1) 0); [done|]. intros [= <- <-]. cbn. split; [lia|done].
Qed.
Next Obligation. done. Qed.

(** ** Reached states *)

Definition run_ops (l : list op) : M (pool sim) unit :=
  fold_right (fun o k => do! run_op o in k) (ret tt) l.

Definition state_after (l : list op) (w : sim) : pool sim :=
  match (do! RequestPool in run_ops l) (empty_pool w) with
  | Ok (_, s) => s
  | _ => empty_pool w
  end.

Definition idle : sim := {| handles := 0; calls := []; msgs := [] |}.

Lemma run_ops_reachable w l s s' :
  reachable w s -> run_ops l s = Ok (tt, s') -> reachable w s'.
Proof.
  revert s. induction l as [|o l IH]; intros s Hs; cbn; [by intros [= <-]|].
  unfold bind at 1. destruct (run_op o s) as [[[] s1]| |] eqn:E; [|done..].
  apply IH. by eapply reach_step.
Qed.

Lemma state_after_reachable l w s :
  (do! RequestPool in run_ops l) (empty_pool w) = Ok (tt, s) -> reachable w s.
Proof.
  unfold bind. destruct (RequestPool (empty_pool w)) as [[[] s1]| |] eqn:E; [|done..].
  by apply run_ops_reachable, reach_init.
Qed.

(** Two requests with the urls [u1] and [u2]; [perform] is what libcurl does
    next. *)
Definition two_requests (calls : list (Z * list Z)) (msgs : list CURLMsg) : pool sim :=
  state_after [Create [117; 49] GET; Create [117; 50] GET]
    {| handles := 0; calls := calls; msgs := msgs |}.

Lemma two_requests_reachable calls msgs :
  reachable {| handles := 0; calls := calls; msgs := msgs |} (two_requests calls msgs).
Proof. apply (state_after_reachable [Create [117; 49] GET; Create [117; 50] GET]). vm_compute. reflexivity. Qed.

Lemma two_requests_ok calls msgs : pool_ok (two_requests calls msgs).
Proof. eapply reachable_pool_ok, two_requests_reachable. Qed.

Definition req_at (s : pool sim) (k : nat) : RequestData :=
  default RequestData0 (requests s !! k).
Definition handle (k : Z) : RequestHandle := {| index := k; generation := 0 |}.

Lemma two_requests_live k calls msgs : k < 2 -> 0 <= k ->
  live (two_requests calls msgs) (handle k) (req_at (two_requests calls msgs) (Z.to_nat k)).
Proof.
  intros Hk Hk'. assert (k = 0 \/ k = 1) as [-> | ->] by lia;
    (split; [vm_compute; split; congruence|split; [vm_compute; reflexivity|]];
     split; [vm_compute; reflexivity|vm_compute; discriminate]).
Qed.

Lemma two_requests_req_ok k calls msgs : k < 2 -> 0 <= k ->
  req_ok (two_requests calls msgs) (req_at (two_requests calls msgs) (Z.to_nat k)).
Proof.
  intros Hk Hk'. apply (Forall_lookup_1 _ (requests (two_requests calls msgs)) (Z.to_nat k));
    [apply h_each, two_requests_ok|]. by apply two_requests_live.
Qed.

(** ** Runs *)

Lemma https_reachable_witness :
  let s := two_requests [(0, [1])] [] in
  pool_ok s /\ (forall h, 0 <= index h -> get_status_code h s = Ok (0, s)) /\
  (free_indices s = [] -> forall url method, create url method s = Fault).
Proof. intros s. eapply https_reachable_ok, two_requests_reachable. Defined.

Lemma response_witness :
  let s := two_requests [] [] in
  exists old, get_response (handle 1) s = Ok (old, s) /\
    wp (run_callbacks ((fun c => (1, c)) <$> [[65; 66]; [67]]))
       (fun _ s' => get_response (handle 1) s' = Ok (old ++ [65; 66; 67], s')) s.
Proof.
  intros s. apply (response_correct (handle 1) (req_at s 1) [[65; 66]; [67]] s);
    [by apply (two_requests_live 1)|by apply (two_requests_req_ok 1)|vm_compute; reflexivity].
Defined.

Lemma responses_mix_witness :
  let s := two_requests [] [] in
  wp (run_callbacks [(0, [65; 66]); (1, [67])]) (fun _ s' =>
    get_response (handle 1) s' = Ok ([67], s') /\
    get_response (handle 0) s' = Ok ([67; 65], s')) s.
Proof.
  intros s. apply (responses_mix (handle 0) (handle 1) (req_at s 0) (req_at s 1) [65; 66] [67] s);
    [by apply (two_requests_live 0)|by apply (two_requests_live 1)|done
    |by apply (two_requests_req_ok 0)|by apply (two_requests_req_ok 1)
    |vm_compute; reflexivity..].
Defined.

Lemma update_witness :
  let s := two_requests [(0, [65; 66]); (1, [67])]
             [{| msg_done := true; easy_handle := 1; result := CURLE_OK |}] in
  wp (update 2) (fun _ s' => pool_ok s') s.
Proof.
  intros s. apply (update_terminates 2 s);
    [apply two_requests_ok| |vm_compute; lia].
  replace (curl_perform (multi_handle s) (world s)).1 with [(0, [65; 66]); (1, [67])]
    by (vm_compute; reflexivity).
  repeat constructor; vm_compute; congruence.
Defined.

Lemma https_create_witness :
  let s := two_requests [] [] in
  wp (create [117; 51] POST) (fun h s' => exists r,
    pool_ok s' /\ h = {| index := 2; generation := gen s |} /\ live s' h r /\
    state r = PENDING /\ error r = NONE /\ data_length r = 0 /\
    free_indices s' = removelast (free_indices s) /\ requests s' = <[2%nat := r]> (requests s) /\
    urls s' = urls s ++ [117; 51] /\
    take (Z.to_nat (url_length r)) (drop (Z.to_nat (url_offset r)) (urls s')) = [117; 51] /\
    world s' = init_calls (curl r) 2
      ([117; 51] ++ c_string (after_urls (urls s ++ [117; 51])
                                (curl_easy_reset (curl r) (world s)))) (world s)) s.
Proof.
  intros s. apply (https_create_correct [117; 51] POST (removelast (free_indices s)) 2 s);
    [apply two_requests_ok|vm_compute; reflexivity|vm_compute; reflexivity|].
  repeat constructor; discriminate.
Defined.
