(* ===== verification/Task.v ===== *)
(** * Tasks

    [concurrency/include/task.h] and [concurrency/src/task.cpp]: a [task] is
    a state, an identifier and a function or thread to run; [execute] runs it
    on the calling thread, under one global non-recursive mutex while the
    flag [serial] is set.  Section [Sequential] models the operations as the
    code writes them, for one thread of control; Section [Interleaving] models
    [execute] and [cancel] as atomic steps of many threads.  Exceptions of
    user functions are not modelled. *)

From stdpp Require Import base list numbers gmap.
From Stdlib Require Import SpecFloat.
From S2P Require Import Prelude.

(** ** Data *)

Inductive type := FUNCTION | THREAD.
Inductive state := CREATED | SUSPENDED | RUNNING | COMPLETED | CANCELLED.

#[export] Instance state_eq_dec : EqDecision state.
Proof. solve_decision. Defined.

(** Durations are [float]s; [static_cast<int>(duration * 1000)] multiplies in
    single precision and truncates, and is undefined outside [int]. *)
Definition float_1000 : spec_float := binary_normalize 24 128 1000 0 false.

Definition truncate (x : spec_float) : option Z :=
  match x with
  | S754_zero _ => Some 0
  | S754_finite s m e =>
      let a := if 0 <=? e then Z.shiftl (Zpos m) e else Z.shiftr (Zpos m) (- e) in
      Some (if s then - a else a)
  | _ => None
  end.

Definition to_ms (duration : spec_float) : option Z :=
  match truncate (SFmul 24 128 duration float_1000) with
  | Some z => if (- 2 ^ 31 <=? z) && (z <? 2 ^ 31) then Some z else None
  | None => None
  end.

(** What the operations share: the identifier counter, the mutex, the flag
    [serial], the threads and whether they are joinable, a clock in
    milliseconds, and the rest of the program. *)
Record globals (W : Type) := {
  next_id : Z;
  locked : bool;
  serial : bool;
  threads : gmap Z bool;
  clock : Z;
  user : W;
}.
Arguments Build_globals {W}.
Arguments next_id {W}.
Arguments locked {W}.
Arguments serial {W}.
Arguments threads {W}.
Arguments clock {W}.
Arguments user {W}.

Section Sequential.
Context {W : Type}.
Local Abbreviation st := (globals W).

Definition set_next_id v (s : st) := Build_globals v (locked s) (serial s) (threads s) (clock s) (user s).
Definition set_locked v (s : st) := Build_globals (next_id s) v (serial s) (threads s) (clock s) (user s).
Definition set_serial v (s : st) := Build_globals (next_id s) (locked s) v (threads s) (clock s) (user s).
Definition set_threads v (s : st) := Build_globals (next_id s) (locked s) (serial s) v (clock s) (user s).
Definition set_clock v (s : st) := Build_globals (next_id s) (locked s) (serial s) (threads s) v (user s).

(** [std::variant<std::function<void()>, std::shared_ptr<std::thread>>]: a
    user function is a program; a thread is a pointer, possibly null. *)
Inductive executable :=
| Function (fn : M st unit)
| Thread (handle : option Z).

Record task := {
  task_state : state;
  id : Z;
  task_type : type;
  execu : executable;
}.

Definition task_with_state v (t : task) : task :=
  {| task_state := v; id := id t; task_type := task_type t; execu := execu t |}.

(** The constructor: [next_id.fetch_add(1)]. *)
Definition new_task (st0 : state) (ty : type) (e : executable) : M st task :=
  let! n := gets next_id in
  do! modify (set_next_id (u64 (n + 1))) in
  ret {| task_state := st0; id := n; task_type := ty; execu := e |}.

(** [std::mutex::lock] by the thread that owns it is undefined. *)
Definition lock : M st unit :=
  let! b := gets locked in
  if b : bool then fault else modify (set_locked true).

Definition unlock : M st unit := modify (set_locked false).

(** A member call through the pointer; [joinable]. *)
Definition joinable (h : option Z) : M st bool :=
  match h with
  | None => fault
  | Some n =>
      let! m := gets threads in
      ret (default false (m !! n))
  end.

(** [join] and [detach] leave the thread not joinable. *)
Definition release (h : option Z) : M st unit :=
  match h with
  | None => fault
  | Some n => modify (fun s => set_threads (<[n := false]> (threads s)) s)
  end.

Definition run (e : executable) : M st unit :=
  match e with
  | Function fn => fn
  | Thread h => let! j := joinable h in if j : bool then release h else ret tt
  end.

Definition execute (t : task) : M st unit :=
  if decide (task_state t = CANCELLED) then ret tt
  else
    let! b := gets serial in
    if b : bool then do! lock in do! run (execu t) in unlock
    else run (execu t).

Definition sleep (duration : spec_float) : M st unit :=
  match to_ms duration with
  | None => fault
  | Some ms => modify (fun s => set_clock (clock s + Z.max 0 ms) s)
  end.

Definition spawn (fn : M st unit) : M st task :=
  let! t := new_task RUNNING FUNCTION (Function fn) in
  do! execute t in
  ret t.

Definition spawn_thread (thread : option Z) : M st task :=
  let! t := new_task RUNNING THREAD (Thread thread) in
  do! execute t in
  ret t.

Definition delay (duration : spec_float) (fn : M st unit) : M st task :=
  let! t := new_task SUSPENDED FUNCTION (Function (do! sleep duration in fn)) in
  do! execute t in
  ret t.

Definition delay_thread (duration : spec_float) (thread : option Z) : M st task :=
  let! t := new_task SUSPENDED THREAD (Thread thread) in
  do! sleep duration in
  do! execute t in
  ret t.

Definition defer (fn : M st unit) : M st task := delay (S754_zero false) fn.

(** The overload that takes the variant does not execute. *)
Definition defer_thread (thread : executable) : M st task :=
  new_task SUSPENDED THREAD thread.

Definition desynchronize : M st unit := modify (set_serial false).
Definition synchronize : M st unit := modify (set_serial true).

Definition wait (duration : spec_float) : M st spec_float :=
  do! sleep duration in ret duration.

Definition cancel (t : task) : M st task :=
  if decide (task_state t = CANCELLED) then ret t
  else
    let t := task_with_state CANCELLED t in
    match execu t with
    | Function _ => ret t
    | Thread h => do! (let! j := joinable h in if j : bool then release h else ret tt) in ret t
    end.

(** Move construction and assignment: the new value and the source after
    it.  [moved_fn] is the unspecified value of a moved-from function. *)
Definition moved (moved_fn : M st unit) (e : executable) : executable :=
  match e with
  | Function _ => Function moved_fn
  | Thread _ => Thread None
  end.

Definition move (moved_fn : M st unit) (other : task) : task * task :=
  ({| task_state := task_state other; id := id other; task_type := task_type other; execu := execu other |},
   {| task_state := CREATED; id := 0; task_type := task_type other; execu := moved moved_fn (execu other) |}).

(** Move assignment of distinct objects is the same; onto itself nothing. *)
Definition move_assign (moved_fn : M st unit) (self other : task) (same : bool) : task * task :=
  if same then (self, other) else move moved_fn other.

(** ** Contracts *)

(** A user function that leaves the mutex as it found it. *)
Definition balanced (fn : M st unit) (s s' : st) : Prop :=
  fn s = Ok (tt, s') /\ locked s' = locked s.

(** The state in which the function of a task created in [s] runs. *)
Definition entered (s : st) : st :=
  let s1 := set_next_id (u64 (next_id s + 1)) s in
  if serial s then set_locked true s1 else s1.

Definition left (s s' : st) : st := if serial s then set_locked false s' else s'.

Lemma spawn_ok fn s s' :
  locked s = false -> balanced fn (entered s) s' ->
  spawn fn s = Ok ({| task_state := RUNNING; id := next_id s; task_type := FUNCTION;
                      execu := Function fn |}, left s s').
Proof.
  intros Hl [Hf Hb]. apply wp_eq. unfold spawn, new_task. do 2 wp_step. apply wp_gets.
  wp_step. apply wp_modify. wp_step. wp_step. unfold execute. cbn [task_state].
  rewrite decide_False by done. wp_step. apply wp_gets. unfold entered, left in *.
  cbn [serial set_next_id]. destruct (serial s).
  - wp_step. unfold lock. wp_step. apply wp_gets. cbn [locked set_next_id]. rewrite Hl.
    apply wp_modify. wp_step. eapply wp_of_eq; [exact Hf|]. apply wp_modify. by apply wp_ret.
  - eapply wp_of_eq; [exact Hf|]. by apply wp_ret.
Qed.

(** C30. [spawn] runs the function exactly once, before it returns, with the
    mutex held when [serial] is set and free afterwards; the task gets the
    next identifier and stays in state [RUNNING]. *)
Theorem spawn_correct fn s s' :
  locked s = false -> balanced fn (entered s) s' ->
  spawn fn s = Ok ({| task_state := RUNNING; id := next_id s; task_type := FUNCTION;
                      execu := Function fn |}, left s s') /\
  locked (left s s') = false.
Proof.
  intros Hl Hf. split; [by apply spawn_ok|]. destruct Hf as [_ Hb]. unfold left, entered in *.
  destruct (serial s); [done|]. by rewrite Hb.
Qed.

Lemma spawn_locked fn s : serial s = true -> locked s = true -> spawn fn s = Fault.
Proof.
  intros Hs Hl. unfold spawn, new_task, execute, lock, bind, gets, modify, ret.
  cbn [task_state]. rewrite decide_False by done. cbn. rewrite Hs. cbn. by rewrite Hl.
Qed.

Lemma spawn_serial fn s :
  serial s = true -> locked s = false ->
  spawn fn s =
  match fn (set_locked true (set_next_id (u64 (next_id s + 1)) s)) with
  | Ok (_, s') => Ok ({| task_state := RUNNING; id := next_id s; task_type := FUNCTION;
                         execu := Function fn |}, set_locked false s')
  | Fault => Fault
  | NoFuel => NoFuel
  end.
Proof.
  intros Hs Hl. unfold spawn, new_task, execute, lock, bind, gets, modify, ret.
  cbn [task_state]. rewrite decide_False by done. cbn. rewrite Hs. cbn. rewrite Hl.
  by destruct (fn _) as [[[] s']| |].
Qed.

(** In serial mode a task whose function spawns a task locks the mutex
    its own thread holds. *)
Theorem nested_spawn_deadlocks fn k s :
  serial s = true -> spawn (do! spawn fn in k) s = Fault.
Proof.
  intros Hs. destruct (locked s) eqn:Hl; [by apply spawn_locked|].
  rewrite spawn_serial by done. unfold bind at 1. by rewrite spawn_locked.
Qed.

(** A thread task without a thread. *)
Definition null_handle (e : executable) : bool :=
  match e with Thread None => true | _ => false end.

(** The program after [cancel]: a joinable thread has been detached. *)
Definition let_go (t : task) (s : st) : st :=
  match execu t with
  | Thread (Some n) =>
      if bool_decide (task_state t <> CANCELLED) && default false (threads s !! n)
      then set_threads (<[n := false]> (threads s)) s else s
  | _ => s
  end.

Lemma cancel_null t s :
  null_handle (execu t) = true -> task_state t <> CANCELLED -> cancel t s = Fault.
Proof.
  intros He Hst. unfold cancel. rewrite decide_False by done. cbn [execu task_with_state].
  by destruct (execu t) as [|[n|]].
Qed.

Lemma cancel_ok t s :
  null_handle (execu t) = false \/ task_state t = CANCELLED ->
  cancel t s = Ok (task_with_state CANCELLED t, let_go t s).
Proof.
  intros Hok. unfold cancel, let_go. destruct (decide (task_state t = CANCELLED)) as [Hst|Hst].
  { rewrite bool_decide_false by (intros []; done). cbn [andb].
    replace (task_with_state CANCELLED t) with t by (destruct t; cbn in *; by subst).
    by destruct (execu t) as [|[n|]]. }
  destruct Hok as [Hok|]; [|done]. rewrite bool_decide_true by done. cbn [andb execu task_with_state].
  destruct (execu t) as [fn|[n|]]; [done| |done].
  unfold joinable, release, bind, gets, ret, modify. by destruct (default false (threads s !! n)).
Qed.

(** What [cancel] leaves is final, in every later state of the program. *)
Lemma cancelled_final t s :
  task_state t = CANCELLED -> cancel t s = Ok (t, s) /\ execute t s = Ok (tt, s).
Proof. intros Hst. unfold cancel, execute. by rewrite !decide_True by done. Qed.

Lemma let_go_joinable t n s :
  execu t = Thread (Some n) -> task_state t <> CANCELLED ->
  joinable (Some n) (let_go t s) = Ok (false, let_go t s).
Proof.
  intros He Hst. unfold joinable, let_go, bind, gets, ret. rewrite He, bool_decide_true by done.
  destruct (threads s !! n) as [[|]|] eqn:E; cbn; by rewrite ?lookup_insert_eq, ?E.
Qed.

(** The two overloads of [defer] differ: a function is run at once,
    without delay; a thread is recorded and never run or joined. *)
Theorem defer_correct fn h s :
  locked s = false ->
  (forall s', balanced fn (entered s) s' ->
     exists t, defer fn s = Ok (t, left s s') /\ task_state t = SUSPENDED) /\
  defer_thread (Thread h) s =
    Ok ({| task_state := SUSPENDED; id := next_id s; task_type := THREAD; execu := Thread h |},
        set_next_id (u64 (next_id s + 1)) s).
Proof.
  intros Hl. split; [|done]. intros s' [Hf Hb]. eexists. split; [|shelve].
  apply wp_eq. unfold defer, delay, new_task. do 2 wp_step. apply wp_gets.
  wp_step. apply wp_modify. wp_step. wp_step. unfold execute. cbn [task_state].
  rewrite decide_False by done. wp_step. apply wp_gets. unfold entered, left in *.
  cbn [serial set_next_id].
  assert (Hrun : forall s0, wp (sleep (S754_zero false)) (fun _ s1 => s1 = s0) s0).
  { intros s0. apply wp_modify. cbn. rewrite Z.add_0_r. by destruct s0. }
  destruct (serial s).
  - wp_step. unfold lock. wp_step. apply wp_gets. cbn [locked set_next_id]. rewrite Hl.
    apply wp_modify. cbn [run execu]. wp_step. wp_step. eapply wp_mono; [|apply Hrun]. intros _ ? ->.
    eapply wp_of_eq; [exact Hf|]. apply wp_modify. by apply wp_ret.
  - cbn [run execu]. wp_step. eapply wp_mono; [|apply Hrun]. intros _ ? ->.
    eapply wp_of_eq; [exact Hf|]. by apply wp_ret.
  Unshelve. done.
Qed.
End Sequential.

(** ** Many threads *)

Section Interleaving.
(** Where a thread is in [execute]: before the test of the state, before
    the test of [serial], waiting for the mutex, in the task (with the
    mutex or without), out. *)
Inductive pc := Begin | Test_serial | Waiting | Locked_run | Free_run | Done.

#[local] Instance pc_eq_dec : EqDecision pc.
Proof. solve_decision. Defined.

(** Each thread executes one task; [cancelled] is the state of that task. *)
Record config := {
  pcs : list pc;
  cancelled : list bool;
  owner : option nat;
  flag : bool;
}.

Definition with_pc (c : config) (i : nat) (p : pc) (o : option nat) : config :=
  {| pcs := <[i := p]> (pcs c); cancelled := cancelled c; owner := o; flag := flag c |}.

(** One atomic step: a load of the state or of [serial], taking or freeing
    the mutex, a store by [cancel], [synchronize] or [desynchronize].  The
    state is an atomic, but [serial] is a plain [bool]: a store to it while
    another thread is at [Test_serial] is a data race in C++, and the steps
    describe such a program only as far as the compiler treats the flag as one
    word of memory.  A thread runs one [execute], whose task does not call
    [execute] again; for that see [nested_spawn_deadlocks]. *)
Inductive step (c : config) : config -> Prop :=
| step_cancelled i : pcs c !! i = Some Begin -> cancelled c !! i = Some true ->
    step c (with_pc c i Done (owner c))
| step_alive i : pcs c !! i = Some Begin -> cancelled c !! i = Some false ->
    step c (with_pc c i Test_serial (owner c))
| step_serial i : pcs c !! i = Some Test_serial -> flag c = true ->
    step c (with_pc c i Waiting (owner c))
| step_parallel i : pcs c !! i = Some Test_serial -> flag c = false ->
    step c (with_pc c i Free_run (owner c))
| step_acquire i : pcs c !! i = Some Waiting -> owner c = None ->
    step c (with_pc c i Locked_run (Some i))
| step_unlock i : pcs c !! i = Some Locked_run -> step c (with_pc c i Done None)
| step_return i : pcs c !! i = Some Free_run -> step c (with_pc c i Done (owner c))
| step_cancel i : (i < length (cancelled c))%nat ->
    step c {| pcs := pcs c; cancelled := <[i := true]> (cancelled c); owner := owner c; flag := flag c |}
| step_flag b :
    step c {| pcs := pcs c; cancelled := cancelled c; owner := owner c; flag := b |}.

(** [n] threads about to execute their tasks. *)
Definition initial (n : nat) (b : bool) : config :=
  {| pcs := replicate n Begin; cancelled := replicate n false; owner := None; flag := b |}.

Inductive reachable (c0 : config) : config -> Prop :=
| reach_refl : reachable c0 c0
| reach_trans c c' : reachable c0 c -> step c c' -> reachable c0 c'.

(** The mutex is held by exactly the thread that runs under it. *)
Definition mutex_inv (c : config) : Prop :=
  forall i, owner c = Some i <-> pcs c !! i = Some Locked_run.

Lemma mutex_inv_step c c' : mutex_inv c -> step c c' -> mutex_inv c'.
Proof.
  intros HI Hs.
  assert (Hkeep : forall i p q, pcs c !! i = Some p -> p <> Locked_run -> q <> Locked_run ->
    mutex_inv (with_pc c i q (owner c))).
  { intros i p q Hp Hpl Hql j. cbn. rewrite (HI j). destruct (decide (j = i)) as [->|Hne].
    - rewrite list_lookup_insert_eq by (by eapply lookup_lt_Some). rewrite Hp.
      split; intros [= ?]; congruence.
    - by rewrite list_lookup_insert_ne by done. }
  destruct Hs as [i Hp|i Hp|i Hp|i Hp|i Hp Ho|i Hp|i Hp| |];
    [by eapply Hkeep|by eapply Hkeep|by eapply Hkeep|by eapply Hkeep| | |by eapply Hkeep|done|done].
  - intros j. cbn. destruct (decide (j = i)) as [->|Hne].
    + by rewrite list_lookup_insert_eq by (by eapply lookup_lt_Some).
    + rewrite list_lookup_insert_ne by done. rewrite <- (HI j), Ho. split; congruence.
  - intros j. cbn. split; [done|]. destruct (decide (j = i)) as [->|Hne].
    + by rewrite list_lookup_insert_eq by (by eapply lookup_lt_Some).
    + rewrite list_lookup_insert_ne by done. rewrite <- (HI j). apply (HI i) in Hp. congruence.
Qed.

Lemma mutex_inv_reachable n b c : reachable (initial n b) c -> mutex_inv c.
Proof.
  induction 1 as [|c c' _ IH Hs]; [|by eapply mutex_inv_step]. intros i. cbn. split; [done|].
  intros Hi. apply lookup_replicate in Hi as [? _]. done.
Qed.

Definition running (p : pc) : Prop := p = Locked_run \/ p = Free_run.

(** Runs in which every step is made while [serial] is set. *)
Inductive serial_run (c0 : config) : config -> Prop :=
| serial_refl : serial_run c0 c0
| serial_trans c c' : serial_run c0 c -> flag c = true -> step c c' -> serial_run c0 c'.

Lemma serial_run_reachable c0 c : serial_run c0 c -> reachable c0 c.
Proof. induction 1; [constructor|by econstructor]. Qed.

(** While [serial] is set nobody enters a task without the mutex. *)
Lemma serial_run_not_free n b c k :
  serial_run (initial n b) c -> pcs c !! k <> Some Free_run.
Proof.
  intros Hr. revert k. induction Hr as [|c c' _ IH Hf Hs]; intros k Hk.
  - apply lookup_replicate in Hk as [? _]. done.
  - specialize (IH k). destruct Hs; cbn in Hk; try congruence;
      (destruct (decide (k = i)) as [->|Hne];
       [rewrite list_lookup_insert_eq in Hk by (by eapply lookup_lt_Some); congruence
       |rewrite list_lookup_insert_ne in Hk by done; congruence]).
Qed.

(** C29. Mutual exclusion: two threads never run tasks under the mutex at
    the same time, whatever the interleaving and whoever changes [serial];
    and in a run during which [serial] stays set no two tasks run at the
    same time at all. *)
Theorem serial_exclusion n b c i j p q :
  pcs c !! i = Some p -> pcs c !! j = Some q ->
  (reachable (initial n b) c -> p = Locked_run -> q = Locked_run -> i = j) /\
  (serial_run (initial n b) c -> running p -> running q -> i = j).
Proof.
  intros Hp Hq.
  assert (Hex : reachable (initial n b) c -> p = Locked_run -> q = Locked_run -> i = j).
  { intros Hr -> ->. apply (mutex_inv_reachable n b c Hr) in Hp, Hq. congruence. }
  split; [done|]. intros Hs [-> | ->] [-> | ->];
    [apply Hex; [by apply serial_run_reachable|done|done]|..];
    exfalso; by eapply serial_run_not_free.
Qed.

(** [cancel] does not stop a task whose thread has already passed the
    test of the state: the task is cancelled and still runs. *)
Theorem cancel_races :
  exists c, reachable (initial 1 true) c /\ cancelled c !! 0%nat = Some true /\
    pcs c !! 0%nat = Some Locked_run.
Proof.
  set (c0 := initial 1 true).
  set (c1 := with_pc c0 0 Test_serial None).
  set (c2 := {| pcs := pcs c1; cancelled := [true]; owner := None; flag := true |}).
  set (c3 := with_pc c2 0 Waiting None).
  set (c4 := with_pc c3 0 Locked_run (Some 0%nat)).
  exists c4. split; [|done].
  assert (H1 : reachable c0 c1) by (eapply reach_trans; [constructor|by apply (step_alive c0 0)]).
  assert (H2 : reachable c0 c2) by (eapply reach_trans; [exact H1|by apply (step_cancel c1 0); cbn; lia]).
  assert (H3 : reachable c0 c3) by (eapply reach_trans; [exact H2|by apply (step_serial c2 0)]).
  eapply reach_trans; [exact H3|by apply (step_acquire c3 0)].
Qed.
(** A task cancelled before its thread tests the state is never entered. *)
Lemma cancelled_not_entered c c' i :
  reachable c c' -> cancelled c !! i = Some true -> pcs c !! i = Some Begin ->
  cancelled c' !! i = Some true /\ (pcs c' !! i = Some Begin \/ pcs c' !! i = Some Done).
Proof.
  intros Hr Hcan Hpc. induction Hr as [|c1 c2 _ [IHc IHp] Hs]; [by split; [|left]|].
  assert (Hpc' : forall k q o p, pcs c1 !! k = Some p -> (i = k -> p = Begin -> q = Done) ->
    (i = k -> p <> Done) ->
    pcs (with_pc c1 k q o) !! i = Some Begin \/ pcs (with_pc c1 k q o) !! i = Some Done).
  { intros k q o p Hp Hq Hd. cbn. destruct (decide (i = k)) as [->|Hne].
    - rewrite list_lookup_insert_eq by (by eapply lookup_lt_Some). right. f_equal.
      apply Hq; [done|]. specialize (Hd eq_refl). destruct IHp; congruence.
    - by rewrite list_lookup_insert_ne by done. }
  destruct Hs as [k Hp Hc|k Hp Hc|k Hp|k Hp|k Hp|k Hp|k Hp|k Hk|]; cbn [cancelled with_pc];
    (split; [try done|try (eapply Hpc'; [exact Hp|..]; congruence)]); try done.
  destruct (decide (i = k)) as [->|Hne]; [by apply list_lookup_insert_eq|].
  by rewrite list_lookup_insert_ne by done.
Qed.
End Interleaving.

(** C31. [cancel] marks the task, and detaches the thread of a task that has
    one and was not cancelled before: the thread itself goes on running, but it
    is no longer joinable.  From then on, in every state of the program, another
    [cancel] and every [execute] of the task do nothing; and among many
    threads, a task whose thread has not yet tested the state when it is
    cancelled is never entered.  (A thread already past the test is not
    stopped: [cancel_races].)  On a thread task without a thread, [cancel]
    calls a member through a null pointer. *)
Theorem cancel_correct {W} (t : task (W := W)) (s : globals W) :
  let t' := task_with_state CANCELLED t in
  (null_handle (execu t) = true -> task_state t <> CANCELLED -> cancel t s = Fault) /\
  (null_handle (execu t) = false \/ task_state t = CANCELLED -> cancel t s = Ok (t', let_go t s)) /\
  (forall n, execu t = Thread (Some n) -> task_state t <> CANCELLED ->
     joinable (Some n) (let_go t s) = Ok (false, let_go t s)) /\
  (forall s2, cancel t' s2 = Ok (t', s2) /\ execute t' s2 = Ok (tt, s2)) /\
  (forall c c' i, pcs c !! i = Some Begin -> cancelled c !! i = Some true -> reachable c c' ->
     pcs c' !! i = Some Begin \/ pcs c' !! i = Some Done).
Proof.
  intros t'. split; [apply cancel_null|]. split; [apply cancel_ok|].
  split; [intros n; apply let_go_joinable|]. split; [intros s2; by apply cancelled_final|].
  intros c c' i Hpc Hcan Hr. by eapply cancelled_not_entered.
Qed.

(** ** Runs *)

(** Two threads in serial mode, the first inside its task. *)
Definition one_inside : config :=
  {| pcs := [Locked_run; Waiting]; cancelled := [false; false]; owner := Some 0%nat;
     flag := true |}.

(** Two idle mutex users at [p] and [q]. *)
Definition both (p q : pc) : config :=
  {| pcs := [p; q]; cancelled := [false; false]; owner := None; flag := true |}.

Lemma one_inside_run : serial_run (initial 2 true) one_inside.
Proof.
  assert (H1 : serial_run (initial 2 true) (both Test_serial Begin)).
  { eapply serial_trans; [apply serial_refl|done|by apply (step_alive (initial 2 true) 0)]. }
  assert (H2 : serial_run (initial 2 true) (both Test_serial Test_serial)).
  { eapply serial_trans; [exact H1|done|by apply (step_alive (both Test_serial Begin) 1)]. }
  assert (H3 : serial_run (initial 2 true) (both Waiting Test_serial)).
  { eapply serial_trans; [exact H2|done|by apply (step_serial (both Test_serial Test_serial) 0)]. }
  assert (H4 : serial_run (initial 2 true) (both Waiting Waiting)).
  { eapply serial_trans; [exact H3|done|by apply (step_serial (both Waiting Test_serial) 1)]. }
  eapply serial_trans; [exact H4|done|by apply (step_acquire (both Waiting Waiting) 0)].
Qed.

Lemma serial_exclusion_witness :
  (reachable (initial 2 true) one_inside -> Locked_run = Locked_run -> Waiting = Locked_run ->
     0%nat = 1%nat) /\
  (serial_run (initial 2 true) one_inside -> running Locked_run -> running Waiting ->
     0%nat = 1%nat) /\
  serial_run (initial 2 true) one_inside.
Proof.
  destruct (serial_exclusion 2 true one_inside 0 1 Locked_run Waiting eq_refl eq_refl) as [H1 H2].
  split; [exact H1|]. split; [exact H2|apply one_inside_run].
Defined.

(** A program whose state is a counter, in serial mode, with one thread. *)
Definition counter : globals Z :=
  {| next_id := 7; locked := false; serial := true; threads := {[3 := true]}; clock := 0;
     user := 0 |}.

Definition increment : M (globals Z) unit :=
  modify (fun s => Build_globals (next_id s) (locked s) (serial s) (threads s) (clock s) (user s + 1)).

Definition incremented : globals Z :=
  {| next_id := 8; locked := true; serial := true; threads := {[3 := true]}; clock := 0;
     user := 1 |}.

Lemma spawn_witness :
  spawn increment counter =
    Ok ({| task_state := RUNNING; id := 7; task_type := FUNCTION; execu := Function increment |},
        left counter incremented) /\
  locked (left counter incremented) = false.
Proof.
  apply (spawn_correct increment counter incremented); [reflexivity|].
  split; vm_compute; reflexivity.
Defined.

Definition thread_task : task (W := Z) :=
  {| task_state := RUNNING; id := 4; task_type := THREAD; execu := Thread (Some 3) |}.

(** A cancelled thread task, a null one, and a cancelled task whose thread
    has not started. *)
Lemma cancel_witness :
  cancel thread_task counter =
    Ok (task_with_state CANCELLED thread_task, set_threads {[3 := false]} counter) /\
  cancel {| task_state := RUNNING; id := 4; task_type := THREAD; execu := Thread None |} counter = Fault /\
  (forall c', reachable {| pcs := [Begin]; cancelled := [true]; owner := None; flag := true |} c' ->
     pcs c' !! 0%nat = Some Begin \/ pcs c' !! 0%nat = Some Done).
Proof.
  split; [|split].
  - destruct (cancel_correct thread_task counter) as (_ & Hc & _). apply Hc. by left.
  - destruct (cancel_correct {| task_state := RUNNING; id := 4; task_type := THREAD;
      execu := Thread None |} counter) as (Hc & _). by apply Hc.
  - intros c' Hr. destruct (cancel_correct thread_task counter) as (_ & _ & _ & _ & Hc).
    by eapply (Hc _ c' 0%nat); [..|exact Hr].
Defined.

Lemma defer_witness :
  (forall s', balanced increment (entered counter) s' ->
     exists t, defer increment counter = Ok (t, left counter s') /\ task_state t = SUSPENDED) /\
  defer_thread (Thread (Some 3)) counter =
    Ok ({| task_state := SUSPENDED; id := 7; task_type := THREAD; execu := Thread (Some 3) |},
        set_next_id 8 counter).
Proof. apply (defer_correct increment (Some 3) counter). reflexivity. Defined.

Lemma nested_spawn_witness : spawn (do! spawn increment in increment) counter = Fault.
Proof. apply (nested_spawn_deadlocks increment increment counter). reflexivity. Defined.
