(* ===== verification/Allocator.v ===== *)
(** * The pool allocator

    [memory/include/memory.h] lines 27 to 165 and
    [memory/include/allocator.inl], at the default template arguments: size
    classes, the four-word bitmaps that mark free blocks, block headers, and
    the per-thread caches and pools behind [allocate] and [deallocate].
    Where a call in the source leaves out an argument of its callee
    ([mark_bits_free], [is_bitmap_empty]) or names a field its struct lacks
    ([size_class] in [pool_allocate]), the missing value is a parameter of
    the definition.  Pages, [new] and [mmap] belong to the interface [Pages].
    A weak compare-and-exchange may fail spuriously: [spurious] says for
    which words it does. *)

From stdpp Require Import base list numbers gmap.
From S2P Require Import Prelude.

(** ** Parameters (memory.h) *)

Definition page_size : Z := 4096.
Definition cache_line_size : Z := 64.
Definition cache_size : Z := 32.
Definition size_classes : Z := 32.
Definition tiny_classes : Z := 8.
Definition max_pools : Z := 8.
Definition SIZE_MASK : Z := 0x0000FFFFFFFFFFFF.
Definition CLASS_MASK : Z := 0x00FF000000000000.
Definition MMAP_FLAG : Z := 2 ^ 62.
Definition HEADER_MAGIC : Z := 0xDEADBEEF12345678.
Definition TINY_THRESHOLD : Z := 64.
Definition SMALL_THRESHOLD : Z := 256.
Definition LARGE_THRESHOLD : Z := 1024 * 1024.
Definition BITS_PER_WORD : Z := 64.
Definition WORDS : Z := 4.

(** [sizeof] of the structs with [alignas(cache_line_size)]. *)
Definition sizeof_block_header : Z := 64.
Definition sizeof_bitmap : Z := 64.
Definition sizeof_pool_manager : Z := size_classes * max_pools * 16 + size_classes * 8.
Definition pool_bytes : Z := page_size - sizeof_bitmap.

(** ** Size classes *)

(** [__builtin_clzll] and [__builtin_clz]; undefined at 0. *)
Definition clz (w z : Z) : Z := w - 1 - Z.log2 z.

Definition get_alignment_for_size (size : Z) : Z :=
  if size <=? cache_line_size then cache_line_size
  else if page_size <=? size then page_size
  else u64 (Z.shiftl 1 (64 - clz 64 (u64 (size - 1)))).

Record size_class := { size : Z; slot_size : Z; blocks : Z; slack : Z }.

(** [(x + a - 1) & ~(a - 1)] on [size_t]. *)
Definition round_up (x a : Z) : Z :=
  Z.land (u64 (u64 (x + a) - 1)) (u64 (Z.lnot (u64 (a - 1)))).

Definition size_class_entry (i : Z) : size_class :=
  let size := u64 (Z.shiftl 1 (i + 3)) in
  let alignment := get_alignment_for_size size in
  let slot := round_up size alignment in
  {| size := u16 size; slot_size := u16 slot; blocks := u16 (page_size / slot);
     slack := u16 (slot - size) |}.

Definition size_class_table : list size_class := map size_class_entry (seqZ 0 size_classes).

(** ** Bitmaps: a set bit is a free block *)

Abbreviation bitmap := (list Z).

Definition word (b : bitmap) (i : Z) : Z := default 0 (b !! Z.to_nat i).
Definition set_word (b : bitmap) (i v : Z) : bitmap := <[Z.to_nat i := v]> b.

(** [__builtin_ctzll]: the lowest set bit. *)
Fixpoint ctz (fuel : nat) (z : Z) : Z :=
  match fuel with
  | O => 0
  | S fuel => if Z.odd z then 0 else 1 + ctz fuel (z / 2)
  end.

(** Taking the lowest bit of word [i]; [None] when there is none or the
    exchange fails. *)
Definition take_bit (spurious : Z -> bool) (b : bitmap) (i : Z) : option (Z * bitmap) :=
  if word b i =? 0 then None
  else
    let bit := ctz 64 (word b i) in
    if spurious i then None
    else Some (i * 64 + bit, set_word b i (Z.land (word b i) (u64 (Z.lnot (Z.shiftl 1 bit))))).

(** The two words the loop looks at together. *)
Definition take_pair (spurious : Z -> bool) (align_mask : Z) (b : bitmap) (i : Z)
  : option (Z * bitmap) :=
  if negb (Z.land i align_mask =? 0) then None
  else if negb (word b i =? 0) || negb (word b (i + 1) =? 0) then
    match take_bit spurious b i with
    | Some r => Some r
    | None => take_bit spurious b (i + 1)
    end
  else None.

(** [find_free_bits]; [None] is [~0]. *)
Definition find_free_bits (spurious : Z -> bool) (b : bitmap) (size : Z) : option (Z * bitmap) :=
  let align_mask := u64 (get_alignment_for_size size / BITS_PER_WORD - 1) in
  match take_pair spurious align_mask b 0 with
  | Some r => Some r
  | None => take_pair spurious align_mask b 2
  end.

(** [mark_bits_used] and [mark_bits_free]: from 128 bytes on the update is a
    vector operation on two words; the second one must exist. *)
Definition mark_bits (f : Z -> Z -> Z) (v : Z) (b : bitmap) (idx size : Z) : option bitmap :=
  let word_idx := idx / BITS_PER_WORD in
  if 128 <=? size then
    if word_idx + 1 <? WORDS then
      Some (set_word (set_word b word_idx (f (word b word_idx) v)) (word_idx + 1)
                     (f (word b (word_idx + 1)) v))
    else None
  else if word_idx <? WORDS then Some (set_word b word_idx (f (word b word_idx) v))
  else None.

Definition mark_bits_used (b : bitmap) (idx size : Z) : option bitmap :=
  mark_bits Z.land (u64 (Z.lnot (Z.shiftl 1 (idx mod BITS_PER_WORD)))) b idx size.

Definition mark_bits_free (b : bitmap) (idx size : Z) : option bitmap :=
  mark_bits Z.lor (u64 (Z.shiftl 1 (idx mod BITS_PER_WORD))) b idx size.

Definition is_bitmap_empty (b : bitmap) : bool :=
  let ones := 2 ^ 64 - 1 in
  let acc0 := Z.land (Z.land ones (word b 0)) (word b 2) in
  let acc1 := Z.land (Z.land ones (word b 1)) (word b 3) in
  (acc0 =? ones) && (acc1 =? ones).

(** ** Block headers *)

Definition header_data (size class flags : Z) : Z :=
  Z.lor (Z.lor (Z.land size SIZE_MASK) (u64 (Z.shiftl class 48))) flags.
Definition header_class (data : Z) : Z := u8 (Z.shiftr (Z.land data CLASS_MASK) 48).
Definition header_size (data : Z) : Z := Z.land data SIZE_MASK.
Definition header_mmap (data : Z) : bool := negb (Z.land data MMAP_FLAG =? 0).

(** ** The state of a thread *)

(** Operating system and C++ runtime: [operator new] for a number of bytes
    (the address, or [None] when it throws), [delete], [mmap] and [munmap].
    Where the exception is not caught it leaves a [noexcept] function, which
    calls [std::terminate]; this is a [fault] here. *)
Class Pages (W : Type) := {
  sys_new : Z -> W -> option Z * W;
  sys_delete : Z -> W -> W;
  sys_mmap : Z -> W -> option Z * W;
  sys_munmap : Z -> Z -> W -> W;
}.

(** [memory_pool] and [tiny_pool]: address and bitmap. *)
Record pool := { base : Z; bmap : bitmap }.
Record pool_entry := { entry_pool : pool; used : Z }.

(** [pool_manager]: its address, and the pools of each class ([counts] are the
    lengths). *)
Record pool_manager := { mgr_base : Z; pools : list (list pool_entry) }.

(** [thread_cache]: a pool per tiny class, the pool manager once it exists
    and the stacks of cached tiny blocks.
    [headers] is the memory the block headers live in. *)
Record cache (W : Type) := {
  tiny_pools : list (option pool);
  pool_mgr : option pool_manager;
  cached_tiny : list (list Z);
  headers : gmap Z (Z * Z);
  world : W;
}.
Arguments Build_cache {W}.
Arguments tiny_pools {W}.
Arguments pool_mgr {W}.
Arguments cached_tiny {W}.
Arguments headers {W}.
Arguments world {W}.

(** A zero-initialised pool: no bit is set. *)
Definition new_pool (a : Z) : pool := {| base := a; bmap := replicate 4 0 |}.

(** The address of [pool.mem]. *)
Definition mem_of (p : pool) : Z := base p + sizeof_bitmap.

Section Allocator.
Context {W : Type} `{Pages W} (spurious : Z -> bool).
Local Abbreviation st := (cache W).

Definition set_tiny_pools v (s : st) := Build_cache v (pool_mgr s) (cached_tiny s) (headers s) (world s).
Definition set_pool_mgr v (s : st) := Build_cache (tiny_pools s) v (cached_tiny s) (headers s) (world s).
Definition set_cached_tiny v (s : st) := Build_cache (tiny_pools s) (pool_mgr s) v (headers s) (world s).
Definition set_headers v (s : st) := Build_cache (tiny_pools s) (pool_mgr s) (cached_tiny s) v (world s).
Definition set_world (v : W) (s : st) := Build_cache (tiny_pools s) (pool_mgr s) (cached_tiny s) (headers s) v.

Definition sys {A} (f : W -> A * W) : M st A :=
  fun s => let (a, w) := f (world s) in Ok (a, set_world w s).

Definition at_index {A} (l : list A) (i : Z) : M st A :=
  match l !! Z.to_nat i with
  | Some x => ret x
  | None => fault
  end.

(** [new (block) block_header()], [data] and [magic]. *)
Definition put_header (block data : Z) : M st unit :=
  modify (fun s => set_headers (<[block := (data, HEADER_MAGIC)]> (headers s)) s).

Definition get_header (block : Z) : M st Z :=
  let! h := gets headers in
  match h !! block with
  | Some (d, _) => ret d
  | None => fault
  end.

(** A block at offset [off] of a pool; the header must fit. *)
Definition block_at (p : pool) (off data : Z) : M st Z :=
  if off + sizeof_block_header <=? pool_bytes then
    do! put_header (mem_of p + off) data in
    ret (mem_of p + off + sizeof_block_header)
  else fault.

(** ** Tiny blocks *)

Definition tiny_slot (size : Z) : Z := round_up (u64 (size + sizeof_block_header)) cache_line_size.

(** The null pointer is 0. *)
Definition alloc_tiny (size : Z) : M st Z :=
  let size_class := u8 (Z.shiftr (u64 (size - 1)) 3) in
  if tiny_classes <=? size_class then ret 0
  else
    let! caches := gets cached_tiny in
    let! c := at_index caches size_class in
    match list.last c with
    | Some p =>
        do! modify (fun s => set_cached_tiny (<[Z.to_nat size_class := removelast c]> (cached_tiny s)) s) in
        ret p
    | None =>
        let! pools := gets tiny_pools in
        let! slot := at_index pools size_class in
        let! pool := (match slot with
                      | Some p => ret p
                      | None =>
                          let! a := sys (sys_new page_size) in
                          match a with
                          | None => fault
                          | Some a => ret (new_pool a)
                          end
                      end) in
        let put p := modify (fun s => set_tiny_pools (<[Z.to_nat size_class := Some p]> (tiny_pools s)) s) in
        match find_free_bits spurious (bmap pool) size with
        | Some (idx, b) =>
            do! put {| base := base pool; bmap := b |} in
            block_at pool (u64 (idx * tiny_slot size)) (header_data size size_class 0)
        | None => do! put pool in ret 0
        end
    end.

(** [missing] is the argument [size] the call of [mark_bits_free] lacks. *)
Definition free_tiny (missing ptr : Z) : M st unit :=
  let! data := get_header (ptr - sizeof_block_header) in
  let size_class := header_class data in
  if tiny_classes <=? size_class then ret tt
  else
    let! caches := gets cached_tiny in
    let! c := at_index caches size_class in
    if Z.of_nat (length c) <? cache_size then
      modify (fun s => set_cached_tiny (<[Z.to_nat size_class := c ++ [ptr]]> (cached_tiny s)) s)
    else
      let! pools := gets tiny_pools in
      let! slot := at_index pools size_class in
      match slot with
      | None => ret tt
      | Some p =>
          let offset := u64 (ptr - sizeof_block_header - mem_of p) in
          let size := Z.shiftl (size_class + 1) 3 in
          match mark_bits_free (bmap p) (offset / tiny_slot size) missing with
          | None => fault
          | Some b => modify (fun s => set_tiny_pools
                        (<[Z.to_nat size_class := Some {| base := base p; bmap := b |}]> (tiny_pools s)) s)
          end
      end.

(** ** Small blocks *)

(** [pool_allocate]; [class] stands for the field [_sc.size_class], which
    the struct does not have. *)
Definition pool_allocate (class : Z) (p : pool) (sc : size_class) : M st (Z * pool) :=
  match find_free_bits spurious (bmap p) (size sc) with
  | Some (idx, b) =>
      let p := {| base := base p; bmap := b |} in
      let! ptr := block_at p (u64 (idx * slot_size sc)) (header_data (size sc) class 0) in
      ret (ptr, p)
  | None => ret (0, p)
  end.

(** [pool_deallocate]: a slot size of 0 divides by zero. *)
Definition pool_deallocate (missing : Z) (p : pool) (ptr : Z) (sc : size_class) : M st pool :=
  if slot_size sc =? 0 then fault
  else
    let offset := u64 (ptr - mem_of p) in
    let idx := offset / slot_size sc in
    if idx <? (page_size - sizeof_bitmap) / slot_size sc then
      match mark_bits_free (bmap p) idx missing with
      | None => fault
      | Some b => ret {| base := base p; bmap := b |}
      end
    else ret p.

(** The loop over the pools of a class: the pointer found, if any, and the
    pools after it. *)
Fixpoint try_pools (class : Z) (sc : size_class) (l : list pool_entry)
  : M st (option Z * list pool_entry) :=
  match l with
  | [] => ret (None, [])
  | e :: l =>
      let! r := pool_allocate class (entry_pool e) sc in
      let '(ptr, p) := r in
      if ptr =? 0 then
        let! r := try_pools class sc l in
        ret (r.1, {| entry_pool := p; used := used e |} :: r.2)
      else ret (Some ptr, {| entry_pool := p; used := u64 (used e + 1) |} :: l)
  end.

(** The manager, made by the first request: nothing catches the exception
    of this [new]. *)
Definition get_mgr : M st pool_manager :=
  let! m := gets pool_mgr in
  match m with
  | Some m => ret m
  | None =>
      let! a := sys (sys_new sizeof_pool_manager) in
      match a with
      | None => fault
      | Some a =>
          let m := {| mgr_base := a; pools := replicate (Z.to_nat size_classes) [] |} in
          do! modify (set_pool_mgr (Some m)) in ret m
      end
  end.

Definition set_class (m : pool_manager) (c : Z) (l : list pool_entry) : M st unit :=
  modify (set_pool_mgr (Some {| mgr_base := mgr_base m; pools := <[Z.to_nat c := l]> (pools m) |})).

Definition alloc_small (size : Z) : M st Z :=
  let! m := get_mgr in
  let class := 31 - clz 32 (u32 (u64 (size - 1))) in
  let! sc := at_index size_class_table class in
  let! l := at_index (pools m) class in
  let! r := try_pools class sc l in
  match r.1 with
  | Some ptr => do! set_class m class r.2 in ret ptr
  | None =>
      if max_pools <=? Z.of_nat (length l) then do! set_class m class r.2 in ret 0
      else
        let! a := sys (sys_new page_size) in
        match a with
        | None => do! set_class m class r.2 in ret 0
        | Some a =>
            let! x := pool_allocate class (new_pool a) sc in
            do! set_class m class (r.2 ++ [{| entry_pool := x.2; used := 1 |}]) in
            ret x.1
        end
  end.

(** The loop of [free_small]; [before] are the entries already passed. *)
Fixpoint free_in_pools (missing class ptr : Z) (sc : size_class) (before l : list pool_entry)
  : M st (list pool_entry) :=
  match l with
  | [] => ret before
  | e :: l =>
      let block := ptr - sizeof_block_header in
      if (base (entry_pool e) <=? block) && (block <? base (entry_pool e) + page_size) then
        let! p := pool_deallocate missing (entry_pool e) ptr sc in
        let e := {| entry_pool := p; used := u64 (used e - 1) |} in
        if (used e =? 0) && is_bitmap_empty (bmap p) then
          do! modify (fun s => set_world (sys_delete (base p) (world s)) s) in
          match list.last l with
          | None => ret before
          | Some last => ret (before ++ last :: removelast l)
          end
        else ret (before ++ e :: l)
      else free_in_pools missing class ptr sc (before ++ [e]) l
  end.

Definition free_small (missing ptr : Z) : M st unit :=
  let! data := get_header (ptr - sizeof_block_header) in
  let class := header_class data in
  let! m := gets pool_mgr in
  match m with
  | None => ret tt
  | Some m =>
      let! l := at_index (pools m) class in
      let! sc := at_index size_class_table class in
      let! l := free_in_pools missing class ptr sc [] l in
      set_class m class l
  end.

(** ** Large blocks *)

Definition mapping_size (size : Z) : Z :=
  round_up (u64 (size + sizeof_block_header)) page_size.

Definition alloc_large (size : Z) : M st Z :=
  let! p := sys (sys_mmap (mapping_size size)) in
  match p with
  | None => ret 0
  | Some p =>
      do! put_header p (header_data size 255 MMAP_FLAG) in
      ret (p + sizeof_block_header)
  end.

Definition free_large (ptr : Z) : M st unit :=
  let! data := get_header (ptr - sizeof_block_header) in
  if negb (header_mmap data) then ret tt
  else
    modify (fun s => set_world (sys_munmap (ptr - sizeof_block_header)
                                  (mapping_size (header_size data)) (world s)) s).

(** ** The public functions *)

Definition allocate (size : Z) : M st Z :=
  if (size =? 0) || (2 ^ 47 <? size) then ret 0
  else if size <=? TINY_THRESHOLD then alloc_tiny size
  else if size <=? SMALL_THRESHOLD then alloc_small size
  else if size <? LARGE_THRESHOLD then alloc_small size
  else alloc_large size.

Definition deallocate (missing ptr : Z) : M st unit :=
  if ptr =? 0 then ret tt
  else
    let! data := get_header (ptr - sizeof_block_header) in
    if header_class data <? tiny_classes then free_tiny missing ptr
    else if negb (header_mmap data) then free_small missing ptr
    else free_large ptr.

Definition delete_pool (p : pool) : M st unit :=
  modify (fun s => set_world (sys_delete (base p) (world s)) s).

Definition cleanup : M st unit :=
  let! tiny := gets tiny_pools in
  do! fold_right (fun p k => do! (match p with Some p => delete_pool p | None => ret tt end) in k)
        (ret tt) tiny in
  do! modify (set_tiny_pools (replicate (length tiny) None)) in
  let! m := gets pool_mgr in
  do! (match m with
       | None => ret tt
       | Some m =>
           do! fold_right (fun e k => do! delete_pool (entry_pool e) in k) (ret tt) (concat (pools m)) in
           do! modify (fun s => set_world (sys_delete (mgr_base m) (world s)) s) in
           modify (set_pool_mgr None)
       end) in
  modify (fun s => set_cached_tiny (replicate (length (cached_tiny s)) []) s).

(** A thread that has not allocated yet. *)
Definition thread_cache (h : gmap Z (Z * Z)) (w : W) : st :=
  {| tiny_pools := replicate (Z.to_nat tiny_classes) None; pool_mgr := None;
     cached_tiny := replicate (Z.to_nat tiny_classes) []; headers := h; world := w |}.
End Allocator.
