(* ===== verification/AllocatorOk.v ===== *)
(** * Contracts of the pool allocator

    Alignments and size classes, the bitmap operations, the header encoding,
    large blocks, the cache of tiny blocks, and what a thread can obtain from
    pools that start out all zero. *)

From stdpp Require Import base list numbers gmap.
From S2P Require Import Prelude Allocator.

(** ** Alignment and size classes *)

Lemma shiftl_1_u64 k : 0 <= k < 64 -> u64 (Z.shiftl 1 k) = 2 ^ k.
Proof.
  intros Hk. rewrite Z.shiftl_1_l. apply u64_small. split; [apply Z.pow_nonneg; lia|].
  apply Z.pow_lt_mono_r; lia.
Qed.

(** The alignment of a size is a power of two from 64 to 4096, at least
    the size up to a page, and less than twice the size above a cache line. *)
Theorem alignment_correct n :
  1 <= n < 2 ^ 63 ->
  (exists k, 6 <= k <= 12 /\ get_alignment_for_size n = 2 ^ k) /\
  (n <= page_size -> n <= get_alignment_for_size n) /\
  (cache_line_size < n <= page_size -> get_alignment_for_size n < 2 * n).
Proof.
  intros Hn. unfold get_alignment_for_size, page_size, cache_line_size.
  destruct (Z.leb_spec n 64) as [H1|H1].
  { split; [exists 6; split; [lia|done]|lia]. }
  destruct (Z.leb_spec 4096 n) as [H2|H2].
  { split; [exists 12; split; [lia|done]|lia]. }
  unfold clz. rewrite (u64_small (n - 1)) by lia.
  replace (64 - (64 - 1 - Z.log2 (n - 1))) with (Z.log2 (n - 1) + 1) by lia.
  pose proof (Z.log2_spec (n - 1) ltac:(lia)) as [Hlo Hhi].
  assert (Hk : 6 <= Z.log2 (n - 1) < 12).
  { split; [by apply Z.log2_le_pow2; lia|apply Z.log2_lt_pow2; lia]. }
  rewrite shiftl_1_u64 by lia. unfold Z.succ in Hhi. split; [|split].
  - exists (Z.log2 (n - 1) + 1). split; [lia|done].
  - lia.
  - intros _. rewrite Z.pow_add_r in * by lia. lia.
Qed.

(** What a class should be: the size, and the size rounded up to its slot. *)
Definition exact_class (i : Z) : size_class :=
  let slot := Z.max cache_line_size (2 ^ (i + 3)) in
  {| size := 2 ^ (i + 3); slot_size := slot; blocks := page_size / slot; slack := slot - 2 ^ (i + 3) |}.

Definition zero_class : size_class := {| size := 0; slot_size := 0; blocks := 0; slack := 0 |}.

(** The table of size classes: up to class 12 every field is what it
    says; from class 13 (65536 bytes) on the 16-bit fields are all zero, so
    every block of such a class is at offset 0. *)
Theorem size_class_table_correct i :
  0 <= i < size_classes ->
  size_class_table !! Z.to_nat i = Some (if i <=? 12 then exact_class i else zero_class).
Proof.
  unfold size_classes. intros Hi.
  assert (Hall : forall k, (k < 32)%nat ->
    size_class_table !! k = Some (if Z.of_nat k <=? 12 then exact_class (Z.of_nat k) else zero_class)).
  { intros k Hk. do 32 (destruct k as [|k]; [by vm_compute|]). lia. }
  rewrite Hall by lia. by rewrite Z2Nat.id by lia.
Qed.

(** ** Bitmaps *)

Definition bitmap_ok (b : list Z) : Prop := length b = 4%nat /\ Forall (in_u 64) b.

(** Block [j] is free. *)
Definition bit (b : list Z) (j : Z) : bool := Z.testbit (word b (j / 64)) (j mod 64).

Lemma word_range b i : bitmap_ok b -> in_u 64 (word b i).
Proof.
  intros [_ Hb]. unfold word. destruct (b !! Z.to_nat i) as [w|] eqn:E; cbn; [|by unfold in_u].
  exact (Forall_lookup_1 _ _ _ _ Hb E).
Qed.

Lemma word_set b i k v : 0 <= i < 4 -> 0 <= k -> length b = 4%nat ->
  word (set_word b i v) k = if k =? i then v else word b k.
Proof.
  intros Hi Hk Hb. unfold word, set_word. destruct (Z.eqb_spec k i) as [->|Hne].
  - by rewrite list_lookup_insert_eq by lia.
  - by rewrite list_lookup_insert_ne by lia.
Qed.

Lemma set_word_ok b i v : bitmap_ok b -> in_u 64 v -> bitmap_ok (set_word b i v).
Proof.
  intros [Hl Hb] Hv. split; [by unfold set_word; rewrite length_insert|]. by apply Forall_insert.
Qed.

Lemma ctz_spec fuel z :
  0 < z < 2 ^ Z.of_nat fuel ->
  0 <= ctz fuel z < Z.of_nat fuel /\ Z.testbit z (ctz fuel z) = true /\
  (forall k, 0 <= k < ctz fuel z -> Z.testbit z k = false).
Proof.
  revert z. induction fuel as [|fuel IH]; intros z Hz; [cbn in Hz; lia|]. cbn [ctz].
  destruct (Z.odd z) eqn:Ho.
  - rewrite Z.bit0_odd. split_and!; [lia|lia|done|lia].
  - assert (Hz2 : z = 2 * (z / 2)).
    { pose proof (Z.div_mod z 2 ltac:(lia)). rewrite Zmod_odd, Ho in H. lia. }
    rewrite Nat2Z.inj_succ, Z.pow_succ_r in Hz by lia.
    destruct (IH (z / 2)) as (Hr & Ht & Hlow); [lia|]. split_and!; [lia|lia| |].
    + rewrite Hz2 at 1. rewrite Z.add_1_l, Z.testbit_even_succ by lia. done.
    + intros k Hk. destruct (Z.eq_dec k 0) as [->|Hne]; [by rewrite Z.bit0_odd|].
      rewrite Hz2. replace k with (Z.succ (k - 1)) by lia.
      rewrite Z.testbit_even_succ by lia. apply Hlow. lia.
Qed.

(** Clearing and setting one bit of a word. *)
Lemma clear_bit w k j :
  in_u 64 w -> 0 <= k < 64 -> 0 <= j < 64 ->
  Z.testbit (Z.land w (u64 (Z.lnot (Z.shiftl 1 k)))) j = if j =? k then false else Z.testbit w j.
Proof.
  intros Hw Hk Hj. rewrite Z.land_spec. unfold wrap. rewrite Z.mod_pow2_bits_low by lia.
  rewrite Z.lnot_spec, Z.shiftl_1_l, Z.pow2_bits_eqb by lia.
  destruct (Z.eqb_spec k j), (Z.eqb_spec j k); try lia; cbn; by rewrite ?andb_false_r, ?andb_true_r.
Qed.

Lemma set_bit w k j :
  0 <= k < 64 -> 0 <= j < 64 ->
  Z.testbit (Z.lor w (u64 (Z.shiftl 1 k))) j = if j =? k then true else Z.testbit w j.
Proof.
  intros Hk Hj. rewrite Z.lor_spec, shiftl_1_u64, Z.pow2_bits_eqb by lia.
  destruct (Z.eqb_spec k j), (Z.eqb_spec j k); try lia; by rewrite ?orb_true_r, ?orb_false_r.
Qed.

Lemma word_range_land w v : in_u 64 w -> in_u 64 (Z.land w (u64 v)).
Proof.
  intros Hw. pose proof (wrap_range 64 v ltac:(lia)) as Hv. unfold in_u in *.
  split; [apply Z.land_nonneg; lia|].
  destruct (Z.eq_dec (Z.land w (u64 v)) 0) as [->|Hne]; [lia|].
  pose proof (proj2 (Z.land_nonneg w (u64 v)) ltac:(lia)).
  apply Z.log2_lt_pow2; [lia|]. eapply Z.le_lt_trans; [apply Z.log2_land; lia|].
  destruct (Z.eq_dec w 0) as [->|]; [by rewrite Z.land_0_l in Hne|].
  assert (Z.log2 w < 64) by (apply Z.log2_lt_pow2; lia). lia.
Qed.

Lemma take_bit_ok spurious b i :
  bitmap_ok b -> 0 <= i < 4 ->
  match take_bit spurious b i with
  | Some (idx, b') => 0 <= idx < 256 /\ bit b idx = true /\ bitmap_ok b' /\
      (forall j, 0 <= j < 256 -> bit b' j = if j =? idx then false else bit b j)
  | None => spurious i = false -> word b i = 0
  end.
Proof.
  intros Hb Hi. unfold take_bit. pose proof (word_range b i Hb) as Hw.
  destruct (Z.eqb_spec (word b i) 0) as [Hz|Hz]; [done|].
  destruct (ctz_spec 64 (word b i)) as (Hc & Ht & _); [unfold in_u in Hw; cbn; lia|].
  destruct (spurious i); [done|]. set (k := ctz 64 (word b i)) in *.
  assert (Hdiv : (i * 64 + k) / 64 = i) by (symmetry; apply (Z.div_unique _ _ _ k); lia).
  assert (Hmod : (i * 64 + k) mod 64 = k) by (symmetry; apply (Z.mod_unique _ _ i); lia).
  split_and!; [lia|lia|by unfold bit; rewrite Hdiv, Hmod| |].
  - apply set_word_ok; [done|]. by apply word_range_land.
  - intros j Hj. unfold bit. pose proof (Z.mod_pos_bound j 64 ltac:(lia)).
    assert (0 <= j / 64) by (apply Z.div_pos; lia). pose proof (Z.div_mod j 64 ltac:(lia)).
    rewrite word_set by (done || apply Hb). destruct (Z.eqb_spec (j / 64) i) as [E|Hne].
    + rewrite clear_bit by (done || lia). rewrite <- E.
      destruct (Z.eqb_spec (j mod 64) k), (Z.eqb_spec j (j / 64 * 64 + k)); lia || done.
    + destruct (Z.eqb_spec j (i * 64 + k)) as [->|]; [lia|done].
Qed.

(** The words a search may use: all four up to 128 bytes, two beyond. *)
Definition searched (n : Z) : Z := if n <=? 128 then 4 else 2.

(** Which pairs the stride of the search admits. *)
Lemma align_mask_cases n :
  1 <= n < 2 ^ 63 ->
  let mask := u64 (get_alignment_for_size n / BITS_PER_WORD - 1) in
  Z.land 0 mask = 0 /\ (Z.land 2 mask =? 0) = (searched n =? 4).
Proof.
  intros Hn mask. split; [apply Z.land_0_l|]. unfold mask, searched, get_alignment_for_size, page_size, cache_line_size.
  destruct (Z.leb_spec n 64) as [H1|H1].
  { destruct (Z.leb_spec n 128); [done|lia]. }
  destruct (Z.leb_spec 4096 n) as [H2|H2].
  { destruct (Z.leb_spec n 128); [lia|done]. }
  unfold clz. rewrite (u64_small (n - 1)) by lia.
  replace (64 - (64 - 1 - Z.log2 (n - 1))) with (Z.log2 (n - 1) + 1) by lia.
  pose proof (Z.log2_spec (n - 1) ltac:(lia)) as [Hlo Hhi]. unfold Z.succ in Hhi.
  assert (Hk : 6 <= Z.log2 (n - 1) < 12).
  { split; [by apply Z.log2_le_pow2; lia|apply Z.log2_lt_pow2; lia]. }
  rewrite shiftl_1_u64 by lia. set (k := Z.log2 (n - 1)) in *.
  assert (Hc : k = 6 \/ k = 7 \/ k = 8 \/ k = 9 \/ k = 10 \/ k = 11) by lia.
  destruct Hc as [E|[E|[E|[E|[E|E]]]]]; rewrite E in *; destruct (Z.leb_spec n 128); lia || done.
Qed.

Lemma take_pair_ok spurious mask b i :
  bitmap_ok b -> i = 0 \/ i = 2 ->
  match take_pair spurious mask b i with
  | Some (idx, b') => 0 <= idx < 256 /\ bit b idx = true /\ bitmap_ok b' /\
      (forall j, 0 <= j < 256 -> bit b' j = if j =? idx then false else bit b j)
  | None => (forall k, spurious k = false) -> Z.land i mask = 0 -> word b i = 0 /\ word b (i + 1) = 0
  end.
Proof.
  intros Hb Hi. unfold take_pair. destruct (Z.eqb_spec (Z.land i mask) 0); cbn [negb]; [|done].
  destruct (Z.eqb_spec (word b i) 0) as [H0|H0], (Z.eqb_spec (word b (i + 1)) 0) as [H1|H1]; cbn [negb orb];
    [done|..];
    (pose proof (take_bit_ok spurious b i Hb ltac:(lia)) as Ht;
     destruct (take_bit spurious b i) as [[idx b']|]; [done|];
     pose proof (take_bit_ok spurious b (i + 1) Hb ltac:(lia)) as Ht1;
     destruct (take_bit spurious b (i + 1)) as [[idx b']|]; [done|]; auto).
Qed.

Lemma bit_zero_word b j : word b (j / 64) = 0 -> bit b j = false.
Proof. intros E. unfold bit. by rewrite E, Z.testbit_0_l. Qed.

Lemma find_free_bits_ok spurious b n :
  bitmap_ok b -> 1 <= n < 2 ^ 63 ->
  match find_free_bits spurious b n with
  | Some (idx, b') => 0 <= idx < 256 /\ bit b idx = true /\ bitmap_ok b' /\
      (forall j, 0 <= j < 256 -> bit b' j = if j =? idx then false else bit b j)
  | None => (forall k, spurious k = false) -> forall j, 0 <= j < 64 * searched n -> bit b j = false
  end.
Proof.
  intros Hb Hn. unfold find_free_bits. destruct (align_mask_cases n Hn) as [H0 H2].
  set (mask := u64 (get_alignment_for_size n / BITS_PER_WORD - 1)) in *.
  pose proof (take_pair_ok spurious mask b 0 Hb (or_introl eq_refl)) as Hp0.
  destruct (take_pair spurious mask b 0) as [[idx b']|]; [done|].
  pose proof (take_pair_ok spurious mask b 2 Hb (or_intror eq_refl)) as Hp2.
  destruct (take_pair spurious mask b 2) as [[idx b']|]; [done|].
  intros Hsp j Hj. destruct (Hp0 Hsp H0) as [Hw0 Hw1]. apply bit_zero_word.
  assert (Hd : j / 64 = 0 \/ j / 64 = 1 \/ searched n = 4 /\ (j / 64 = 2 \/ j / 64 = 3)).
  { pose proof (Z.div_mod j 64 ltac:(lia)). pose proof (Z.mod_pos_bound j 64 ltac:(lia)).
    unfold searched in *. destruct (n <=? 128); lia. }
  destruct Hd as [-> |[-> |[Hs Hd]]]; [done|done|].
  rewrite Hs, Z.eqb_refl in H2. apply Z.eqb_eq in H2. destruct (Hp2 Hsp H2) as [Hw2 Hw3].
  by destruct Hd as [-> | ->].
Qed.

(** C22. [find_free_bits] takes a free block: the index it returns was free,
    it is marked used and no other block changes.  It gives up only when no
    block is free in the words it searches, or an exchange fails
    spuriously. *)
Theorem find_free_bits_correct spurious b n :
  bitmap_ok b -> 1 <= n < 2 ^ 63 ->
  match find_free_bits spurious b n with
  | Some (idx, b') => 0 <= idx < 256 /\ bit b idx = true /\ bitmap_ok b' /\
      (forall j, 0 <= j < 256 -> bit b' j = if j =? idx then false else bit b j)
  | None => (forall k, spurious k = false) -> forall j, 0 <= j < 64 * searched n -> bit b j = false
  end.
Proof. apply find_free_bits_ok. Qed.

Lemma bitmap_ext b1 b2 :
  bitmap_ok b1 -> bitmap_ok b2 -> (forall j, 0 <= j < 256 -> bit b1 j = bit b2 j) -> b1 = b2.
Proof.
  intros H1 H2 Hbit. apply list_eq_same_length with 4%nat; [apply H2|apply H1|].
  intros i x y Hi Hx Hy.
  assert (Hwx : word b1 (Z.of_nat i) = x) by (unfold word; by rewrite Nat2Z.id, Hx).
  assert (Hwy : word b2 (Z.of_nat i) = y) by (unfold word; by rewrite Nat2Z.id, Hy).
  pose proof (word_range b1 (Z.of_nat i) H1) as Rx. pose proof (word_range b2 (Z.of_nat i) H2) as Ry.
  rewrite Hwx in Rx. rewrite Hwy in Ry. unfold in_u in *.
  apply Z.bits_inj'. intros k Hk. destruct (Z.ltb_spec k 64).
  - specialize (Hbit (Z.of_nat i * 64 + k) ltac:(lia)). unfold bit in Hbit.
    replace ((Z.of_nat i * 64 + k) / 64) with (Z.of_nat i) in Hbit by (apply (Z.div_unique _ _ _ k); lia).
    replace ((Z.of_nat i * 64 + k) mod 64) with k in Hbit by (apply (Z.mod_unique _ _ (Z.of_nat i)); lia).
    by rewrite Hwx, Hwy in Hbit.
  - assert (Hhigh : forall z, 0 <= z < 2 ^ 64 -> Z.testbit z k = false).
    { intros z Hz. destruct (Z.eq_dec z 0) as [->|]; [apply Z.testbit_0_l|].
      apply Z.bits_above_log2; [lia|].
      pose proof (proj1 (Z.log2_lt_pow2 z 64 ltac:(lia)) ltac:(lia)). lia. }
    by rewrite !Hhigh.
Qed.

Lemma mark_bits_free_ok b idx n :
  bitmap_ok b -> 0 <= idx < 256 -> n < 128 ->
  exists b', mark_bits_free b idx n = Some b' /\ bitmap_ok b' /\
    forall j, 0 <= j < 256 -> bit b' j = if j =? idx then true else bit b j.
Proof.
  intros Hb Hidx Hn. unfold mark_bits_free, mark_bits, BITS_PER_WORD, WORDS.
  pose proof (Z.mod_pos_bound idx 64 ltac:(lia)) as Hm. pose proof (Z.div_mod idx 64 ltac:(lia)).
  destruct (Z.leb_spec 128 n); [lia|]. destruct (Z.ltb_spec (idx / 64) 4); [|lia].
  eexists. split; [done|]. pose proof (word_range b (idx / 64) Hb) as Hw. split.
  - apply set_word_ok; [done|]. rewrite shiftl_1_u64 by lia. unfold in_u in *.
    split; [apply Z.lor_nonneg; split; [lia|apply Z.pow_nonneg; lia]|].
    assert (Hpos : 0 < Z.lor (word b (idx / 64)) (2 ^ (idx mod 64))).
    { assert (Ht : Z.testbit (Z.lor (word b (idx / 64)) (2 ^ (idx mod 64))) (idx mod 64) = true).
      { rewrite Z.lor_spec, Z.pow2_bits_true by lia. by rewrite orb_true_r. }
      destruct (Z.eq_dec (Z.lor (word b (idx / 64)) (2 ^ (idx mod 64))) 0) as [E|].
      - by rewrite E, Z.testbit_0_l in Ht.
      - assert (0 <= Z.lor (word b (idx / 64)) (2 ^ (idx mod 64)))
          by (apply Z.lor_nonneg; split; [lia|apply Z.pow_nonneg; lia]). lia. }
    apply Z.log2_lt_pow2; [done|]. rewrite Z.log2_lor by (lia || apply Z.pow_nonneg; lia).
    rewrite Z.log2_pow2 by lia. apply Z.max_lub_lt; [|lia].
    destruct (Z.eq_dec (word b (idx / 64)) 0) as [->|]; [done|]. apply Z.log2_lt_pow2; lia.
  - intros j Hj. unfold bit. pose proof (Z.mod_pos_bound j 64 ltac:(lia)). pose proof (Z.div_mod j 64 ltac:(lia)).
    rewrite word_set by (lia || apply Hb). destruct (Z.eqb_spec (j / 64) (idx / 64)) as [E|Hne].
    + rewrite set_bit by lia. rewrite E. destruct (Z.eqb_spec (j mod 64) (idx mod 64)), (Z.eqb_spec j idx); lia || done.
    + destruct (Z.eqb_spec j idx) as [->|]; [lia|done].
Qed.

(** Round trip: freeing the block that was found gives back the bitmap,
    for sizes below 128 bytes. *)
Theorem find_then_free spurious b n idx b' :
  bitmap_ok b -> 1 <= n < 128 -> find_free_bits spurious b n = Some (idx, b') ->
  mark_bits_free b' idx n = Some b.
Proof.
  intros Hb Hn E. pose proof (find_free_bits_ok spurious b n Hb ltac:(lia)) as Hf. rewrite E in Hf.
  destruct Hf as (Hidx & Hbit & Hb' & Hrest).
  destruct (mark_bits_free_ok b' idx n Hb' Hidx ltac:(lia)) as (b2 & -> & Hb2 & Hbits). f_equal.
  apply bitmap_ext; [done|done|]. intros j Hj. rewrite Hbits, Hrest by done.
  destruct (Z.eqb_spec j idx) as [->|]; congruence.
Qed.

(** From 128 bytes on, freeing block [idx] also frees block [idx + 64],
    which nobody returned; in the last word it writes past the bitmap. *)
Theorem mark_bits_free_two b idx n :
  bitmap_ok b -> 0 <= idx < 256 -> 128 <= n ->
  match mark_bits_free b idx n with
  | Some b' => idx < 192 /\ bit b' idx = true /\ bit b' (idx + 64) = true
  | None => 192 <= idx
  end.
Proof.
  intros Hb Hidx Hn. unfold mark_bits_free, mark_bits, BITS_PER_WORD, WORDS.
  pose proof (Z.mod_pos_bound idx 64 ltac:(lia)) as Hm. pose proof (Z.div_mod idx 64 ltac:(lia)).
  destruct (Z.leb_spec 128 n); [|lia]. destruct (Z.ltb_spec (idx / 64 + 1) 4); [|lia].
  set (b1 := set_word b (idx / 64) _). set (b2 := set_word b1 (idx / 64 + 1) _).
  assert (Hl1 : length b1 = 4%nat) by (unfold b1, set_word; rewrite length_insert; apply Hb).
  split; [lia|]. unfold bit.
  replace ((idx + 64) / 64) with (idx / 64 + 1) by (apply (Z.div_unique _ _ _ (idx mod 64)); lia).
  replace ((idx + 64) mod 64) with (idx mod 64) by (apply (Z.mod_unique _ _ (idx / 64 + 1)); lia).
  unfold b2. rewrite !word_set by (done || lia). rewrite Z.eqb_refl.
  destruct (Z.eqb_spec (idx / 64) (idx / 64 + 1)); [lia|]. unfold b1 at 1.
  rewrite word_set by (lia || apply Hb). rewrite Z.eqb_refl, !set_bit, Z.eqb_refl by lia. done.
Qed.

(** [is_bitmap_empty]: every block is free. *)
Lemma is_bitmap_empty_ok b :
  bitmap_ok b -> is_bitmap_empty b = true <-> b = replicate 4 (2 ^ 64 - 1).
Proof.
  intros Hb. pose proof Hb as [Hl _]. destruct b as [|w0 [|w1 [|w2 [|w3 [|]]]]]; try done.
  assert (Hand : forall x y, in_u 64 x -> in_u 64 y ->
    Z.land (Z.land (2 ^ 64 - 1) x) y = 2 ^ 64 - 1 <-> x = 2 ^ 64 - 1 /\ y = 2 ^ 64 - 1).
  { intros x y Hx Hy. split; [|by intros [-> ->]]. intros E.
    assert (Hbits : forall z, in_u 64 z -> (forall k, 0 <= k < 64 -> Z.testbit z k = true) -> z = 2 ^ 64 - 1).
    { intros z Hz Hzk. apply Z.bits_inj'. intros k Hk. change (2 ^ 64 - 1) with (Z.ones 64).
      destruct (Z.ltb_spec k 64).
      - rewrite Hzk, Z.ones_spec_low by lia. done.
      - rewrite Z.ones_spec_high by lia. destruct (Z.eq_dec z 0) as [->|]; [apply Z.testbit_0_l|].
        apply Z.bits_above_log2; [unfold in_u in Hz; lia|]. unfold in_u in Hz.
        pose proof (proj1 (Z.log2_lt_pow2 z 64 ltac:(lia)) ltac:(lia)). lia. }
    assert (Hk : forall k, 0 <= k < 64 -> Z.testbit x k = true /\ Z.testbit y k = true).
    { intros k Hk. assert (Ht : Z.testbit (Z.land (Z.land (2 ^ 64 - 1) x) y) k = true).
      { rewrite E. change (2 ^ 64 - 1) with (Z.ones 64). apply Z.ones_spec_low. lia. }
      rewrite !Z.land_spec, !andb_true_iff in Ht. tauto. }
    split; apply Hbits; try done; intros k Hk'; by apply Hk. }
  assert (Hw : forall i, in_u 64 (word [w0; w1; w2; w3] i)) by (intros; by apply word_range).
  pose proof (Hw 0) as H0. pose proof (Hw 1) as H1. pose proof (Hw 2) as H2. pose proof (Hw 3) as H3.
  cbn in H0, H1, H2, H3. unfold is_bitmap_empty. rewrite andb_true_iff, !Z.eqb_eq.
  change (word [w0; w1; w2; w3] 0) with w0. change (word [w0; w1; w2; w3] 1) with w1.
  change (word [w0; w1; w2; w3] 2) with w2. change (word [w0; w1; w2; w3] 3) with w3.
  rewrite !Hand by done. split.
  - by intros [[-> ->] [-> ->]].
  - by intros [= -> -> -> ->].
Qed.

(** ** Headers *)

Lemma header_ok n class flags :
  0 <= n < 2 ^ 48 -> 0 <= class < 256 -> flags = 0 \/ flags = MMAP_FLAG ->
  header_size (header_data n class flags) = n /\
  header_class (header_data n class flags) = class /\
  header_mmap (header_data n class flags) = (flags =? MMAP_FLAG).
Proof.
  intros Hn Hc Hf.
  assert (Hdata : forall k, 0 <= k -> Z.testbit (header_data n class flags) k =
    (Z.testbit n k && (k <? 48)) || (Z.testbit class (k - 48) && (48 <=? k)) || Z.testbit flags k).
  { intros k Hk. unfold header_data. rewrite !Z.lor_spec, Z.land_spec. change SIZE_MASK with (Z.ones 48).
    rewrite u64_small by (rewrite Z.shiftl_mul_pow2 by lia; lia). rewrite Z.shiftl_spec by lia. f_equal; f_equal.
    - destruct (Z.ltb_spec k 48); [by rewrite Z.ones_spec_low by lia|by rewrite Z.ones_spec_high by lia].
    - destruct (Z.leb_spec 48 k); [by rewrite andb_true_r|]. by rewrite Z.testbit_neg_r, andb_false_l by lia. }
  assert (Hfk : forall k, 0 <= k -> k <> 62 -> Z.testbit flags k = false).
  { intros k Hk Hne. destruct Hf as [-> | ->]; [apply Z.testbit_0_l|]. by apply Z.pow2_bits_false. }
  assert (Hhigh : forall z a k, 0 <= z < 2 ^ a -> 0 <= a -> a <= k -> Z.testbit z k = false).
  { intros z a k Hz Ha Hk. destruct (Z.eq_dec z 0) as [->|]; [apply Z.testbit_0_l|].
    apply Z.bits_above_log2; [lia|]. pose proof (proj1 (Z.log2_lt_pow2 z a ltac:(lia)) ltac:(lia)). lia. }
  split_and!.
  - unfold header_size. apply Z.bits_inj'. intros k Hk. rewrite Z.land_spec, Hdata by done.
    change SIZE_MASK with (Z.ones 48). destruct (Z.ltb_spec k 48), (Z.leb_spec 48 k); try lia.
    + rewrite Z.ones_spec_low, Hfk by lia. by rewrite andb_false_r, !orb_false_r, !andb_true_r.
    + rewrite Z.ones_spec_high by lia. rewrite andb_false_r. symmetry. by apply (Hhigh n 48); lia.
  - unfold header_class. apply Z.bits_inj'. intros k Hk. unfold wrap. destruct (Z.ltb_spec k 8).
    + rewrite Z.mod_pow2_bits_low, Z.shiftr_spec, Z.land_spec, Hdata, Hfk by lia.
      replace (k + 48 - 48) with k by lia. rewrite (Hhigh n 48) by lia.
      destruct (Z.leb_spec 48 (k + 48)); [|lia]. cbn [andb orb]. rewrite andb_true_r, orb_false_r.
      change CLASS_MASK with (Z.shiftl (Z.ones 8) 48). rewrite Z.shiftl_spec by lia.
      replace (k + 48 - 48) with k by lia. by rewrite Z.ones_spec_low, andb_true_r by lia.
    + rewrite Z.mod_pow2_bits_high by lia. symmetry. by apply (Hhigh class 8); lia.
  - unfold header_mmap. destruct Hf as [-> | ->].
    + assert (E : Z.land (header_data n class 0) MMAP_FLAG = 0); [|by rewrite E].
      apply Z.bits_inj'. intros k Hk. rewrite Z.land_spec, Z.testbit_0_l.
      unfold MMAP_FLAG. destruct (Z.eq_dec k 62) as [->|]; [|by rewrite Z.pow2_bits_false, andb_false_r by lia].
      rewrite Hdata by lia. rewrite (Hhigh n 48), (Hhigh class 8) by lia. by rewrite Z.testbit_0_l.
    + rewrite Z.eqb_refl. destruct (Z.eqb_spec (Z.land (header_data n class MMAP_FLAG) MMAP_FLAG) 0) as [E|]; [|done].
      assert (Ht : Z.testbit (Z.land (header_data n class MMAP_FLAG) MMAP_FLAG) 62 = true).
      { rewrite Z.land_spec, Hdata by lia. unfold MMAP_FLAG. by rewrite Z.pow2_bits_true, orb_true_r by lia. }
      by rewrite E, Z.testbit_0_l in Ht.
Qed.

(** Round trip of the header: size, class and the mapping flag are
    recovered from the packed word. *)
Theorem header_roundtrip n class flags :
  0 <= n < 2 ^ 48 -> 0 <= class < 256 -> flags = 0 \/ flags = MMAP_FLAG ->
  header_size (header_data n class flags) = n /\
  header_class (header_data n class flags) = class /\
  header_mmap (header_data n class flags) = (flags =? MMAP_FLAG).
Proof. apply header_ok. Qed.

(** ** The state of a thread *)

Section State.
Context {W : Type} `{Pages W} (spurious : Z -> bool).
Implicit Types s : cache W.

(** C23. A large block: [allocate] maps pages for it, writes the header and
    returns the address behind it; [deallocate] of that address unmaps
    exactly these pages and touches nothing else. *)
Theorem large_roundtrip missing n p w s :
  LARGE_THRESHOLD <= n <= 2 ^ 47 -> 0 < p ->
  sys_mmap (mapping_size n) (world s) = (Some p, w) ->
  exists s', allocate spurious n s = Ok (p + sizeof_block_header, s') /\ world s' = w /\
    deallocate missing (p + sizeof_block_header) s' =
      Ok (tt, set_world (sys_munmap p (mapping_size n) w) s').
Proof.
  intros Hn Hp Hmap. unfold LARGE_THRESHOLD in Hn.
  set (s' := set_headers (<[p := (header_data n 255 MMAP_FLAG, HEADER_MAGIC)]> (headers s)) (set_world w s)).
  exists s'. destruct (header_ok n 255 MMAP_FLAG) as (Hsz & Hcl & Hmm); [lia|lia|by right|].
  split; [|split; [done|]].
  - unfold allocate, TINY_THRESHOLD, SMALL_THRESHOLD, LARGE_THRESHOLD.
    destruct (Z.eqb_spec n 0); [lia|]. destruct (Z.ltb_spec (2 ^ 47) n); [lia|]. cbn [orb].
    destruct (Z.leb_spec n 64); [lia|]. destruct (Z.leb_spec n 256); [lia|].
    destruct (Z.ltb_spec n (1024 * 1024)); [lia|]. unfold alloc_large, bind, sys. by rewrite Hmap.
  - assert (Hg : get_header (p + sizeof_block_header - sizeof_block_header) s' =
                 Ok (header_data n 255 MMAP_FLAG, s')).
    { replace (p + sizeof_block_header - sizeof_block_header) with p by lia.
      unfold get_header, bind, gets, s'. cbn [headers set_headers]. by rewrite lookup_insert_eq. }
    unfold deallocate, free_large. unfold sizeof_block_header at 1.
    destruct (Z.eqb_spec (p + 64) 0); [lia|]. unfold bind at 1. rewrite Hg, Hcl, Hmm.
    change (255 <? tiny_classes) with false. change (negb (MMAP_FLAG =? MMAP_FLAG)) with false. cbv iota.
    unfold bind at 1. rewrite Hg, Hmm, Hsz. change (negb (MMAP_FLAG =? MMAP_FLAG)) with false. cbv iota.
    by replace (p + sizeof_block_header - sizeof_block_header) with p by lia.
Qed.

(** C24. A tiny block that is freed while its stack has room is the next one
    allocated for its class, and the state is what it was. *)
Theorem tiny_cache_lifo missing n ptr data c s :
  1 <= n <= TINY_THRESHOLD -> ptr <> 0 ->
  fst <$> headers s !! (ptr - sizeof_block_header) = Some data ->
  header_class data = (n - 1) / 8 ->
  cached_tiny s !! Z.to_nat ((n - 1) / 8) = Some c -> Z.of_nat (length c) < cache_size ->
  exists s', deallocate missing ptr s = Ok (tt, s') /\ allocate spurious n s' = Ok (ptr, s).
Proof.
  intros Hn Hptr Hd Hcl Hc Hroom. unfold TINY_THRESHOLD in Hn. set (k := (n - 1) / 8) in *.
  assert (Hk : 0 <= k < 8) by (unfold k; split; [apply Z.div_pos|apply Z.div_lt_upper_bound]; lia).
  assert (Hg : get_header (ptr - sizeof_block_header) s = Ok (data, s)).
  { unfold get_header, bind, gets. destruct (headers s !! _) as [[d mg]|]; [|done].
    cbn in Hd. by injection Hd as ->. }
  exists (set_cached_tiny (<[Z.to_nat k := c ++ [ptr]]> (cached_tiny s)) s). split.
  - unfold deallocate. destruct (Z.eqb_spec ptr 0); [done|]. unfold bind at 1. rewrite Hg, Hcl.
    unfold tiny_classes. destruct (Z.ltb_spec k 8); [|lia].
    unfold free_tiny, bind at 1. rewrite Hg, Hcl. unfold tiny_classes. destruct (Z.leb_spec 8 k); [lia|].
    unfold bind, gets, at_index. rewrite Hc. unfold ret.
    destruct (Z.ltb_spec (Z.of_nat (length c)) cache_size); [|lia]. unfold modify. by destruct s.
  - unfold allocate, TINY_THRESHOLD. destruct (Z.eqb_spec n 0); [lia|].
    destruct (Z.ltb_spec (2 ^ 47) n); [lia|]. cbn [orb]. destruct (Z.leb_spec n 64); [|lia].
    unfold alloc_tiny. rewrite u64_small, Z.shiftr_div_pow2 by lia. change (2 ^ 3) with 8. fold k.
    rewrite wrap_small by (unfold in_u; lia). unfold tiny_classes. destruct (Z.leb_spec 8 k); [lia|].
    unfold bind, gets, at_index. cbn [cached_tiny set_cached_tiny].
    rewrite list_lookup_insert_eq by (by eapply lookup_lt_Some). unfold ret. rewrite last_snoc, removelast_last.
    unfold modify. cbn. rewrite list_insert_insert_eq, list_insert_id by done. by destruct s.
Qed.

(** ** Zeroed pools *)

Definition zero_pool (p : pool) : Prop := bmap p = replicate 4 0.

(** No block is free and none is cached: the state of a new thread. *)
Record starved s : Prop := {
  sv_tiny : length (tiny_pools s) = Z.to_nat tiny_classes;
  sv_tiny_zero : Forall (fun o => forall p, o = Some p -> zero_pool p) (tiny_pools s);
  sv_cached : cached_tiny s = replicate (Z.to_nat tiny_classes) [];
  sv_mgr : forall m, pool_mgr s = Some m -> length (pools m) = Z.to_nat size_classes /\
    Forall (Forall (fun e => zero_pool (entry_pool e))) (pools m);
}.

Lemma find_in_zero b n : b = replicate 4 0 -> find_free_bits spurious b n = None.
Proof. intros ->. unfold find_free_bits, take_pair. by do 2 destruct (negb (Z.land _ _ =? 0)). Qed.

Lemma starved_world s w : starved s -> starved (set_world w s).
Proof. intros []. by split. Qed.

Lemma pool_allocate_zero class p sc s :
  zero_pool p -> pool_allocate spurious class p sc s = Ok ((0, p), s).
Proof. intros Hz. unfold pool_allocate. by rewrite find_in_zero. Qed.

Lemma try_pools_zero class sc l s :
  Forall (fun e => zero_pool (entry_pool e)) l ->
  try_pools spurious class sc l s = Ok ((None, l), s).
Proof.
  induction 1 as [|e l He Hl IH]; [done|]. cbn [try_pools]. unfold bind at 1.
  rewrite pool_allocate_zero by done. cbn. unfold bind. rewrite IH. by destruct e.
Qed.

(** [operator new] has no room for a pool, or for the manager. *)
Definition new_fails (w : W) : Prop :=
  exists k, (k = page_size \/ k = sizeof_pool_manager) /\ (sys_new k w).1 = None.

Lemma alloc_tiny_starved n s :
  starved s -> 1 <= n <= 64 ->
  wpf (alloc_tiny spurious n) (new_fails (world s)) (fun r s' => r = 0 /\ starved s') s.
Proof.
  intros Hs Hn. unfold alloc_tiny.
  rewrite u64_small, Z.shiftr_div_pow2 by lia. change (2 ^ 3) with 8. set (k := (n - 1) / 8).
  assert (Hk : 0 <= k < 8) by (unfold k; split; [apply Z.div_pos|apply Z.div_lt_upper_bound]; lia).
  rewrite wrap_small by (unfold in_u; lia). unfold tiny_classes at 1. destruct (Z.leb_spec 8 k); [lia|].
  apply wpf_bind_wp, wp_gets. rewrite (sv_cached _ Hs). unfold at_index.
  rewrite lookup_replicate_2 by (unfold tiny_classes; lia). apply wpf_bind_wp, wp_ret. cbn [list.last].
  apply wpf_bind_wp, wp_gets.
  destruct (lookup_lt_is_Some_2 (tiny_pools s) (Z.to_nat k)) as [o Ho].
  { rewrite (sv_tiny _ Hs). unfold tiny_classes. lia. }
  rewrite Ho. apply wpf_bind_wp, wp_ret. apply wpf_bind.
  apply (wpf_mono _ (new_fails (world s)) _ (fun p s' => zero_pool p /\ starved s')); [done| |].
  - intros p s1 [Hp Hs1]. apply wpf_of_wp. rewrite find_in_zero by done. wp_step. apply wp_modify. apply wp_ret.
    split; [done|]. destruct Hs1. split; try done; cbn.
    + by rewrite length_insert.
    + apply Forall_insert; [done|]. by intros q [= <-].
  - destruct o as [p|].
    + apply wpf_of_wp, wp_ret. split; [|done].
      exact (Forall_lookup_1 _ _ _ _ (sv_tiny_zero _ Hs) Ho p eq_refl).
    + apply wpf_bind. unfold wpf at 1, sys.
      destruct (sys_new page_size (world s)) as [[a|] w'] eqn:E.
      * split; [done|by apply starved_world].
      * exists page_size. rewrite E. split; [by left|done].
Qed.

Lemma small_class_range n :
  64 < n < LARGE_THRESHOLD -> 0 <= 31 - clz 32 (u32 (u64 (n - 1))) < size_classes.
Proof.
  unfold LARGE_THRESHOLD, size_classes, clz. intros Hn.
  rewrite (u64_small (n - 1)), wrap_small by (unfold in_u; lia).
  assert (Hl : 0 <= Z.log2 (n - 1) < 20) by (split; [apply Z.log2_nonneg|apply Z.log2_lt_pow2; lia]). lia.
Qed.

Lemma get_mgr_starved s :
  starved s ->
  wpf get_mgr (new_fails (world s)) (fun m s' => length (pools m) = Z.to_nat size_classes /\
    Forall (Forall (fun e => zero_pool (entry_pool e))) (pools m) /\ starved s') s.
Proof.
  intros Hs. unfold get_mgr. apply wpf_bind_wp, wp_gets. destruct (pool_mgr s) as [m|] eqn:E.
  { apply wpf_of_wp, wp_ret. by destruct (sv_mgr _ Hs m E). }
  apply wpf_bind. unfold wpf at 1, sys. destruct (sys_new sizeof_pool_manager (world s)) as [[a|] w'] eqn:En.
  2: { exists sizeof_pool_manager. rewrite En. split; [by right|done]. }
  apply wpf_of_wp. wp_step. apply wp_modify. apply wp_ret. cbn [pools].
  assert (Hz : Forall (Forall (fun e => zero_pool (entry_pool e))) (replicate (Z.to_nat size_classes) []))
    by (by apply Forall_replicate).
  split; [apply length_replicate|]. split; [done|]. destruct Hs. split; try done.
  intros m [= <-]. by split.
Qed.

Lemma alloc_small_starved n s :
  starved s -> 64 < n < LARGE_THRESHOLD ->
  wpf (alloc_small spurious n) (new_fails (world s)) (fun r s' => r = 0 /\ starved s') s.
Proof.
  intros Hs Hn. unfold alloc_small. pose proof (small_class_range n Hn) as Hc.
  set (c := 31 - clz 32 (u32 (u64 (n - 1)))) in *. apply wpf_bind.
  eapply wpf_mono; [| |by apply get_mgr_starved]; [done|].
  intros m s1 (Hlen & Hz & Hs1). apply wpf_of_wp.
  assert (Hset : forall l s2, starved s2 -> Forall (fun e => zero_pool (entry_pool e)) l ->
    wp (do! set_class m c l in ret 0) (fun r s' => r = 0 /\ starved s') s2).
  { intros l s2 Hs2 Hl. unfold set_class. wp_step. apply wp_modify. apply wp_ret. split; [done|].
    destruct Hs2. split; try done. intros m' [= <-]. cbn [pools].
    split; [by rewrite length_insert|by apply Forall_insert]. }
  destruct (lookup_lt_is_Some_2 size_class_table (Z.to_nat c)) as [sc Hsc].
  { change (length size_class_table) with 32%nat. unfold size_classes in Hc. lia. }
  destruct (lookup_lt_is_Some_2 (pools m) (Z.to_nat c)) as [l Hl].
  { rewrite Hlen. unfold size_classes in *. lia. }
  pose proof (Forall_lookup_1 _ _ _ _ Hz Hl) as Hlz. unfold at_index. rewrite Hsc, Hl.
  wp_step. wp_step. wp_step. wp_step. wp_step. eapply wp_of_eq; [by apply try_pools_zero|]. cbn [fst snd].
  destruct (max_pools <=? Z.of_nat (length l)); [by apply Hset|].
  wp_step. unfold wp at 1, sys. destruct (sys_new page_size (world s1)) as [[a|] w'].
  - wp_step. eapply wp_of_eq; [by apply pool_allocate_zero|]. cbn [fst snd].
    apply Hset; [by apply starved_world|]. apply Forall_app. split; [done|]. by constructor.
  - apply Hset; [by apply starved_world|done].
Qed.

Lemma alloc_large_starved n s :
  starved s -> wp (alloc_large n) (fun _ s' => starved s') s.
Proof.
  intros Hs. unfold alloc_large. wp_step. unfold wp at 1, sys.
  destruct (sys_mmap (mapping_size n) (world s)) as [[p|] w].
  - wp_step. apply wp_modify. apply wp_ret. destruct Hs. by split.
  - apply wp_ret. by apply starved_world.
Qed.

Lemma allocate_starved n s :
  starved s -> 0 <= n ->
  wpf (allocate spurious n) (new_fails (world s))
      (fun r s' => (n < LARGE_THRESHOLD -> r = 0) /\ starved s') s.
Proof.
  intros Hs Hn. unfold allocate, TINY_THRESHOLD, SMALL_THRESHOLD, LARGE_THRESHOLD.
  destruct (Z.eqb_spec n 0); cbn [orb]; [done|]. destruct (Z.ltb_spec (2 ^ 47) n); [done|].
  destruct (Z.leb_spec n 64).
  { eapply wpf_mono; [| |apply alloc_tiny_starved; [done|lia]]; [done|]. by intros r s' [-> ?]. }
  destruct (Z.leb_spec n 256), (Z.ltb_spec n (1024 * 1024)); try lia.
  3: { apply wpf_of_wp. eapply wp_mono; [|by apply alloc_large_starved]. intros r s' ?. split; [lia|done]. }
  all: eapply wpf_mono; [| |apply alloc_small_starved; [done|unfold LARGE_THRESHOLD; lia]];
    [done|by intros r s' [-> ?]].
Qed.

Lemma thread_cache_starved h w : starved (thread_cache h w).
Proof. by split; [|apply Forall_replicate|..]. Qed.

(** The states of a thread that only allocates, blocks of any size. *)
Inductive allocates (s0 : cache W) : cache W -> Prop :=
| allocates_init : allocates s0 s0
| allocates_step s n r s' : allocates s0 s -> in_u 64 n ->
    allocate spurious n s = Ok (r, s') -> allocates s0 s'.

Lemma allocates_starved s0 s : starved s0 -> allocates s0 s -> starved s.
Proof.
  intros H0. induction 1 as [|s n r s' _ IH Hn E]; [done|].
  pose proof (allocate_starved n s IH (proj1 Hn)) as Hw. unfold wpf in Hw. rewrite E in Hw. apply Hw.
Qed.

(** C25. Pools are created all zero, and zero means no free block: on a
    thread that has made any number of requests of any size and freed nothing,
    every request below 1 MiB returns null.  The one other outcome is
    [std::terminate], when [operator new] has no memory for a tiny pool or for
    the pool manager, where nothing catches its exception. *)
Theorem small_allocation_fails h w s n :
  allocates (thread_cache h w) s -> 0 <= n < LARGE_THRESHOLD ->
  match allocate spurious n s with
  | Ok (r, _) => r = 0
  | Fault => new_fails (world s)
  | NoFuel => False
  end.
Proof.
  intros Ha Hn. pose proof (allocates_starved _ _ (thread_cache_starved h w) Ha) as Hs.
  pose proof (allocate_starved n s Hs (proj1 Hn)) as Hw. unfold wpf in Hw.
  destruct (allocate spurious n s) as [[r s']| |]; [by apply Hw, Hn|done..].
Qed.
End State.

(** ** Runs on a simulated system *)

(** Pages are handed out upwards, to the end of a small address space; the
    world is the next address. *)
#[export] Instance bump_pages : Pages Z := {
  sys_new n w := if w + n <=? 2 ^ 24 then (Some w, w + round_up n page_size) else (None, w);
  sys_delete _ w := w;
  sys_mmap n w := (Some w, w + n);
  sys_munmap _ _ w := w;
}.

Definition no_failure (i : Z) : bool := false.
Definition fresh_thread : cache Z := thread_cache ∅ 4096.

Lemma find_free_bits_witness :
  let b := [0; 8; 0; 1] in
  find_free_bits no_failure b 8 = Some (67, [0; 0; 0; 1]) /\
  0 <= 67 < 256 /\ bit b 67 = true /\ bitmap_ok [0; 0; 0; 1] /\
  (forall j, 0 <= j < 256 -> bit [0; 0; 0; 1] j = if j =? 67 then false else bit b j).
Proof.
  intros b. split; [reflexivity|].
  apply (find_free_bits_correct no_failure b 8); [|lia].
  split; [done|]. repeat constructor; vm_compute; congruence.
Defined.

Lemma large_roundtrip_witness :
  exists s', allocate no_failure 2000000 fresh_thread = Ok (4160, s') /\
    world s' = 4096 + mapping_size 2000000 /\
    deallocate 0 4160 s' =
      Ok (tt, set_world (sys_munmap 4096 (mapping_size 2000000) (4096 + mapping_size 2000000)) s').
Proof.
  apply (large_roundtrip no_failure 0 2000000 4096 (4096 + mapping_size 2000000) fresh_thread);
    [vm_compute; split; congruence|lia|reflexivity].
Defined.

(** A tiny block of class 1 at 4160. *)
Definition one_tiny : cache Z := thread_cache {[4096 := (header_data 16 1 0, HEADER_MAGIC)]} 8192.

Lemma tiny_cache_witness :
  exists s', deallocate 0 4160 one_tiny = Ok (tt, s') /\
    allocate no_failure 12 s' = Ok (4160, one_tiny).
Proof.
  apply (tiny_cache_lifo no_failure 0 12 4160 (header_data 16 1 0) [] one_tiny);
    first [vm_compute; reflexivity | vm_compute; split; congruence | discriminate].
Defined.

(** A thread after a request of [n] bytes. *)
Definition request (s : cache Z) (n : Z) : cache Z :=
  match allocate no_failure n s with Ok (_, s') => s' | _ => s end.

(** After a large and a small request, small ones fail; after one that uses
    up the address space, the next one terminates the program. *)
Lemma small_allocation_witness :
  (let s := request (request fresh_thread 2000000) 100 in
   forall n, 0 <= n < LARGE_THRESHOLD ->
     match allocate no_failure n s with
     | Ok (r, _) => r = 0
     | Fault => new_fails (world s)
     | NoFuel => False
     end) /\
  (let s := request fresh_thread (2 ^ 24) in
   allocate no_failure 100 s = Fault /\ new_fails (world s)).
Proof.
  split; intros s.
  - assert (H1 : exists r, allocate no_failure 2000000 fresh_thread = Ok (r, request fresh_thread 2000000))
      by (exists 4160; vm_compute; reflexivity).
    assert (H2 : allocate no_failure 100 (request fresh_thread 2000000) = Ok (0, s))
      by (vm_compute; reflexivity).
    destruct H1 as [r H1]. intros n Hn. refine (small_allocation_fails no_failure ∅ 4096 s n _ Hn).
    refine (allocates_step _ _ _ 100 _ _ _ _ H2); [|split; [lia|done]].
    refine (allocates_step _ _ _ 2000000 _ _ _ _ H1); [apply allocates_init|split; [lia|done]].
  - split; [vm_compute; reflexivity|]. exists page_size. split; [by left|vm_compute; reflexivity].
Defined.
